(* ===== verification/_CoqProject ===== *)
-Q . S2P
Prelude.v
GoStd.v
GoTime.v
Config.v
NetAddr.v
Netio.v
Resp.v
RespRef.v
Router.v
Routing.v
PtrCache.v
Resolver.v
Proxy.v
Server.v
Version.v
Main.v
System.v
SystemRuns.v
