(* ===== verification/Prelude.v ===== *)
(** * Verification of redis-sentinel-proxy

    The program is a TCP proxy in front of a redis master group that sentinel
    supervises.  It asks sentinel for the master and the replicas, confirms
    their role, and forwards clients to them: on the master endpoint to the
    master, on the replica endpoint to a replica, and in router mode each
    command by its kind.  This library models its Go code and proves what it
    promises.

    ** Parts of the program and the files that model them

    - Prelude: results of fallible code, bytes, tactics, hint databases [go]
      and [go_rw], shared lemmas.
    - GoStd, GoTime, NetAddr, Netio: what the program uses of Go's standard
      library.  64-bit integers with their wrap-around, [strconv], [strings];
      [time.ParseDuration] on exact binary64 arithmetic; [net.ParseIP] and the
      text of addresses; [bufio], [io] and connections as byte streams.  A
      reader is the bytes its peer will send and the error that ends them; a
      writer is the bytes accepted and how many more it takes before it fails.
    - Config (pkg/config: config.go, env.go, flags.go, tls.go): the
      configuration record, its four sources, [Merge], [Load] and the TLS
      settings.  A Go pointer is an [option], dereferencing nil the error
      [Panic].  Environment, files, the YAML and X.509 parsers are the
      parameter [Host]; the parsed command line is the parameter [FlagSet].
    - Resp (pkg/proxy/resp.go): [readLine], [readCommand], [copyRESP], against
      a grammar of RESP replies and commands.  RespRef: a recursive reference
      relay that [copyRESP] is compared with.
    - Router (pkg/router/router.go): the table of read-only commands.
    - Routing (pkg/proxy/routing.go): a routed session, its loop [run], the
      connection-state commands and pinning.
    - PtrCache (pkg/master_resolver/ptr_cache.go): cached reverse-DNS names.
    - Resolver (pkg/master_resolver/master_resolver.go): resolving and
      verifying addresses, publishing them, the update loop with its retry
      budget, on-demand refresh, round robin.  Sentinel, redis nodes (through
      go-redis), DNS and the clock are the parameter [World]: one world per
      update, a sequence of them for the loops.  After the loop has returned
      the sentinel client is closed, and refreshes see [closed_world].
    - Proxy (pkg/proxy/proxy.go, routing.go, pkg/utils): construction, choice
      of a backend, [connectBackend], the handlers [proxy] and [routedProxy].
      The interfaces of proxy.go are the class [ResolverIface], what the proxy
      relies on is [ResolverLaws]; [redis_resolver_laws] proves that the
      resolver meets it.
    - Server (pkg/proxy/proxy.go): the concurrent parts as step systems, the
      two pipes of a session (Duplex), the byte counters of debug mode
      (Counting), the idle timeout (Idle, a timed system of both directions'
      [Read] loops over the shared activity word), [Run] with the accept loops and the
      connection limit (Listeners), and the goroutines of [Run] with the
      listeners they close (Lifecycle).
    - Version (main.go, pkg/config/version.go): the stamped build variables,
      [time.Parse] on the layout of main.go, [NewVersion].
    - Main (main.go): start-up and the errgroup of update loop and proxy.
    - System (pkg/proxy, pkg/master_resolver, main.go): the process as one
      system.  The update loop and a handler per client share a resolver and
      [refreshLock] and take turns step by step; the listeners and the limit are
      those of Server.  A handler's position in its code is its [phase], the
      loop's its [updater]; what the network and the clock answer is the input
      of a step.  SystemRuns: progress of the system, and its runs compared with
      the sequential definitions of Proxy and Resolver.

    ** What the theorems show

    - RESP: [copyRESP] relays exactly one reply and [readCommand] accepts
      exactly the commands of the grammar; both are total and never invent,
      drop or reorder bytes; [copyRESP] equals the recursive reference, errors
      and partial writes included.
    - Routing: a replica receives only reads and connection-state commands;
      with answering backends every command is relayed in order with exactly
      one reply; pinned sessions are plain pipes; the loop terminates.
    - Configuration: precedence of the sources, with the four options that
      deviate from it, validity and completeness of a loaded configuration, TLS
      settings as asked for and from the files asked for, no nil dereference,
      either password masked, flags copied exactly.
    - Resolver: only a master that sentinel names and the node confirms is
      published, with exactly the healthy replicas under their names; failures
      change nothing; under every interleaving of concurrent updates the
      published addresses are ones an update has verified; the loop gives up
      exactly when the budget is exceeded and waits as documented; refreshes
      are throttled; replicas are served in rotation without an index out of
      range.
    - Proxy and server: no dial before the client's handshake and at most two
      after it; recovery from a failover within one connection; fallback
      policy; transparency of pipes under every interleaving; a session is cut
      for idleness only when both directions are silent; the connection limit
      holds for every order of events and leaks no slot; shutdown terminates and
      closes the listeners; the debug counters are exact.
    - System, for every interleaving: a served client is connected to a backend
      an update has verified ([serving_verified]); bounds on dials, sessions and
      the lock, and no panic ([system_bounds]); refreshes a second apart
      ([refreshes_spaced]); every client is served or rejected within twenty
      steps ([client_served_or_rejected]).  A handler alone, given the same
      answers, is the sequential handler ([alone_is_sequential]), and the update
      loop among the others returns what it returns alone ([loop_undisturbed]),
      so that the theorems of Proxy and Resolver are about runs of this system.
    - Start: no panic other than over a build time outside of the layout's
      grammar, and none over what the build script stamps.
    - Some theorems record behaviour that deviates from the documentation:
      [router_without_replica_listen], [sentinel_passthrough_ignored],
      [negative_retries_serve_stale], [run_empty_name], [run_unanswered].

    ** Bounds and fuel

    - Loops over streams ([readLine], [copyRESP], [run]) take fuel from the
      length of the stream; theorems show that it suffices ([readLine_spec],
      [copyRESP_transparent], [run_total], [relay_fuel]).  [copyRESP_one_reply]
      and [copyRESP_reference] assume streams below 2 TiB, which keeps Go's
      [int64] counter from wrapping.
    - The runs of System are lists of moves of any length; the twenty steps of
      [client_served_or_rejected] are a bound that is proved, not fuel.  The
      fuel of [run_alone], nineteen, is one more than the rank of a new handler,
      which every step lowers.
    - The idle timeout is exact up to [delay], the time a goroutine may take
      between two statements that do not block; it is a parameter, and the
      theorem allows for three of them.
    - The update loops run over a list of iterations, one world each; a loop
      that has used up the list is still running.
    - The failure count of the loops is an unbounded integer: it exceeds the
      budget, an [int], or is reset long before it could wrap.
    - Replicas are sorted by insertion, which is what [slices.SortFunc] does on
      short slices; [sort_reps_unique] shows that any sorting publishes the
      same addresses.

    ** What is not modelled

    Log texts other than the resolver's events, usage texts, and the YAML text
    of a printed configuration or version, which yaml.v3 makes.  The resolver's
    mutex appears as the atomicity of the operations it protects; [refreshLock]
    is modelled as a lock.  A connection closed fully
    because it lacks [CloseWrite] still delivers what its peer sent; TCP and
    TLS connections have [CloseWrite]. *)

From Stdlib Require Import Strings.Byte String Ascii ZArith Lia.
From stdpp Require Import base list strings gmap sorting.

(** ** Results of fallible code

    A Go function that returns [(T, error)] is a function into
    [result E T]; the constructors of [E] are the error values the source can
    produce at that place. *)

Inductive result (E A : Type) : Type :=
| Ok (a : A)
| Err (e : E).
Arguments Ok {E A} a.
Arguments Err {E A} e.

Definition result_bind {E A B} (m : result E A) (k : A -> result E B) : result E B :=
  match m with
  | Ok a => k a
  | Err e => Err e
  end.

Definition is_ok {E A} (m : result E A) : bool :=
  match m with Ok _ => true | Err _ => false end.

Declare Scope go_scope.
Delimit Scope go_scope with go.
Notation "'let*' x := m 'in' k" := (result_bind m (fun x => k))
  (at level 10, x pattern, m at level 100, k at level 200,
   format "'[v' 'let*'  x  :=  m  'in' '/' k ']'") : go_scope.
Open Scope go_scope.

(** ** Bytes *)

#[global] Instance byte_eq_decision : EqDecision byte := Byte.byte_eq_dec.

Definition CR : byte := x0d.
Definition LF : byte := x0a.
Definition CRLF : list byte := [CR; LF].

(** The bytes of a Go string constant. *)
Definition bytes (s : string) : list byte := String.list_byte_of_string s.

(** ** Lookup in a Go [map[string]struct{}] used as a set

    The sets of the program are literals that are only ever looked up; they are
    kept as the list of their keys. *)

Definition set_has (X : list string) (x : string) : bool := existsb (String.eqb x) X.
#[global] Arguments set_has : simpl never.

(** ** First occurrence of a byte *)

Fixpoint index_byte (c : byte) (l : list byte) : option nat :=
  match l with
  | [] => None
  | x :: l' => if Byte.eqb x c then Some 0 else S <$> index_byte c l'
  end.

Lemma byte_eqb_refl (c : byte) : Byte.eqb c c = true.
Proof. by apply Byte.byte_dec_lb. Qed.

Lemma byte_eqb_neq (c d : byte) : Byte.eqb c d = false <-> c <> d.
Proof.
  split.
  - intros H ->. by rewrite byte_eqb_refl in H.
  - intros H. destruct (Byte.eqb c d) eqn:E; [|done].
    by apply Byte.byte_dec_bl in E.
Qed.

(** ** Tactics *)

(** Case analysis on the scrutinee of a [match] or [if], in the goal or in a
    hypothesis, keeping the equation. *)
Ltac split_match :=
  match goal with
  | |- context [match ?x with _ => _ end] => destruct x eqn:?
  | H : context [match ?x with _ => _ end] |- _ => destruct x eqn:?
  end.

(** Turns the boolean tests of the code into the propositions they decide. *)
Ltac to_prop :=
  repeat match goal with
  | H : negb _ = true |- _ => apply negb_true_iff in H
  | H : negb _ = false |- _ => apply negb_false_iff in H
  | H : (_ && _)%bool = true |- _ => apply andb_true_iff in H as [? ?]
  | H : (_ || _)%bool = false |- _ => apply orb_false_iff in H as [? ?]
  | H : (_ <? _)%Z = true |- _ => apply Z.ltb_lt in H
  | H : (_ <? _)%Z = false |- _ => apply Z.ltb_ge in H
  | H : (_ <=? _)%Z = true |- _ => apply Z.leb_le in H
  | H : (_ <=? _)%Z = false |- _ => apply Z.leb_gt in H
  | H : (_ =? _)%Z = true |- _ => apply Z.eqb_eq in H
  | H : (_ =? _)%Z = false |- _ => apply Z.eqb_neq in H
  | H : (_ <? _)%nat = true |- _ => apply Nat.ltb_lt in H
  | H : (_ <? _)%nat = false |- _ => apply Nat.ltb_ge in H
  | H : (_ <=? _)%nat = true |- _ => apply Nat.leb_le in H
  | H : (_ <=? _)%nat = false |- _ => apply Nat.leb_gt in H
  | H : (_ =? _)%nat = true |- _ => apply Nat.eqb_eq in H
  | H : (_ =? _)%nat = false |- _ => apply Nat.eqb_neq in H
  | H : Byte.eqb _ _ = true |- _ => apply Byte.byte_dec_bl in H
  | H : Byte.eqb _ _ = false |- _ => apply byte_eqb_neq in H
  | H : bool_decide _ = true |- _ => apply bool_decide_eq_true in H
  | H : bool_decide _ = false |- _ => apply bool_decide_eq_false in H
  end.

(** ** The development's hint databases

    [go] holds the introduction lemmas the proofs apply without naming them,
    [go_rw] the list and stream equations used left to right. *)

Create HintDb go.
Create Rewrite HintDb go_rw.

(** ** Lemmas on results *)

Lemma result_bind_Ok {E A B} (m : result E A) (k : A -> result E B) b :
  result_bind m k = Ok b -> exists a, m = Ok a /\ k a = Ok b.
Proof. destruct m; cbn; [eauto|done]. Qed.

(** ** Lemmas on bytes and lists *)

Lemma index_byte_Some c l i :
  index_byte c l = Some i <->
  l !! i = Some c /\ (forall j, j < i -> l !! j <> Some c).
Proof.
  revert i. induction l as [|x l IH]; intros i; simpl.
  { split; [done|]. intros [H _]. done. }
  destruct (Byte.eqb x c) eqn:E; to_prop.
  - subst x. split.
    + intros [= <-]. split; [done|]. intros j ?. lia.
    + intros [Hi Hlt]. destruct i as [|i]; [done|].
      exfalso. by apply (Hlt 0); [lia|].
  - destruct i as [|i]; simpl.
    + split; [destruct (index_byte c l); naive_solver|]. intros [[= ->] _]. done.
    + split.
      * intros (k & Hk & [= ->])%fmap_Some. apply IH in Hk as [Hk Hlt].
        split; [done|]. intros [|j] ?; simpl; [congruence|]. apply Hlt. lia.
      * intros [Hi Hlt]. apply fmap_Some. exists i. split; [|done].
        apply IH. split; [done|]. intros j ?. apply (Hlt (S j)). lia.
Qed.

Lemma index_byte_None c l : index_byte c l = None <-> c ∉ l.
Proof.
  induction l as [|x l IH]; simpl; [set_solver|].
  destruct (Byte.eqb x c) eqn:E; to_prop; [set_solver|].
  rewrite fmap_None, IH, not_elem_of_cons. naive_solver.
Qed.

Lemma index_byte_lt c l i : index_byte c l = Some i -> i < length l.
Proof. intros [H _]%index_byte_Some. by apply lookup_lt_Some in H. Qed.

Lemma index_byte_app_notin c l1 l2 :
  c ∉ l1 -> index_byte c (l1 ++ l2) = (fun i => length l1 + i) <$> index_byte c l2.
Proof.
  induction l1 as [|x l1 IH]; simpl; [by destruct (index_byte c l2)|].
  intros [Hx Hl]%not_elem_of_cons.
  rewrite (proj2 (byte_eqb_neq x c)) by congruence.
  rewrite (IH Hl). by destruct (index_byte c l2).
Qed.

Lemma index_byte_take c l n :
  index_byte c (take n l) =
  match index_byte c l with
  | Some i => if i <? n then Some i else None
  | None => None
  end.
Proof.
  revert n. induction l as [|x l IH]; intros [|n]; simpl; try done.
  - destruct (Byte.eqb x c); [done|]. by destruct (index_byte c l).
  - destruct (Byte.eqb x c); [done|]. rewrite IH.
    destruct (index_byte c l) as [i|]; simpl; [|done].
    change (S i <? S n) with (i <? n). by destruct (i <? n).
Qed.

Lemma index_byte_drop c l n :
  c ∉ take n l -> n <= length l ->
  index_byte c l = (fun i => n + i) <$> index_byte c (drop n l).
Proof.
  intros Hn Hlen. rewrite <- (take_drop n l) at 1.
  rewrite index_byte_app_notin by done.
  by rewrite length_take_le by lia.
Qed.

(** Checking a decidable property of a concrete list by evaluation. *)
Lemma forallb_Forall_iff {A} (P : A -> Prop) `{forall x, Decision (P x)} (l : list A) :
  forallb (fun x => bool_decide (P x)) l = true -> Forall P l.
Proof.
  rewrite forallb_forall, Forall_forall. intros H0 x Hx.
  apply (bool_decide_eq_true_1 _ (H0 x (proj1 (list_elem_of_In _ _) Hx))).
Qed.

Lemma set_has_spec X x : set_has X x = true <-> x ∈ X.
Proof.
  unfold set_has. rewrite existsb_exists, list_elem_of_In. split.
  - intros (y & Hy & ->%String.eqb_eq). done.
  - intros Hx. exists x. split; [done|]. apply String.eqb_refl.
Qed.

#[export] Hint Resolve prefix_nil prefix_app_r prefix_app : go.
#[export] Hint Rewrite <- (@app_assoc byte) : go_rw.
#[export] Hint Rewrite (@app_nil_r byte) (@length_app byte) : go_rw.
