(* ===== verification/GoStd.v ===== *)
(** * GoStd: the parts of Go and its standard library the program uses

    Machine integers, [strconv.ParseInt]/[Atoi]/[Itoa], the functions of
    package [strings] the sources call, and [net.ParseIP].  Everything is
    executable.  The only part of the library that is not written out is the
    Unicode case table behind [strings.ToUpper] on non-ASCII input: it is the
    operational class [UnicodeUpper]. *)

From Stdlib Require Import Strings.Byte String Ascii ZArith Lia.
From stdpp Require Import base list strings gmap.
From S2P Require Import Prelude.

Local Open Scope Z_scope.

(** ** Machine integers *)

Definition int64_min : Z := - 2 ^ 63.
Definition int64_max : Z := 2 ^ 63 - 1.

(** Two's-complement wrap-around of [int64] (and of [int], 64 bits wide on
    every platform the program is built for). *)
Definition wrap64 (z : Z) : Z := (z + 2 ^ 63) mod 2 ^ 64 - 2 ^ 63.

(** Wrap-around of [uint64]. *)
Definition wrapu64 (z : Z) : Z := z mod 2 ^ 64.

Definition in_int64 (z : Z) : bool := (int64_min <=? z) && (z <=? int64_max).

(** ** strconv *)

Definition digit_val (c : byte) : option Z :=
  let v := Z.of_N (Byte.to_N c) in
  if (48 <=? v) && (v <=? 57) then Some (v - 48) else None.

(** Base-10 digits, most significant first, onto an accumulator. *)
Fixpoint digits_val (acc : Z) (s : list byte) : option Z :=
  match s with
  | [] => Some acc
  | c :: s' =>
      match digit_val c with
      | Some d => digits_val (10 * acc + d) s'
      | None => None
      end
  end.

Definition parse_unsigned (s : list byte) : option Z :=
  match s with
  | [] => None
  | _ => digits_val 0 s
  end.

(** [strconv.ParseInt(s, 10, 64)]: an optional sign, then digits; a syntax
    error and a range error are both [None] (the callers do not tell them
    apart).  [strconv.Atoi] accepts the same inputs with the same values. *)
Definition ParseInt (s : list byte) : option Z :=
  let in_range (v : option Z) :=
    match v with
    | Some z => if in_int64 z then Some z else None
    | None => None
    end in
  match s with
  | [] => None
  | c :: s' =>
      if Byte.eqb c "+"%byte then in_range (parse_unsigned s')
      else if Byte.eqb c "-"%byte then in_range (Z.opp <$> parse_unsigned s')
      else in_range (parse_unsigned s)
  end.

Definition Atoi (s : string) : option Z := ParseInt (bytes s).

Definition digit_byte (d : Z) : byte :=
  match Byte.of_N (Z.to_N (48 + d)) with
  | Some b => b
  | None => "0"%byte
  end.

Fixpoint digits_of (fuel : nat) (n : Z) : list byte :=
  match fuel with
  | O => []
  | S fuel' =>
      if n <? 10 then [digit_byte n]
      else digits_of fuel' (n / 10) ++ [digit_byte (n mod 10)]
  end.

(** [strconv.Itoa] / [fmt]'s [%d]; the fuel is the bit length, an upper bound
    of the number of decimal digits. *)
Definition itoa_bytes (n : Z) : list byte :=
  let u := Z.abs n in
  let ds := digits_of (S (Z.to_nat (Z.log2 u))) u in
  if n <? 0 then "-"%byte :: ds else ds.

Definition Itoa (n : Z) : string := String.string_of_list_byte (itoa_bytes n).

(** ** strings *)

Definition is_ascii (c : byte) : bool := (Byte.to_N c <? 128)%N.

Definition upper_byte (c : byte) : byte :=
  let v := Byte.to_N c in
  if ((97 <=? v) && (v <=? 122))%N then
    match Byte.of_N (v - 32) with
    | Some b => b
    | None => c
    end
  else c.

(** [strings.Map(unicode.ToUpper, s)], the non-ASCII path of [ToUpper]. *)
Class UnicodeUpper := unicode_upper : list byte -> list byte.

Definition ToUpper `{UnicodeUpper} (s : list byte) : list byte :=
  if forallb is_ascii s then upper_byte <$> s else unicode_upper s.

(** [strings.HasPrefix], [strings.TrimSuffix], [strings.Contains]. *)
Fixpoint HasPrefix (s p : list byte) {struct p} : bool :=
  match p, s with
  | [], _ => true
  | _ :: _, [] => false
  | c :: p', d :: s' => Byte.eqb c d && HasPrefix s' p'
  end.

Definition HasSuffix (s p : list byte) : bool := HasPrefix (reverse s) (reverse p).

Definition TrimSuffix (s p : list byte) : list byte :=
  if HasSuffix s p then take (length s - length p) s else s.

Fixpoint Contains (s sub : list byte) : bool :=
  HasPrefix s sub || match s with [] => false | _ :: s' => Contains s' sub end.

(** [strings.Compare] as Go's three-way result on bytes. *)
Fixpoint bytes_compare (a b : list byte) : comparison :=
  match a, b with
  | [], [] => Eq
  | [], _ :: _ => Lt
  | _ :: _, [] => Gt
  | x :: a', y :: b' =>
      match N.compare (Byte.to_N x) (Byte.to_N y) with
      | Eq => bytes_compare a' b'
      | c => c
      end
  end.

Definition Compare (a b : string) : comparison := bytes_compare (bytes a) (bytes b).

(** ** Lemmas: machine integers *)

Lemma wrap64_id z : int64_min <= z <= int64_max -> wrap64 z = z.
Proof.
  unfold wrap64, int64_min, int64_max. intros H.
  rewrite Z.mod_small by lia. lia.
Qed.

Lemma wrap64_range z : int64_min <= wrap64 z <= int64_max.
Proof.
  unfold wrap64, int64_min, int64_max.
  pose proof (Z.mod_pos_bound (z + 2 ^ 63) (2 ^ 64) ltac:(lia)). lia.
Qed.

Lemma in_int64_spec z : in_int64 z = true <-> int64_min <= z <= int64_max.
Proof. unfold in_int64. rewrite andb_true_iff, !Z.leb_le. done. Qed.

(** ** Lemmas: decimal text *)

Lemma digit_val_byte d : 0 <= d < 10 -> digit_val (digit_byte d) = Some d.
Proof.
  intros H.
  assert (d = 0 \/ d = 1 \/ d = 2 \/ d = 3 \/ d = 4 \/ d = 5 \/ d = 6 \/ d = 7 \/ d = 8 \/ d = 9)
    as Hd by lia.
  by repeat destruct Hd as [Hd|Hd]; subst.
Qed.

Lemma digits_val_app acc s1 s2 :
  digits_val acc (s1 ++ s2) = digits_val acc s1 ≫= (fun v => digits_val v s2).
Proof.
  revert acc. induction s1 as [|c s1 IH]; intros acc; simpl; [done|].
  by destruct (digit_val c); [apply IH|].
Qed.

Lemma log2_div10 n : 10 <= n -> Z.log2 (n / 10) < Z.log2 n.
Proof.
  intros H. apply Z.log2_lt_pow2; [apply Z.div_str_pos; lia|].
  apply Z.div_lt_upper_bound; [lia|].
  pose proof (Z.log2_spec n ltac:(lia)) as [_ Hn].
  rewrite Z.pow_succ_r in Hn by apply Z.log2_nonneg.
  pose proof (Z.pow_nonneg 2 (Z.log2 n) ltac:(lia)). lia.
Qed.

Lemma digits_of_val fuel n :
  0 <= n -> Z.log2 n < Z.of_nat fuel -> digits_val 0 (digits_of fuel n) = Some n.
Proof.
  revert n. induction fuel as [|fuel IH]; intros n Hn Hf; simpl.
  { pose proof (Z.log2_nonneg n). lia. }
  destruct (n <? 10) eqn:E; to_prop.
  - simpl. rewrite digit_val_byte by lia. done.
  - pose proof (log2_div10 n E). rewrite digits_val_app, IH; [|apply Z.div_pos; lia|lia].
    simpl. rewrite digit_val_byte by (apply Z.mod_pos_bound; lia).
    f_equal. pose proof (Z.div_mod n 10). lia.
Qed.

Lemma digits_of_not_nil fuel n : fuel <> O -> digits_of fuel n <> [].
Proof.
  destruct fuel as [|fuel]; [done|]. intros _. simpl.
  case_match; [done|]. intros [_ ?]%app_nil. done.
Qed.

Lemma digits_of_length fuel n : (length (digits_of fuel n) <= fuel)%nat.
Proof.
  revert n. induction fuel as [|fuel IH]; intros n; simpl; [lia|].
  case_match; [simpl; lia|]. rewrite length_app. simpl. specialize (IH (n / 10)). lia.
Qed.

Lemma digits_val_Forall acc s v :
  digits_val acc s = Some v -> Forall (fun c => is_Some (digit_val c)) s.
Proof.
  revert acc. induction s as [|c s IH]; intros acc H; simpl in *; [by constructor|].
  destruct (digit_val c) eqn:E; [|done]. constructor; eauto.
Qed.

Lemma digit_not c d : is_Some (digit_val c) -> digit_val d = None -> c <> d.
Proof. intros [v Hv] Hd Heq. subst. congruence. Qed.

Lemma digits_of_notin fuel n c :
  0 <= n -> Z.log2 n < Z.of_nat fuel -> digit_val c = None -> c ∉ digits_of fuel n.
Proof.
  intros Hn Hf Hc Hin.
  pose proof (digits_val_Forall _ _ _ (digits_of_val _ _ Hn Hf)) as HF.
  rewrite Forall_forall in HF. apply HF in Hin as [v ?]. congruence.
Qed.

(** The text of an integer never contains a line terminator. *)
Lemma itoa_no_LF n : LF ∉ itoa_bytes n.
Proof.
  unfold itoa_bytes.
  assert (LF ∉ digits_of (S (Z.to_nat (Z.log2 (Z.abs n)))) (Z.abs n)) as H.
  { apply digits_of_notin; [lia| |done]. pose proof (Z.log2_nonneg (Z.abs n)). lia. }
  case_match; [|done]. apply not_elem_of_cons. done.
Qed.

Lemma itoa_length n : Z.abs n < 2 ^ 64 -> (length (itoa_bytes n) <= 65)%nat.
Proof.
  intros Hn. unfold itoa_bytes.
  pose proof (digits_of_length (S (Z.to_nat (Z.log2 (Z.abs n)))) (Z.abs n)) as Hl.
  assert (Z.log2 (Z.abs n) < 64 \/ Z.abs n = 0) as Hlog.
  { destruct (Z.eq_dec (Z.abs n) 0); [by right|left]. apply Z.log2_lt_pow2; lia. }
  assert (Z.to_nat (Z.log2 (Z.abs n)) <= 63)%nat.
  { destruct Hlog as [?|Hz]; [lia|]. rewrite Hz. simpl. lia. }
  case_match; rewrite ?length_cons; lia.
Qed.

(** Round trip of decimal text over the whole range of [int64]. *)
Lemma ParseInt_itoa n : int64_min <= n <= int64_max -> ParseInt (itoa_bytes n) = Some n.
Proof.
  intros Hn. unfold itoa_bytes.
  set (u := Z.abs n). set (ds := digits_of _ u).
  assert (digits_val 0 ds = Some u) as Hv.
  { apply digits_of_val; [lia|]. pose proof (Z.log2_nonneg u). lia. }
  assert (ds <> []) as Hnil by (by apply digits_of_not_nil).
  assert (parse_unsigned ds = Some u) as Hp.
  { unfold parse_unsigned. destruct ds; done. }
  destruct (n <? 0) eqn:E; to_prop; unfold ParseInt.
  - simpl. rewrite Hp. simpl. replace (- u) with n by lia.
    by rewrite (proj2 (in_int64_spec n)).
  - pose proof (digits_val_Forall _ _ _ Hv) as HF.
    destruct ds as [|c ds']; [done|]. inversion HF as [|? ? Hc _]; subst.
    rewrite !(proj2 (byte_eqb_neq c _)) by (by apply (digit_not _ _ Hc)).
    rewrite Hp. replace u with n by lia. by rewrite (proj2 (in_int64_spec n)).
Qed.

Lemma ParseInt_range s n : ParseInt s = Some n -> int64_min <= n <= int64_max.
Proof.
  unfold ParseInt. intros H. apply in_int64_spec.
  repeat case_match; simplify_eq; done.
Qed.

(** ** Lemmas: strings *)

Lemma upper_byte_idem c : upper_byte (upper_byte c) = upper_byte c.
Proof. by destruct c. Qed.

Lemma upper_byte_ascii c : is_ascii c = true -> is_ascii (upper_byte c) = true.
Proof. by destruct c. Qed.

Lemma ToUpper_ascii `{UnicodeUpper} s :
  forallb is_ascii s = true -> ToUpper s = upper_byte <$> s.
Proof. intros Hs. unfold ToUpper. by rewrite Hs. Qed.

Lemma HasPrefix_spec s p : HasPrefix s p = true <-> p `prefix_of` s.
Proof.
  revert s. induction p as [|c p IH]; intros s; simpl.
  { split; [intros; apply prefix_nil|done]. }
  destruct s as [|d s]; [split; [done|intros H; by apply prefix_nil_not in H]|].
  rewrite andb_true_iff, IH. split.
  - intros [->%Byte.byte_dec_bl Hp]. by apply prefix_cons.
  - intros Hp. pose proof (prefix_cons_inv_1 _ _ _ _ Hp) as ->.
    split; [apply byte_eqb_refl|]. by apply prefix_cons_inv_2 in Hp.
Qed.

Lemma bytes_string_of_list l : bytes (String.string_of_list_byte l) = l.
Proof. apply list_byte_of_string_of_list_byte. Qed.

Lemma string_of_list_bytes s : String.string_of_list_byte (bytes s) = s.
Proof. apply string_of_list_byte_of_string. Qed.

(** ** Lemmas: modular arithmetic of the counters *)

Lemma wrap64_add_l a b : wrap64 (wrap64 a + b) = wrap64 (a + b).
Proof.
  unfold wrap64. f_equal.
  replace ((a + 2 ^ 63) mod 2 ^ 64 - 2 ^ 63 + b + 2 ^ 63) with ((a + 2 ^ 63) mod 2 ^ 64 + b) by lia.
  rewrite Z.add_mod_idemp_l by lia. f_equal. lia.
Qed.

Lemma wrap64_add_r a b : wrap64 (a + wrap64 b) = wrap64 (a + b).
Proof. rewrite Z.add_comm, wrap64_add_l. f_equal. lia. Qed.

(** ** Lemmas: order of strings *)

Lemma to_N_inj (a b : byte) : Byte.to_N a = Byte.to_N b -> a = b.
Proof. intros H. pose proof (Byte.of_to_N a) as Ha. rewrite H, Byte.of_to_N in Ha. congruence. Qed.

Lemma bytes_compare_antisym a b : bytes_compare b a = CompOpp (bytes_compare a b).
Proof.
  revert b. induction a as [|x a IH]; intros [|y b]; cbn; try done.
  rewrite (N.compare_antisym (Byte.to_N x) (Byte.to_N y)).
  destruct (N.compare (Byte.to_N x) (Byte.to_N y)); cbn; auto.
Qed.

Lemma bytes_compare_Eq a b : bytes_compare a b = Eq <-> a = b.
Proof.
  revert b. induction a as [|x a IH]; intros [|y b]; cbn; try done.
  destruct (N.compare_spec (Byte.to_N x) (Byte.to_N y)) as [E|Hlt|Hlt].
  - apply to_N_inj in E as ->. rewrite IH. naive_solver.
  - split; [done|]. intros [= -> _]. lia.
  - split; [done|]. intros [= -> _]. lia.
Qed.

(** Byte-wise lexicographic order. *)
Definition str_le (a b : string) : Prop := Compare a b <> Gt.

Lemma bytes_compare_trans a b c :
  bytes_compare a b <> Gt -> bytes_compare b c <> Gt -> bytes_compare a c <> Gt.
Proof.
  revert b c. induction a as [|x a IH]; intros [|y b] [|z c]; cbn; try done.
  destruct (N.compare_spec (Byte.to_N x) (Byte.to_N y)) as [E1|H1|H1]; [|intros _|done].
  - rewrite E1. destruct (N.compare_spec (Byte.to_N y) (Byte.to_N z)); [apply IH|done..].
  - destruct (N.compare_spec (Byte.to_N y) (Byte.to_N z)) as [E2|H2|H2]; [intros _|intros _|done].
    + rewrite E2 in H1. by rewrite (proj2 (N.compare_lt_iff _ _) H1).
    + assert (Byte.to_N x < Byte.to_N z)%N as H3 by lia.
      by rewrite (proj2 (N.compare_lt_iff _ _) H3).
Qed.

#[global] Instance str_le_trans : Transitive str_le.
Proof. intros a b c. apply bytes_compare_trans. Qed.

Lemma bytes_inj a b : bytes a = bytes b -> a = b.
Proof. intros H. by rewrite <- (string_of_list_bytes a), H, string_of_list_bytes. Qed.

#[global] Instance str_le_antisymm : AntiSymm (=) str_le.
Proof.
  intros a b. unfold str_le, Compare. rewrite (bytes_compare_antisym (bytes a)).
  destruct (bytes_compare (bytes a) (bytes b)) eqn:E; [|done..].
  intros _ _. by apply bytes_inj, bytes_compare_Eq.
Qed.

Lemma Compare_Gt a b : Compare a b = Gt -> str_le b a.
Proof. unfold str_le, Compare. rewrite (bytes_compare_antisym (bytes a)). by intros ->. Qed.

Lemma Contains_spec s sub : Contains s sub = true <-> exists a b, s = a ++ sub ++ b.
Proof.
  induction s as [|c s IH]; cbn.
  - rewrite orb_false_r, HasPrefix_spec. split.
    + intros [k ->]. by exists [], k.
    + intros (a & b & E). symmetry in E. apply app_nil in E as [-> E]. exists b. done.
  - rewrite orb_true_iff, HasPrefix_spec, IH. split.
    + intros [[k ->]|(a & b & ->)]; [by exists [], k|by exists (c :: a), b].
    + intros ([|x a] & b & E); [left; by exists b|right]. injection E as -> ->. eauto.
Qed.
