(* ===== verification/GoTime.v ===== *)
(** * GoTime: durations (package time) and boolean text (strconv.ParseBool)

    A [time.Duration] is its [int64] count of nanoseconds.  [ParseDuration] is
    executable, including the [float64] arithmetic it uses for fractions, which
    is computed with the Standard Library's specification of IEEE 754 binary64
    ([SpecFloat], precision 53, exponent bound 1024). *)

From Stdlib Require Import Strings.Byte String ZArith Lia.
From Stdlib Require Import SpecFloat.
From stdpp Require Import base list strings.
From S2P Require Import Prelude GoStd.

Local Open Scope Z_scope.

Definition Nanosecond : Z := 1.
Definition Microsecond : Z := 1000.
Definition Millisecond : Z := 1000 * 1000.
Definition Second : Z := 1000 * 1000 * 1000.
Definition Minute : Z := 60 * Second.
Definition Hour : Z := 60 * Minute.

(** ** float64 *)

Definition f64_of_Z (z : Z) : spec_float := binary_normalize 53 1024 z 0 false.
Definition f64_mul : spec_float -> spec_float -> spec_float := SFmul 53 1024.
Definition f64_div : spec_float -> spec_float -> spec_float := SFdiv 53 1024.

(** Conversion to [uint64] of a finite non-negative value (truncation). *)
Definition f64_trunc (f : spec_float) : Z :=
  match f with
  | S754_finite false m e => if 0 <=? e then Zpos m * 2 ^ e else Zpos m / 2 ^ (- e)
  | _ => 0
  end.

(** ** ParseDuration *)

Definition is_digit (c : byte) : bool := bool_decide (is_Some (digit_val c)).

(** [leadingInt]: digits up to the first other byte; [None] on overflow. *)
Fixpoint leadingInt (x : Z) (s : list byte) : option (Z * list byte) :=
  match s with
  | [] => Some (x, [])
  | c :: s' =>
      match digit_val c with
      | None => Some (x, s)
      | Some d =>
          if 2 ^ 63 / 10 <? x then None
          else
            let x := x * 10 + d in
            if 2 ^ 63 <? x then None else leadingInt x s'
      end
  end.

(** [leadingFraction]: the digits that fit, and the power of ten they are to be
    divided by; further digits are dropped. *)
Fixpoint leadingFraction (x scale : Z) (overflow : bool) (s : list byte) : Z * Z * list byte :=
  match s with
  | [] => (x, scale, [])
  | c :: s' =>
      match digit_val c with
      | None => (x, scale, s)
      | Some d =>
          if overflow then leadingFraction x scale true s'
          else if (2 ^ 63 - 1) / 10 <? x then leadingFraction x scale true s'
          else
            let y := x * 10 + d in
            if 2 ^ 63 <? y then leadingFraction x scale true s'
            else leadingFraction y (scale * 10) false s'
      end
  end.

(** The unit: everything up to the next digit or period. *)
Fixpoint unit_text (s : list byte) : list byte * list byte :=
  match s with
  | [] => ([], [])
  | c :: s' =>
      if Byte.eqb c "."%byte || is_digit c then ([], s)
      else let (u, r) := unit_text s' in (c :: u, r)
  end.

Definition unitMap (u : list byte) : option Z :=
  if bool_decide (u = bytes "ns") then Some Nanosecond
  else if bool_decide (u = bytes "us") then Some Microsecond
  else if bool_decide (u = [xc2; xb5; "s"%byte]) then Some Microsecond
  else if bool_decide (u = [xce; xbc; "s"%byte]) then Some Microsecond
  else if bool_decide (u = bytes "ms") then Some Millisecond
  else if bool_decide (u = bytes "s") then Some Second
  else if bool_decide (u = bytes "m") then Some Minute
  else if bool_decide (u = bytes "h") then Some Hour
  else None.

(** The loop over the terms; [d] is the sum so far.  Every term consumes at
    least one byte, so the length of the text is enough fuel. *)
Fixpoint duration_loop (fuel : nat) (d : Z) (s : list byte) : option Z :=
  match s, fuel with
  | [], _ => Some d
  | _, O => None
  | c :: _, S fuel' =>
      if negb (Byte.eqb c "."%byte || is_digit c) then None
      else
        match leadingInt 0 s with
        | None => None
        | Some (v, s1) =>
            let pre := negb (length s =? length s1)%nat in
            let '(f, scale, s2, post) :=
              match s1 with
              | "."%byte :: s1' =>
                  let '(f, scale, s2) := leadingFraction 0 1 false s1' in
                  (f, scale, s2, negb (length s1' =? length s2)%nat)
              | _ => (0, 1, s1, false)
              end in
            if negb pre && negb post then None
            else
              let (u, s3) := unit_text s2 in
              if bool_decide (u = []) then None
              else
                match unitMap u with
                | None => None
                | Some unit =>
                    if 2 ^ 63 / unit <? v then None
                    else
                      let v := v * unit in
                      let v :=
                        if 0 <? f
                        then v + f64_trunc (f64_mul (f64_of_Z f) (f64_div (f64_of_Z unit) (f64_of_Z scale)))
                        else v in
                      if 2 ^ 63 <? v then None
                      else
                        let d := wrapu64 (d + v) in
                        if 2 ^ 63 <? d then None else duration_loop fuel' d s3
                end
        end
  end.

Definition ParseDuration (str : string) : option Z :=
  let s := bytes str in
  let '(neg, s) :=
    match s with
    | "-"%byte :: s' => (true, s')
    | "+"%byte :: s' => (false, s')
    | _ => (false, s)
    end in
  if bool_decide (s = bytes "0") then Some 0
  else if bool_decide (s = []) then None
  else
    match duration_loop (length s) 0 s with
    | None => None
    | Some d =>
        if neg then Some (wrap64 (- d))
        else if 2 ^ 63 - 1 <? d then None else Some d
    end.

Example ParseDuration_examples :
  (fun s => ParseDuration s) <$>
    ["30s"; "5m"; "90s"; "1h15m30.918s"; "0"; "-1.5h"; "1.5"; "not-a-duration"; ""; ".5s"; "0.1s";
     "9223372036854775807ns"; "9223372036854775808ns"; "-9223372036854775808ns"; "1.s"; "+5ms"]%string
  = [Some (30 * Second); Some (5 * Minute); Some (90 * Second);
     Some (Hour + 15 * Minute + 30 * Second + 918 * Millisecond); Some 0;
     Some (- (90 * Minute)); None; None; None; Some (500 * Millisecond); Some (100 * Millisecond);
     Some int64_max; None; Some int64_min; Some Second; Some (5 * Millisecond)].
Proof. vm_compute. reflexivity. Qed.

(** ** ParseBool *)

Definition ParseBool (s : string) : option bool :=
  if set_has ["1"; "t"; "T"; "TRUE"; "true"; "True"]%string s then Some true
  else if set_has ["0"; "f"; "F"; "FALSE"; "false"; "False"]%string s then Some false
  else None.
