(* ===== verification/Config.v ===== *)
(** * Config: configuration (pkg/config: config.go, env.go, flags.go, tls.go)

    The configuration record with its optional fields, the four sources (flags,
    environment, file, built-in defaults), their merge, and [Load] with its
    validation and the construction of the TLS settings.  A Go pointer field is
    an [option]; a dereference of a nil pointer is the error [Panic], so that
    its absence is a theorem.  What is not Go source of the repository - the
    environment, the files, the X.509 and YAML parsers - is the record
    [Host]. *)

From Stdlib Require Import Strings.Byte String ZArith Lia.
From stdpp Require Import base list strings gmap.
From S2P Require Import Prelude GoStd GoTime.

Local Open Scope Z_scope.

Definition ReplicaFallbackMaster : string := "master".
Definition ReplicaFallbackReject : string := "reject".

(** ** TLS options and settings *)

Module BackendTLS.
Record t : Type := Mk {
  Enabled : option bool;
  CAFile : option string;
  CertFile : option string;
  KeyFile : option string;
  ServerName : option string;
  SkipVerify : option bool;
  Passthrough : option bool
}.
Definition empty : t := Mk None None None None None None None.
End BackendTLS.

Module ListenTLSOpts.
Record t : Type := Mk {
  Enabled : option bool;
  CertFile : option string;
  KeyFile : option string;
  ClientCAFile : option string
}.
Definition empty : t := Mk None None None None.
End ListenTLSOpts.

(** The fields of [tls.Config] the program sets.  A certificate pool is the PEM
    text it was built from, a certificate the pair of its files. *)
Record tls_config : Type := MkTLS {
  MinVersion : Z;
  tlsServerName : string;
  InsecureSkipVerify : bool;
  RootCAs : option string;
  Certificates : list (string * string);
  ClientCAs : option string;
  RequireAndVerifyClientCert : bool
}.

Definition VersionTLS12 : Z := 771.

(** ** The configuration *)

Record Config : Type := MkConfig {
  Listen : option string;
  ReplicaListen : option string;
  ReplicaFallback : option string;
  Sentinel : option string;
  Master : option string;
  Username : option string;
  Password : option string;
  MasterUsername : option string;
  MasterPassword : option string;
  Router : option bool;
  ResolveRetries : option Z;
  MaxConnections : option Z;
  IdleTimeout : option Z;
  Debug : option bool;
  SentinelTLS : option BackendTLS.t;
  ListenTLS : option ListenTLSOpts.t;
  MasterTLS : option BackendTLS.t;
  (* the unexported struct [tls] *)
  tls_master : option tls_config;
  tls_masterProbe : option tls_config;
  tls_sentinel : option tls_config;
  tls_listen : option tls_config
}.

Definition emptyConfig : Config :=
  MkConfig None None None None None None None None None None None None None None None None None
    None None None None.

(** Assignment to one field of the configuration. *)
Definition set_Listen (c : Config) (v : option string) : Config :=
  MkConfig v (ReplicaListen c) (ReplicaFallback c) (Sentinel c) (Master c) (Username c)
    (Password c) (MasterUsername c) (MasterPassword c) (Router c) (ResolveRetries c)
    (MaxConnections c) (IdleTimeout c) (Debug c) (SentinelTLS c) (ListenTLS c) (MasterTLS c)
    (tls_master c) (tls_masterProbe c) (tls_sentinel c) (tls_listen c).
Definition set_ReplicaListen (c : Config) (v : option string) : Config :=
  MkConfig (Listen c) v (ReplicaFallback c) (Sentinel c) (Master c) (Username c) (Password c)
    (MasterUsername c) (MasterPassword c) (Router c) (ResolveRetries c) (MaxConnections c)
    (IdleTimeout c) (Debug c) (SentinelTLS c) (ListenTLS c) (MasterTLS c) (tls_master c)
    (tls_masterProbe c) (tls_sentinel c) (tls_listen c).
Definition set_ReplicaFallback (c : Config) (v : option string) : Config :=
  MkConfig (Listen c) (ReplicaListen c) v (Sentinel c) (Master c) (Username c) (Password c)
    (MasterUsername c) (MasterPassword c) (Router c) (ResolveRetries c) (MaxConnections c)
    (IdleTimeout c) (Debug c) (SentinelTLS c) (ListenTLS c) (MasterTLS c) (tls_master c)
    (tls_masterProbe c) (tls_sentinel c) (tls_listen c).
Definition set_Sentinel (c : Config) (v : option string) : Config :=
  MkConfig (Listen c) (ReplicaListen c) (ReplicaFallback c) v (Master c) (Username c)
    (Password c) (MasterUsername c) (MasterPassword c) (Router c) (ResolveRetries c)
    (MaxConnections c) (IdleTimeout c) (Debug c) (SentinelTLS c) (ListenTLS c) (MasterTLS c)
    (tls_master c) (tls_masterProbe c) (tls_sentinel c) (tls_listen c).
Definition set_Master (c : Config) (v : option string) : Config :=
  MkConfig (Listen c) (ReplicaListen c) (ReplicaFallback c) (Sentinel c) v (Username c)
    (Password c) (MasterUsername c) (MasterPassword c) (Router c) (ResolveRetries c)
    (MaxConnections c) (IdleTimeout c) (Debug c) (SentinelTLS c) (ListenTLS c) (MasterTLS c)
    (tls_master c) (tls_masterProbe c) (tls_sentinel c) (tls_listen c).
Definition set_Username (c : Config) (v : option string) : Config :=
  MkConfig (Listen c) (ReplicaListen c) (ReplicaFallback c) (Sentinel c) (Master c) v
    (Password c) (MasterUsername c) (MasterPassword c) (Router c) (ResolveRetries c)
    (MaxConnections c) (IdleTimeout c) (Debug c) (SentinelTLS c) (ListenTLS c) (MasterTLS c)
    (tls_master c) (tls_masterProbe c) (tls_sentinel c) (tls_listen c).
Definition set_Password (c : Config) (v : option string) : Config :=
  MkConfig (Listen c) (ReplicaListen c) (ReplicaFallback c) (Sentinel c) (Master c)
    (Username c) v (MasterUsername c) (MasterPassword c) (Router c) (ResolveRetries c)
    (MaxConnections c) (IdleTimeout c) (Debug c) (SentinelTLS c) (ListenTLS c) (MasterTLS c)
    (tls_master c) (tls_masterProbe c) (tls_sentinel c) (tls_listen c).
Definition set_MasterUsername (c : Config) (v : option string) : Config :=
  MkConfig (Listen c) (ReplicaListen c) (ReplicaFallback c) (Sentinel c) (Master c)
    (Username c) (Password c) v (MasterPassword c) (Router c) (ResolveRetries c)
    (MaxConnections c) (IdleTimeout c) (Debug c) (SentinelTLS c) (ListenTLS c) (MasterTLS c)
    (tls_master c) (tls_masterProbe c) (tls_sentinel c) (tls_listen c).
Definition set_MasterPassword (c : Config) (v : option string) : Config :=
  MkConfig (Listen c) (ReplicaListen c) (ReplicaFallback c) (Sentinel c) (Master c)
    (Username c) (Password c) (MasterUsername c) v (Router c) (ResolveRetries c)
    (MaxConnections c) (IdleTimeout c) (Debug c) (SentinelTLS c) (ListenTLS c) (MasterTLS c)
    (tls_master c) (tls_masterProbe c) (tls_sentinel c) (tls_listen c).
Definition set_Router (c : Config) (v : option bool) : Config :=
  MkConfig (Listen c) (ReplicaListen c) (ReplicaFallback c) (Sentinel c) (Master c)
    (Username c) (Password c) (MasterUsername c) (MasterPassword c) v (ResolveRetries c)
    (MaxConnections c) (IdleTimeout c) (Debug c) (SentinelTLS c) (ListenTLS c) (MasterTLS c)
    (tls_master c) (tls_masterProbe c) (tls_sentinel c) (tls_listen c).
Definition set_ResolveRetries (c : Config) (v : option Z) : Config :=
  MkConfig (Listen c) (ReplicaListen c) (ReplicaFallback c) (Sentinel c) (Master c)
    (Username c) (Password c) (MasterUsername c) (MasterPassword c) (Router c) v
    (MaxConnections c) (IdleTimeout c) (Debug c) (SentinelTLS c) (ListenTLS c) (MasterTLS c)
    (tls_master c) (tls_masterProbe c) (tls_sentinel c) (tls_listen c).
Definition set_MaxConnections (c : Config) (v : option Z) : Config :=
  MkConfig (Listen c) (ReplicaListen c) (ReplicaFallback c) (Sentinel c) (Master c)
    (Username c) (Password c) (MasterUsername c) (MasterPassword c) (Router c)
    (ResolveRetries c) v (IdleTimeout c) (Debug c) (SentinelTLS c) (ListenTLS c) (MasterTLS c)
    (tls_master c) (tls_masterProbe c) (tls_sentinel c) (tls_listen c).
Definition set_IdleTimeout (c : Config) (v : option Z) : Config :=
  MkConfig (Listen c) (ReplicaListen c) (ReplicaFallback c) (Sentinel c) (Master c)
    (Username c) (Password c) (MasterUsername c) (MasterPassword c) (Router c)
    (ResolveRetries c) (MaxConnections c) v (Debug c) (SentinelTLS c) (ListenTLS c)
    (MasterTLS c) (tls_master c) (tls_masterProbe c) (tls_sentinel c) (tls_listen c).
Definition set_Debug (c : Config) (v : option bool) : Config :=
  MkConfig (Listen c) (ReplicaListen c) (ReplicaFallback c) (Sentinel c) (Master c)
    (Username c) (Password c) (MasterUsername c) (MasterPassword c) (Router c)
    (ResolveRetries c) (MaxConnections c) (IdleTimeout c) v (SentinelTLS c) (ListenTLS c)
    (MasterTLS c) (tls_master c) (tls_masterProbe c) (tls_sentinel c) (tls_listen c).
Definition set_SentinelTLS (c : Config) (v : option BackendTLS.t) : Config :=
  MkConfig (Listen c) (ReplicaListen c) (ReplicaFallback c) (Sentinel c) (Master c)
    (Username c) (Password c) (MasterUsername c) (MasterPassword c) (Router c)
    (ResolveRetries c) (MaxConnections c) (IdleTimeout c) (Debug c) v (ListenTLS c)
    (MasterTLS c) (tls_master c) (tls_masterProbe c) (tls_sentinel c) (tls_listen c).
Definition set_ListenTLS (c : Config) (v : option ListenTLSOpts.t) : Config :=
  MkConfig (Listen c) (ReplicaListen c) (ReplicaFallback c) (Sentinel c) (Master c)
    (Username c) (Password c) (MasterUsername c) (MasterPassword c) (Router c)
    (ResolveRetries c) (MaxConnections c) (IdleTimeout c) (Debug c) (SentinelTLS c) v
    (MasterTLS c) (tls_master c) (tls_masterProbe c) (tls_sentinel c) (tls_listen c).
Definition set_MasterTLS (c : Config) (v : option BackendTLS.t) : Config :=
  MkConfig (Listen c) (ReplicaListen c) (ReplicaFallback c) (Sentinel c) (Master c)
    (Username c) (Password c) (MasterUsername c) (MasterPassword c) (Router c)
    (ResolveRetries c) (MaxConnections c) (IdleTimeout c) (Debug c) (SentinelTLS c)
    (ListenTLS c) v (tls_master c) (tls_masterProbe c) (tls_sentinel c) (tls_listen c).

(** ** What the program gets from its host *)

Inductive yaml_err : Type := YamlEOF | YamlError.

Record Host : Type := MkHost {
  LookupEnv : string -> option string;
  ReadFile : string -> option string;
  (** whether [AppendCertsFromPEM] finds a certificate in the text *)
  pem_has_certs : string -> bool;
  (** whether [tls.LoadX509KeyPair] accepts the two files *)
  keypair_ok : string -> string -> bool;
  (** [yaml.Decoder.Decode] with [KnownFields(true)] into an empty [Config]; the
      scalar of the field of type [Duration] is handed to [UnmarshalYAML] *)
  yaml_decode : string -> result yaml_err (Config * option string)
}.

Inductive config_err : Type :=
| Panic                                   (* nil pointer dereference *)
| InvalidEnv (name : string)
| ReadingConfigFile
| ParsingConfigFile
| InvalidReplicaFallback (v : string)
| RouterWithPassthrough
| SentinelPassthrough
| SentinelOptionsRequireTLS
| SentinelCA
| SentinelCertAndKey
| SentinelKeyPair
| ListenOptionsRequireTLS
| ListenNeedsCertAndKey
| ListenKeyPair
| ListenClientCA
| MasterTLSExclusive
| MasterCA
| MasterCertAndKey
| MasterKeyPair.

(** Dereference of a pointer. *)
Definition deref {A} (p : option A) : result config_err A :=
  match p with
  | Some a => Ok a
  | None => Err Panic
  end.

(** ** Defaults *)

Definition Default : Config :=
  MkConfig (Some ""%string) (Some ""%string) (Some ReplicaFallbackMaster)
    (Some ":26379"%string) (Some "mymaster"%string)
    None None None None
    (Some false) (Some 3) (Some 100) (Some (30 * Second)) (Some false)
    (Some (BackendTLS.Mk (Some false) (Some ""%string) (Some ""%string) (Some ""%string)
       (Some ""%string) (Some false) None))
    (Some (ListenTLSOpts.Mk (Some false) (Some ""%string) (Some ""%string) (Some ""%string)))
    (Some (BackendTLS.Mk (Some false) (Some ""%string) (Some ""%string) (Some ""%string)
       (Some ""%string) (Some false) (Some false)))
    None None None None.

(** ** Merge *)

(** [fill]: a nil destination takes the source. *)
Definition fill {A} (dst src : option A) : option A :=
  match dst with
  | None => src
  | Some _ => dst
  end.

Definition ensureBackendTLS (c : option BackendTLS.t) : BackendTLS.t := default BackendTLS.empty c.
Definition ensureListenTLS (c : option ListenTLSOpts.t) : ListenTLSOpts.t :=
  default ListenTLSOpts.empty c.

(** The [SentinelTLS] block of [Merge]: every field but [Passthrough]. *)
Definition mergeSentinelTLS (c other : option BackendTLS.t) : option BackendTLS.t :=
  match other with
  | None => c
  | Some o =>
      let s := ensureBackendTLS c in
      Some (BackendTLS.Mk
        (fill (BackendTLS.Enabled s) (BackendTLS.Enabled o))
        (fill (BackendTLS.CAFile s) (BackendTLS.CAFile o))
        (fill (BackendTLS.CertFile s) (BackendTLS.CertFile o))
        (fill (BackendTLS.KeyFile s) (BackendTLS.KeyFile o))
        (fill (BackendTLS.ServerName s) (BackendTLS.ServerName o))
        (fill (BackendTLS.SkipVerify s) (BackendTLS.SkipVerify o))
        (BackendTLS.Passthrough s))
  end.

Definition mergeListenTLS (c other : option ListenTLSOpts.t) : option ListenTLSOpts.t :=
  match other with
  | None => c
  | Some o =>
      let l := ensureListenTLS c in
      Some (ListenTLSOpts.Mk
        (fill (ListenTLSOpts.Enabled l) (ListenTLSOpts.Enabled o))
        (fill (ListenTLSOpts.CertFile l) (ListenTLSOpts.CertFile o))
        (fill (ListenTLSOpts.KeyFile l) (ListenTLSOpts.KeyFile o))
        (fill (ListenTLSOpts.ClientCAFile l) (ListenTLSOpts.ClientCAFile o)))
  end.

Definition mergeMasterTLS (c other : option BackendTLS.t) : option BackendTLS.t :=
  match other with
  | None => c
  | Some o =>
      let m := ensureBackendTLS c in
      Some (BackendTLS.Mk
        (fill (BackendTLS.Enabled m) (BackendTLS.Enabled o))
        (fill (BackendTLS.CAFile m) (BackendTLS.CAFile o))
        (fill (BackendTLS.CertFile m) (BackendTLS.CertFile o))
        (fill (BackendTLS.KeyFile m) (BackendTLS.KeyFile o))
        (fill (BackendTLS.ServerName m) (BackendTLS.ServerName o))
        (fill (BackendTLS.SkipVerify m) (BackendTLS.SkipVerify o))
        (fill (BackendTLS.Passthrough m) (BackendTLS.Passthrough o)))
  end.

Definition Merge (c : Config) (other : option Config) : Config :=
  match other with
  | None => c
  | Some o =>
      MkConfig
        (fill (Listen c) (Listen o))
        (fill (ReplicaListen c) (ReplicaListen o))
        (fill (ReplicaFallback c) (ReplicaFallback o))
        (fill (Sentinel c) (Sentinel o))
        (fill (Master c) (Master o))
        (fill (Username c) (Username o))
        (fill (Password c) (Password o))
        (fill (MasterUsername c) (MasterUsername o))
        (fill (MasterPassword c) (MasterPassword o))
        (fill (Router c) (Router o))
        (fill (ResolveRetries c) (ResolveRetries o))
        (fill (MaxConnections c) (MaxConnections o))
        (fill (IdleTimeout c) (IdleTimeout o))
        (fill (Debug c) (Debug o))
        (mergeSentinelTLS (SentinelTLS c) (SentinelTLS o))
        (mergeListenTLS (ListenTLS c) (ListenTLS o))
        (mergeMasterTLS (MasterTLS c) (MasterTLS o))
        (tls_master c) (tls_masterProbe c) (tls_sentinel c) (tls_listen c)
  end.

(** ** TLS settings (tls.go) *)

Definition strSet (s : option string) : bool :=
  match s with Some v => negb (bool_decide (v = ""%string)) | None => false end.
Definition boolSet (b : option bool) : bool :=
  match b with Some v => v | None => false end.

(** [x == nil || *x == ""]. *)
Definition strEmpty (s : option string) : bool := negb (strSet s).

Section WithHost.
Variable host : Host.

Definition loadCertPool (caFile : string) : option string :=
  match ReadFile host caFile with
  | Some pem => if pem_has_certs host pem then Some pem else None
  | None => None
  end.

(** [LoadX509KeyPair] of the two optional file names, dereferenced as the
    source does. *)
Definition loadKeyPair (cert key : option string) (err : config_err)
  : result config_err (string * string) :=
  let* c := deref cert in
  let* k := deref key in
  if keypair_ok host c k then Ok (c, k) else Err err.

(** The tail shared by [sentinelTLSConfig] and [masterTLSConfig]: the client
    settings of an enabled backend. *)
Definition backendTLSConf (c : BackendTLS.t) (caErr pairErr keyErr : config_err)
  : result config_err tls_config :=
  let* serverName := deref (BackendTLS.ServerName c) in
  let* skipVerify := deref (BackendTLS.SkipVerify c) in
  let* rootCAs :=
    match BackendTLS.CAFile c with
    | Some ca =>
        if bool_decide (ca = ""%string) then Ok None
        else match loadCertPool ca with
             | Some pool => Ok (Some pool)
             | None => Err caErr
             end
    | None => Ok None
    end in
  if negb (Bool.eqb (strEmpty (BackendTLS.CertFile c)) (strEmpty (BackendTLS.KeyFile c)))
  then Err pairErr
  else
  let* certs :=
    if strSet (BackendTLS.CertFile c) then
      let* p := loadKeyPair (BackendTLS.CertFile c) (BackendTLS.KeyFile c) keyErr in Ok [p]
    else Ok [] in
  Ok (MkTLS VersionTLS12 serverName skipVerify rootCAs certs None false).

Definition sentinelTLSConfig (cs : Config) : result config_err (option tls_config) :=
  match SentinelTLS cs with
  | None => Ok None
  | Some c =>
      if boolSet (BackendTLS.Passthrough c) then Err SentinelPassthrough
      else if negb (boolSet (BackendTLS.Enabled c)) then
        if strSet (BackendTLS.CAFile c) || strSet (BackendTLS.CertFile c)
           || strSet (BackendTLS.KeyFile c) || strSet (BackendTLS.ServerName c)
           || boolSet (BackendTLS.SkipVerify c)
        then Err SentinelOptionsRequireTLS
        else Ok None
      else
        let* t := backendTLSConf c SentinelCA SentinelCertAndKey SentinelKeyPair in
        Ok (Some t)
  end.

Definition listenTLSConfig (cs : Config) : result config_err (option tls_config) :=
  match ListenTLS cs with
  | None => Ok None
  | Some c =>
      if negb (boolSet (ListenTLSOpts.Enabled c)) then
        if strSet (ListenTLSOpts.CertFile c) || strSet (ListenTLSOpts.KeyFile c)
           || strSet (ListenTLSOpts.ClientCAFile c)
        then Err ListenOptionsRequireTLS
        else Ok None
      else if strEmpty (ListenTLSOpts.CertFile c) || strEmpty (ListenTLSOpts.KeyFile c)
      then Err ListenNeedsCertAndKey
      else
        let* p := loadKeyPair (ListenTLSOpts.CertFile c) (ListenTLSOpts.KeyFile c) ListenKeyPair in
        match ListenTLSOpts.ClientCAFile c with
        | Some ca =>
            if bool_decide (ca = ""%string)
            then Ok (Some (MkTLS VersionTLS12 "" false None [p] None false))
            else match loadCertPool ca with
                 | Some pool => Ok (Some (MkTLS VersionTLS12 "" false None [p] (Some pool) true))
                 | None => Err ListenClientCA
                 end
        | None => Ok (Some (MkTLS VersionTLS12 "" false None [p] None false))
        end
  end.

(** The probe's and the data connection's settings. *)
Definition masterTLSConfig (cs : Config)
  : result config_err (option tls_config * option tls_config) :=
  match MasterTLS cs with
  | None => Ok (None, None)
  | Some c =>
      let passthrough := boolSet (BackendTLS.Passthrough c) in
      if passthrough && boolSet (BackendTLS.Enabled c) then Err MasterTLSExclusive
      else
        let enabled := boolSet (BackendTLS.Enabled c) || strSet (BackendTLS.CAFile c)
          || strSet (BackendTLS.CertFile c) || strSet (BackendTLS.KeyFile c)
          || strSet (BackendTLS.ServerName c) || boolSet (BackendTLS.SkipVerify c) in
        if negb enabled && negb passthrough then Ok (None, None)
        else
          let* t := backendTLSConf c MasterCA MasterCertAndKey MasterKeyPair in
          if passthrough then Ok (Some t, None) else Ok (Some t, Some t)
  end.

(** The accessors of the TLS settings. *)
Definition SentinelTLSConfig (cs : Config) : option tls_config := tls_sentinel cs.
Definition ListenTLSConfig (cs : Config) : option tls_config := tls_listen cs.
Definition MasterTLSConfig (cs : Config) : option tls_config := tls_master cs.
Definition MasterProbeTLSConfig (cs : Config) : option tls_config := tls_masterProbe cs.

(** ** Environment (env.go) *)

Definition strEnv (name : string) : option string := LookupEnv host name.

Definition parseEnv {A} (parse : string -> option A) (name : string)
  : result config_err (option A) :=
  match LookupEnv host name with
  | None => Ok None
  | Some val =>
      match parse val with
      | Some v => Ok (Some v)
      | None => Err (InvalidEnv name)
      end
  end.

Definition boolEnv : string -> result config_err (option bool) := parseEnv ParseBool.
Definition durEnv : string -> result config_err (option Z) := parseEnv ParseDuration.
Definition intEnv : string -> result config_err (option Z) := parseEnv Atoi.

Definition FromEnv : result config_err Config :=
  let* router := boolEnv "RSP_ROUTER" in
  let* retries := intEnv "RSP_RESOLVE_RETRIES" in
  let* maxConns := intEnv "RSP_MAX_CONNECTIONS" in
  let* idle := durEnv "RSP_IDLE_TIMEOUT" in
  let* debug := boolEnv "RSP_DEBUG" in
  let* sEnabled := boolEnv "RSP_SENTINEL_TLS" in
  let* sSkip := boolEnv "RSP_SENTINEL_TLS_SKIP_VERIFY" in
  let* lEnabled := boolEnv "RSP_LISTEN_TLS" in
  let* mEnabled := boolEnv "RSP_MASTER_TLS" in
  let* mSkip := boolEnv "RSP_MASTER_TLS_SKIP_VERIFY" in
  let* mPass := boolEnv "RSP_MASTER_TLS_PASSTHROUGH" in
  Ok (MkConfig
    (strEnv "RSP_LISTEN") (strEnv "RSP_REPLICA_LISTEN") (strEnv "RSP_REPLICA_FALLBACK")
    (strEnv "RSP_SENTINEL") (strEnv "RSP_MASTER")
    (strEnv "SENTINEL_USERNAME") (strEnv "SENTINEL_PASSWORD")
    (strEnv "RSP_MASTER_USERNAME") (strEnv "RSP_MASTER_PASSWORD")
    router retries maxConns idle debug
    (Some (BackendTLS.Mk sEnabled (strEnv "RSP_SENTINEL_TLS_CA_FILE")
       (strEnv "RSP_SENTINEL_TLS_CERT_FILE") (strEnv "RSP_SENTINEL_TLS_KEY_FILE")
       (strEnv "RSP_SENTINEL_TLS_SERVER_NAME") sSkip None))
    (Some (ListenTLSOpts.Mk lEnabled (strEnv "RSP_LISTEN_TLS_CERT_FILE")
       (strEnv "RSP_LISTEN_TLS_KEY_FILE") (strEnv "RSP_LISTEN_TLS_CLIENT_CA_FILE")))
    (Some (BackendTLS.Mk mEnabled (strEnv "RSP_MASTER_TLS_CA_FILE")
       (strEnv "RSP_MASTER_TLS_CERT_FILE") (strEnv "RSP_MASTER_TLS_KEY_FILE")
       (strEnv "RSP_MASTER_TLS_SERVER_NAME") mSkip mPass))
    None None None None).

(** ** File and Load (config.go) *)

(** [Duration.UnmarshalYAML] on the scalar's text. *)
Definition UnmarshalYAML (s : string) : option Z := ParseDuration s.

(** Its copy in pkg/types, which nothing uses: [decoded] is the result of
    [value.Decode], [d] the receiver; an error leaves it as it was. *)
Definition Types_UnmarshalYAML (decoded : option string) (d : Z) : bool * Z :=
  match decoded with
  | None => (false, d)
  | Some s =>
      match ParseDuration s with
      | None => (false, d)
      | Some parsed => (true, parsed)
      end
  end.

Definition loadFile (path : string) : result config_err Config :=
  match ReadFile host path with
  | None => Err ReadingConfigFile
  | Some data =>
      match yaml_decode host data with
      | Ok (cfg, None) => Ok cfg
      | Ok (cfg, Some s) =>
          match UnmarshalYAML s with
          | Some d => Ok (set_IdleTimeout cfg (Some d))
          | None => Err ParsingConfigFile
          end
      | Err YamlEOF => Ok emptyConfig
      | Err YamlError => Err ParsingConfigFile
      end
  end.

Definition set_tls (sentinel listen probe master : option tls_config) (c : Config) : Config :=
  MkConfig (Listen c) (ReplicaListen c) (ReplicaFallback c) (Sentinel c) (Master c)
    (Username c) (Password c) (MasterUsername c) (MasterPassword c) (Router c)
    (ResolveRetries c) (MaxConnections c) (IdleTimeout c) (Debug c)
    (SentinelTLS c) (ListenTLS c) (MasterTLS c) master probe sentinel listen.

Definition set_endpoints (l rl rf : option string) (c : Config) : Config :=
  MkConfig l rl rf (Sentinel c) (Master c)
    (Username c) (Password c) (MasterUsername c) (MasterPassword c) (Router c)
    (ResolveRetries c) (MaxConnections c) (IdleTimeout c) (Debug c)
    (SentinelTLS c) (ListenTLS c) (MasterTLS c)
    (tls_master c) (tls_masterProbe c) (tls_sentinel c) (tls_listen c).

(** The sources of a configuration merged in order of precedence. *)
Definition sources (flagCfg : option Config) (path : string) : result config_err Config :=
  let cfg := default emptyConfig flagCfg in
  let* envCfg := FromEnv in
  let cfg := Merge cfg (Some envCfg) in
  let* cfg :=
    if bool_decide (path = ""%string) then Ok cfg
    else let* fileCfg := loadFile path in Ok (Merge cfg (Some fileCfg)) in
  Ok (Merge cfg (Some Default)).

Definition Load (flagCfg : option Config) (path : string) : result config_err Config :=
  let* cfg := sources flagCfg path in
  let* fallback := deref (ReplicaFallback cfg) in
  if negb (bool_decide (fallback = ReplicaFallbackMaster))
     && negb (bool_decide (fallback = ReplicaFallbackReject))
  then Err (InvalidReplicaFallback fallback)
  else
  let* router := deref (Router cfg) in
  if router && match MasterTLS cfg with
               | Some m => boolSet (BackendTLS.Passthrough m)
               | None => false
               end
  then Err RouterWithPassthrough
  else
  let* sentinel := sentinelTLSConfig cfg in
  let* listen := listenTLSConfig cfg in
  let* (probe, master) := masterTLSConfig cfg in
  let cfg := set_tls sentinel listen probe master cfg in
  let l :=
    if strEmpty (Listen cfg) && strEmpty (ReplicaListen cfg)
    then Some ":10000"%string else Listen cfg in
  let '(rl, rf) :=
    match ReplicaListen cfg with
    | Some ""%string => (None, None)
    | rl => (rl, ReplicaFallback cfg)
    end in
  Ok (set_endpoints l rl rf cfg).

End WithHost.

(** [Config.String] marshals this copy: passwords masked, unset endpoints and
    TLS blocks left out. *)
Definition redacted (c : Config) : Config :=
  MkConfig
    (match Listen c with Some ""%string => None | l => l end)
    (ReplicaListen c) (ReplicaFallback c) (Sentinel c) (Master c)
    (Username c)
    (if strSet (Password c) then Some "*****"%string else Password c)
    (MasterUsername c)
    (if strSet (MasterPassword c) then Some "*****"%string else MasterPassword c)
    (Router c) (ResolveRetries c) (MaxConnections c) (IdleTimeout c) (Debug c)
    (match SentinelTLS c with
     | Some t => if negb (boolSet (BackendTLS.Enabled t)) then None else Some t
     | None => None
     end)
    (match ListenTLS c with
     | Some t => if negb (boolSet (ListenTLSOpts.Enabled t)) then None else Some t
     | None => None
     end)
    (match MasterTLS c with
     | Some t =>
         if negb (boolSet (BackendTLS.Enabled t)) && negb (boolSet (BackendTLS.Passthrough t))
         then None else Some t
     | None => None
     end)
    (tls_master c) (tls_masterProbe c) (tls_sentinel c) (tls_listen c).

(** ** Flags (flags.go)

    [BindFlags] registers one variable per flag; after [fs.Parse] the flag set
    holds the variables' values and the names that occurred on the command
    line, which [fs.Visit] walks in order. *)

Record FlagSet : Type := MkFlagSet {
  actual : list string;
  strVar : string -> string;
  boolVar : string -> bool;
  intVar : string -> Z;
  durVar : string -> Z
}.

Inductive setter : Type :=
| strFlag (set : Config -> option string -> Config)
| boolFlag (set : Config -> option bool -> Config)
| intFlag (set : Config -> option Z -> Config)
| durFlag (set : Config -> option Z -> Config).

(** [set(c, p)] of a visited flag. *)
Definition run_setter (fs : FlagSet) (name : string) (c : Config) (s : setter) : Config :=
  match s with
  | strFlag set => set c (Some (strVar fs name))
  | boolFlag set => set c (Some (boolVar fs name))
  | intFlag set => set c (Some (intVar fs name))
  | durFlag set => set c (Some (durVar fs name))
  end.

(** Assignment to one field of a TLS block that exists or is made. *)
Definition backend_Enabled (t : option BackendTLS.t) (v : option bool) : option BackendTLS.t :=
  let s := ensureBackendTLS t in Some
    (BackendTLS.Mk v (BackendTLS.CAFile s) (BackendTLS.CertFile s) (BackendTLS.KeyFile s)
    (BackendTLS.ServerName s) (BackendTLS.SkipVerify s) (BackendTLS.Passthrough s)).
Definition backend_CAFile (t : option BackendTLS.t) (v : option string) : option BackendTLS.t :=
  let s := ensureBackendTLS t in Some
    (BackendTLS.Mk (BackendTLS.Enabled s) v (BackendTLS.CertFile s) (BackendTLS.KeyFile s)
    (BackendTLS.ServerName s) (BackendTLS.SkipVerify s) (BackendTLS.Passthrough s)).
Definition backend_CertFile (t : option BackendTLS.t) (v : option string) : option BackendTLS.t :=
  let s := ensureBackendTLS t in Some
    (BackendTLS.Mk (BackendTLS.Enabled s) (BackendTLS.CAFile s) v (BackendTLS.KeyFile s)
    (BackendTLS.ServerName s) (BackendTLS.SkipVerify s) (BackendTLS.Passthrough s)).
Definition backend_KeyFile (t : option BackendTLS.t) (v : option string) : option BackendTLS.t :=
  let s := ensureBackendTLS t in Some
    (BackendTLS.Mk (BackendTLS.Enabled s) (BackendTLS.CAFile s) (BackendTLS.CertFile s) v
    (BackendTLS.ServerName s) (BackendTLS.SkipVerify s) (BackendTLS.Passthrough s)).
Definition backend_ServerName (t : option BackendTLS.t) (v : option string) : option BackendTLS.t :=
  let s := ensureBackendTLS t in Some
    (BackendTLS.Mk (BackendTLS.Enabled s) (BackendTLS.CAFile s) (BackendTLS.CertFile s)
    (BackendTLS.KeyFile s) v (BackendTLS.SkipVerify s) (BackendTLS.Passthrough s)).
Definition backend_SkipVerify (t : option BackendTLS.t) (v : option bool) : option BackendTLS.t :=
  let s := ensureBackendTLS t in Some
    (BackendTLS.Mk (BackendTLS.Enabled s) (BackendTLS.CAFile s) (BackendTLS.CertFile s)
    (BackendTLS.KeyFile s) (BackendTLS.ServerName s) v (BackendTLS.Passthrough s)).
Definition backend_Passthrough (t : option BackendTLS.t) (v : option bool) : option BackendTLS.t :=
  let s := ensureBackendTLS t in Some
    (BackendTLS.Mk (BackendTLS.Enabled s) (BackendTLS.CAFile s) (BackendTLS.CertFile s)
    (BackendTLS.KeyFile s) (BackendTLS.ServerName s) (BackendTLS.SkipVerify s) v).
Definition listen_Enabled (t : option ListenTLSOpts.t) (v : option bool) : option ListenTLSOpts.t :=
  let s := ensureListenTLS t in Some
    (ListenTLSOpts.Mk v (ListenTLSOpts.CertFile s) (ListenTLSOpts.KeyFile s)
    (ListenTLSOpts.ClientCAFile s)).
Definition listen_CertFile (t : option ListenTLSOpts.t) (v : option string) : option ListenTLSOpts.t :=
  let s := ensureListenTLS t in Some
    (ListenTLSOpts.Mk (ListenTLSOpts.Enabled s) v (ListenTLSOpts.KeyFile s)
    (ListenTLSOpts.ClientCAFile s)).
Definition listen_KeyFile (t : option ListenTLSOpts.t) (v : option string) : option ListenTLSOpts.t :=
  let s := ensureListenTLS t in Some
    (ListenTLSOpts.Mk (ListenTLSOpts.Enabled s) (ListenTLSOpts.CertFile s) v
    (ListenTLSOpts.ClientCAFile s)).
Definition listen_ClientCAFile (t : option ListenTLSOpts.t) (v : option string) : option ListenTLSOpts.t :=
  let s := ensureListenTLS t in Some
    (ListenTLSOpts.Mk (ListenTLSOpts.Enabled s) (ListenTLSOpts.CertFile s)
    (ListenTLSOpts.KeyFile s) v).

(** The map [assign] of [BindFlags]. *)
Definition assign : list (string * setter) := [
  ("listen", strFlag set_Listen);
  ("replica-listen", strFlag set_ReplicaListen);
  ("replica-fallback", strFlag set_ReplicaFallback);
  ("sentinel", strFlag set_Sentinel);
  ("master", strFlag set_Master);
  ("username", strFlag set_Username);
  ("password", strFlag set_Password);
  ("master-username", strFlag set_MasterUsername);
  ("master-password", strFlag set_MasterPassword);
  ("router", boolFlag set_Router);
  ("resolve-retries", intFlag set_ResolveRetries);
  ("max-connections", intFlag set_MaxConnections);
  ("idle-timeout", durFlag set_IdleTimeout);
  ("debug", boolFlag set_Debug);
  ("sentinel-tls", boolFlag (fun c v => set_SentinelTLS c (backend_Enabled (SentinelTLS c) v)));
  ("sentinel-tls-ca-file", strFlag (fun c v => set_SentinelTLS c (backend_CAFile (SentinelTLS c) v)));
  ("sentinel-tls-cert-file", strFlag (fun c v => set_SentinelTLS c (backend_CertFile (SentinelTLS c) v)));
  ("sentinel-tls-key-file", strFlag (fun c v => set_SentinelTLS c (backend_KeyFile (SentinelTLS c) v)));
  ("sentinel-tls-server-name", strFlag (fun c v => set_SentinelTLS c (backend_ServerName (SentinelTLS c) v)));
  ("sentinel-tls-skip-verify", boolFlag (fun c v => set_SentinelTLS c (backend_SkipVerify (SentinelTLS c) v)));
  ("listen-tls", boolFlag (fun c v => set_ListenTLS c (listen_Enabled (ListenTLS c) v)));
  ("listen-tls-cert-file", strFlag (fun c v => set_ListenTLS c (listen_CertFile (ListenTLS c) v)));
  ("listen-tls-key-file", strFlag (fun c v => set_ListenTLS c (listen_KeyFile (ListenTLS c) v)));
  ("listen-tls-client-ca-file", strFlag (fun c v => set_ListenTLS c (listen_ClientCAFile (ListenTLS c) v)));
  ("master-tls", boolFlag (fun c v => set_MasterTLS c (backend_Enabled (MasterTLS c) v)));
  ("master-tls-ca-file", strFlag (fun c v => set_MasterTLS c (backend_CAFile (MasterTLS c) v)));
  ("master-tls-cert-file", strFlag (fun c v => set_MasterTLS c (backend_CertFile (MasterTLS c) v)));
  ("master-tls-key-file", strFlag (fun c v => set_MasterTLS c (backend_KeyFile (MasterTLS c) v)));
  ("master-tls-server-name", strFlag (fun c v => set_MasterTLS c (backend_ServerName (MasterTLS c) v)));
  ("master-tls-skip-verify", boolFlag (fun c v => set_MasterTLS c (backend_SkipVerify (MasterTLS c) v)));
  ("master-tls-passthrough", boolFlag (fun c v => set_MasterTLS c (backend_Passthrough (MasterTLS c) v)))
]%string.

Fixpoint assign_lookup (t : list (string * setter)) (name : string) : option setter :=
  match t with
  | [] => None
  | (n, s) :: t' => if String.eqb n name then Some s else assign_lookup t' name
  end.

(** The function [BindFlags] returns. *)
Definition fromFlags (fs : FlagSet) : Config :=
  fold_left
    (fun c name =>
       match assign_lookup assign name with
       | Some s => run_setter fs name c s
       | None => c
       end)
    (actual fs) emptyConfig.

(** ** Specifications *)

(** The value of the first source that sets a field. *)
Fixpoint first_set {A} (l : list (option A)) : option A :=
  match l with
  | [] => None
  | x :: l' => match x with Some _ => x | None => first_set l' end
  end.

(** A configuration with its missing TLS blocks made: blocks without options
    mean the same as no block. *)
Definition with_blocks (c : Config) : Config :=
  set_MasterTLS (set_ListenTLS (set_SentinelTLS c (Some (ensureBackendTLS (SentinelTLS c))))
    (Some (ensureListenTLS (ListenTLS c)))) (Some (ensureBackendTLS (MasterTLS c))).

(** The configuration that holds exactly the options of the command line. *)
Definition flag_spec (fs : FlagSet) : Config :=
  let opt {A} (name : string) (var : string -> A) : option A :=
    if set_has (actual fs) name then Some (var name) else None in
  let str name := opt name (strVar fs) in
  let bool name := opt name (boolVar fs) in
  MkConfig (str "listen") (str "replica-listen") (str "replica-fallback") (str "sentinel")
    (str "master") (str "username") (str "password") (str "master-username")
    (str "master-password") (bool "router") (opt "resolve-retries" (intVar fs))
    (opt "max-connections" (intVar fs)) (opt "idle-timeout" (durVar fs)) (bool "debug")
    (Some (BackendTLS.Mk (bool "sentinel-tls") (str "sentinel-tls-ca-file")
       (str "sentinel-tls-cert-file") (str "sentinel-tls-key-file")
       (str "sentinel-tls-server-name") (bool "sentinel-tls-skip-verify") None))
    (Some (ListenTLSOpts.Mk (bool "listen-tls") (str "listen-tls-cert-file")
       (str "listen-tls-key-file") (str "listen-tls-client-ca-file")))
    (Some (BackendTLS.Mk (bool "master-tls") (str "master-tls-ca-file")
       (str "master-tls-cert-file") (str "master-tls-key-file")
       (str "master-tls-server-name") (bool "master-tls-skip-verify")
       (bool "master-tls-passthrough")))
    None None None None.

(** ** Lemmas *)

Lemma set_has_snoc l x n : set_has (l ++ [x]) n = String.eqb n x || set_has l n.
Proof. unfold set_has. rewrite existsb_app. simpl. by rewrite orb_false_r, orb_comm. Qed.

Lemma assign_lookup_Some t name s : assign_lookup t name = Some s -> (name, s) ∈ t.
Proof.
  induction t as [|[n s'] t IH]; simpl; [done|].
  destruct (String.eqb_spec n name) as [->|?]; [|set_solver].
  intros [= ->]. set_solver.
Qed.

Lemma assign_lookup_None t name : assign_lookup t name = None -> name ∉ t.*1.
Proof.
  induction t as [|[n s'] t IH]; simpl; [intros _; apply not_elem_of_nil|].
  destruct (String.eqb_spec n name) as [->|Hn]; [done|].
  intros ?. apply not_elem_of_cons; auto.
Qed.

(** What a visited flag does to a configuration. *)
Definition flag_step (fs : FlagSet) (c : Config) (name : string) : Config :=
  match assign_lookup assign name with
  | Some s => run_setter fs name c s
  | None => c
  end.

Ltac assign_cases H :=
  unfold assign in H; repeat (apply elem_of_cons in H as [Heq | H]; [injection Heq as -> -> |]);
  [.. | by apply not_elem_of_nil in H].

Lemma flag_step_blocks fs c x :
  with_blocks (flag_step fs c x) = with_blocks (flag_step fs (with_blocks c) x).
Proof.
  unfold flag_step. destruct (assign_lookup assign x) as [s|] eqn:E; [|done].
  apply assign_lookup_Some in E. assign_cases E; reflexivity.
Qed.

Lemma flag_step_spec fs l x :
  with_blocks (flag_step fs (flag_spec (MkFlagSet l (strVar fs) (boolVar fs) (intVar fs) (durVar fs))) x)
  = flag_spec (MkFlagSet (l ++ [x]) (strVar fs) (boolVar fs) (intVar fs) (durVar fs)).
Proof.
  unfold flag_step, flag_spec. cbn [actual]. setoid_rewrite set_has_snoc.
  destruct (assign_lookup assign x) as [s|] eqn:E.
  - apply assign_lookup_Some in E. assign_cases E; reflexivity.
  - apply assign_lookup_None in E.
    assert (forall n, n ∈ assign.*1 -> String.eqb n x = false) as Hn.
    { intros n Hn. apply String.eqb_neq. by intros ->. }
    rewrite !Hn by (apply list_elem_of_In; cbn; tauto). done.
Qed.

Lemma fromFlags_blocks fs : with_blocks (fromFlags fs) = flag_spec fs.
Proof.
  destruct fs as [l sv bv iv dv]. unfold fromFlags. cbn [actual].
  set (fs := MkFlagSet [] sv bv iv dv).
  change (with_blocks (fold_left (flag_step fs) l emptyConfig) = flag_spec (MkFlagSet l sv bv iv dv)).
  induction l as [|x l IH] using rev_ind; [done|].
  rewrite fold_left_app. cbn [fold_left].
  rewrite flag_step_blocks, IH. exact (flag_step_spec fs l x).
Qed.

(** C33: The configuration built from the command line holds exactly the options
    that occurred on it: every visited flag sets its own field to its parsed
    value, every other field stays unset, whatever the order of the visit, and
    an unknown name (such as [-config]) sets nothing. *)
Theorem fromFlags_spec (fs : FlagSet) : with_blocks (fromFlags fs) = flag_spec fs.
Proof. apply fromFlags_blocks. Qed.

(** *** The sources *)

(** The options of a configuration, by type.  Four are treated apart: [Load]
    adjusts [Listen], [ReplicaListen] and [ReplicaFallback] afterwards, and
    [Passthrough] of the block [SentinelTLS] is the one [Merge] does not fill
    ([sentinel_passthrough]). *)
Definition str_fields : list (Config -> option string) :=
  [Sentinel; Master; Username; Password; MasterUsername; MasterPassword;
   fun c => SentinelTLS c ≫= BackendTLS.CAFile; fun c => SentinelTLS c ≫= BackendTLS.CertFile;
   fun c => SentinelTLS c ≫= BackendTLS.KeyFile; fun c => SentinelTLS c ≫= BackendTLS.ServerName;
   fun c => ListenTLS c ≫= ListenTLSOpts.CertFile; fun c => ListenTLS c ≫= ListenTLSOpts.KeyFile;
   fun c => ListenTLS c ≫= ListenTLSOpts.ClientCAFile;
   fun c => MasterTLS c ≫= BackendTLS.CAFile; fun c => MasterTLS c ≫= BackendTLS.CertFile;
   fun c => MasterTLS c ≫= BackendTLS.KeyFile; fun c => MasterTLS c ≫= BackendTLS.ServerName].
Definition bool_fields : list (Config -> option bool) :=
  [Router; Debug;
   fun c => SentinelTLS c ≫= BackendTLS.Enabled; fun c => SentinelTLS c ≫= BackendTLS.SkipVerify;
   fun c => ListenTLS c ≫= ListenTLSOpts.Enabled;
   fun c => MasterTLS c ≫= BackendTLS.Enabled; fun c => MasterTLS c ≫= BackendTLS.SkipVerify;
   fun c => MasterTLS c ≫= BackendTLS.Passthrough].
Definition int_fields : list (Config -> option Z) := [ResolveRetries; MaxConnections; IdleTimeout].

(** [merges get]: merging gives the destination's value of the field, else the
    source's. *)
Definition merges {A} (get : Config -> option A) : Prop :=
  forall c o, get (Merge c (Some o)) = first_set [get c; get o].

Ltac merges_tac :=
  intros [???? ???? ???? ?? [[]|] [[]|] [[]|] ????] [???? ???? ???? ?? [[]|] [[]|] [[]|] ????];
  cbn; unfold fill; repeat case_match; congruence.

Lemma merges_Listen : merges Listen.
Proof. merges_tac. Qed.
Lemma merges_ReplicaListen : merges ReplicaListen.
Proof. merges_tac. Qed.
Lemma merges_ReplicaFallback : merges ReplicaFallback.
Proof. merges_tac. Qed.
#[export] Hint Resolve merges_Listen merges_ReplicaListen merges_ReplicaFallback : go.

Lemma Merge_str_fields : Forall merges str_fields.
Proof. repeat apply Forall_cons_2; [merges_tac..|apply Forall_nil_2]. Qed.
Lemma Merge_bool_fields : Forall merges bool_fields.
Proof. repeat apply Forall_cons_2; [merges_tac..|apply Forall_nil_2]. Qed.
Lemma Merge_int_fields : Forall merges int_fields.
Proof. repeat apply Forall_cons_2; [merges_tac..|apply Forall_nil_2]. Qed.

(** The option of the sentinel block that [Merge] leaves out. *)
Definition sentinel_passthrough (c : Config) : option bool := SentinelTLS c ≫= BackendTLS.Passthrough.

Lemma Merge_sentinel_passthrough c o :
  sentinel_passthrough (Merge c o) = sentinel_passthrough c.
Proof.
  destruct o as [o|]; [|done]. unfold sentinel_passthrough. cbn.
  by destruct (SentinelTLS o), (SentinelTLS c).
Qed.

Lemma fill_None {A} (x : option A) : fill x None = x.
Proof. by destruct x. Qed.

Lemma Merge_empty c : Merge c (Some emptyConfig) = c.
Proof. destruct c. cbn. by rewrite !fill_None. Qed.

Section Loading.
Variable host : Host.
Implicit Types cfg m env file : Config.

(** What the sources hold when they can all be read. *)
Definition read_sources (path : string) (env file : Config) : Prop :=
  FromEnv host = Ok env /\
  (if bool_decide (path = ""%string) then file = emptyConfig else loadFile host path = Ok file).

Lemma sources_inv f path m :
  sources host f path = Ok m ->
  exists env file, read_sources path env file /\
    m = Merge (Merge (Merge (default emptyConfig f) (Some env)) (Some file)) (Some Default).
Proof.
  unfold sources, read_sources. destruct (FromEnv host) as [env|] eqn:He; [|done]. cbn [result_bind].
  case_bool_decide.
  - cbn [result_bind]. intros [= <-]. exists env, emptyConfig. by rewrite Merge_empty.
  - destruct (loadFile host path) as [file|] eqn:Hf; [|done]. cbn [result_bind].
    intros [= <-]. eauto 10.
Qed.

Lemma sources_takes {A} (get : Config -> option A) f m env file :
  merges get ->
  m = Merge (Merge (Merge f (Some env)) (Some file)) (Some Default) ->
  get m = first_set [get f; get env; get file; get Default].
Proof.
  intros Hget ->. rewrite !Hget.
  by destruct (get f), (get env), (get file), (get Default).
Qed.

Lemma Load_inv f path cfg :
  Load host f path = Ok cfg ->
  exists m fb s l p d,
    sources host f path = Ok m /\
    ReplicaFallback m = Some fb /\
    (fb = ReplicaFallbackMaster \/ fb = ReplicaFallbackReject) /\
    (Router m = Some true -> boolSet (MasterTLS m ≫= BackendTLS.Passthrough) = false) /\
    sentinelTLSConfig host m = Ok s /\ listenTLSConfig host m = Ok l /\
    masterTLSConfig host m = Ok (p, d) /\
    cfg = set_endpoints
      (if strEmpty (Listen m) && strEmpty (ReplicaListen m) then Some ":10000"%string else Listen m)
      (if bool_decide (ReplicaListen m = Some ""%string) then None else ReplicaListen m)
      (if bool_decide (ReplicaListen m = Some ""%string) then None else ReplicaFallback m)
      (set_tls s l p d m).
Proof.
  unfold Load. destruct (sources host f path) as [m|]; [|done]. cbn [result_bind].
  destruct (ReplicaFallback m) as [fb|] eqn:Hfb; [|done]. cbn [result_bind deref].
  destruct (_ && _) eqn:Hv; [done|].
  destruct (Router m) as [r|] eqn:Hr; [|done]. cbn [result_bind deref].
  destruct (r && _) eqn:Hrp; [done|].
  destruct (sentinelTLSConfig host m) as [s|] eqn:Hs; [|done]. cbn [result_bind].
  destruct (listenTLSConfig host m) as [l|] eqn:Hl; [|done]. cbn [result_bind].
  destruct (masterTLSConfig host m) as [[p d]|] eqn:Hm; [|done]. cbn [result_bind].
  intros Hc. exists m, fb, s, l, p, d. split_and!; try done.
  - apply andb_false_iff in Hv as [?%negb_false_iff|?%negb_false_iff]; to_prop; auto.
  - rewrite Hr. intros [= ->]. cbn in Hrp. by destruct (MasterTLS m).
  - revert Hc. cbn [Listen ReplicaListen ReplicaFallback set_tls].
    destruct (ReplicaListen m) as [[|a rl]|] eqn:Hrl.
    + rewrite bool_decide_eq_true_2 by done. by intros [= <-].
    + rewrite bool_decide_eq_false_2 by done. by intros [= <-].
    + rewrite bool_decide_eq_false_2 by done. by intros [= <-].
Qed.

(** C13: [Load] implements the documented precedence: the options of the loaded
    configuration have the value of the first of flags, environment, file and
    defaults that sets them, with four exceptions.  The listen address gets
    [:10000] when no endpoint is configured, an empty replica endpoint is
    switched off together with its fallback policy, and
    [sentinel_tls.passthrough] is not merged: it keeps the value of the first
    source alone, whatever environment, file and defaults say.  Together these
    are all options of a configuration. *)
Theorem Load_precedence (f : Config) (path : string) (cfg : Config) :
  Load host (Some f) path = Ok cfg ->
  exists env file, read_sources path env file /\
    let takes {A} (get : Config -> option A) :=
      first_set [get f; get env; get file; get Default] in
    Forall (fun get => get cfg = takes get) str_fields /\
    Forall (fun get => get cfg = takes get) bool_fields /\
    Forall (fun get => get cfg = takes get) int_fields /\
    Listen cfg =
      (if strEmpty (takes Listen) && strEmpty (takes ReplicaListen)
       then Some ":10000"%string else takes Listen) /\
    ReplicaListen cfg =
      (if strEmpty (takes ReplicaListen) then None else takes ReplicaListen) /\
    ReplicaFallback cfg =
      (if strEmpty (takes ReplicaListen) then None else takes ReplicaFallback) /\
    sentinel_passthrough cfg = sentinel_passthrough f.
Proof.
  intros (m & fb & s & l & p & d & (env & file & Hrd & Hm)%sources_inv & _ & _ & _ & _ & _ & _ & ->)%Load_inv.
  exists env, file. split; [done|]. cbn [from_option default] in Hm.
  assert (forall A (get : Config -> option A), merges get ->
    first_set [get f; get env; get file; get Default] = get m) as Ht
    by (intros; symmetry; by apply sources_takes).
  cbv beta zeta.
  rewrite (Ht _ Listen), (Ht _ ReplicaListen), (Ht _ ReplicaFallback) by auto with go.
  assert (forall A (fs : list (Config -> option A)) cfg, Forall merges fs ->
    Forall (fun get => get cfg = get m) fs ->
    Forall (fun get => get cfg = first_set [get f; get env; get file; get Default]) fs) as Hall.
  { intros A fs cfg' Hf Hg. apply Forall_forall. intros get Hin. rewrite Forall_forall in Hf, Hg.
    rewrite Ht by auto. auto. }
  assert (is_Some (ReplicaListen m)) as [rl Hrl].
  { rewrite <- (Ht _ ReplicaListen) by auto with go. cbn. by repeat case_match. }
  split_and!.
  - apply Hall; [apply Merge_str_fields|]. repeat constructor.
  - apply Hall; [apply Merge_bool_fields|]. repeat constructor.
  - apply Hall; [apply Merge_int_fields|]. repeat constructor.
  - done.
  - cbn. rewrite Hrl. unfold strEmpty, strSet. rewrite negb_involutive.
    by repeat case_bool_decide; simplify_eq.
  - cbn. rewrite Hrl. unfold strEmpty, strSet. rewrite negb_involutive.
    by repeat case_bool_decide; simplify_eq.
  - change (sentinel_passthrough m = sentinel_passthrough f).
    by rewrite Hm, !Merge_sentinel_passthrough.
Qed.

(** *** No nil dereference *)

Definition avoids {A} (e : config_err) (m : result config_err A) : Prop := m <> Err e.
Abbreviation no_panic := (avoids Panic).

Lemma avoids_bind {A B} e (m : result config_err A) (k : A -> result config_err B) :
  avoids e m -> (forall a, m = Ok a -> avoids e (k a)) -> avoids e (result_bind m k).
Proof. unfold avoids. destruct m; cbn; [auto|congruence]. Qed.

Lemma avoids_Ok {A} e (a : A) : avoids e (Ok a).
Proof. done. Qed.

Lemma no_panic_deref {A} (p : option A) : is_Some p -> no_panic (deref p).
Proof. by intros [x ->]. Qed.

Lemma no_panic_parseEnv {A} (parse : string -> option A) name :
  no_panic (parseEnv host parse name).
Proof. unfold parseEnv, avoids. by repeat case_match. Qed.

Hint Resolve avoids_Ok no_panic_deref no_panic_parseEnv : go.

Ltac np_if := lazymatch goal with |- avoids _ (if ?b then _ else _) => destruct b eqn:? end.

Lemma no_panic_sources f path : no_panic (sources host f path).
Proof.
  unfold sources. apply avoids_bind.
  - unfold FromEnv. repeat (apply avoids_bind; [apply no_panic_parseEnv|intros ? _]). done.
  - intros env _. apply avoids_bind; [|done].
    case_bool_decide; [done|]. apply avoids_bind; [|done].
    unfold loadFile, avoids. by repeat case_match.
Qed.

Lemma strSet_is_Some s : strSet s = true -> is_Some s.
Proof. destruct s; [eauto|done]. Qed.

Lemma no_panic_loadKeyPair cert key err :
  strSet cert = true -> strSet key = true -> err <> Panic -> no_panic (loadKeyPair host cert key err).
Proof.
  intros [c ->]%strSet_is_Some [k ->]%strSet_is_Some He. unfold loadKeyPair, avoids. cbn.
  case_match; congruence.
Qed.

Lemma no_panic_backendTLSConf c e1 e2 e3 :
  is_Some (BackendTLS.ServerName c) -> is_Some (BackendTLS.SkipVerify c) ->
  e1 <> Panic -> e2 <> Panic -> e3 <> Panic -> no_panic (backendTLSConf host c e1 e2 e3).
Proof.
  intros [sn Hs] [sv Hv] H1 H2 H3. unfold backendTLSConf. rewrite Hs, Hv. cbn [deref result_bind].
  apply avoids_bind.
  { unfold avoids. repeat case_match; congruence. }
  intros pool _. destruct (negb _) eqn:Hck; [by intros [= ->]|]. apply avoids_bind; [|done].
  destruct (strSet (BackendTLS.CertFile c)) eqn:Hc; [|done].
  apply avoids_bind; [|done]. apply no_panic_loadKeyPair; [done| |done].
  unfold strEmpty in Hck. rewrite Hc in Hck. by destruct (strSet (BackendTLS.KeyFile c)).
Qed.

(** A configuration every required pointer of which is set. *)
Definition complete (c : Config) : Prop :=
  is_Some (Sentinel c) /\ is_Some (Master c) /\ is_Some (Router c) /\ is_Some (ResolveRetries c) /\
  is_Some (MaxConnections c) /\ is_Some (IdleTimeout c) /\ is_Some (Debug c).

Definition tls_complete (t : option BackendTLS.t) : Prop :=
  forall c, t = Some c -> is_Some (BackendTLS.ServerName c) /\ is_Some (BackendTLS.SkipVerify c).

Lemma Merge_Default_complete c :
  complete (Merge c (Some Default)) /\ is_Some (ReplicaFallback (Merge c (Some Default))) /\
  is_Some (ReplicaListen (Merge c (Some Default))) /\
  tls_complete (SentinelTLS (Merge c (Some Default))) /\
  tls_complete (MasterTLS (Merge c (Some Default))).
Proof.
  assert (forall A (x : option A) y, is_Some (fill x (Some y))) as Hf by (intros A [] ?; eauto).
  unfold complete, tls_complete. cbn. split_and!; auto; by intros ? [= <-]; cbn; auto.
Qed.

Lemma sources_complete f path m :
  sources host f path = Ok m ->
  complete m /\ is_Some (ReplicaFallback m) /\ is_Some (ReplicaListen m) /\
  tls_complete (SentinelTLS m) /\ tls_complete (MasterTLS m).
Proof. intros (env & file & _ & ->)%sources_inv. apply Merge_Default_complete. Qed.

(** [Load] never dereferences a nil pointer, whatever the flags, the
    environment, the files and the decoded YAML are: merging the defaults last
    sets every pointer the validation and the TLS setup read. *)
Lemma Load_no_panic (f : option Config) (path : string) : Load host f path <> Err Panic.
Proof.
  apply avoids_bind; [apply no_panic_sources|].
  intros m ((_ & _ & Hr & _) & Hfb & _ & Hs & Hm)%sources_complete.
  apply avoids_bind; [auto with go|]. intros fb _. np_if; [done|].
  apply avoids_bind; [auto with go|]. intros r _. np_if; [done|].
  apply avoids_bind.
  { unfold sentinelTLSConfig. destruct (SentinelTLS m) as [c|] eqn:E; [|done].
    np_if; [done|]. np_if; [by np_if|].
    destruct (Hs _ eq_refl). apply avoids_bind; [by apply no_panic_backendTLSConf|done]. }
  intros s _. apply avoids_bind.
  { unfold listenTLSConfig. destruct (ListenTLS m) as [c|] eqn:E; [|done].
    np_if; [by np_if|]. np_if; [done|]. unfold strEmpty in *. to_prop.
    apply avoids_bind; [by apply no_panic_loadKeyPair|]. intros. unfold avoids. by repeat case_match. }
  intros l _. apply avoids_bind.
  { unfold masterTLSConfig. destruct (MasterTLS m) as [c|] eqn:E; [|done].
    cbv zeta. np_if; [done|]. np_if; [done|]. destruct (Hm _ eq_refl).
    apply avoids_bind; [by apply no_panic_backendTLSConf|]. intros. by np_if. }
  intros [p d] _. cbv zeta. by repeat case_match.
Qed.

(** *** What a loaded configuration guarantees *)

(** Endpoints as the proxy needs them. *)
Definition endpoints_ok (c : Config) : Prop :=
  (strSet (Listen c) = true \/ strSet (ReplicaListen c) = true) /\
  ReplicaListen c <> Some ""%string /\
  (ReplicaListen c = None <-> ReplicaFallback c = None) /\
  (forall fb, ReplicaFallback c = Some fb -> fb = ReplicaFallbackMaster \/ fb = ReplicaFallbackReject).

Lemma Load_valid f path cfg :
  Load host f path = Ok cfg ->
  endpoints_ok cfg /\ complete cfg /\
  (Router cfg = Some true -> boolSet (MasterTLS cfg ≫= BackendTLS.Passthrough) = false).
Proof.
  intros (m & fb & s & l & p & d & Hsrc & Hfb & Hv & Hrt & _ & _ & _ & ->)%Load_inv.
  apply sources_complete in Hsrc as (Hc & _ & [rl Hrl] & _ & _).
  split_and!; [|exact Hc|exact Hrt].
  unfold endpoints_ok, set_endpoints; cbn [Listen ReplicaListen ReplicaFallback set_tls].
  rewrite Hrl, Hfb. unfold strEmpty. cbn [strSet].
  destruct (decide (rl = ""%string)) as [->|Hrl0].
  - rewrite !bool_decide_eq_true_2 by done. split_and!; try done.
    left. rewrite andb_true_r. by destruct (strSet (Listen m)) eqn:E.
  - rewrite !bool_decide_eq_false_2 by congruence. split_and!; try done; [|congruence|].
    + right. cbn. by rewrite bool_decide_eq_false_2.
    + by intros ? [= <-].
Qed.

(** C25: A configuration [Load] accepts has at least one endpoint, no endpoint
    that is set but empty, a fallback policy exactly when the replica endpoint
    is on, and then one of the two documented policies; every option the proxy
    and the resolver dereference is set; and router mode is never combined with
    TLS passthrough. *)
Theorem Load_wf (f : option Config) (path : string) (cfg : Config) :
  Load host f path = Ok cfg ->
  endpoints_ok cfg /\ complete cfg /\
  (Router cfg = Some true -> boolSet (MasterTLS cfg ≫= BackendTLS.Passthrough) = false).
Proof. apply Load_valid. Qed.

(** The pool is the certificates of the file the option names, and there is none
    without the option. *)
Definition pool_of (file pool : option string) : Prop :=
  match pool with
  | Some pem => exists ca, file = Some ca /\ ca <> ""%string /\
      ReadFile host ca = Some pem /\ pem_has_certs host pem = true
  | None => strSet file = false
  end.

(** The certificate is the accepted pair of the two files the options name, in
    this order, and there is none without both options. *)
Definition pair_of (cert key : option string) (certs : list (string * string)) : Prop :=
  match certs with
  | [] => strSet cert = false /\ strSet key = false
  | [(c, k)] => cert = Some c /\ key = Some k /\ c <> ""%string /\ k <> ""%string /\
      keypair_ok host c k = true
  | _ => False
  end.

(** TLS settings that honour the options of a backend. *)
Definition backend_ok (c : BackendTLS.t) (t : tls_config) : Prop :=
  MinVersion t = VersionTLS12 /\
  Some (tlsServerName t) = BackendTLS.ServerName c /\
  Some (InsecureSkipVerify t) = BackendTLS.SkipVerify c /\
  pool_of (BackendTLS.CAFile c) (RootCAs t) /\
  pair_of (BackendTLS.CertFile c) (BackendTLS.KeyFile c) (Certificates t).

Lemma strSet_false s : strSet s = false <-> s = None \/ s = Some ""%string.
Proof. destruct s; cbn; [|naive_solver]. case_bool_decide; naive_solver. Qed.

Lemma strSet_true s : strSet s = true -> exists v, s = Some v /\ v <> ""%string.
Proof. destruct s; cbn; [|done]. case_bool_decide; naive_solver. Qed.

Lemma loadCertPool_Some ca pem :
  ca <> ""%string -> loadCertPool host ca = Some pem -> pool_of (Some ca) (Some pem).
Proof.
  unfold loadCertPool. destruct (ReadFile host ca) as [x|] eqn:E; [|done].
  destruct (pem_has_certs host x) eqn:Ep; [|done]. intros ? [= ->]. by exists ca.
Qed.

Lemma deref_Ok {A} (p : option A) a : deref p = Ok a -> p = Some a.
Proof. by destruct p; intros [= ->]. Qed.

Lemma loadKeyPair_Ok c k e p :
  loadKeyPair host c k e = Ok p ->
  exists cert key, c = Some cert /\ k = Some key /\ p = (cert, key) /\ keypair_ok host cert key = true.
Proof.
  unfold loadKeyPair. intros (cert & ->%deref_Ok & H)%result_bind_Ok.
  apply result_bind_Ok in H as (key & ->%deref_Ok & H). destruct (keypair_ok _ _ _) eqn:E; naive_solver.
Qed.

Lemma backendTLSConf_ok c e1 e2 e3 t : backendTLSConf host c e1 e2 e3 = Ok t -> backend_ok c t.
Proof.
  unfold backendTLSConf, backend_ok, pair_of. intros (sn & Hsn%deref_Ok & H)%result_bind_Ok.
  apply result_bind_Ok in H as (sv & Hsv%deref_Ok & H).
  apply result_bind_Ok in H as (ca & Hca & H).
  destruct (negb _) eqn:Hck; [done|].
  apply result_bind_Ok in H as (certs & Hcerts & [= <-]). cbn. split_and!; try done.
  - destruct (BackendTLS.CAFile c) as [f|]; [|by injection Hca as <-].
    case_bool_decide; [injection Hca as <-; by apply strSet_false; subst; right|].
    destruct (loadCertPool host f) eqn:E; [|done]. injection Hca as <-. by apply loadCertPool_Some.
  - assert (strSet (BackendTLS.CertFile c) = strSet (BackendTLS.KeyFile c)) as Heq
      by (unfold strEmpty in Hck; by destruct (strSet (BackendTLS.CertFile c)), (strSet (BackendTLS.KeyFile c))).
    destruct (strSet (BackendTLS.CertFile c)) eqn:Ec; [|by injection Hcerts as <-].
    apply result_bind_Ok in Hcerts as (p & (cert & key & Hc & Hk & -> & Hkp)%loadKeyPair_Ok & [= <-]).
    apply strSet_true in Ec as (? & ? & ?). symmetry in Heq. apply strSet_true in Heq as (? & ? & ?).
    split_and!; congruence.
Qed.

(** No option of a backend's TLS block is set, [Enabled] and [Passthrough]
    apart. *)
Definition no_tls_options (c : BackendTLS.t) : bool :=
  negb (strSet (BackendTLS.CAFile c) || strSet (BackendTLS.CertFile c)
    || strSet (BackendTLS.KeyFile c) || strSet (BackendTLS.ServerName c)
    || boolSet (BackendTLS.SkipVerify c)).

Lemma sentinelTLSConfig_ok cfg c o :
  SentinelTLS cfg = Some c -> sentinelTLSConfig host cfg = Ok o ->
  boolSet (BackendTLS.Passthrough c) = false /\
  if boolSet (BackendTLS.Enabled c) then exists t, o = Some t /\ backend_ok c t
  else o = None /\ no_tls_options c = true.
Proof.
  unfold sentinelTLSConfig, no_tls_options. intros -> H. destruct (boolSet (BackendTLS.Passthrough c)); [done|].
  split; [done|]. destruct (boolSet (BackendTLS.Enabled c)); cbn [negb] in *.
  - apply result_bind_Ok in H as (t & ?%backendTLSConf_ok & [= <-]). eauto.
  - destruct (_ || _); [done|]. by injection H as <-.
Qed.

(** The listener's settings: TLS 1.2 at least, the configured certificate, and
    client certificates verified against the configured client CA, exactly when
    there is one. *)
Definition listen_ok (c : ListenTLSOpts.t) (t : tls_config) : Prop :=
  MinVersion t = VersionTLS12 /\
  Certificates t <> [] /\
  pair_of (ListenTLSOpts.CertFile c) (ListenTLSOpts.KeyFile c) (Certificates t) /\
  RequireAndVerifyClientCert t = strSet (ListenTLSOpts.ClientCAFile c) /\
  pool_of (ListenTLSOpts.ClientCAFile c) (ClientCAs t).

Lemma listenTLSConfig_ok cfg c o :
  ListenTLS cfg = Some c -> listenTLSConfig host cfg = Ok o ->
  if boolSet (ListenTLSOpts.Enabled c) then exists t, o = Some t /\ listen_ok c t
  else o = None /\ strSet (ListenTLSOpts.CertFile c) = false /\
       strSet (ListenTLSOpts.KeyFile c) = false /\ strSet (ListenTLSOpts.ClientCAFile c) = false.
Proof.
  unfold listenTLSConfig, listen_ok. intros -> H.
  destruct (boolSet (ListenTLSOpts.Enabled c)); cbn [negb] in *.
  - unfold strEmpty in H. destruct (_ || _) eqn:Ho; [done|]. apply orb_false_iff in Ho as [Hc0 Hk0].
    apply negb_false_iff, strSet_true in Hc0 as (cert0 & Hc0 & ?), Hk0 as (key0 & Hk0 & ?).
    apply result_bind_Ok in H as (p & (cert & key & Hc & Hk & -> & Hkp)%loadKeyPair_Ok & H).
    assert (pair_of (ListenTLSOpts.CertFile c) (ListenTLSOpts.KeyFile c) [(cert, key)]) as Hp
      by (unfold pair_of; split_and!; congruence).
    destruct (ListenTLSOpts.ClientCAFile c) as [ca|]; [|injection H as <-; eexists; by split_and!].
    case_bool_decide as Hca; [injection H as <-; subst; eexists; by split_and!|].
    destruct (loadCertPool host ca) as [pool|] eqn:El; [|done]. injection H as <-.
    eexists. split; [done|]. split; [done|]. split; [done|]. split; [exact Hp|].
    split; [cbn; by rewrite bool_decide_eq_false_2|by apply loadCertPool_Some].
  - destruct (_ || _) eqn:E; [done|]. to_prop. by injection H as <-.
Qed.

Lemma masterTLSConfig_ok cfg c probe dial :
  MasterTLS cfg = Some c -> masterTLSConfig host cfg = Ok (probe, dial) ->
  if boolSet (BackendTLS.Passthrough c) then
    boolSet (BackendTLS.Enabled c) = false /\ dial = None /\
    exists t, probe = Some t /\ backend_ok c t
  else if boolSet (BackendTLS.Enabled c) || negb (no_tls_options c) then
    exists t, probe = Some t /\ dial = Some t /\ backend_ok c t
  else probe = None /\ dial = None.
Proof.
  unfold masterTLSConfig, no_tls_options. intros -> H. cbv zeta in H. rewrite negb_involutive.
  rewrite <- !orb_assoc in *.
  destruct (boolSet (BackendTLS.Passthrough c)) eqn:Hp; cbn [andb negb] in *.
  - destruct (boolSet (BackendTLS.Enabled c)); [done|]. rewrite andb_false_r in H.
    apply result_bind_Ok in H as (t & ?%backendTLSConf_ok & [= <- <-]). eauto 10.
  - rewrite andb_true_r in H. destruct (_ || _); cbn [negb] in H.
    + apply result_bind_Ok in H as (t & ?%backendTLSConf_ok & [= <- <-]). eauto.
    + by injection H as <- <-.
Qed.

Lemma sources_blocks f path m :
  sources host f path = Ok m ->
  exists sc lc mc, SentinelTLS m = Some sc /\ ListenTLS m = Some lc /\ MasterTLS m = Some mc.
Proof. intros (env & file & _ & ->)%sources_inv. eexists _, _, _. split_and!; reflexivity. Qed.

(** C24: The TLS settings of a loaded configuration are the ones its options ask
    for.  Sentinel and listener: settings exist exactly when TLS is enabled,
    and files, a server name or skipped verification without it are refused.
    Master: any option enables TLS for the probe and the data connection alike;
    in passthrough mode, which excludes [Enabled], only the probe has settings.
    All settings demand TLS 1.2; a backend's name the configured server and
    skip verification only when asked.  The CA pool holds the certificates of
    the configured CA file, the certificate is the pair of the configured
    certificate and key files, and a listener with a client CA file requires
    client certificates and verifies them against it.  The options are those of
    the merged configuration, where passthrough for sentinel is never on: the
    sources' merge drops that option, so it is ignored, not refused. *)
Theorem Load_tls (f : option Config) (path : string) (cfg : Config) :
  Load host f path = Ok cfg ->
  exists sc lc mc,
    SentinelTLS cfg = Some sc /\ ListenTLS cfg = Some lc /\ MasterTLS cfg = Some mc /\
    boolSet (BackendTLS.Passthrough sc) = false /\
    (if boolSet (BackendTLS.Enabled sc)
     then exists t, SentinelTLSConfig cfg = Some t /\ backend_ok sc t
     else SentinelTLSConfig cfg = None /\ no_tls_options sc = true) /\
    (if boolSet (ListenTLSOpts.Enabled lc)
     then exists t, ListenTLSConfig cfg = Some t /\ listen_ok lc t
     else ListenTLSConfig cfg = None /\ strSet (ListenTLSOpts.CertFile lc) = false /\
          strSet (ListenTLSOpts.KeyFile lc) = false /\
          strSet (ListenTLSOpts.ClientCAFile lc) = false) /\
    (if boolSet (BackendTLS.Passthrough mc)
     then boolSet (BackendTLS.Enabled mc) = false /\ MasterTLSConfig cfg = None /\
          exists t, MasterProbeTLSConfig cfg = Some t /\ backend_ok mc t
     else if boolSet (BackendTLS.Enabled mc) || negb (no_tls_options mc)
     then exists t, MasterProbeTLSConfig cfg = Some t /\ MasterTLSConfig cfg = Some t /\
          backend_ok mc t
     else MasterProbeTLSConfig cfg = None /\ MasterTLSConfig cfg = None).
Proof.
  intros (m & fb & s & l & p & d & Hsrc & _ & _ & _ & Hs & Hl & Hm & ->)%Load_inv.
  apply sources_blocks in Hsrc as (sc & lc & mc & Hsc & Hlc & Hmc).
  destruct (sentinelTLSConfig_ok _ _ _ Hsc Hs) as [Hpt Hsen].
  exists sc, lc, mc. split_and!; [done..| | |].
  - exact Hsen.
  - exact (listenTLSConfig_ok _ _ _ Hlc Hl).
  - exact (masterTLSConfig_ok _ _ _ _ Hmc Hm).
Qed.

(** *** Sentinel passthrough *)

Lemma fromFlags_sentinel_passthrough fs : sentinel_passthrough (fromFlags fs) = None.
Proof.
  assert (sentinel_passthrough (with_blocks (fromFlags fs)) = None) as H by by rewrite fromFlags_blocks.
  unfold sentinel_passthrough in *. cbn in H. by destruct (SentinelTLS (fromFlags fs)).
Qed.

(** Walks through fallible code that cannot produce the error. *)
Ltac avoid :=
  repeat first
    [ done
    | apply avoids_bind; [|intros ? ?]
    | lazymatch goal with |- avoids _ (match ?x with _ => _ end) => destruct x eqn:? end ].

(** C38: The program never reports that passthrough is unsupported for sentinel:
    no flag or variable sets [sentinel_tls.passthrough] and [Merge] leaves it
    out, so a file that asks for it is accepted and the option ignored. *)
Theorem sentinel_passthrough_ignored (fs : FlagSet) (path : string) :
  Load host (Some (fromFlags fs)) path <> Err SentinelPassthrough.
Proof.
  apply avoids_bind; [unfold sources, FromEnv, loadFile, boolEnv, intEnv, durEnv, parseEnv; avoid|].
  intros m Hsrc. assert (sentinel_passthrough m = None) as Hp.
  { apply sources_inv in Hsrc as (env & file & _ & ->).
    rewrite !Merge_sentinel_passthrough. apply fromFlags_sentinel_passthrough. }
  assert (avoids SentinelPassthrough (sentinelTLSConfig host m)) as Hs.
  { unfold sentinelTLSConfig. unfold sentinel_passthrough in Hp.
    destruct (SentinelTLS m) as [c|]; [|done]. cbn in Hp. rewrite Hp. cbn [boolSet].
    unfold backendTLSConf, loadKeyPair, deref. avoid. }
  apply avoids_bind; [unfold deref; avoid|]. intros fb _. np_if; [done|].
  apply avoids_bind; [unfold deref; avoid|]. intros r _. np_if; [done|].
  apply avoids_bind; [exact Hs|]. intros s _.
  apply avoids_bind; [unfold listenTLSConfig, loadKeyPair, deref; avoid|]. intros l _.
  apply avoids_bind; [unfold masterTLSConfig, backendTLSConf, loadKeyPair, deref; cbv zeta; avoid|].
  intros [p d] _. cbv zeta. avoid.
Qed.

(** *** Malformed variables *)

Definition bool_vars : list string :=
  ["RSP_ROUTER"; "RSP_DEBUG"; "RSP_SENTINEL_TLS"; "RSP_SENTINEL_TLS_SKIP_VERIFY"; "RSP_LISTEN_TLS";
   "RSP_MASTER_TLS"; "RSP_MASTER_TLS_SKIP_VERIFY"; "RSP_MASTER_TLS_PASSTHROUGH"]%string.
Definition int_vars : list string := ["RSP_RESOLVE_RETRIES"; "RSP_MAX_CONNECTIONS"]%string.
Definition dur_vars : list string := ["RSP_IDLE_TIMEOUT"]%string.

Definition malformed {A} (parse : string -> option A) (name : string) : Prop :=
  exists v, LookupEnv host name = Some v /\ parse v = None.

Lemma parseEnv_cases {A} (parse : string -> option A) name :
  (exists v, parseEnv host parse name = Ok v /\ ~ malformed parse name) \/
  (parseEnv host parse name = Err (InvalidEnv name) /\ malformed parse name).
Proof.
  unfold parseEnv, malformed. destruct (LookupEnv host name) as [s|]; [|naive_solver].
  destruct (parse s) eqn:E; naive_solver.
Qed.

Lemma FromEnv_cases :
  (exists name, FromEnv host = Err (InvalidEnv name) /\
     (name ∈ bool_vars /\ malformed ParseBool name \/
      name ∈ int_vars /\ malformed Atoi name \/
      name ∈ dur_vars /\ malformed ParseDuration name)) \/
  (is_ok (FromEnv host) = true /\
   Forall (fun n => ~ malformed ParseBool n) bool_vars /\
   Forall (fun n => ~ malformed Atoi n) int_vars /\
   Forall (fun n => ~ malformed ParseDuration n) dur_vars).
Proof.
  unfold FromEnv, boolEnv, intEnv, durEnv.
  repeat match goal with
  | |- context [result_bind (parseEnv host ?p ?n)] =>
      let H := fresh "H" in
      destruct (parseEnv_cases p n) as [(?v & H & ?) | [H ?]]; rewrite H; cbn [result_bind];
      [|left; eexists; split; [reflexivity|];
        rewrite <- !set_has_spec; by (left + (right; left) + (right; right)); split]
  end.
  right. split; [done|]. split_and!; repeat (apply Forall_cons_2; [done|]); apply Forall_nil_2.
Qed.

(** A variable of a typed option that is set but does not parse makes [Load]
    fail with that variable's name, whatever the flags and the file say, and
    without one the environment is read. *)
Theorem Load_malformed_env (f : option Config) (path : string) :
  (exists name, Load host f path = Err (InvalidEnv name) /\
     (name ∈ bool_vars /\ malformed ParseBool name \/
      name ∈ int_vars /\ malformed Atoi name \/
      name ∈ dur_vars /\ malformed ParseDuration name)) \/
  (is_ok (FromEnv host) = true /\
   Forall (fun n => ~ malformed ParseBool n) bool_vars /\
   Forall (fun n => ~ malformed Atoi n) int_vars /\
   Forall (fun n => ~ malformed ParseDuration n) dur_vars).
Proof.
  destruct FromEnv_cases as [(name & He & H)|H]; [left|by right].
  exists name. split; [|done]. unfold Load, sources. by rewrite He.
Qed.
End Loading.

(** *** Redaction *)

(** C34: Printing a configuration reveals no password: what [String] marshals
    does not depend on the value of a non-empty password, the one for sentinel
    and the one for the master alike, whatever the rest of the configuration
    holds, the other password included; nor does it when both change.  Each is
    printed as five asterisks, and the other texts are printed as they are. *)
Theorem redacted_hides_passwords (c : Config) (p q p' q' : string) :
  p <> ""%string -> q <> ""%string -> p' <> ""%string -> q' <> ""%string ->
  redacted (set_Password c (Some p)) = redacted (set_Password c (Some q)) /\
  redacted (set_MasterPassword c (Some p')) = redacted (set_MasterPassword c (Some q')) /\
  redacted (set_MasterPassword (set_Password c (Some p)) (Some p')) =
  redacted (set_MasterPassword (set_Password c (Some q)) (Some q')) /\
  Password (redacted (set_Password c (Some p))) = Some "*****"%string /\
  MasterPassword (redacted (set_MasterPassword c (Some p'))) = Some "*****"%string /\
  Forall (fun get => get (redacted c) = get c)
    [ReplicaListen; ReplicaFallback; Sentinel; Master; Username; MasterUsername].
Proof.
  intros. unfold redacted. cbn. rewrite !bool_decide_eq_false_2 by done.
  split_and!; try done. by repeat constructor.
Qed.

(** ** A concrete host *)

Module Demo.
Definition host : Host :=
  MkHost
    (fun n => if String.eqb n "RSP_MAX_CONNECTIONS" then Some "7"%string
              else if String.eqb n "RSP_LISTEN" then Some ":6380"%string else None)
    (fun p => if String.eqb p "rsp.yaml" then Some "yaml"%string
              else if String.eqb p "ca.pem" then Some "CA"%string else None)
    (fun pem => String.eqb pem "CA") (fun _ _ => true)
    (fun _ => Ok (set_SentinelTLS (set_Listen (set_Router emptyConfig (Some true)) (Some ":1"%string))
       (Some (BackendTLS.Mk (Some true) (Some "ca.pem"%string) None None None None (Some true))),
       Some "5m"%string)).
Definition flags : FlagSet :=
  MkFlagSet ["config"; "replica-listen"; "resolve-retries"]%string
    (fun n => if String.eqb n "replica-listen" then ":6381"%string else "rsp.yaml"%string)
    (fun _ => false) (fun _ => 5) (fun _ => 0).
(** The configuration these sources make. *)
Definition cfg : Config :=
  match Load host (Some (fromFlags flags)) "rsp.yaml" with Ok c => c | Err _ => emptyConfig end.
Lemma Load_demo : Load host (Some (fromFlags flags)) "rsp.yaml" = Ok cfg.
Proof. vm_compute. reflexivity. Qed.
(** Environment over file, flag over all, and the file's sentinel passthrough
    accepted. *)
Example cfg_values :
  (Listen cfg, ReplicaListen cfg, Router cfg, ResolveRetries cfg, MaxConnections cfg, IdleTimeout cfg, Master cfg,
   bool_decide (is_Some (SentinelTLSConfig cfg)), sentinel_passthrough cfg)
  = (Some ":6380", Some ":6381", Some true, Some 5, Some 7, Some (5 * Minute), Some "mymaster", true, None)%string.
Proof. vm_compute. reflexivity. Qed.
End Demo.

Lemma Load_precedence_witness :
  exists env file, read_sources Demo.host "rsp.yaml" env file /\
    MaxConnections Demo.cfg =
      first_set [MaxConnections (fromFlags Demo.flags); MaxConnections env; MaxConnections file;
                 MaxConnections Default].
Proof.
  destruct (Load_precedence Demo.host _ _ _ Demo.Load_demo) as (env & file & Hr & _ & _ & Hi & _).
  exists env, file. split; [exact Hr|].
  exact (Forall_inv (Forall_inv_tail Hi)).
Defined.

Lemma Load_wf_witness : endpoints_ok Demo.cfg /\ complete Demo.cfg.
Proof. destruct (Load_wf Demo.host _ _ _ Demo.Load_demo) as (H1 & H2 & _). split; assumption. Defined.

Lemma Load_tls_witness :
  exists t, SentinelTLSConfig Demo.cfg = Some t /\ MinVersion t = VersionTLS12 /\
    pool_of Demo.host (Some "ca.pem"%string) (RootCAs t).
Proof.
  destruct (Load_tls Demo.host _ _ _ Demo.Load_demo) as (sc & lc & mc & Hs & _ & _ & _ & H & _).
  vm_compute in Hs. injection Hs as <-. cbn [BackendTLS.Enabled boolSet] in H.
  destruct H as (t & Ht & Hm & _ & _ & Hp & _). exists t. split; [assumption|split; assumption].
Defined.

Lemma redacted_hides_passwords_witness :
  redacted (set_Password Default (Some "a"%string)) = redacted (set_Password Default (Some "c"%string)) /\
  redacted (set_MasterPassword Default (Some "b"%string)) =
  redacted (set_MasterPassword Default (Some "d"%string)) /\
  redacted (set_MasterPassword (set_Password Default (Some "a"%string)) (Some "b"%string)) =
  redacted (set_MasterPassword (set_Password Default (Some "c"%string)) (Some "d"%string)).
Proof.
  destruct (redacted_hides_passwords Default "a" "c" "b" "d") as (H1 & H2 & H3 & _); [discriminate..|].
  split; [exact H1|split; [exact H2|exact H3]].
Defined.
