(* ===== verification/NetAddr.v ===== *)
(** * NetAddr: IP addresses and host:port text (package net)

    [net.ParseIP], [IP.IsUnspecified], [IP.String], [net.JoinHostPort] and
    [net.TCPAddr] as the resolver uses them, executable on text.  An IP address
    is its 16-byte form; an IPv4 address is mapped into [::ffff:0:0/96], as in
    package net. *)

From Stdlib Require Import Strings.Byte String ZArith Lia.
From stdpp Require Import base list strings.
From S2P Require Import Prelude GoStd.

Local Open Scope Z_scope.

(** The 16 bytes of an address. *)
Definition IP : Type := list Z.

Definition v4_prefix : IP := [0; 0; 0; 0; 0; 0; 0; 0; 0; 0; 255; 255].
Definition IPv4zero : IP := v4_prefix ++ [0; 0; 0; 0].
Definition IPv6unspecified : IP := replicate 16 0.

Definition IsUnspecified (ip : IP) : bool :=
  bool_decide (ip = IPv4zero) || bool_decide (ip = IPv6unspecified).

(** ** ParseIP *)

(** Dotted decimal: four fields of 0 to 255 without leading zeros. [first] and
    [prev_dot] are the tests [i == 0] and [s[i-1] == '.']. *)
Fixpoint parse_v4_loop (s : list byte) (first prev_dot : bool) (val digLen : Z) (fields : list Z)
  : option (list Z) :=
  match s with
  | [] => if (length fields <? 3)%nat then None else Some (fields ++ [val])
  | c :: s' =>
      match digit_val c with
      | Some d =>
          if (digLen =? 1) && (val =? 0) then None
          else
            let val := val * 10 + d in
            if 255 <? val then None
            else parse_v4_loop s' false false val (digLen + 1) fields
      | None =>
          if Byte.eqb c "."%byte then
            if first || bool_decide (s' = []) || prev_dot then None
            else if (length fields =? 3)%nat then None
            else parse_v4_loop s' false true 0 0 (fields ++ [val])
          else None
      end
  end.

Definition parseIPv4 (s : list byte) : option (list Z) := parse_v4_loop s true false 0 0 [].

Definition hex_val (c : byte) : option Z :=
  let v := Z.of_N (Byte.to_N c) in
  if (48 <=? v) && (v <=? 57) then Some (v - 48)
  else if (97 <=? v) && (v <=? 102) then Some (v - 97 + 10)
  else if (65 <=? v) && (v <=? 70) then Some (v - 65 + 10)
  else None.

(** A group of at most four hexadecimal digits. *)
Fixpoint scan_hex (s : list byte) (off acc : Z) : option (Z * Z * list byte) :=
  match s with
  | [] => Some (off, acc, [])
  | c :: s' =>
      match hex_val c with
      | Some d => if 3 <? off then None else scan_hex s' (off + 1) (acc * 16 + d)
      | None => Some (off, acc, s)
      end
  end.

(** The loop over the groups, [i < 16]; the fuel is the number of groups that
    still fit.  [ell] is the position of the ellipsis. *)
Fixpoint parse_v6_loop (fuel : nat) (s : list byte) (ip : list Z) (ell : option nat)
  : option (list Z * option nat * list byte) :=
  match fuel with
  | O => Some (ip, ell, s)
  | S fuel' =>
      match scan_hex s 0 0 with
      | None => None
      | Some (off, acc, s1) =>
          if off =? 0 then None
          else if bool_decide (head s1 = Some "."%byte) then
            if bool_decide (ell = None) && negb (length ip =? 12)%nat then None
            else if (16 <? length ip + 4)%nat then None
            else
              match parseIPv4 s with
              | Some fields => Some (ip ++ fields, ell, [])
              | None => None
              end
          else
            let ip := ip ++ [acc / 256; acc mod 256] in
            match s1 with
            | [] => Some (ip, ell, [])
            | c :: s2 =>
                if negb (Byte.eqb c ":"%byte) then None
                else
                  match s2 with
                  | [] => None
                  | d :: s3 =>
                      if Byte.eqb d ":"%byte then
                        if bool_decide (ell = None) then
                          if bool_decide (s3 = []) then Some (ip, Some (length ip), [])
                          else parse_v6_loop fuel' s3 ip (Some (length ip))
                        else None
                      else parse_v6_loop fuel' s2 ip ell
                  end
            end
      end
  end.

Definition expand_ellipsis (ip : list Z) (ell : option nat) : option IP :=
  if (length ip <? 16)%nat then
    match ell with
    | None => None
    | Some e => Some (take e ip ++ replicate (16 - length ip) 0 ++ drop e ip)
    end
  else match ell with None => Some ip | Some _ => None end.

Definition parseIPv6 (s : list byte) : option IP :=
  let finish (r : option (list Z * option nat * list byte)) :=
    match r with
    | Some (ip, ell, []) => expand_ellipsis ip ell
    | _ => None
    end in
  match s with
  | ":"%byte :: ":"%byte :: s' =>
      if bool_decide (s' = []) then Some IPv6unspecified
      else finish (parse_v6_loop 8 s' [] (Some 0%nat))
  | _ => finish (parse_v6_loop 8 s [] None)
  end.

(** [net.ParseIP]: the first ['.'], [':'] or ['%'] tells the family; an address
    with a zone is not an [IP]. *)
Fixpoint family (s : list byte) : option byte :=
  match s with
  | [] => None
  | c :: s' => if existsb (Byte.eqb c) (bytes ".:%") then Some c else family s'
  end.

Definition ParseIP (host : string) : option IP :=
  let s := bytes host in
  match family s with
  | Some "."%byte => (fun f => v4_prefix ++ f) <$> parseIPv4 s
  | Some ":"%byte => if existsb (Byte.eqb "%"%byte) s then None else parseIPv6 s
  | _ => None
  end.

(** ** Text of an address *)

Definition hex_digit (d : Z) : byte :=
  if d <? 10 then digit_byte d
  else match Byte.of_N (Z.to_N (87 + d)) with Some b => b | None => "0"%byte end.

Fixpoint strip_zeros (l : list Z) : list Z :=
  match l with
  | d :: ((_ :: _) as l') => if d =? 0 then strip_zeros l' else l
  | _ => l
  end.

(** A 16-bit group in hexadecimal without leading zeros. *)
Definition hex_group (x : Z) : list byte :=
  hex_digit <$> strip_zeros [x / 4096; (x / 256) mod 16; (x / 16) mod 16; x mod 16].

Fixpoint groups (ip : IP) : list Z :=
  match ip with
  | a :: b :: ip' => (a * 256 + b) :: groups ip'
  | _ => []
  end.

(** The longest run of at least two zero groups, first one on a tie: its start
    and end. *)
Fixpoint zero_run (gs : list Z) : nat :=
  match gs with
  | 0 :: gs' => S (zero_run gs')
  | _ => O
  end.

Fixpoint longest_run (i : nat) (gs : list Z) (best : nat * nat) : nat * nat :=
  match gs with
  | [] => best
  | _ :: gs' =>
      let l := zero_run gs in
      let best :=
        if (2 <=? l)%nat && (snd best - fst best <? l)%nat then (i, i + l)%nat else best in
      longest_run (S i) gs' best
  end.

Fixpoint join (sep : list byte) (l : list (list byte)) : list byte :=
  match l with
  | [] => []
  | [x] => x
  | x :: l' => x ++ sep ++ join sep l'
  end.

Definition v6_text (ip : IP) : list byte :=
  let gs := groups ip in
  match longest_run 0 gs (0, 0)%nat with
  | (a, b) =>
      if (b <=? a)%nat then join (bytes ":") (hex_group <$> gs)
      else join (bytes ":") (hex_group <$> take a gs) ++ bytes "::"
             ++ join (bytes ":") (hex_group <$> drop b gs)
  end.

Definition IP_text (ip : IP) : list byte :=
  if bool_decide (take 12 ip = v4_prefix) then join (bytes ".") (itoa_bytes <$> drop 12 ip)
  else v6_text ip.

Definition IP_String (ip : IP) : string := String.string_of_list_byte (IP_text ip).

Definition JoinHostPort (host port : string) : string :=
  if existsb (Byte.eqb ":"%byte) (bytes host)
  then ("[" ++ host ++ "]:" ++ port)%string
  else (host ++ ":" ++ port)%string.

(** An address without host has no IP. *)
Record TCPAddr : Type := MkTCPAddr { addrIP : IP; addrPort : Z; addrZone : string }.

#[global] Instance TCPAddr_eq_dec : EqDecision TCPAddr.
Proof. solve_decision. Defined.

Definition TCPAddr_String (a : TCPAddr) : string :=
  let ip := if bool_decide (addrIP a = []) then ""%string else IP_String (addrIP a) in
  if bool_decide (addrZone a = ""%string) then JoinHostPort ip (Itoa (addrPort a))
  else JoinHostPort (ip ++ "%" ++ addrZone a) (Itoa (addrPort a)).

(** The text forms of the unspecified address, and what is not an address. *)
Example ParseIP_placeholders :
  forallb (fun h => match ParseIP h with Some ip => IsUnspecified ip | None => false end)
    ["0.0.0.0"; "::"; "0:0:0:0:0:0:0:0"; "0::0"; "::0.0.0.0"; "::ffff:0.0.0.0"; "0000::"; "::0"]%string
  = true.
Proof. vm_compute. reflexivity. Qed.

Example ParseIP_rejects :
  forallb (fun h => match ParseIP h with Some _ => false | None => true end)
    [""; "localhost"; "1.2.3"; "1.2.3.4.5"; "01.2.3.4"; "256.1.1.1"; "1.2.3."; ":::"; "1::2::3";
     "12345::"; "fe80::1%eth0"; "1:2:3:4:5:6:7:8:9"; "1:2:3:4:5:6:7::8"; "::1.2.3"]%string
  = true.
Proof. vm_compute. reflexivity. Qed.

Example IP_String_examples :
  (fun h => default ""%string (IP_String <$> ParseIP h)) <$>
    ["10.42.4.18"; "::1"; "2001:DB8:0:0:1:0:0:1"; "fe80:0:0:0:0:0:0:0"; "::ffff:1.2.3.4"; "::"]%string
  = ["10.42.4.18"; "::1"; "2001:db8::1:0:0:1"; "fe80::"; "1.2.3.4"; "::"]%string.
Proof. vm_compute. reflexivity. Qed.
