(* ===== verification/Netio.v ===== *)
(** * Netio: connections as byte streams

    The proxy talks to its peers through [net.Conn], [bufio.Reader] and the
    helpers of package [io].  A reading side is the sequence of bytes the peer
    will deliver followed by the error that ends it; a writing side is the
    sequence of bytes accepted so far and how many more the connection accepts
    before it fails.  Each function below is a Go library function on that
    representation.  How the bytes are cut into packets does not show: the
    results of [ReadSlice], [Peek], [ReadFull] and [CopyN] depend on the
    stream alone. *)

From Stdlib Require Import Strings.Byte String ZArith Lia.
From stdpp Require Import base list.
From S2P Require Import Prelude GoStd.

Local Open Scope Z_scope.

(** What a read or write on a connection can fail with. *)
Inductive io_err : Type :=
| EOF                    (* io.EOF *)
| ErrUnexpectedEOF       (* io.ErrUnexpectedEOF *)
| ErrClosed              (* net.ErrClosed *)
| ErrDeadlineExceeded    (* os.ErrDeadlineExceeded *)
| ErrReset.              (* any other network error *)

#[global] Instance io_err_eq_dec : EqDecision io_err.
Proof. solve_decision. Defined.

(** A [bufio.Reader] over a connection: the unread bytes, buffered or not, and
    the error the connection reports after them. *)
Record reader : Type := MkReader { pending : list byte; fin : io_err }.

(** [bufio]'s default buffer size. *)
Definition bufsize : nat := Z.to_nat 4096.

Lemma bufsize_eq : Z.of_nat bufsize = 4096.
Proof. reflexivity. Qed.
#[global] Opaque bufsize.

(** [bufio.Reader.ReadSlice] fails with [ErrBufferFull] when the delimiter is
    not among the next [bufsize] bytes. *)
Inductive slice_err : Type :=
| ErrBufferFull
| SliceIO (e : io_err).

Definition advance (n : nat) (r : reader) : reader :=
  MkReader (drop n (pending r)) (fin r).

Definition ReadSlice (delim : byte) (r : reader) : list byte * option slice_err * reader :=
  match index_byte delim (take bufsize (pending r)) with
  | Some i => (take (S i) (pending r), None, advance (S i) r)
  | None =>
      if (bufsize <=? length (pending r))%nat
      then (take bufsize (pending r), Some ErrBufferFull, advance bufsize r)
      else (pending r, Some (SliceIO (fin r)), MkReader [] (fin r))
  end.

(** [bufio.Reader.Peek(1)]: the next byte, not consumed. *)
Definition Peek1 (r : reader) : result io_err byte :=
  match pending r with
  | c :: _ => Ok c
  | [] => Err (fin r)
  end.

(** [io.ReadFull] into a buffer of [n] bytes. *)
Definition ReadFull (n : Z) (r : reader) : result io_err (list byte * reader) :=
  if Z.of_nat (length (pending r)) <? n then
    Err match fin r, pending r with
        | EOF, _ :: _ => ErrUnexpectedEOF
        | e, _ => e
        end
  else Ok (take (Z.to_nat n) (pending r), advance (Z.to_nat n) r).

(** The writing side: what the connection has accepted, and how many more bytes
    it accepts before a write fails ([None]: no failure). *)
Record writer : Type := MkWriter { written : list byte; room : option nat }.

(** [Conn.Write]: a failing write may have transmitted a prefix. *)
Definition Write (p : list byte) (w : writer) : writer * option io_err :=
  match room w with
  | None => (MkWriter (written w ++ p) None, None)
  | Some k =>
      if (length p <=? k)%nat
      then (MkWriter (written w ++ p) (Some (k - length p)%nat), None)
      else (MkWriter (written w ++ take k p) (Some 0%nat), Some ErrReset)
  end.

(** [io.CopyN(w, br, n)]: the bytes that are there are written first; a source
    that ends early is reported after them ([io.EOF] when it ended cleanly). *)
Definition CopyN (n : Z) (w : writer) (r : reader)
  : writer * result io_err reader :=
  if Z.of_nat (length (pending r)) <? n then
    match Write (pending r) w with
    | (w', Some e) => (w', Err e)
    | (w', None) => (w', Err (fin r))
    end
  else
    match Write (take (Z.to_nat n) (pending r)) w with
    | (w', Some e) => (w', Err e)
    | (w', None) => (w', Ok (advance (Z.to_nat n) r))
    end.

(** [io.Copy(w, r)]: everything until the source ends; a clean end is no
    error. *)
Definition Copy (w : writer) (r : reader) : writer * option io_err :=
  match Write (pending r) w with
  | (w', Some e) => (w', Some e)
  | (w', None) =>
      (w', match fin r with EOF => None | e => Some e end)
  end.

(** [io.Discard] as a writer. *)
Definition Discard : writer := MkWriter [] None.

(** Appending to a writer that has room for it. *)
Definition push (p : list byte) (w : writer) : writer :=
  MkWriter (written w ++ p) ((fun k => (k - length p)%nat) <$> room w).

Definition fits (p : list byte) (w : writer) : Prop :=
  match room w with
  | None => True
  | Some k => (length p <= k)%nat
  end.

(** ** Lemmas *)

(** A writer never loses what it has accepted. *)
Definition extends (w w' : writer) : Prop := written w `prefix_of` written w'.

#[global] Instance extends_preorder : PreOrder extends.
Proof.
  split.
  - intros w. red. reflexivity.
  - intros w1 w2 w3 H1 H2. red in H1, H2 |- *. by transitivity (written w2).
Qed.

Lemma Write_ok p w w' :
  Write p w = (w', None) -> written w' = written w ++ p.
Proof. unfold Write. intros H. by repeat case_match; simplify_eq. Qed.

Lemma Write_fail p w w' e :
  Write p w = (w', Some e) -> exists q, written w' = written w ++ q /\ q `prefix_of` p.
Proof.
  unfold Write. intros H. repeat case_match; simplify_eq/=.
  eexists; split; [done|]. apply prefix_take.
Qed.

Lemma Write_prefix p w w' o :
  Write p w = (w', o) -> exists q, written w' = written w ++ q /\ q `prefix_of` p.
Proof.
  destruct o; [apply Write_fail|]. intros ->%Write_ok. by exists p.
Qed.

Lemma Write_fits p w : fits p w -> Write p w = (push p w, None).
Proof.
  unfold fits, Write, push. destruct (room w) as [k|]; simpl; [|done].
  intros H. by rewrite (proj2 (Nat.leb_le _ _)).
Qed.

Lemma Write_None_fits p w w' : Write p w = (w', None) -> w' = push p w /\ fits p w.
Proof.
  unfold fits, Write, push. intros H. repeat case_match; simplify_eq; to_prop; done.
Qed.

Lemma push_app p q w : push (p ++ q) w = push q (push p w).
Proof.
  unfold push. simpl. rewrite app_assoc. f_equal.
  destruct (room w); simpl; [|done]. f_equal. rewrite length_app. lia.
Qed.

Lemma push_nil w : push [] w = w.
Proof.
  destruct w as [l [k|]]; unfold push; simpl; rewrite app_nil_r; do 2 f_equal; lia.
Qed.

Lemma fits_app p q w : fits (p ++ q) w <-> fits p w /\ fits q (push p w).
Proof.
  unfold fits, push. simpl. destruct (room w) as [k|]; simpl; [|done].
  rewrite length_app. lia.
Qed.

Lemma fits_nil w : fits [] w.
Proof. unfold fits. case_match; simpl; lia || done. Qed.

Lemma fits_unlimited p w : room w = None -> fits p w.
Proof. unfold fits. by intros ->. Qed.

Lemma Write_unlimited p w : room w = None -> Write p w = (MkWriter (written w ++ p) None, None).
Proof. unfold Write. by intros ->. Qed.

Lemma Write_extends p w w' o : Write p w = (w', o) -> extends w w'.
Proof. intros (q & Hq & _)%Write_prefix. red. rewrite Hq. by exists q. Qed.

Lemma CopyN_ok n w r w' r' :
  CopyN n w r = (w', Ok r') ->
  exists p, pending r = p ++ pending r' /\ (0 <= n -> Z.of_nat (length p) = n) /\
    fin r' = fin r /\ w' = push p w /\ fits p w.
Proof.
  unfold CopyN. intros H. repeat case_match; simplify_eq; to_prop.
  match goal with H : Write _ _ = _ |- _ => apply Write_None_fits in H as [-> Hf] end.
  eexists. split_and!; [simpl; by rewrite take_drop| |done|done|done].
  rewrite length_take. lia.
Qed.

Lemma CopyN_app n p rest e w :
  Z.of_nat (length p) = n -> fits p w ->
  CopyN n w (MkReader (p ++ rest) e) = (push p w, Ok (MkReader rest e)).
Proof.
  intros <- Hw. unfold CopyN, advance. simpl. rewrite length_app, Nat2Z.id.
  rewrite (proj2 (Z.ltb_ge _ _)) by lia.
  by rewrite take_app_length, drop_app_length, Write_fits.
Qed.

Lemma CopyN_prefix n w r w' o :
  CopyN n w r = (w', o) ->
  exists q, written w' = written w ++ q /\ q `prefix_of` pending r.
Proof.
  unfold CopyN. intros H.
  repeat case_match; simplify_eq;
    match goal with H : Write _ _ = _ |- _ => apply Write_prefix in H as (q & -> & Hq) end;
    exists q; (split; [done|]); try done; (etrans; [exact Hq|apply prefix_take]).
Qed.

Lemma ReadFull_ok n r p r' :
  ReadFull n r = Ok (p, r') ->
  pending r = p ++ pending r' /\ length p = Z.to_nat n /\ fin r' = fin r.
Proof.
  unfold ReadFull. case_match; [done|]. intros [= <- <-]. to_prop. simpl.
  rewrite take_drop, length_take. split_and!; [done|lia|done].
Qed.

Lemma ReadFull_app n p rest e :
  length p = Z.to_nat n -> 0 <= n ->
  ReadFull n (MkReader (p ++ rest) e) = Ok (p, MkReader rest e).
Proof.
  intros Hp Hn. unfold ReadFull, advance. simpl. rewrite length_app.
  rewrite (proj2 (Z.ltb_ge _ _)) by lia.
  by rewrite take_app_length', drop_app_length' by lia.
Qed.

#[export] Hint Resolve Write_extends fits_nil fits_unlimited : go.
