(* ===== verification/Resp.v ===== *)
(** * Resp: the RESP wire protocol (pkg/proxy/resp.go)

    [readLine], [parseRESPInt], [readCommand] and [copyRESP] on the streams of
    [Netio], the grammar of RESP replies and commands, and the theorems that the
    readers accept exactly that grammar and move the bytes unchanged. *)

From Stdlib Require Import Strings.Byte String ZArith Lia.
From stdpp Require Import base list.
From S2P Require Import Prelude GoStd Netio.

Local Open Scope Z_scope.

(** ** Protocol limits *)

Definition maxRESPElements : Z := 1024 * 1024.
Definition maxBulkLen : Z := 512 * 1024 * 1024.
Definition maxLineLen : Z := 64 * 1024.

(** ** Errors

    One constructor per error value of resp.go, and [OutOfFuel] for the loops
    of the model (never returned: [readLine_spec], [copyRESP_fuel]). *)
Inductive resp_err : Type :=
| RIO (e : io_err)                       (* error of the connection read from *)
| RWrite (e : io_err)                    (* error of the connection written to *)
| RCopy (e : io_err)                     (* error of io.CopyN, from either side *)
| InlineCommand                          (* errInlineCommand *)
| LineTooLong
| MalformedLine (line : list byte)
| MalformedLength (b : list byte)
| TooManyArguments (n : Z)
| ExpectedBulk (c : option byte)
| InvalidBulkLength (l : Z)
| BulkTooLong (n : Z)
| AggregateTooLong (n : Z)
| MapTooLong (n : Z)
| AttributeTooLong (n : Z)
| PushTooLong (n : Z)
| UnexpectedType (c : option byte)
| OutOfFuel.

(** ** readLine *)

Fixpoint readLine_loop (fuel : nat) (line : list byte) (br : reader)
  : result resp_err (list byte * reader) :=
  match fuel with
  | O => Err OutOfFuel
  | S fuel' =>
      let '(part, err, br) := ReadSlice LF br in
      let line := line ++ part in
      match err with
      | None =>
          if (length line <? 3)%nat
             || negb (bool_decide (line !! (length line - 2)%nat = Some CR))
          then Err (MalformedLine line)
          else Ok (line, br)
      | Some (SliceIO e) => Err (RIO e)
      | Some ErrBufferFull =>
          if maxLineLen <? Z.of_nat (length line) then Err LineTooLong
          else readLine_loop fuel' line br
      end
  end.

(** A line is given up after the 17th full buffer (17 * 4096 > 64 * 1024), so
    the loop makes at most 17 rounds. *)
Definition readLine_rounds : nat := 17.

Definition readLine (br : reader) : result resp_err (list byte * reader) :=
  readLine_loop readLine_rounds [] br.

(** [line[1 : len(line)-2]]: the line without its type byte and terminator. *)
Definition line_payload (line : list byte) : list byte :=
  take (length line - 3) (drop 1 line).

Definition parseRESPInt (b : list byte) : result resp_err Z :=
  match ParseInt b with
  | Some n => Ok n
  | None => Err (MalformedLength b)
  end.

Definition lift_io {A} (m : result io_err A) : result resp_err A :=
  match m with
  | Ok a => Ok a
  | Err e => Err (RIO e)
  end.

(** ** readCommand *)

Section ReadCommand.
Context `{UnicodeUpper}.

(** The loop over the [n] bulk strings of a command; [first] is [i == 0]. *)
Fixpoint readArgs (n : nat) (first : bool) (name raw : list byte) (br : reader)
  : result resp_err (list byte * list byte * reader) :=
  match n with
  | O => Ok (name, raw, br)
  | S n' =>
      let* (line, br) := readLine br in
      let raw := raw ++ line in
      if negb (bool_decide (head line = Some "$"%byte))
      then Err (ExpectedBulk (head line))
      else
      let* l := parseRESPInt (line_payload line) in
      if (l <? 0) || (maxBulkLen <? l) then Err (InvalidBulkLength l)
      else
      let* (payload, br) := lift_io (ReadFull (l + 2) br) in
      let raw := raw ++ payload in
      let name := if first then ToUpper (take (Z.to_nat l) payload) else name in
      readArgs n' false name raw br
  end.

Definition readCommand (br : reader) : result resp_err (string * list byte * reader) :=
  let* first := lift_io (Peek1 br) in
  if negb (Byte.eqb first "*"%byte) then Err InlineCommand
  else
  let* (line, br) := readLine br in
  let* n := parseRESPInt (line_payload line) in
  if maxRESPElements <? n then Err (TooManyArguments n)
  else
  let* (name, raw, br) := readArgs (Z.to_nat n) true [] line br in
  Ok (String.string_of_list_byte name, raw, br).

End ReadCommand.

(** ** copyRESP *)

(** The cases of the switch on the type byte of a reply line. *)
Inductive resp_kind : Type := KSimple | KBlob | KAggregate | KMap | KAttribute | KPush.

Definition kind_of (c : byte) : option resp_kind :=
  if existsb (Byte.eqb c) (bytes "+-:,#(_") then Some KSimple
  else if existsb (Byte.eqb c) (bytes "$=!") then Some KBlob
  else if existsb (Byte.eqb c) (bytes "*~") then Some KAggregate
  else if Byte.eqb c "%"%byte then Some KMap
  else if Byte.eqb c "|"%byte then Some KAttribute
  else if Byte.eqb c ">"%byte then Some KPush
  else None.

Fixpoint copyRESP_loop (fuel : nat) (remaining : Z) (w : writer) (br : reader)
  : writer * result resp_err reader :=
  if remaining <=? 0 then (w, Ok br)
  else
  match fuel with
  | O => (w, Err OutOfFuel)
  | S fuel' =>
      match readLine br with
      | Err e => (w, Err e)
      | Ok (line, br) =>
          match Write line w with
          | (w, Some e) => (w, Err (RWrite e))
          | (w, None) =>
              let payload := line_payload line in
              match head line ≫= kind_of with
              | Some KSimple => copyRESP_loop fuel' (wrap64 (remaining - 1)) w br
              | Some KBlob =>
                  match parseRESPInt payload with
                  | Err e => (w, Err e)
                  | Ok n =>
                      if maxBulkLen <? n then (w, Err (BulkTooLong n))
                      else if 0 <=? n then
                        match CopyN (n + 2) w br with
                        | (w, Err e) => (w, Err (RCopy e))
                        | (w, Ok br) => copyRESP_loop fuel' (wrap64 (remaining - 1)) w br
                        end
                      else copyRESP_loop fuel' (wrap64 (remaining - 1)) w br
                  end
              | Some KAggregate =>
                  match parseRESPInt payload with
                  | Err e => (w, Err e)
                  | Ok n =>
                      if maxRESPElements <? n then (w, Err (AggregateTooLong n))
                      else
                        let remaining := wrap64 (remaining - 1) in
                        let remaining := if 0 <? n then wrap64 (remaining + n) else remaining in
                        copyRESP_loop fuel' remaining w br
                  end
              | Some KMap =>
                  match parseRESPInt payload with
                  | Err e => (w, Err e)
                  | Ok n =>
                      if maxRESPElements <? n then (w, Err (MapTooLong n))
                      else
                        let remaining := wrap64 (remaining - 1) in
                        let remaining := if 0 <? n then wrap64 (remaining + wrap64 (2 * n)) else remaining in
                        copyRESP_loop fuel' remaining w br
                  end
              | Some KAttribute =>
                  match parseRESPInt payload with
                  | Err e => (w, Err e)
                  | Ok n =>
                      if maxRESPElements <? n then (w, Err (AttributeTooLong n))
                      else
                        let remaining := if 0 <? n then wrap64 (remaining + wrap64 (2 * n)) else remaining in
                        copyRESP_loop fuel' remaining w br
                  end
              | Some KPush =>
                  match parseRESPInt payload with
                  | Err e => (w, Err e)
                  | Ok n =>
                      if maxRESPElements <? n then (w, Err (PushTooLong n))
                      else
                        let remaining := if 0 <? n then wrap64 (remaining + n) else remaining in
                        copyRESP_loop fuel' remaining w br
                  end
              | None => (w, Err (UnexpectedType (head line)))
              end
          end
      end
  end.

(** Every round but the last consumes a line, so one round more than there are
    pending bytes is enough ([copyRESP_loop_fuel]). *)
Definition copyRESP (w : writer) (br : reader) : writer * result resp_err reader :=
  copyRESP_loop (S (length (pending br))) 1 w br.

(** The inputs of resp_test.go: the whole value is copied, the next reply is
    left unread; malformed input is an error. *)
Example copyRESP_tests :
  forallb (fun s =>
    match copyRESP Discard (MkReader (bytes s ++ bytes "+N" ++ CRLF) EOF) with
    | (w, Ok r) => bool_decide (written w = bytes s) && bool_decide (pending r = bytes "+N" ++ CRLF)
    | _ => false
    end)
  (String.string_of_list_byte <$>
    [ bytes "+OK" ++ CRLF; bytes "$5" ++ CRLF ++ bytes "hello" ++ CRLF; bytes "$-1" ++ CRLF;
      bytes "*0" ++ CRLF; bytes "*-1" ++ CRLF;
      bytes "*2" ++ CRLF ++ bytes "*2" ++ CRLF ++ bytes "$1" ++ CRLF ++ bytes "a" ++ CRLF
        ++ bytes ":1" ++ CRLF ++ bytes "$1" ++ CRLF ++ bytes "b" ++ CRLF;
      bytes "|1" ++ CRLF ++ bytes "$3" ++ CRLF ++ bytes "ttl" ++ CRLF ++ bytes ":100" ++ CRLF
        ++ bytes ":1" ++ CRLF;
      bytes ">2" ++ CRLF ++ bytes "$7" ++ CRLF ++ bytes "message" ++ CRLF ++ bytes "$2" ++ CRLF
        ++ bytes "hi" ++ CRLF ++ bytes "+OK" ++ CRLF; bytes "_" ++ CRLF ]) = true.
Proof. vm_compute. reflexivity. Qed.

(** ** Lines

    [line_bytes c p] is the line of type byte [c] and payload [p];
    [is_line c p] says that it is a line [readLine] takes: no terminator
    inside, and within the 17 buffers the loop reads. *)

Definition line_limit : Z := 17 * 4096.

Definition line_bytes (c : byte) (p : list byte) : list byte := c :: p ++ CRLF.

Definition is_line (c : byte) (p : list byte) : Prop :=
  (LF ∉ c :: p) /\ Z.of_nat (length p) + 3 <= line_limit.

Definition malformed (line : list byte) : bool :=
  (length line <? 3)%nat || negb (bool_decide (line !! (length line - 2)%nat = Some CR)).

(** What [readLine] returns, as a function of the position of the first
    line feed alone. *)
Definition readLine_result (line : list byte) (br : reader)
  : result resp_err (list byte * reader) :=
  match index_byte LF (pending br) with
  | Some i =>
      if Z.of_nat (length line) + Z.of_nat (S i) <=? line_limit then
        let l := line ++ take (S i) (pending br) in
        if malformed l then Err (MalformedLine l) else Ok (l, advance (S i) br)
      else Err LineTooLong
  | None =>
      if Z.of_nat (length line) + Z.of_nat (length (pending br)) <? line_limit
      then Err (RIO (fin br)) else Err LineTooLong
  end.

(** ** Lemmas on readLine *)

Lemma readLine_loop_full line br :
  index_byte LF (take bufsize (pending br)) = None ->
  (bufsize <= length (pending br))%nat ->
  readLine_result line br = readLine_result (line ++ take bufsize (pending br)) (advance bufsize br).
Proof.
  intros Hno%index_byte_None Hlen. unfold readLine_result.
  rewrite (index_byte_drop LF (pending br) bufsize Hno Hlen). simpl.
  rewrite length_app, length_take_le, length_drop by done.
  destruct (index_byte LF (drop bufsize (pending br))) as [i|] eqn:Ei; simpl.
  - replace (Z.of_nat (length line + bufsize) + Z.of_nat (S i)) with
      (Z.of_nat (length line) + Z.of_nat (S (bufsize + i))) by lia.
    case_match; [|done].
    replace (S (bufsize + i)) with (bufsize + S i)%nat by lia.
    rewrite <- take_take_drop, <- app_assoc. unfold advance. simpl. by rewrite drop_drop.
  - replace (Z.of_nat (length line + bufsize) + Z.of_nat (length (pending br) - bufsize)) with
      (Z.of_nat (length line) + Z.of_nat (length (pending br))) by lia.
    done.
Qed.

Lemma readLine_result_long line br :
  line_limit <= Z.of_nat (length line) -> readLine_result line br = Err LineTooLong.
Proof.
  intros Hl. unfold readLine_result. case_match.
  - rewrite (proj2 (Z.leb_gt _ _)) by lia. done.
  - rewrite (proj2 (Z.ltb_ge _ _)) by lia. done.
Qed.

Lemma readLine_loop_spec fuel line br :
  Z.of_nat (length line) = 4096 * (16 - Z.of_nat fuel) -> (fuel <= 16)%nat ->
  readLine_loop (S fuel) line br = readLine_result line br.
Proof.
  revert line br. induction fuel as [|fuel IH]; intros line br Hl Hf;
    set (f := S _); simpl; subst f; unfold ReadSlice;
    destruct (index_byte LF (take bufsize (pending br))) as [i|] eqn:Ei.
  1, 3: unfold readLine_result, line_limit;
    rewrite index_byte_take in Ei; destruct (index_byte LF (pending br)) as [j|]; [|done];
    destruct (j <? bufsize)%nat eqn:Ej; simplify_eq; to_prop;
    rewrite (proj2 (Z.leb_le _ _)) by (pose proof bufsize_eq; lia); done.
  all: destruct (bufsize <=? length (pending br))%nat eqn:Eb; to_prop.
  2, 4: unfold readLine_result, line_limit; rewrite index_byte_take in Ei;
    destruct (index_byte LF (pending br)) as [j|] eqn:Ej;
      [pose proof (index_byte_lt _ _ _ Ej);
       destruct (j <? bufsize)%nat eqn:?; simplify_eq; to_prop; lia|];
    rewrite (proj2 (Z.ltb_lt _ _)) by (pose proof bufsize_eq; lia); done.
  all: rewrite (readLine_loop_full _ _ Ei Eb); unfold maxLineLen;
    rewrite length_app, length_take_le by done.
  - rewrite (proj2 (Z.ltb_lt _ _)) by (pose proof bufsize_eq; lia).
    rewrite readLine_result_long; [done|].
    rewrite length_app, length_take_le by done. unfold line_limit. pose proof bufsize_eq. lia.
  - rewrite (proj2 (Z.ltb_ge _ _)) by (pose proof bufsize_eq; lia).
    apply IH; [rewrite length_app, length_take_le by done; pose proof bufsize_eq|]; lia.
Qed.

Lemma readLine_eq br : readLine br = readLine_result [] br.
Proof. apply readLine_loop_spec; simpl; lia. Qed.

Lemma length_line_bytes c p : length (line_bytes c p) = (length p + 3)%nat.
Proof. unfold line_bytes, CRLF. simpl. rewrite length_app. simpl. lia. Qed.

Lemma head_line_bytes c p : head (line_bytes c p) = Some c.
Proof. done. Qed.

Lemma line_payload_bytes c p : line_payload (line_bytes c p) = p.
Proof.
  unfold line_payload. rewrite length_line_bytes. unfold line_bytes. simpl.
  rewrite drop_0. apply take_app_length'. lia.
Qed.

Lemma malformed_line_bytes c p : malformed (line_bytes c p) = false.
Proof.
  unfold malformed. rewrite length_line_bytes.
  rewrite (proj2 (Nat.ltb_ge _ _)) by lia. simpl.
  rewrite bool_decide_eq_true_2; [done|].
  replace (length p + 3 - 2)%nat with (S (length p)) by lia. unfold line_bytes. simpl.
  by rewrite lookup_app_r, Nat.sub_diag by lia.
Qed.

Lemma malformed_false line :
  malformed line = false -> last line = Some LF -> exists c p, line = line_bytes c p.
Proof.
  unfold malformed. intros [Hl Hcr]%orb_false_iff Hlast. to_prop.
  destruct line as [|c line]; [done|]. exists c.
  destruct line as [|a line] using rev_ind; [simpl in Hl; lia|].
  destruct line as [|b line _] using rev_ind; [simpl in Hl; lia|].
  exists line. unfold line_bytes, CRLF.
  rewrite app_comm_cons, last_snoc in Hlast. injection Hlast as ->.
  simpl in Hcr. rewrite !length_app in Hcr. simpl in Hcr.
  replace (length line + 1 + 1 - 1)%nat with (S (length line)) in Hcr by lia.
  simpl in Hcr. rewrite lookup_app_l in Hcr by (rewrite length_app; simpl; lia).
  rewrite lookup_app_r, Nat.sub_diag in Hcr by lia. injection Hcr as ->.
  by rewrite <- app_assoc.
Qed.

(** A line of the protocol at the head of the stream is read as it is. *)
Lemma readLine_app c p rest e :
  is_line c p ->
  readLine (MkReader (line_bytes c p ++ rest) e) = Ok (line_bytes c p, MkReader rest e).
Proof.
  intros [HLF Hlen]. rewrite readLine_eq. unfold readLine_result. cbn [pending fin].
  assert (line_bytes c p ++ rest = (c :: p ++ [CR]) ++ LF :: rest) as Hshape.
  { unfold line_bytes, CRLF. simpl. by rewrite <- !app_assoc. }
  assert (index_byte LF (line_bytes c p ++ rest) = Some (length p + 2)%nat) as ->.
  { rewrite Hshape, index_byte_app_notin.
    - simpl. rewrite length_app. simpl. f_equal. lia.
    - rewrite app_comm_cons, not_elem_of_app. split; [done|].
      rewrite list_elem_of_singleton. done. }
  assert (take (S (length p + 2)) (line_bytes c p ++ rest) = line_bytes c p) as Ht.
  { apply take_app_length'. rewrite length_line_bytes. lia. }
  rewrite (proj2 (Z.leb_le _ _)) by (simpl length; lia).
  cbv zeta. rewrite app_nil_l, Ht, malformed_line_bytes. do 2 f_equal. unfold advance. cbn [pending fin].
  by rewrite drop_app_length' by (rewrite length_line_bytes; lia).
Qed.

Lemma readLine_ok br line br' :
  readLine br = Ok (line, br') ->
  exists c p, line = line_bytes c p /\ is_line c p /\
    pending br = line_bytes c p ++ pending br' /\ fin br' = fin br.
Proof.
  rewrite readLine_eq. unfold readLine_result.
  destruct (index_byte LF (pending br)) as [i|] eqn:Ei; [|by case_match].
  case_match; [|done]. cbv zeta. rewrite app_nil_l.
  destruct (malformed _) eqn:Em; [done|]. intros [= <- <-]. to_prop.
  pose proof (index_byte_lt _ _ _ Ei) as Hlt.
  apply index_byte_Some in Ei as [Hi Hbefore].
  destruct (malformed_false _ Em) as (c & p & Hcp).
  { rewrite (take_S_r _ _ _ Hi), last_snoc. done. }
  exists c, p. rewrite Hcp.
  assert (length p + 3 = S i)%nat as Hlen.
  { rewrite <- (length_line_bytes c p), <- Hcp, length_take. lia. }
  split_and!; [done| |by rewrite <- Hcp; simpl; rewrite take_drop|done].
  split; [|simpl length in *; lia].
  intros (j & Hj)%list_elem_of_lookup_1.
  assert (j < length (c :: p))%nat as Hjl by (by eapply lookup_lt_Some).
  simpl in Hjl. apply (Hbefore j); [lia|].
  rewrite <- (take_drop (S i) (pending br)), lookup_app_l by (rewrite length_take; lia).
  rewrite Hcp. unfold line_bytes. rewrite app_comm_cons.
  by rewrite lookup_app_l by (simpl; lia).
Qed.

Lemma readLine_shorter br line br' :
  readLine br = Ok (line, br') -> (length (pending br') + 3 <= length (pending br))%nat.
Proof.
  intros (c & p & _ & _ & -> & _)%readLine_ok. rewrite length_app, length_line_bytes. lia.
Qed.

(** ** The grammar of replies

    What the RESP2/RESP3 documents call a reply: a single-line value, a
    length-prefixed blob (or its null), an aggregate of [n] replies, a map of
    [2n] replies; an attribute section or an out-of-band push precedes the
    reply it comes with. [reply b]: the bytes [b] are exactly one reply.
    [replies k b]: they are [k] replies one after the other. *)

Inductive reply : list byte -> Prop :=
| reply_simple c p :
    kind_of c = Some KSimple -> is_line c p -> reply (line_bytes c p)
| reply_blob c p n body :
    kind_of c = Some KBlob -> is_line c p -> ParseInt p = Some n ->
    0 <= n <= maxBulkLen -> Z.of_nat (length body) = n + 2 ->
    reply (line_bytes c p ++ body)
| reply_null c p n :
    kind_of c = Some KBlob -> is_line c p -> ParseInt p = Some n -> n < 0 ->
    reply (line_bytes c p)
| reply_aggregate c p n b :
    kind_of c = Some KAggregate -> is_line c p -> ParseInt p = Some n ->
    n <= maxRESPElements -> replies (Z.to_nat n) b ->
    reply (line_bytes c p ++ b)
| reply_map c p n b :
    kind_of c = Some KMap -> is_line c p -> ParseInt p = Some n ->
    n <= maxRESPElements -> replies (Z.to_nat (2 * n)) b ->
    reply (line_bytes c p ++ b)
| reply_attribute c p n b v :
    kind_of c = Some KAttribute -> is_line c p -> ParseInt p = Some n ->
    n <= maxRESPElements -> replies (Z.to_nat (2 * n)) b -> reply v ->
    reply (line_bytes c p ++ b ++ v)
| reply_push c p n b v :
    kind_of c = Some KPush -> is_line c p -> ParseInt p = Some n ->
    n <= maxRESPElements -> replies (Z.to_nat n) b -> reply v ->
    reply (line_bytes c p ++ b ++ v)
with replies : nat -> list byte -> Prop :=
| replies_nil : replies 0 []
| replies_cons k v b : reply v -> replies k b -> replies (S k) (v ++ b).

Scheme reply_mind := Minimality for reply Sort Prop
  with replies_mind := Minimality for replies Sort Prop.
Combined Scheme reply_replies_ind from reply_mind, replies_mind.

(** The effect of one header line: how many more replies are awaited, and how
    many bytes follow the line. *)
Definition head_effect (k : resp_kind) (p : list byte) : option (Z * Z) :=
  match k with
  | KSimple => Some (-1, 0)
  | KBlob => n ← ParseInt p;
      if maxBulkLen <? n then None else Some (-1, if 0 <=? n then n + 2 else 0)
  | KAggregate => n ← ParseInt p; if maxRESPElements <? n then None else Some (-1 + Z.max 0 n, 0)
  | KMap => n ← ParseInt p; if maxRESPElements <? n then None else Some (-1 + Z.max 0 (2 * n), 0)
  | KAttribute => n ← ParseInt p; if maxRESPElements <? n then None else Some (Z.max 0 (2 * n), 0)
  | KPush => n ← ParseInt p; if maxRESPElements <? n then None else Some (Z.max 0 n, 0)
  end.

#[global] Opaque line_bytes.

(** ** Lemmas on copyRESP: one round of the loop *)

Lemma head_effect_bounds k p d b :
  head_effect k p = Some (d, b) -> -1 <= d <= 2 ^ 21 /\ 0 <= b.
Proof.
  unfold head_effect, maxRESPElements, maxBulkLen. intros H.
  destruct k; simplify_option_eq; repeat case_match; simplify_eq; to_prop; lia.
Qed.

Lemma head_effect_body k p d b :
  head_effect k p = Some (d, b) -> b = 0 \/ k = KBlob.
Proof.
  unfold head_effect. intros H. destruct k; simplify_option_eq; auto;
    destruct (ParseInt p); simpl in H; repeat case_match; simplify_eq; auto.
Qed.

Lemma copyRESP_loop_step fuel remaining w c p k d body rest e :
  0 < remaining <= int64_max -> is_line c p -> kind_of c = Some k ->
  head_effect k p = Some (d, Z.of_nat (length body)) ->
  fits (line_bytes c p ++ body) w ->
  copyRESP_loop (S fuel) remaining w (MkReader (line_bytes c p ++ body ++ rest) e) =
  copyRESP_loop fuel (wrap64 (remaining + d)) (push (line_bytes c p ++ body) w) (MkReader rest e).
Proof.
  intros Hr Hl Hk Hd [Hw Hw']%fits_app. cbn [copyRESP_loop].
  rewrite (proj2 (Z.leb_gt _ _)), readLine_app, Write_fits by (done || lia).
  rewrite line_payload_bytes, push_app.
  rewrite head_line_bytes. cbn [mbind option_bind]. rewrite Hk. unfold parseRESPInt.
  assert (forall x, x = 0 -> Z.of_nat (length body) = x -> body = []) as Hnil.
  { intros x ->. destruct body; simpl; [done|lia]. }
  unfold head_effect in Hd.
  destruct k; simplify_option_eq; try (destruct (ParseInt p) as [n|]; [|done]); simplify_option_eq.
  all: repeat case_match; simplify_eq; to_prop; simplify_eq/=.
  all: rewrite ?wrap64_add_r, ?wrap64_add_l.
  all: try match goal with
       | H : CopyN _ _ _ = _ |- _ =>
           rewrite (CopyN_app _ body) in H by (done || lia); simplify_eq
       end.
  all: try (rewrite (Hnil _ eq_refl) in * by done; rewrite push_nil, ?app_nil_l).
  all: f_equal; try done.
  all: first [f_equal; lia | rewrite wrap64_id by (unfold int64_min; lia); lia].
Qed.

(** Every successful round is such a step. *)
Lemma copyRESP_loop_inv fuel remaining w br w' br' :
  0 < remaining <= int64_max ->
  copyRESP_loop (S fuel) remaining w br = (w', Ok br') ->
  exists c p k d body br1,
    pending br = line_bytes c p ++ body ++ pending br1 /\ fin br1 = fin br /\
    is_line c p /\ kind_of c = Some k /\
    head_effect k p = Some (d, Z.of_nat (length body)) /\
    fits (line_bytes c p ++ body) w /\
    copyRESP_loop fuel (wrap64 (remaining + d)) (push (line_bytes c p ++ body) w) br1 = (w', Ok br').
Proof.
  intros Hr H. pose proof H as Hrun. cbn [copyRESP_loop] in H.
  rewrite (proj2 (Z.leb_gt _ _)) in H by lia.
  destruct (readLine br) as [[line br1]|] eqn:Hline; [|done].
  apply readLine_ok in Hline as (c & p & -> & Hl & Hbr & Hfin).
  destruct (Write _ w) as [w1 [e|]] eqn:Hw; [done|].
  apply Write_None_fits in Hw as [-> Hfit].
  rewrite line_payload_bytes in H. rewrite head_line_bytes in H.
  cbn [mbind option_bind] in H. destruct (kind_of c) as [k|] eqn:Hk; [|done].
  assert (exists d body br2, pending br1 = body ++ pending br2 /\ fin br2 = fin br1 /\
    head_effect k p = Some (d, Z.of_nat (length body)) /\
    fits body (push (line_bytes c p) w)) as (d & body & br2 & Hbr2 & Hfin2 & Hd & Hbody).
  { unfold parseRESPInt, head_effect in *.
    destruct k; try (destruct (ParseInt p) as [n|]; [|done]); simpl.
    all: try (case_match; [done|]).
    all: try (eexists _, [], br1; split_and!; eauto with go; done).
    destruct (0 <=? n) eqn:Hn; to_prop.
    - destruct (CopyN _ _ _) as [w2 [br2|e]] eqn:Hc; [|done].
      apply CopyN_ok in Hc as (q & ? & Hq & ? & _ & ?).
      rewrite <- Hq by lia. eexists _, q, br2. done.
    - eexists _, [], br1. split_and!; eauto with go. }
  exists c, p, k, d, body, br2.
  assert (pending br = line_bytes c p ++ body ++ pending br2) as Hp by congruence.
  assert (fits (line_bytes c p ++ body) w) as Hf by (by apply fits_app).
  split_and!; try done; [congruence|]. rewrite <- Hrun.
  destruct br as [pe fe]; simpl in Hp, Hfin; subst pe fe.
  destruct br2 as [pe2 fe2]; simpl in Hfin2; subst fe2.
  symmetry. by apply copyRESP_loop_step with k.
Qed.

(** ** Lemmas on copyRESP: fuel *)

Lemma copyRESP_loop_fuel fuel1 fuel2 remaining w br :
  (length (pending br) < fuel1)%nat -> (length (pending br) < fuel2)%nat ->
  copyRESP_loop fuel1 remaining w br = copyRESP_loop fuel2 remaining w br.
Proof.
  revert fuel2 remaining w br.
  induction fuel1 as [|fuel1 IH]; intros [|fuel2] remaining w br H1 H2; [lia..|].
  cbn [copyRESP_loop]. case_match; [done|].
  destruct (readLine br) as [[line br1]|] eqn:Hl; [|done].
  apply readLine_shorter in Hl.
  destruct (Write line w) as [w1 [e|]]; [done|].
  repeat (case_match; try done); try (apply IH; lia).
  all: match goal with
       | Hc : CopyN _ _ _ = (_, Ok _) |- _ =>
           apply CopyN_ok in Hc as (q & Hq & _); apply (f_equal length) in Hq;
           rewrite length_app in Hq; apply IH; lia
       end.
Qed.

Lemma copyRESP_loop_done fuel remaining w br :
  remaining <= 0 -> copyRESP_loop fuel remaining w br = (w, Ok br).
Proof. intros H. destruct fuel; simpl; by rewrite (proj2 (Z.leb_le _ _)). Qed.

(** ** Lemmas on the grammar *)

Lemma replies_split k1 k2 b :
  replies (k1 + k2) b -> exists b1 b2, b = b1 ++ b2 /\ replies k1 b1 /\ replies k2 b2.
Proof.
  revert b. induction k1 as [|k1 IH]; intros b H; simpl in H.
  - exists [], b. split_and!; [done|constructor|done].
  - inversion H as [|? v b' Hv Hb]; subst.
    apply IH in Hb as (b1 & b2 & -> & ? & ?).
    exists (v ++ b1), b2. split_and!; [by rewrite app_assoc|by constructor|done].
Qed.

(** The two ways an announced count is spent: on the elements of a value that
    is itself awaited, and on elements that precede an awaited value. *)
Lemma replies_elements r n b :
  0 < r -> replies (Z.to_nat (r + (-1 + 0 `max` n))) b ->
  exists b1 b2, b = b1 ++ b2 /\ replies (Z.to_nat n) b1 /\ replies (Z.to_nat (r - 1)) b2.
Proof.
  intros Hr Hb. apply replies_split.
  by replace (Z.to_nat n + Z.to_nat (r - 1))%nat with (Z.to_nat (r + (-1 + 0 `max` n))) by lia.
Qed.

Lemma replies_preceding r n b :
  0 < r -> replies (Z.to_nat (r + 0 `max` n)) b ->
  exists b1 v b2, b = b1 ++ v ++ b2 /\ replies (Z.to_nat n) b1 /\ reply v /\
    replies (Z.to_nat (r - 1)) b2.
Proof.
  intros Hr Hb.
  replace (Z.to_nat (r + 0 `max` n)) with (Z.to_nat n + S (Z.to_nat (r - 1)))%nat in Hb by lia.
  apply replies_split in Hb as (b1 & b2 & -> & ? & Hb2). inversion Hb2; subst.
  by repeat eexists.
Qed.

(** A header line and what it announces, followed by the replies awaited after
    it, are the replies awaited before it. *)
Lemma replies_step c p k d body r b :
  is_line c p -> kind_of c = Some k ->
  head_effect k p = Some (d, Z.of_nat (length body)) -> 0 < r ->
  replies (Z.to_nat (r + d)) b ->
  replies (Z.to_nat r) (line_bytes c p ++ body ++ b).
Proof.
  intros Hl Hk Hd Hr Hb.
  replace (Z.to_nat r) with (S (Z.to_nat (r - 1))) by lia.
  assert (body = [] \/ k = KBlob) as Hbody.
  { destruct (head_effect_body _ _ _ _ Hd); [left|by right].
    destruct body; [done|simpl in *; lia]. }
  destruct Hbody as [-> | ->]; [rewrite app_nil_l|].
  all: unfold head_effect in Hd.
  - destruct k; simplify_option_eq; repeat case_match; simplify_eq; to_prop; try lia.
    + constructor; [by constructor|]. by replace (r - 1) with (r + -1) by lia.
    + constructor; [by eapply reply_null|]. by replace (r - 1) with (r + -1) by lia.
    + apply replies_elements in Hb as (b1 & b2 & -> & ? & ?); [|done].
      rewrite app_assoc. constructor; [by eapply reply_aggregate|done].
    + apply replies_elements in Hb as (b1 & b2 & -> & ? & ?); [|done].
      rewrite app_assoc. constructor; [by eapply reply_map|done].
    + apply replies_preceding in Hb as (b1 & v & b2 & -> & ? & ? & ?); [|done].
      rewrite (app_assoc b1), app_assoc. constructor; [by eapply reply_attribute|done].
    + apply replies_preceding in Hb as (b1 & v & b2 & -> & ? & ? & ?); [|done].
      rewrite (app_assoc b1), app_assoc. constructor; [by eapply reply_push|done].
  - simplify_option_eq. case_match; [done|]. simplify_eq. to_prop. rewrite app_assoc.
    replace (r + -1) with (r - 1) in Hb by lia. constructor; [|done].
    case_match; to_prop; [by eapply reply_blob; eauto; lia|].
    destruct body; [|simpl in *; lia]. rewrite app_nil_r. by eapply reply_null.
Qed.

(** ** Lemmas on copyRESP: the grammar *)

Lemma copyRESP_loop_sound fuel remaining w br w' br' :
  0 <= remaining -> remaining + 2 ^ 21 * Z.of_nat (length (pending br)) <= int64_max ->
  copyRESP_loop fuel remaining w br = (w', Ok br') ->
  exists o, pending br = o ++ pending br' /\ fin br' = fin br /\ w' = push o w /\ fits o w /\
    replies (Z.to_nat remaining) o.
Proof.
  revert remaining w br. induction fuel as [|fuel IH]; intros remaining w br Hr Hb Hrun.
  all: destruct (Z.eq_dec remaining 0) as [->|Hne].
  1, 3: rewrite copyRESP_loop_done in Hrun by done; simplify_eq; exists [];
    rewrite push_nil; split_and!; auto with go; constructor.
  { simpl in Hrun. rewrite (proj2 (Z.leb_gt _ _)) in Hrun by lia. done. }
  apply copyRESP_loop_inv in Hrun
    as (c & p & k & d & body & br1 & Hp & Hfin & Hl & Hk & Hd & Hf & Hrun); [|lia].
  pose proof (head_effect_bounds _ _ _ _ Hd) as [Hdb _].
  apply (f_equal length) in Hp as Hlen. rewrite !length_app, length_line_bytes in Hlen.
  rewrite wrap64_id in Hrun by (unfold int64_min; lia).
  apply IH in Hrun as (o & Ho & Hfin' & -> & Hfo & Hreps); [|lia..].
  exists (line_bytes c p ++ body ++ o).
  split_and!; [by rewrite Hp, Ho, <- !app_assoc|congruence| | |].
  - by rewrite <- push_app, app_assoc.
  - rewrite app_assoc. by apply fits_app.
  - eapply replies_step; [exact Hl|exact Hk|exact Hd|lia|exact Hreps].
Qed.

Lemma copyRESP_loop_head fuel r w c p k d body rest e :
  (length (line_bytes c p ++ body ++ rest) < fuel)%nat ->
  0 < r -> r + 2 ^ 21 <= int64_max ->
  is_line c p -> kind_of c = Some k ->
  head_effect k p = Some (d, Z.of_nat (length body)) ->
  fits (line_bytes c p ++ body) w ->
  copyRESP_loop fuel r w (MkReader (line_bytes c p ++ body ++ rest) e) =
  copyRESP_loop fuel (r + d) (push (line_bytes c p ++ body) w) (MkReader rest e).
Proof.
  intros Hfuel Hr Hmax Hl Hk Hd Hf.
  pose proof (head_effect_bounds _ _ _ _ Hd) as [Hdb _].
  rewrite !length_app, length_line_bytes in Hfuel.
  destruct fuel as [|fuel]; [lia|].
  rewrite (copyRESP_loop_step fuel _ _ _ _ k d) by (done || lia).
  rewrite wrap64_id by (unfold int64_min; lia).
  apply copyRESP_loop_fuel; simpl; lia.
Qed.

(** The reading of [n] replies, then of [k] more, is the reading of [k] once the
    [n] replies are copied. *)
Definition copies (n : Z) (b : list byte) : Prop :=
  forall fuel k w rest e,
  (length (b ++ rest) < fuel)%nat -> 0 <= k ->
  n + k + 2 ^ 21 * (1 + Z.of_nat (length b)) <= int64_max -> fits b w ->
  copyRESP_loop fuel (n + k) w (MkReader (b ++ rest) e) =
  copyRESP_loop fuel k (push b w) (MkReader rest e).

(** A header, the elements it announces and the value it precedes. *)
Lemma copies_head c p k d m b :
  is_line c p -> kind_of c = Some k -> head_effect k p = Some (d, 0) ->
  copies m b -> 1 + d = m -> copies 1 (line_bytes c p ++ b).
Proof.
  intros Hl Hk Hd Hb <- fuel j w rest e Hfuel Hj Hmax [Hf1 Hf2]%fits_app.
  pose proof (head_effect_bounds _ _ _ _ Hd) as [Hdb _].
  rewrite !length_app, length_line_bytes in *.
  rewrite <- app_assoc, push_app.
  pose proof (copyRESP_loop_head fuel (1 + j) w c p k d [] (b ++ rest) e) as Hstep.
  rewrite app_nil_l, app_nil_r, !length_app, length_line_bytes in Hstep.
  rewrite Hstep by (done || lia). replace (1 + j + d) with (1 + d + j) by lia.
  apply Hb; rewrite ?length_app; done || lia.
Qed.

Lemma copies_app n m b1 b2 :
  0 <= n -> 0 <= m -> copies n b1 -> copies m b2 -> copies (n + m) (b1 ++ b2).
Proof.
  intros Hn Hm H1 H2 fuel k w rest e Hfuel Hk Hmax [Hf1 Hf2]%fits_app.
  rewrite !length_app in *. rewrite <- app_assoc, push_app, <- Z.add_assoc.
  rewrite H1 by (rewrite ?length_app; done || lia).
  apply H2; rewrite ?length_app; done || lia.
Qed.

Lemma reply_replies_copies :
  (forall b, reply b -> copies 1 b) /\ (forall n b, replies n b -> copies (Z.of_nat n) b).
Proof.
  assert (copies 0 []) as Hnil.
  { intros fuel k w rest e _ _ _ _. by rewrite push_nil. }
  apply reply_replies_ind.
  - intros c p Hk Hl. rewrite <- (app_nil_r (line_bytes c p)).
    by apply (copies_head c p KSimple (-1) 0).
  - intros c p n body Hk Hl Hn Hr Hlen fuel k w rest e Hfuel Hk0 Hmax Hf.
    rewrite <- app_assoc in *. rewrite !length_app in *.
    rewrite (copyRESP_loop_head fuel _ w c p KBlob (-1)) by
      (rewrite ?length_app; try done; try lia; simpl; rewrite Hn; simpl;
       rewrite (proj2 (Z.ltb_ge _ _)), (proj2 (Z.leb_le _ _)) by lia; by rewrite Hlen).
    f_equal. lia.
  - intros c p n Hk Hl Hn Hneg. rewrite <- (app_nil_r (line_bytes c p)).
    apply (copies_head c p KBlob (-1) 0); try done. simpl. rewrite Hn. simpl.
    unfold maxBulkLen. rewrite (proj2 (Z.ltb_ge _ _)), (proj2 (Z.leb_gt _ _)) by lia. done.
  - intros c p n b Hk Hl Hn Hmax _ IH.
    eapply (copies_head c p KAggregate); [done..| |exact IH|].
    + simpl. rewrite Hn. simpl. by rewrite (proj2 (Z.ltb_ge _ _)) by lia.
    + lia.
  - intros c p n b Hk Hl Hn Hmax _ IH.
    eapply (copies_head c p KMap); [done..| |exact IH|].
    + simpl. rewrite Hn. simpl. by rewrite (proj2 (Z.ltb_ge _ _)) by lia.
    + lia.
  - intros c p n b v Hk Hl Hn Hmax _ IH _ IHv.
    eapply (copies_head c p KAttribute); [done..| |eapply copies_app; [| |exact IH|exact IHv]; lia|].
    + simpl. rewrite Hn. simpl. by rewrite (proj2 (Z.ltb_ge _ _)) by lia.
    + lia.
  - intros c p n b v Hk Hl Hn Hmax _ IH _ IHv.
    eapply (copies_head c p KPush); [done..| |eapply copies_app; [| |exact IH|exact IHv]; lia|].
    + simpl. rewrite Hn. simpl. by rewrite (proj2 (Z.ltb_ge _ _)) by lia.
    + lia.
  - done.
  - intros k v b _ Hv _ Hb. rewrite Nat2Z.inj_succ, <- Z.add_1_l.
    apply copies_app; [lia|lia|done..].
Qed.

(** ** Lemmas on copyRESP: any outcome *)

Lemma readLine_not_fuel br : readLine br <> Err OutOfFuel.
Proof. rewrite readLine_eq. unfold readLine_result. cbv zeta. by repeat case_match. Qed.

Lemma parseRESPInt_not_fuel b : parseRESPInt b <> Err OutOfFuel.
Proof. unfold parseRESPInt. by case_match. Qed.

Lemma written_push q w : written (push q w) = written w ++ q.
Proof. done. Qed.

(** [relays w bs x]: the outcome [x] of a copy from the bytes [bs] to [w] has
    written a prefix of [bs] and is not the end of the fuel. *)
Definition relays (w : writer) (bs : list byte) (x : writer * result resp_err reader) : Prop :=
  snd x <> Err OutOfFuel /\
  exists q, written (fst x) = written w ++ q /\ q `prefix_of` bs.

Lemma relays_stop w bs o : o <> Err OutOfFuel -> relays w bs (w, o).
Proof. intros Ho. split; [done|]. exists []. rewrite app_nil_r. auto with go. Qed.

Lemma relays_push q w bs x : relays (push q w) bs x -> relays w (q ++ bs) x.
Proof.
  intros [Hx (q' & Hw & Hq)]. split; [done|]. exists (q ++ q').
  rewrite Hw, written_push, <- app_assoc. split; [done|]. by apply prefix_app.
Qed.

Lemma relays_fail w w' bs e q :
  e <> OutOfFuel -> written w' = written w ++ q -> q `prefix_of` bs -> relays w bs (w', Err e).
Proof. intros He Hw Hq. split; [simpl; congruence|]. by exists q. Qed.

Lemma copyRESP_loop_relays fuel remaining w br :
  (length (pending br) < fuel)%nat ->
  relays w (pending br) (copyRESP_loop fuel remaining w br).
Proof.
  revert remaining w br. induction fuel as [|fuel IH]; intros remaining w br Hfuel; [lia|].
  cbn [copyRESP_loop]. case_match; [apply relays_stop; congruence|].
  pose proof (readLine_not_fuel br) as Hnf.
  destruct (readLine br) as [[line br1]|e] eqn:Hline; [|apply relays_stop; congruence].
  pose proof (readLine_shorter _ _ _ Hline) as Hshort.
  apply readLine_ok in Hline as (c & p & -> & _ & Hbr & _). rewrite Hbr.
  destruct (Write _ w) as [w1 [e|]] eqn:Hw.
  { apply Write_fail in Hw as (q & Hq & Hpre).
    eapply relays_fail; [done|exact Hq|]. by apply prefix_app_r. }
  apply Write_None_fits in Hw as [-> _]. apply relays_push.
  rewrite line_payload_bytes, head_line_bytes. cbn [mbind option_bind].
  pose proof (parseRESPInt_not_fuel p) as Hpf.
  destruct (kind_of c) as [[]|]; [apply IH; lia|..|apply relays_stop; congruence].
  all: destruct (parseRESPInt p) as [n|e]; [|apply relays_stop; congruence].
  all: case_match; [apply relays_stop; congruence|]; try (apply IH; lia).
  case_match; [|apply IH; lia].
  destruct (CopyN (n + 2) _ br1) as [w2 [br2|e]] eqn:Hc.
  - apply CopyN_ok in Hc as (q & Hq & _ & _ & -> & _).
    pose proof (f_equal length Hq) as Hlen. rewrite length_app in Hlen.
    rewrite Hq. apply relays_push, IH. lia.
  - apply CopyN_prefix in Hc as (q & Hq & Hpre). by eapply relays_fail.
Qed.

Lemma copyRESP_relays w br : relays w (pending br) (copyRESP w br).
Proof. apply copyRESP_loop_relays. lia. Qed.

Lemma copyRESP_reply w b rest e :
  reply b -> Z.of_nat (length b) < 2 ^ 41 -> fits b w ->
  copyRESP w (MkReader (b ++ rest) e) = (push b w, Ok (MkReader rest e)).
Proof.
  intros Hb Hlen Hf. unfold copyRESP.
  change 1 with (1 + 0). rewrite (proj1 reply_replies_copies b Hb);
    [|simpl; lia|lia|unfold int64_max; lia|done].
  by apply copyRESP_loop_done.
Qed.

Lemma copyRESP_ok w br w' br' :
  Z.of_nat (length (pending br)) < 2 ^ 41 ->
  copyRESP w br = (w', Ok br') ->
  exists b, reply b /\ pending br = b ++ pending br' /\ fin br' = fin br /\
    w' = push b w /\ fits b w.
Proof.
  intros Hlen Hrun. apply copyRESP_loop_sound in Hrun
    as (b & Hb & Hfin & Hw & Hf & Hrep); [|lia|unfold int64_max; lia].
  exists b. split_and!; try done. change (Z.to_nat 1) with 1%nat in Hrep.
  inversion Hrep as [|? v ? Hv Hnil]; subst. inversion Hnil; subst. by rewrite app_nil_r.
Qed.

(** ** The grammar of commands

    [command args raw]: the bytes [raw] are a RESP array of the bulk strings
    [args].  The two bytes after a bulk string are not looked at, neither by
    the proxy nor by this grammar. *)

Inductive bulks : list (list byte) -> list byte -> Prop :=
| bulks_nil : bulks [] []
| bulks_cons p a t args b :
    is_line "$"%byte p -> ParseInt p = Some (Z.of_nat (length a)) ->
    Z.of_nat (length a) <= maxBulkLen -> length t = 2%nat -> bulks args b ->
    bulks (a :: args) (line_bytes "$"%byte p ++ (a ++ t) ++ b).

Definition command (args : list (list byte)) (raw : list byte) : Prop :=
  exists p n b, raw = line_bytes "*"%byte p ++ b /\ is_line "*"%byte p /\
    ParseInt p = Some n /\ n <= maxRESPElements /\
    Z.to_nat n = length args /\ bulks args b.

(** The usual encoding of a command, as clients send it. *)
Definition encode_bulk (a : list byte) : list byte :=
  line_bytes "$"%byte (itoa_bytes (Z.of_nat (length a))) ++ a ++ CRLF.

Definition encode_command (args : list (list byte)) : list byte :=
  line_bytes "*"%byte (itoa_bytes (Z.of_nat (length args))) ++ concat (encode_bulk <$> args).

(** The name the proxy routes on. *)
Definition command_name `{UnicodeUpper} (args : list (list byte)) : string :=
  match args with
  | [] => EmptyString
  | a :: _ => String.string_of_list_byte (ToUpper a)
  end.

Section ReadCommandLemmas.
Context `{UnicodeUpper}.

Lemma readArgs_app args b first name raw rest e :
  bulks args b ->
  readArgs (length args) first name raw (MkReader (b ++ rest) e) =
  Ok (match args with
      | a :: _ => if first then ToUpper a else name
      | [] => name
      end, raw ++ b, MkReader rest e).
Proof.
  intros Hb. revert first name raw.
  induction Hb as [|p a t args b Hl Hp Hmax Ht Hb IH]; intros first name raw.
  { by rewrite app_nil_r. }
  cbn [length readArgs]. rewrite <- app_assoc, readLine_app by done.
  cbn [result_bind]. rewrite head_line_bytes, bool_decide_eq_true_2, line_payload_bytes by done.
  unfold parseRESPInt. rewrite Hp. cbn [result_bind negb].
  rewrite (proj2 (Z.ltb_ge _ 0)), (proj2 (Z.ltb_ge maxBulkLen _)) by lia.
  cbn [orb]. rewrite <- app_assoc, ReadFull_app by (rewrite ?length_app; lia).
  cbn [lift_io result_bind]. rewrite IH, Nat2Z.id, take_app_length, <- !app_assoc.
  destruct args; by destruct first.
Qed.

Lemma readArgs_ok n first name raw br name' raw' br' :
  readArgs n first name raw br = Ok (name', raw', br') ->
  exists args b, length args = n /\ bulks args b /\ raw' = raw ++ b /\
    pending br = b ++ pending br' /\ fin br' = fin br.
Proof.
  revert first name raw br. induction n as [|n IH]; intros first name raw br Hrun.
  { simpl in Hrun. simplify_eq. exists [], []. split_and!; eauto using bulks_nil, app_nil_r. }
  cbn [readArgs] in Hrun.
  destruct (readLine br) as [[line br1]|] eqn:Hline; [|done]. cbn [result_bind] in Hrun.
  apply readLine_ok in Hline as (c & p & -> & Hl & Hbr & Hfin).
  rewrite head_line_bytes, line_payload_bytes in Hrun.
  case_bool_decide; [|done]. simplify_eq. cbn [negb] in Hrun. unfold parseRESPInt in Hrun.
  destruct (ParseInt p) as [l|] eqn:Hp; [|done]. cbn [result_bind] in Hrun.
  destruct ((l <? 0) || (maxBulkLen <? l)) eqn:Hbounds; [done|]. to_prop.
  destruct (ReadFull (l + 2) br1) as [[payload br2]|] eqn:Hread; [|done].
  cbn [lift_io result_bind] in Hrun. apply ReadFull_ok in Hread as (Hpay & Hlen & Hfin2).
  apply IH in Hrun as (args & b & Hargs & Hb & -> & Hpend & Hfin3).
  exists (take (Z.to_nat l) payload :: args), (line_bytes "$"%byte p ++ payload ++ b).
  split_and!; [by simpl; f_equal| |by rewrite <- !app_assoc| |congruence].
  - rewrite <- (take_drop (Z.to_nat l) payload) at 2. constructor; try done.
    + rewrite length_take, Hp. f_equal. lia.
    + rewrite length_take. lia.
    + rewrite length_drop. lia.
  - rewrite Hbr, Hpay, Hpend, <- !app_assoc. done.
Qed.

Lemma readCommand_app args raw rest e :
  command args raw ->
  readCommand (MkReader (raw ++ rest) e) = Ok (command_name args, raw, MkReader rest e).
Proof.
  intros (p & n & b & -> & Hl & Hp & Hmax & Hn & Hb). unfold readCommand.
  assert (Peek1 (MkReader ((line_bytes "*"%byte p ++ b) ++ rest) e) = Ok "*"%byte) as -> by done.
  cbn [lift_io result_bind negb]. rewrite byte_eqb_refl. cbn [negb].
  rewrite <- app_assoc, readLine_app by done. cbn [result_bind].
  rewrite line_payload_bytes. unfold parseRESPInt. rewrite Hp. cbn [result_bind].
  rewrite (proj2 (Z.ltb_ge _ _)), Hn, readArgs_app by (done || lia).
  cbn [result_bind]. by destruct args.
Qed.

Lemma readCommand_ok br name raw br' :
  readCommand br = Ok (name, raw, br') ->
  exists args, command args raw /\ name = command_name args /\
    pending br = raw ++ pending br' /\ fin br' = fin br.
Proof.
  intros Hrun. pose proof Hrun as Hsame. unfold readCommand in Hrun.
  destruct (Peek1 br) as [x|] eqn:Hpeek; [|done]. cbn [lift_io result_bind] in Hrun.
  destruct (negb (Byte.eqb x "*"%byte)) eqn:Hx; [done|]. to_prop. subst x.
  destruct (readLine br) as [[line br1]|] eqn:Hline; [|done]. cbn [result_bind] in Hrun.
  apply readLine_ok in Hline as (c & p & -> & Hl & Hbr & Hfin).
  assert (c = "*"%byte) as ->.
  { unfold Peek1 in Hpeek. rewrite Hbr in Hpeek. by injection Hpeek. }
  rewrite line_payload_bytes in Hrun. unfold parseRESPInt in Hrun.
  destruct (ParseInt p) as [n|] eqn:Hp; [|done]. cbn [result_bind] in Hrun.
  case_match; [done|]. to_prop.
  destruct (readArgs _ _ _ _ br1) as [[[name1 raw1] br2]|] eqn:Hargs; [|done].
  cbn [result_bind] in Hrun. simplify_eq.
  apply readArgs_ok in Hargs as (args & b & Hlen & Hb & -> & Hpend & Hfin2).
  assert (pending br = (line_bytes "*"%byte p ++ b) ++ pending br') as Hbr'.
  { by rewrite Hbr, Hpend, app_assoc. }
  assert (command args (line_bytes "*"%byte p ++ b)) as Hcmd by (by exists p, n, b).
  exists args. split_and!; [done| |done|congruence].
  destruct br as [pe fe]; simpl in Hbr', Hfin; subst pe.
  rewrite (readCommand_app _ _ _ _ Hcmd) in Hsame. by injection Hsame.
Qed.

Lemma readCommand_shorter br name raw br' :
  readCommand br = Ok (name, raw, br') -> (length (pending br') < length (pending br))%nat.
Proof.
  intros (args & (p & n & b & -> & _) & _ & -> & _)%readCommand_ok.
  rewrite !length_app, length_line_bytes. lia.
Qed.

Lemma is_line_itoa c n : c <> LF -> Z.abs n < 2 ^ 64 -> is_line c (itoa_bytes n).
Proof.
  intros Hc Hn. pose proof (itoa_length n Hn). split; [|unfold line_limit; lia].
  apply not_elem_of_cons. split; [done|]. apply itoa_no_LF.
Qed.

Lemma encode_command_command args :
  Z.of_nat (length args) <= maxRESPElements ->
  Forall (fun a => Z.of_nat (length a) <= maxBulkLen) args ->
  command args (encode_command args).
Proof.
  unfold maxRESPElements. intros Hn Hargs.
  assert (bulks args (concat (encode_bulk <$> args))) as Hb.
  { clear Hn. induction Hargs as [|a args Ha _ IH]; simpl; [constructor|].
    unfold encode_bulk. rewrite <- app_assoc. unfold maxBulkLen in Ha.
    constructor; [apply is_line_itoa; [done|lia]| |done|done|done].
    apply ParseInt_itoa. unfold int64_min, int64_max. lia. }
  eexists _, (Z.of_nat (length args)), _.
  split_and!; [done|apply is_line_itoa; [done|lia]| |done|lia|done].
  apply ParseInt_itoa. unfold int64_min, int64_max. lia.
Qed.

End ReadCommandLemmas.

(** ** Properties *)

(** [readLine] is total and determined by the position of the first line
    feed: a line of at least three bytes that ends in CRLF and fits into 17
    buffers is returned with the rest of the stream, a longer one is refused,
    a malformed one is an error, and a stream that ends first gives its own
    error.  The loop never runs out of rounds. *)
Theorem readLine_spec br : readLine br = readLine_result [] br.
Proof. apply readLine_eq. Qed.

(** A line that [readLine] hands out is a CRLF-terminated line without an
    inner line feed, at most [maxLineLen] plus one buffer long, and is exactly
    what was taken off the stream. *)
Theorem readLine_line br line br' :
  readLine br = Ok (line, br') ->
  exists c p, line = line_bytes c p /\ (LF ∉ c :: p) /\
    Z.of_nat (length line) <= maxLineLen + 4096 /\ pending br = line ++ pending br'.
Proof.
  intros (c & p & -> & [HLF Hlen] & Hbr & _)%readLine_ok.
  exists c, p. split_and!; [done|done| |done].
  rewrite length_line_bytes. unfold line_limit, maxLineLen in *. lia.
Qed.

Lemma readLine_line_witness :
  exists c p, bytes "+OK" ++ CRLF = line_bytes c p /\ (LF ∉ c :: p) /\
    Z.of_nat (length (bytes "+OK" ++ CRLF)) <= maxLineLen + 4096 /\
    bytes "+OK" ++ CRLF ++ bytes "rest" = (bytes "+OK" ++ CRLF) ++ bytes "rest".
Proof.
  apply (readLine_line (MkReader (bytes "+OK" ++ CRLF ++ bytes "rest") EOF)
           (bytes "+OK" ++ CRLF) (MkReader (bytes "rest") EOF)).
  vm_compute. reflexivity.
Defined.

(** C2: [copyRESP] succeeds exactly when the stream starts with one complete
    RESP reply and the writer has room for it; it then has written that reply,
    byte for byte, and left the rest of the stream unread.  The bound on the
    stream (2 TiB) is what keeps the [int64] counter of awaited replies from
    wrapping around. *)
Theorem copyRESP_one_reply w br w' br' :
  Z.of_nat (length (pending br)) < 2 ^ 41 ->
  copyRESP w br = (w', Ok br') <->
  exists b, reply b /\ fits b w /\ w' = push b w /\
    pending br = b ++ pending br' /\ fin br' = fin br.
Proof.
  intros Hlen. split.
  - intros (b & ?)%copyRESP_ok; [|done]. exists b. naive_solver.
  - intros (b & Hb & Hf & -> & Hp & Hfin).
    destruct br as [pe fe], br' as [pe' fe']; simpl in *; subst.
    apply copyRESP_reply; [done| |done]. rewrite length_app in Hlen. lia.
Qed.

(** Whatever the peer sends and whenever either connection fails,
    [copyRESP] returns (the rounds of the model are enough), and what it has
    written is a prefix of what the backend sent: it never invents, drops or
    reorders a byte. *)
Theorem copyRESP_transparent w br :
  snd (copyRESP w br) <> Err OutOfFuel /\
  exists q, written (fst (copyRESP w br)) = written w ++ q /\ q `prefix_of` pending br.
Proof. apply copyRESP_relays. Qed.

Section ReadCommandProperties.
Context `{UnicodeUpper}.

(** C11: [readCommand] accepts exactly the RESP arrays of bulk strings within
    the protocol limits; it returns the uppercased first argument as the name,
    the bytes of the command unchanged, and leaves the rest of the stream. *)
Theorem readCommand_exact br name raw br' :
  readCommand br = Ok (name, raw, br') <->
  exists args, command args raw /\ name = command_name args /\
    pending br = raw ++ pending br' /\ fin br' = fin br.
Proof.
  split; [apply readCommand_ok|]. intros (args & Hcmd & -> & Hp & Hfin).
  destruct br as [pe fe], br' as [pe' fe']; simpl in *; subst. by apply readCommand_app.
Qed.

(** C32: round trip: the usual encoding of any command within the limits is
    read back as that command, followed by the untouched rest. *)
Theorem readCommand_encode args rest e :
  Z.of_nat (length args) <= maxRESPElements ->
  Forall (fun a => Z.of_nat (length a) <= maxBulkLen) args ->
  readCommand (MkReader (encode_command args ++ rest) e) =
  Ok (command_name args, encode_command args, MkReader rest e).
Proof. intros Hn Ha. by apply readCommand_app, encode_command_command. Qed.

End ReadCommandProperties.

Lemma copyRESP_one_reply_witness :
  copyRESP Discard (MkReader (bytes "+OK" ++ CRLF) EOF)
    = (MkWriter (bytes "+OK" ++ CRLF) None, Ok (MkReader [] EOF)) <->
  exists b, reply b /\ fits b Discard /\
    MkWriter (bytes "+OK" ++ CRLF) None = push b Discard /\
    bytes "+OK" ++ CRLF = b ++ [] /\ EOF = EOF.
Proof.
  apply (copyRESP_one_reply Discard (MkReader (bytes "+OK" ++ CRLF) EOF)
    (MkWriter (bytes "+OK" ++ CRLF) None) (MkReader [] EOF)).
  vm_compute. reflexivity.
Defined.

Lemma readCommand_encode_witness :
  @readCommand (fun s => s) (MkReader (encode_command [bytes "set"; bytes "k"; bytes "v"] ++ bytes "x") EOF)
  = Ok ("SET"%string, encode_command [bytes "set"; bytes "k"; bytes "v"], MkReader (bytes "x") EOF).
Proof.
  apply (@readCommand_encode (fun s => s) [bytes "set"; bytes "k"; bytes "v"] (bytes "x") EOF).
  - vm_compute. discriminate.
  - repeat constructor; vm_compute; discriminate.
Defined.
