(* ===== verification/RespRef.v ===== *)
(** * RespRef: copyRESP against a recursive reference

    [copyRESP] (pkg/proxy/resp.go) relays a reply of any nesting with one
    counter of awaited values.  The reference below follows the structure of
    the reply instead: an aggregate is its header line followed by the relay of
    each element, an attribute or push message is relayed and then the reply it
    precedes.  Both write what they read as they go, so they are compared as
    transformers of the two connections, errors and partial writes included. *)

From Stdlib Require Import Strings.Byte String ZArith Lia.
From stdpp Require Import base list.
From S2P Require Import Prelude GoStd Netio Resp.

Local Open Scope Z_scope.

(** ** Relaying programs *)

(** A program that relays from a reader to a writer; an error keeps what was
    written before it. *)
Definition relayer : Type := writer -> reader -> writer * result resp_err reader.

Definition done_ : relayer := fun w br => (w, Ok br).

Definition fail (e : resp_err) : relayer := fun w br => (w, Err e).

Definition andThen (m k : relayer) : relayer := fun w br =>
  match m w br with
  | (w, Ok br) => k w br
  | (w, Err e) => (w, Err e)
  end.

Declare Scope relay_scope.
Delimit Scope relay_scope with relay.
Notation "m ';;;' k" := (andThen m k) (at level 62, right associativity) : relay_scope.
Local Open Scope relay_scope.

Fixpoint times (n : nat) (m : relayer) : relayer :=
  match n with
  | O => done_
  | S n => m ;;; times n m
  end.

(** Relays one line and passes its type byte and payload on. *)
Definition relayLine (k : option byte -> list byte -> relayer) : relayer := fun w br =>
  match readLine br with
  | Err e => (w, Err e)
  | Ok (line, br) =>
      match Write line w with
      | (w, Some e) => (w, Err (RWrite e))
      | (w, None) => k (head line) (line_payload line) w br
      end
  end.

(** Relays a payload of [n] bytes. *)
Definition relayBytes (n : Z) : relayer := fun w br =>
  match CopyN n w br with
  | (w, Err e) => (w, Err (RCopy e))
  | (w, Ok br) => (w, Ok br)
  end.

(** The length a header announces, within its limit. *)
Definition announced (p : list byte) (limit : Z) (too_long : Z -> resp_err)
    (k : Z -> relayer) : relayer :=
  match parseRESPInt p with
  | Err e => fail e
  | Ok n => if limit <? n then fail (too_long n) else k n
  end.

(** ** The reference

    The fuel bounds the nesting, which no stream of that many bytes exceeds. *)
Fixpoint relay (fuel : nat) : relayer :=
  match fuel with
  | O => fail OutOfFuel
  | S fuel =>
      relayLine (fun c p =>
        match c ≫= kind_of with
        | None => fail (UnexpectedType c)
        | Some KSimple => done_
        | Some KBlob =>
            announced p maxBulkLen BulkTooLong (fun n =>
              if 0 <=? n then relayBytes (n + 2) else done_)
        | Some KAggregate =>
            announced p maxRESPElements AggregateTooLong (fun n =>
              times (Z.to_nat n) (relay fuel))
        | Some KMap =>
            announced p maxRESPElements MapTooLong (fun n =>
              times (Z.to_nat (2 * n)) (relay fuel))
        | Some KAttribute =>
            announced p maxRESPElements AttributeTooLong (fun n =>
              times (Z.to_nat (2 * n)) (relay fuel) ;;; relay fuel)
        | Some KPush =>
            announced p maxRESPElements PushTooLong (fun n =>
              times (Z.to_nat n) (relay fuel) ;;; relay fuel)
        end)
  end.

Definition relayReply : relayer := fun w br => relay (S (length (pending br))) w br.

(** ** Lemmas: the algebra of relaying programs *)

Lemma andThen_assoc m1 m2 m3 w br :
  ((m1 ;;; m2) ;;; m3) w br = (m1 ;;; (m2 ;;; m3)) w br.
Proof. unfold andThen. by destruct (m1 w br) as [w1 [br1|e]]. Qed.

Lemma times_add n1 n2 m w br :
  times (n1 + n2) m w br = (times n1 m ;;; times n2 m) w br.
Proof.
  revert w br. induction n1 as [|n1 IH]; intros w br; [done|].
  cbn [times Nat.add]. rewrite andThen_assoc. unfold andThen at 1 2.
  destruct (m w br) as [w1 [br1|e]]; [apply IH|done].
Qed.

(** Programs that never give bytes back, and agreement on short streams. *)
Definition shrinks (m : relayer) : Prop := forall w br w' br',
  m w br = (w', Ok br') -> (length (pending br') <= length (pending br))%nat.

Definition agree (n : nat) (m1 m2 : relayer) : Prop := forall w br,
  (length (pending br) <= n)%nat -> m1 w br = m2 w br.

#[local] Instance agree_equiv n : Equivalence (agree n).
Proof.
  split.
  - intros m w br. done.
  - intros m1 m2 Hm w br Hn. by rewrite Hm.
  - intros m1 m2 m3 H1 H2 w br Hn. by rewrite H1, H2.
Qed.

Lemma shrinks_done : shrinks done_.
Proof. intros w br w' br'. unfold done_. by intros [= -> ->]. Qed.

Lemma shrinks_fail e : shrinks (fail e).
Proof. done. Qed.

Lemma shrinks_andThen m k : shrinks m -> shrinks k -> shrinks (m ;;; k).
Proof.
  intros Hm Hk w br w' br'. unfold andThen.
  destruct (m w br) as [w1 [br1|e]] eqn:Hr; [|done].
  intros Hr2%Hk. apply Hm in Hr. lia.
Qed.

Lemma shrinks_times n m : shrinks m -> shrinks (times n m).
Proof.
  intros Hm. induction n; [apply shrinks_done|]. by apply shrinks_andThen.
Qed.

Lemma shrinks_relayBytes n : shrinks (relayBytes n).
Proof.
  intros w br w' br'. unfold relayBytes.
  destruct (CopyN n w br) as [w1 [br1|e]] eqn:Hc; [|done]. intros [= <- <-].
  apply CopyN_ok in Hc as (q & Hq & _). rewrite Hq, length_app. lia.
Qed.

Lemma shrinks_relayLine k : (forall c p, shrinks (k c p)) -> shrinks (relayLine k).
Proof.
  intros Hk w br w' br'. unfold relayLine.
  destruct (readLine br) as [[line br1]|e] eqn:Hl; [|done].
  apply readLine_shorter in Hl. destruct (Write line w) as [w1 [e|]]; [done|].
  intros Hr%Hk. lia.
Qed.

Lemma shrinks_announced p limit tl k :
  (forall n, shrinks (k n)) -> shrinks (announced p limit tl k).
Proof. intros Hk. unfold announced. repeat case_match; auto using shrinks_fail. Qed.

#[local] Hint Resolve shrinks_done shrinks_fail shrinks_andThen shrinks_times
  shrinks_relayBytes shrinks_announced : go.

Lemma relay_shrinks fuel : shrinks (relay fuel).
Proof.
  induction fuel as [|fuel IH]; [apply shrinks_fail|]. cbn [relay].
  apply shrinks_relayLine. intros c p.
  destruct (c ≫= kind_of) as [[]|]; try apply shrinks_announced; auto with go.
  intros n. case_match; auto with go.
Qed.
#[local] Hint Resolve relay_shrinks : go.

(** ** Lemmas: the fuel of the reference *)

Lemma agree_andThen n m1 m2 k1 k2 :
  shrinks m2 -> agree n m1 m2 -> agree n k1 k2 -> agree n (m1 ;;; k1) (m2 ;;; k2).
Proof.
  intros Hs Hm Hk w br Hn. unfold andThen. rewrite Hm by done.
  destruct (m2 w br) as [w1 [br1|e]] eqn:Hr; [|done].
  apply Hs in Hr. apply Hk. lia.
Qed.

Lemma agree_times n k m1 m2 :
  shrinks m2 -> agree n m1 m2 -> agree n (times k m1) (times k m2).
Proof.
  intros Hs Hm. induction k; [done|]. by apply agree_andThen.
Qed.

Lemma agree_relayLine n k1 k2 :
  (forall c p, agree n (k1 c p) (k2 c p)) -> agree (S n) (relayLine k1) (relayLine k2).
Proof.
  intros Hk w br Hn. unfold relayLine.
  destruct (readLine br) as [[line br1]|e] eqn:Hl; [|done].
  apply readLine_shorter in Hl. destruct (Write line w) as [w1 [e|]]; [done|].
  apply Hk. lia.
Qed.

Lemma agree_announced n p limit tl k1 k2 :
  (forall x, agree n (k1 x) (k2 x)) ->
  agree n (announced p limit tl k1) (announced p limit tl k2).
Proof. intros Hk. unfold announced. repeat case_match; done || apply Hk. Qed.

(** Fuel beyond the length of the stream changes nothing. *)
Lemma relay_fuel n fuel1 fuel2 :
  (n < fuel1)%nat -> (n < fuel2)%nat -> agree n (relay fuel1) (relay fuel2).
Proof.
  revert fuel1 fuel2. induction n as [|n IH]; intros [|fuel1] [|fuel2] H1 H2; try lia.
  { intros w br Hn. cbn [relay]. unfold relayLine.
    destruct (readLine br) as [[line br1]|e] eqn:Hl; [|done].
    apply readLine_shorter in Hl. lia. }
  specialize (IH fuel1 fuel2 ltac:(lia) ltac:(lia)).
  cbn [relay]. apply agree_relayLine. intros c p.
  destruct (c ≫= kind_of) as [[]|]; try apply agree_announced; try done.
  all: auto using agree_times, agree_andThen with go.
Qed.

(** ** Lemmas: one counter for the whole nesting

    Awaiting [n + k] values is relaying [n] and then [k] of them, with any fuel
    that suffices. *)
Lemma times_relay fuel n k w br :
  (length (pending br) < fuel)%nat ->
  (times n (relay fuel) ;;; times k (relay (S fuel))) w br =
  times (n + k) (relay (S fuel)) w br.
Proof.
  intros Hf. rewrite times_add. apply (agree_andThen (length (pending br))); auto with go; [|done].
  apply agree_times; auto with go. apply relay_fuel; lia.
Qed.

Lemma times_relay_reply fuel n k w br :
  (length (pending br) < fuel)%nat ->
  ((times n (relay fuel) ;;; relay fuel) ;;; times k (relay (S fuel))) w br =
  times (n + S k) (relay (S fuel)) w br.
Proof.
  intros Hf. rewrite andThen_assoc, times_add. cbn [times].
  pose proof (relay_fuel (length (pending br)) fuel (S fuel) ltac:(lia) ltac:(lia)) as Hag.
  apply (agree_andThen (length (pending br))); auto using agree_times with go.
  apply agree_andThen; auto with go. done.
Qed.

Lemma andThen_announced p limit tl k m w br :
  (announced p limit tl k ;;; m) w br =
  match parseRESPInt p with
  | Err e => (w, Err e)
  | Ok n => if limit <? n then (w, Err (tl n)) else (k n ;;; m) w br
  end.
Proof.
  unfold announced, andThen, fail. destruct (parseRESPInt p) as [n|e]; [|done].
  by destruct (limit <? n).
Qed.

Lemma andThen_relayLine k m w br :
  (relayLine k ;;; m) w br = relayLine (fun c p => k c p ;;; m) w br.
Proof.
  unfold relayLine, andThen.
  destruct (readLine br) as [[line br1]|e]; [|done].
  by destruct (Write line w) as [w1 [e|]].
Qed.

(** The counter of the loop, as the number of values still to relay. *)
Lemma copyRESP_loop_relay fuel fuel' k w br :
  (length (pending br) < fuel)%nat -> (length (pending br) < fuel')%nat ->
  0 <= k -> k + 2 ^ 21 * Z.of_nat (length (pending br)) <= int64_max ->
  copyRESP_loop fuel k w br = times (Z.to_nat k) (relay fuel') w br.
Proof.
  revert fuel' k w br.
  induction fuel as [|fuel IH]; intros [|fuel'] k w br Hf Hf' Hk Hb; [lia..|].
  cbn [copyRESP_loop]. case_match; to_prop; [by replace k with 0 by lia|].
  replace (Z.to_nat k) with (S (Z.to_nat (k - 1))) by lia.
  transitivity ((relay (S fuel') ;;; times (Z.to_nat (k - 1)) (relay (S fuel'))) w br); [|done].
  assert (forall k' w' br', (length (pending br') < length (pending br))%nat ->
      0 <= k' <= k + 2 ^ 21 ->
      copyRESP_loop fuel (wrap64 k') w' br' = times (Z.to_nat k') (relay (S fuel')) w' br') as IH'.
  { intros k' w' br' Hlt Hk'. rewrite wrap64_id by (unfold int64_min; lia). apply IH; lia. }
  clear IH. remember (times (Z.to_nat (k - 1)) (relay (S fuel'))) as m eqn:Hm.
  cbn [relay]. rewrite andThen_relayLine. unfold relayLine.
  destruct (readLine br) as [[line br1]|e] eqn:Hl; [|done].
  apply readLine_shorter in Hl. destruct (Write line w) as [w1 [e|]]; [done|].
  destruct (head line ≫= kind_of) as [[]|]; [|rewrite andThen_announced..|done].
  { subst m. rewrite IH' by lia; done. }
  all: destruct (parseRESPInt (line_payload line)) as [n|e]; [|done].
  all: case_match; [done|]; to_prop; subst m.
  1: {
    case_match; [|rewrite IH' by lia; done]. unfold andThen, relayBytes.
    destruct (CopyN (n + 2) w1 br1) as [w2 [br2|e]] eqn:Hc; [|done].
    apply CopyN_ok in Hc as (q & Hq & _). rewrite Hq, length_app in Hl.
    apply IH'; lia. }
  all: rewrite ?times_relay, ?times_relay_reply by lia.
  all: unfold maxRESPElements in *; rewrite ?wrap64_add_r, ?wrap64_add_l.
  all: destruct (0 <? n) eqn:Hn; to_prop.
  all: try (rewrite IH' by lia; f_equal; lia).
  all: rewrite <- (wrap64_id k) at 1 by (unfold int64_min; lia); rewrite IH' by lia; f_equal; lia.
Qed.

(** The largest number of bytes for which the counter of [copyRESP] cannot
    leave the range of an [int64]: each header line awaits at most 2^21 more
    values. *)
Lemma copyRESP_relayReply w br :
  Z.of_nat (length (pending br)) < 2 ^ 41 -> copyRESP w br = relayReply w br.
Proof.
  intros Hb. unfold copyRESP, relayReply.
  rewrite (copyRESP_loop_relay _ (S (length (pending br)))) by (unfold int64_max; lia).
  change (Z.to_nat 1) with 1%nat. cbn [times]. unfold andThen, done_.
  by destruct (relay _ w br) as [w' [br'|e]].
Qed.

(** ** Properties *)

(** C6: [copyRESP], which tracks the nesting of a reply with one counter, does
    exactly what the recursive reference does on every stream below 2 TiB and
    every writer: the same bytes written, the same rest unread, and in the same
    place the same error, whether the reply is malformed, over a limit, cut
    short, or the client's connection breaks half way. *)
Theorem copyRESP_reference w br :
  Z.of_nat (length (pending br)) < 2 ^ 41 -> copyRESP w br = relayReply w br.
Proof. apply copyRESP_relayReply. Qed.

(** An attribute and a nested array before the connection fails in the middle
    of the last element. *)
Definition nested : list byte :=
  bytes "|1" ++ CRLF ++ bytes "+k" ++ CRLF ++ bytes "*1" ++ CRLF ++ bytes ":1" ++ CRLF
    ++ bytes "*2" ++ CRLF ++ bytes "%1" ++ CRLF ++ bytes "+a" ++ CRLF ++ bytes "_" ++ CRLF
    ++ bytes "$5" ++ CRLF ++ bytes "hel".

Lemma copyRESP_reference_witness :
  Z.of_nat (length (pending (MkReader nested EOF))) < 2 ^ 41 /\
  relayReply Discard (MkReader nested EOF) = (MkWriter nested None, Err (RCopy EOF)) /\
  copyRESP Discard (MkReader nested EOF) = relayReply Discard (MkReader nested EOF).
Proof.
  split; [vm_compute; reflexivity|]. split; [vm_compute; reflexivity|].
  apply (copyRESP_reference Discard (MkReader nested EOF)). vm_compute. reflexivity.
Defined.
