(* ===== verification/Router.v ===== *)
(** * Router: command classification (pkg/router/router.go)

    The table of read-only commands and [GetDirection].  The table is the one of
    the source, entry by entry. *)

From Stdlib Require Import Strings.Byte String ZArith Lia.
From stdpp Require Import base list strings gmap.
From S2P Require Import Prelude GoStd.

Inductive Direction : Type := Read | Write.

#[global] Instance Direction_eq_dec : EqDecision Direction.
Proof. solve_decision. Defined.

Local Open Scope string_scope.

Definition readOnlyCommands : list string := [
   (* Connection *)
   "PING"; "ECHO"; "SELECT"; "AUTH"; "HELLO"; "QUIT";
   (* Keyspace *)
   "EXISTS"; "TYPE"; "TTL"; "PTTL"; "EXPIRETIME"; "PEXPIRETIME";
   "KEYS"; "SCAN"; "RANDOMKEY"; "DUMP"; "TOUCH"; "OBJECT";
   "MEMORY";
   (* Strings *)
   "GET"; "MGET"; "GETRANGE"; "SUBSTR"; "STRLEN"; "LCS";
   (* Bitmaps *)
   "GETBIT"; "BITCOUNT"; "BITPOS"; "BITFIELD_RO";
   (* Hashes *)
   "HGET"; "HMGET"; "HGETALL"; "HKEYS"; "HVALS"; "HLEN";
   "HEXISTS"; "HSTRLEN"; "HSCAN"; "HRANDFIELD";
   "HTTL"; "HPTTL"; "HEXPIRETIME"; "HPEXPIRETIME";
   (* Lists *)
   "LRANGE"; "LLEN"; "LINDEX"; "LPOS";
   (* Sets *)
   "SMEMBERS"; "SISMEMBER"; "SMISMEMBER"; "SCARD"; "SRANDMEMBER";
   "SSCAN"; "SINTER"; "SUNION"; "SDIFF"; "SINTERCARD";
   (* Sorted sets *)
   "ZRANGE"; "ZRANGEBYSCORE"; "ZRANGEBYLEX"; "ZREVRANGE";
   "ZREVRANGEBYSCORE"; "ZREVRANGEBYLEX"; "ZCARD"; "ZCOUNT";
   "ZLEXCOUNT"; "ZSCORE"; "ZMSCORE"; "ZRANK"; "ZREVRANK";
   "ZSCAN"; "ZRANDMEMBER"; "ZDIFF"; "ZINTER"; "ZUNION";
   "ZINTERCARD";
   (* HyperLogLog *)
   "PFCOUNT";
   (* Geo (the plain GEORADIUS/GEORADIUSBYMEMBER can STORE, so only the *)
   (* read-only variants and pure queries are listed) *)
   "GEOPOS"; "GEODIST"; "GEOHASH"; "GEOSEARCH";
   "GEORADIUS_RO"; "GEORADIUSBYMEMBER_RO";
   (* Streams (XREADGROUP mutates consumer-group state and is not listed) *)
   "XRANGE"; "XREVRANGE"; "XLEN"; "XREAD"; "XINFO"; "XPENDING";
   (* Sort (plain SORT can STORE, only the read-only variant is listed) *)
   "SORT_RO";
   (* Scripting (plain EVAL/EVALSHA/FCALL may write and are not listed) *)
   "EVAL_RO"; "EVALSHA_RO"; "FCALL_RO";
   (* Pub/Sub (PUBLISH/SPUBLISH must go to the master and are not listed) *)
   "SUBSCRIBE"; "UNSUBSCRIBE"; "PSUBSCRIBE"; "PUNSUBSCRIBE";
   "SSUBSCRIBE"; "SUNSUBSCRIBE"; "PUBSUB";
   (* Server introspection *)
   "INFO"; "TIME"; "DBSIZE"; "COMMAND"; "LASTSAVE"; "LOLWUT";
   (* RedisJSON *)
   "JSON.GET"; "JSON.MGET"; "JSON.TYPE"; "JSON.STRLEN";
   "JSON.ARRLEN"; "JSON.ARRINDEX"; "JSON.OBJKEYS"; "JSON.OBJLEN";
   "JSON.DEBUG"; "JSON.RESP";
   (* RediSearch (FT.CURSOR is stateful per node and is not listed) *)
   "FT.SEARCH"; "FT.AGGREGATE"; "FT.EXPLAIN"; "FT.EXPLAINCLI";
   "FT.INFO"; "FT.PROFILE"; "FT.TAGVALS"; "FT.SPELLCHECK";
   "FT.SUGGET"; "FT.SUGLEN"; "FT.DICTDUMP"; "FT.SYNDUMP";
   "FT._LIST";
   (* RedisBloom - Bloom filter *)
   "BF.EXISTS"; "BF.MEXISTS"; "BF.INFO"; "BF.CARD"; "BF.SCANDUMP";
   (* RedisBloom - Cuckoo filter *)
   "CF.EXISTS"; "CF.MEXISTS"; "CF.COUNT"; "CF.INFO"; "CF.SCANDUMP";
   (* RedisBloom - Count-min sketch *)
   "CMS.QUERY"; "CMS.INFO";
   (* RedisBloom - Top-K *)
   "TOPK.QUERY"; "TOPK.COUNT"; "TOPK.LIST"; "TOPK.INFO";
   (* RedisBloom - t-digest *)
   "TDIGEST.QUANTILE"; "TDIGEST.CDF"; "TDIGEST.MIN"; "TDIGEST.MAX";
   "TDIGEST.RANK"; "TDIGEST.REVRANK"; "TDIGEST.BYRANK";
   "TDIGEST.BYREVRANK"; "TDIGEST.TRIMMED_MEAN"; "TDIGEST.INFO";
   (* RedisTimeSeries *)
   "TS.GET"; "TS.MGET"; "TS.RANGE"; "TS.REVRANGE";
   "TS.MRANGE"; "TS.MREVRANGE"; "TS.INFO"; "TS.QUERYINDEX";
   (* RedisGraph *)
   "GRAPH.RO_QUERY"; "GRAPH.EXPLAIN"; "GRAPH.LIST"; "GRAPH.SLOWLOG"
  ].

(** [GetDirection]; the key of the lookup is [strings.ToUpper(cmd)]. *)
Definition GetDirection `{UnicodeUpper} (cmd : string) : Direction :=
  if set_has readOnlyCommands (String.string_of_list_byte (ToUpper (bytes cmd)))
  then Read else Write.

(** ** Properties *)

(** The commands the README and the source comments send to the master although
    their read-only variants are listed, and the write and administration
    commands of router_test.go. *)
Definition documented_writes : list string :=
  ["SORT"; "GEORADIUS"; "GEORADIUSBYMEMBER"; "EVAL"; "EVALSHA"; "FCALL"; "BITFIELD"; "GETEX";
   "XREADGROUP"; "PUBLISH"; "SPUBLISH"; "FT.CURSOR"; "SET"; "DEL"; "INCR"; "HSET"; "LPUSH";
   "ZADD"; "XADD"; "EXPIRE"; "FLUSHALL"; "MULTI"; "WATCH"; "MONITOR"; "EXEC"; "DISCARD"; "WAIT";
   "JSON.SET"; "FT.CREATE"; "BF.ADD"; "CMS.INCRBY"; "TDIGEST.ADD"; "TS.ADD"; "GRAPH.QUERY";
   "SOMEFUTURECMD"; ""].

Definition documented_reads : list string :=
  ["GET"; "MGET"; "HGETALL"; "SCAN"; "FT.SEARCH"; "JSON.GET"; "TS.RANGE"; "SORT_RO"; "EVAL_RO";
   "BITFIELD_RO"; "GEORADIUS_RO"; "LRANGE"; "ZRANGE"; "EXISTS"; "XREAD"; "PING"; "INFO";
   "BF.EXISTS"; "CF.COUNT"; "CMS.QUERY"; "TOPK.LIST"; "TDIGEST.QUANTILE"; "GRAPH.RO_QUERY"].

(** Classification ignores the case of ASCII letters: two names that differ
    only in case go the same way, whatever the Unicode tables do elsewhere. *)
Theorem GetDirection_case `{UnicodeUpper} cmd cmd' :
  forallb is_ascii (bytes cmd) = true ->
  upper_byte <$> bytes cmd = upper_byte <$> bytes cmd' ->
  forallb is_ascii (bytes cmd') = true ->
  GetDirection cmd = GetDirection cmd'.
Proof.
  intros Ha Heq Ha'. unfold GetDirection. rewrite (ToUpper_ascii _ Ha), (ToUpper_ascii _ Ha'), Heq. reflexivity.
Qed.

(** Every command the documentation sends to the master is classified as a
    write, every command it sends to a replica as a read, and the table has
    uppercase ASCII keys only (so a lookup with an uppercased key cannot miss
    one because of its case). *)
Theorem GetDirection_documented `{UnicodeUpper} :
  Forall (fun c => GetDirection c = Router.Write) documented_writes /\
  Forall (fun c => GetDirection c = Router.Read) documented_reads /\
  Forall (fun c => ToUpper (bytes c) = bytes c) readOnlyCommands.
Proof.
  split_and!; apply (forallb_Forall_iff _); vm_compute; reflexivity.
Qed.

Lemma GetDirection_case_witness :
  @GetDirection (fun s => s) "HGetAll" = @GetDirection (fun s => s) "hgetall".
Proof.
  apply (@GetDirection_case (fun s => s) "HGetAll" "hgetall"); vm_compute; reflexivity.
Defined.
