(* ===== verification/Routing.v ===== *)
(** * Routing: router mode (pkg/proxy/routing.go)

    A routed session holds the client connection, one master connection and,
    when one could be dialled, a replica connection; it reads commands from the
    client and forwards each by its name.  [run] is the session's loop on the
    byte streams of [Netio]; its end records the connections as they are left
    behind, so the theorems speak of the bytes each peer received. *)

From Stdlib Require Import Strings.Byte String ZArith Lia.
From stdpp Require Import base list strings gmap.
From S2P Require Import Prelude GoStd Router Netio Resp.

Local Open Scope Z_scope.

(** ** Data *)

Definition stateCommands : list string :=
  ["AUTH"; "HELLO"; "SELECT"; "RESET"; "CLIENT"]%string.

Definition pinCommands : list string :=
  ["SUBSCRIBE"; "PSUBSCRIBE"; "SSUBSCRIBE";
   "UNSUBSCRIBE"; "PUNSUBSCRIBE"; "SUNSUBSCRIBE";
   "MULTI"; "WATCH"; "MONITOR"]%string.

(** A connection object: its (buffered) reading side, its writing side, whether
    it offers [CloseWrite], and whether its writing side or the whole
    connection has been closed. *)
Record netconn : Type := MkConn {
  cr : reader;
  cw : writer;
  has_closewrite : bool;
  wclosed : bool;
  closed : bool
}.

Record routedSession : Type := MkSession {
  client : netconn;
  master : netconn;
  replica : option netconn;
  reads : Z;
  writes : Z
}.

Definition with_cr (r : reader) (c : netconn) : netconn :=
  MkConn r (cw c) (has_closewrite c) (wclosed c) (closed c).
Definition with_cw (w : writer) (c : netconn) : netconn :=
  MkConn (cr c) w (has_closewrite c) (wclosed c) (closed c).
Definition close (c : netconn) : netconn :=
  MkConn (cr c) (cw c) (has_closewrite c) true true.
Definition close_write (c : netconn) : netconn :=
  MkConn (cr c) (cw c) (has_closewrite c) true (closed c).

Definition with_client (c : netconn) (s : routedSession) : routedSession :=
  MkSession c (master s) (replica s) (reads s) (writes s).
Definition with_master (c : netconn) (s : routedSession) : routedSession :=
  MkSession (client s) c (replica s) (reads s) (writes s).
Definition with_replica (c : option netconn) (s : routedSession) : routedSession :=
  MkSession (client s) (master s) c (reads s) (writes s).

(** Why a session's loop returned. *)
Inductive stop_reason : Type :=
| ClientStopped (e : resp_err)          (* reading the client's next command failed *)
| StateFailed (name : string) (e : resp_err)
| ForwardFailed (name : string) (e : io_err)
| RelayFailed (name : string) (e : resp_err)
| PinFailed (e : io_err)
| Pinned                                (* piped until both directions ended *)
| RunFuel.                              (* never: [run_total] *)

(** The session as [run] leaves it, and the replica connection [pin] has dropped
    from it, if any. *)
Record session_end : Type := MkEnd {
  e_session : routedSession;
  e_dropped : option netconn;
  e_why : stop_reason
}.

(** ** Operations *)

(** [pipe]: copy until the source ends or a side fails, then half-close. *)
Definition pipe (dst : netconn) (src : reader) : netconn :=
  let dst := with_cw (fst (Copy (cw dst) src)) dst in
  if has_closewrite dst then close_write dst else close dst.

Section Session.
Context `{UnicodeUpper}.

(** [stateCommand]: both backends get [raw]; the client sees the master's reply,
    the replica's is discarded. *)
Definition stateCommand (raw : list byte) (s : routedSession)
  : routedSession * option resp_err :=
  let (mw, err) := Netio.Write raw (cw (master s)) in
  let s := with_master (with_cw mw (master s)) s in
  match err with
  | Some e => (s, Some (RWrite e))
  | None =>
      let '(s, err) :=
        match replica s with
        | None => (s, None)
        | Some rep =>
            let (rw, err) := Netio.Write raw (cw rep) in
            (with_replica (Some (with_cw rw rep)) s, err)
        end in
      match err with
      | Some e => (s, Some (RWrite e))
      | None =>
          let (w, res) := copyRESP (cw (client s)) (cr (master s)) in
          let s := with_client (with_cw w (client s)) s in
          match res with
          | Err e => (s, Some e)
          | Ok mr =>
              let s := with_master (with_cr mr (master s)) s in
              match replica s with
              | None => (s, None)
              | Some rep =>
                  match copyRESP Discard (cr rep) with
                  | (_, Err e) => (s, Some e)
                  | (_, Ok rr) => (with_replica (Some (with_cr rr rep)) s, None)
                  end
              end
          end
      end
  end.

(** [pin]: drop the replica, forward [raw] if there is one, then pipe both
    directions.  The two pipes share no connection side, so their order does
    not matter. *)
Definition pin (raw : option (list byte)) (s : routedSession) : session_end :=
  let dropped := close <$> replica s in
  let s := with_replica None s in
  let (mw, err) :=
    match raw with
    | None => (cw (master s), None)
    | Some raw => Netio.Write raw (cw (master s))
    end in
  let s := with_master (with_cw mw (master s)) s in
  match err with
  | Some e => MkEnd s dropped (PinFailed e)
  | None =>
      let c := pipe (client s) (cr (master s)) in
      let m := pipe (master s) (cr (client s)) in
      MkEnd (with_client c (with_master m s)) dropped Pinned
  end.

(** The routed case: one backend gets the command, the client its reply. *)
Definition relay_master (name : string) (raw : list byte) (s : routedSession)
  : routedSession + session_end :=
  let (mw, err) := Netio.Write raw (cw (master s)) in
  let s := with_master (with_cw mw (master s)) s in
  match err with
  | Some e => inr (MkEnd s None (ForwardFailed name e))
  | None =>
      let (w, res) := copyRESP (cw (client s)) (cr (master s)) in
      let s := with_client (with_cw w (client s)) s in
      match res with
      | Err e => inr (MkEnd s None (RelayFailed name e))
      | Ok mr => inl (with_master (with_cr mr (master s)) s)
      end
  end.

Definition relay_replica (rep : netconn) (name : string) (raw : list byte) (s : routedSession)
  : routedSession + session_end :=
  let (rw, err) := Netio.Write raw (cw rep) in
  let rep := with_cw rw rep in
  let s := with_replica (Some rep) s in
  match err with
  | Some e => inr (MkEnd s None (ForwardFailed name e))
  | None =>
      let (w, res) := copyRESP (cw (client s)) (cr rep) in
      let s := with_client (with_cw w (client s)) s in
      match res with
      | Err e => inr (MkEnd s None (RelayFailed name e))
      | Ok rr => inl (with_replica (Some (with_cr rr rep)) s)
      end
  end.

(** One round of [run]: [inl] goes on with the next command, [inr] returns. *)
Definition run_step (s : routedSession) : routedSession + session_end :=
  match readCommand (cr (client s)) with
  | Err InlineCommand => inr (pin None s)
  | Err e => inr (MkEnd s None (ClientStopped e))
  | Ok (name, raw, br) =>
      let s := with_client (with_cr br (client s)) s in
      if bool_decide (name = EmptyString) then inl s
      else if set_has pinCommands name then inr (pin (Some raw) s)
      else if set_has stateCommands name then
        match stateCommand raw s with
        | (s, Some e) => inr (MkEnd s None (StateFailed name e))
        | (s, None) => inl s
        end
      else
        match replica s, bool_decide (GetDirection name = Read) with
        | Some rep, true =>
            relay_replica rep name raw
              (MkSession (client s) (master s) (replica s) (wrap64 (reads s + 1)) (writes s))
        | _, _ =>
            relay_master name raw
              (MkSession (client s) (master s) (replica s) (reads s) (wrap64 (writes s + 1)))
        end
  end.

Fixpoint run_loop (fuel : nat) (s : routedSession) : session_end :=
  match fuel with
  | O => MkEnd s None RunFuel
  | S fuel' =>
      match run_step s with
      | inl s' => run_loop fuel' s'
      | inr e => e
      end
  end.

(** Every round takes a command off the client's stream, so one round more than
    it has bytes is enough ([run_total]). *)
Definition run (s : routedSession) : session_end :=
  run_loop (S (length (pending (cr (client s))))) s.

End Session.

(** ** The routing table of the documentation

    What the README promises for a command, by its uppercased name. *)

Inductive route : Type :=
| RNoop      (* an empty array: nothing to do *)
| RPin       (* pins the session to the master *)
| RState     (* connection state: to both backends *)
| RRead      (* read-only: to the replica, if there is one *)
| RMaster.   (* everything else *)

#[global] Instance route_eq_dec : EqDecision route.
Proof. solve_decision. Defined.

Section Table.
Context `{UnicodeUpper}.

Definition route_of (name : string) : route :=
  if bool_decide (name = EmptyString) then RNoop
  else if set_has pinCommands name then RPin
  else if set_has stateCommands name then RState
  else if bool_decide (GetDirection name = Read) then RRead
  else RMaster.

(** Who receives a command, given whether the session has a replica. *)
Definition to_replica (has_replica : bool) (name : string) : bool :=
  match route_of name with
  | RState | RRead => has_replica
  | _ => false
  end.

Definition to_master (has_replica : bool) (name : string) : bool :=
  match route_of name with
  | RNoop => false
  | RRead => negb has_replica
  | _ => true
  end.

End Table.

(** A command as [readCommand] returns it: its name and its bytes. *)
Definition cmd : Type := string * list byte.

(** The bytes of the commands that [f] selects, in order. *)
Definition raws (f : string -> bool) (cmds : list cmd) : list byte :=
  concat ((fun c => if f (fst c) then snd c else []) <$> cmds).

Definition has_replica (s : routedSession) : bool :=
  match replica s with Some _ => true | None => false end.

(** The bytes the master and the replica have received. *)
Definition master_out (s : routedSession) : list byte := written (cw (master s)).
Definition replica_out (s : routedSession) : list byte :=
  match replica s with Some c => written (cw c) | None => [] end.

Definition end_master (e : session_end) : list byte := master_out (e_session e).
Definition end_replica (e : session_end) : list byte :=
  match e_dropped e with
  | Some c => written (cw c)
  | None => replica_out (e_session e)
  end.
Definition end_client (e : session_end) : list byte := written (cw (client (e_session e))).

(** Whether the session ended as a plain pipe to the master. *)
Definition piped (e : session_end) : bool :=
  match e_why e with Pinned => true | _ => false end.

(** ** Lemmas: the raw bytes of a command list *)

Lemma raws_cons f c cmds : raws f (c :: cmds) = (if f (fst c) then snd c else []) ++ raws f cmds.
Proof. done. Qed.

Lemma raws_nil f : raws f [] = [].
Proof. done. Qed.

Lemma raws_ext f g cmds : (forall name, f name = g name) -> raws f cmds = raws g cmds.
Proof.
  intros Hfg. induction cmds as [|c cmds IH]; [done|]. by rewrite !raws_cons, Hfg, IH.
Qed.

Section SessionLemmas.
Context `{UnicodeUpper}.

Definition valid_cmd (c : cmd) : Prop :=
  exists args, command args (snd c) /\ fst c = command_name args.

(** What a session has forwarded when it is over: [cmds] were read off the
    client's stream and [rest] was left there. *)
Definition forwarded (s : routedSession) (e : session_end) (cmds : list cmd) (rest : list byte)
  : Prop :=
  pending (cr (client s)) = concat (snd <$> cmds) ++ rest /\
  Forall valid_cmd cmds /\
  end_replica e `prefix_of` replica_out s ++ raws (to_replica (has_replica s)) cmds /\
  end_master e `prefix_of`
    master_out s ++ raws (to_master (has_replica s)) cmds ++ (if piped e then rest else []).

(** ** Lemmas: the operations of a session *)

Lemma stateCommand_out raw s s' o :
  stateCommand raw s = (s', o) ->
  cr (client s') = cr (client s) /\ has_replica s' = has_replica s /\
  (exists q, master_out s' = master_out s ++ q /\ q `prefix_of` raw /\ (o = None -> q = raw)) /\
  (exists q, replica_out s' = replica_out s ++ q /\
     q `prefix_of` (if has_replica s then raw else []) /\
     (o = None -> q = if has_replica s then raw else [])).
Proof.
  unfold stateCommand, master_out, replica_out, has_replica.
  destruct s as [c m rep rd wr]; cbn [master client replica with_master with_replica].
  destruct (Netio.Write raw (cw m)) as [mw [e|]] eqn:Hm.
  { intros [= <- <-]. apply Write_fail in Hm as (q & Hq & Hpre). simpl. split_and!; try done.
    - by exists q.
    - exists []. rewrite app_nil_r. split_and!; [done|auto with go|done]. }
  apply Write_ok in Hm.
  destruct rep as [rep|]; simpl.
  - destruct (Netio.Write raw (cw rep)) as [rw [e|]] eqn:Hr; simpl.
    + intros [= <- <-]. apply Write_fail in Hr as (q & Hq & Hpre). simpl.
      split_and!; try done; [by exists raw|by exists q].
    + apply Write_ok in Hr.
      destruct (copyRESP (cw c) (cr m)) as [w [mr|e]]; simpl.
      2: { intros [= <- <-]. simpl. split_and!; try done; by exists raw. }
      destruct (copyRESP Discard (cr rep)) as [? [rr|e]]; intros [= <- <-]; simpl;
        (split_and!; try done; by exists raw).
  - destruct (copyRESP (cw c) (cr m)) as [w [mr|e]]; intros [= <- <-]; simpl;
      (split_and!; try done; [by exists raw|by exists []]).
Qed.

(** The outcome of [relay_master] or [relay_replica]: the session goes on or
    is over, and in both cases [pm] and [pr] tell what was sent. *)
Definition relay_outcome (x : routedSession + session_end) (s : routedSession)
  (raw_master raw_replica : list byte) : Prop :=
  match x with
  | inl s' =>
      cr (client s') = cr (client s) /\ has_replica s' = has_replica s /\
      master_out s' = master_out s ++ raw_master /\ replica_out s' = replica_out s ++ raw_replica
  | inr e =>
      piped e = false /\
      end_master e `prefix_of` master_out s ++ raw_master /\
      end_replica e `prefix_of` replica_out s ++ raw_replica
  end.

Lemma relay_master_out name raw s :
  relay_outcome (relay_master name raw s) s raw [].
Proof.
  unfold relay_outcome, relay_master, end_master, end_replica, master_out, replica_out, has_replica.
  destruct s as [c m rep rd wr]; simpl.
  destruct (Netio.Write raw (cw m)) as [mw [e|]] eqn:Hm; simpl.
  { apply Write_fail in Hm as (q & -> & Hpre). rewrite app_nil_r.
    split_and!; [done|by apply prefix_app|done]. }
  apply Write_ok in Hm.
  destruct (copyRESP (cw c) (cr m)) as [w [mr|e]]; simpl; rewrite Hm, app_nil_r; split_and!; done.
Qed.

Lemma relay_replica_out rep name raw s :
  replica s = Some rep ->
  relay_outcome (relay_replica rep name raw s) s [] raw.
Proof.
  unfold relay_outcome, relay_replica, end_master, end_replica, master_out, replica_out, has_replica.
  destruct s as [c m rep' rd wr]; simpl. intros ->.
  destruct (Netio.Write raw (cw rep)) as [rw [e|]] eqn:Hr; simpl.
  { apply Write_fail in Hr as (q & -> & Hpre). rewrite app_nil_r.
    split_and!; [done|done|by apply prefix_app]. }
  apply Write_ok in Hr.
  destruct (copyRESP (cw c) (cr rep)) as [w [mr|e]]; simpl; rewrite Hr, app_nil_r; split_and!; done.
Qed.

Lemma stateCommand_outcome name raw s :
  relay_outcome
    match stateCommand raw s with
    | (s', Some e) => inr (MkEnd s' None (StateFailed name e))
    | (s', None) => inl s'
    end s raw (if has_replica s then raw else []).
Proof.
  destruct (stateCommand raw s) as [s' o] eqn:Hs.
  apply stateCommand_out in Hs as (Hc & Hh & (q & Hq & Hpre & Hok) & (q' & Hq' & Hpre' & Hok')).
  destruct o as [e|]; unfold relay_outcome, end_master, end_replica; simpl.
  - rewrite Hq, Hq'. split_and!; [done|by apply prefix_app..].
  - by rewrite Hq, Hq', Hok, Hok'.
Qed.

(** The bytes a pipe delivers are a prefix of what its source had pending. *)
Lemma pipe_out dst src :
  exists q, written (cw (pipe dst src)) = written (cw dst) ++ q /\ q `prefix_of` pending src.
Proof.
  unfold pipe, Copy. destruct (Netio.Write (pending src) (cw dst)) as [w o] eqn:Hw.
  apply Write_prefix in Hw as (q & Hq & Hpre). exists q. split; [|done]. rewrite <- Hq.
  destruct o; simpl; by destruct (has_closewrite dst).
Qed.

(** [pin] sends the pinning command and then the rest of the client's stream
    to the master, and nothing to the replica. *)
Lemma pin_out raw s :
  end_replica (pin raw s) = replica_out s /\
  end_master (pin raw s) `prefix_of`
    master_out s ++ default [] raw ++
      (if piped (pin raw s) then pending (cr (client s)) else []).
Proof.
  unfold pin, end_replica, end_master, master_out, replica_out, piped.
  destruct s as [c m rep rd wr]; simpl.
  destruct raw as [raw|]; simpl.
  - destruct (Netio.Write raw (cw m)) as [mw [e|]] eqn:Hm; simpl.
    + apply Write_fail in Hm as (q & -> & Hpre). rewrite app_nil_r.
      split; [by destruct rep|by apply prefix_app].
    + apply Write_ok in Hm. split; [by destruct rep|].
      destruct (pipe_out (with_cw mw m) (cr c)) as (q & -> & Hpre). simpl.
      rewrite Hm, <- app_assoc. by do 2 apply prefix_app.
  - split; [by destruct rep|].
    destruct (pipe_out (with_cw (cw m) m) (cr c)) as (q & -> & Hpre). by apply prefix_app.
Qed.

(** ** Lemmas: one round *)

(** The counters of a session do not matter for what it sends. *)
Lemma relay_outcome_counters x s s' a b :
  client s = client s' -> master s = master s' -> replica s = replica s' ->
  relay_outcome x s a b -> relay_outcome x s' a b.
Proof.
  unfold relay_outcome, has_replica, master_out, replica_out. by intros -> -> ->.
Qed.

Lemma run_step_command s name raw br :
  readCommand (cr (client s)) = Ok (name, raw, br) ->
  route_of name <> RPin ->
  relay_outcome (run_step s) (with_client (with_cr br (client s)) s)
    (if to_master (has_replica s) name then raw else [])
    (if to_replica (has_replica s) name then raw else []).
Proof.
  intros Hread Hpin. unfold run_step. rewrite Hread.
  unfold to_master, to_replica, route_of in *.
  destruct (bool_decide (name = EmptyString)).
  { unfold relay_outcome, master_out, replica_out. by rewrite !app_nil_r. }
  destruct (set_has pinCommands name); [done|].
  destruct (set_has stateCommands name).
  { apply (stateCommand_outcome name raw (with_client (with_cr br (client s)) s)). }
  unfold has_replica. simpl.
  destruct (replica s) as [rep|] eqn:Hrep, (bool_decide (GetDirection name = Read)); simpl.
  - eapply relay_outcome_counters; [..|by apply relay_replica_out]; simpl; congruence.
  - eapply relay_outcome_counters; [..|apply relay_master_out]; simpl; congruence.
  - eapply relay_outcome_counters; [..|apply relay_master_out]; simpl; congruence.
  - eapply relay_outcome_counters; [..|apply relay_master_out]; simpl; congruence.
Qed.

Lemma run_step_pin s name raw br :
  readCommand (cr (client s)) = Ok (name, raw, br) -> route_of name = RPin ->
  run_step s = inr (pin (Some raw) (with_client (with_cr br (client s)) s)).
Proof.
  unfold run_step, route_of. intros -> Hroute. repeat case_match; done.
Qed.

Lemma run_step_error s err :
  readCommand (cr (client s)) = Err err ->
  run_step s = inr match err with
                   | InlineCommand => pin None s
                   | e => MkEnd s None (ClientStopped e)
                   end.
Proof. unfold run_step. intros ->. by destruct err. Qed.

Lemma run_step_shorter s s' :
  run_step s = inl s' ->
  (length (pending (cr (client s'))) < length (pending (cr (client s))))%nat.
Proof.
  intros Hstep. destruct (readCommand (cr (client s))) as [[[name raw] br]|e] eqn:Hread.
  2: { rewrite (run_step_error _ _ Hread) in Hstep. by destruct e. }
  pose proof (readCommand_shorter _ _ _ _ Hread) as Hlt.
  destruct (decide (route_of name = RPin)) as [Hp|Hp].
  { by rewrite (run_step_pin _ _ _ _ Hread Hp) in Hstep. }
  pose proof (run_step_command _ _ _ _ Hread Hp) as Hout. rewrite Hstep in Hout.
  destruct Hout as (-> & _). done.
Qed.

Lemma run_loop_fuel fuel s :
  (length (pending (cr (client s))) < fuel)%nat -> e_why (run_loop fuel s) <> RunFuel.
Proof.
  revert s. induction fuel as [|fuel IH]; intros s Hlt; simpl; [lia|].
  destruct (run_step s) as [s'|e] eqn:Hstep.
  { apply IH. apply run_step_shorter in Hstep. lia. }
  destruct (readCommand (cr (client s))) as [[[name raw] br]|err] eqn:Hread.
  - unfold run_step in Hstep. rewrite Hread in Hstep.
    unfold relay_master, relay_replica, pin in Hstep.
    repeat case_match; simplify_eq; done.
  - rewrite (run_step_error _ _ Hread) in Hstep. unfold pin in Hstep.
    repeat case_match; simplify_eq; done.
Qed.

(** ** Lemmas: the whole session *)

Lemma run_loop_forwarded fuel s :
  exists cmds rest, forwarded s (run_loop fuel s) cmds rest.
Proof.
  revert s. induction fuel as [|fuel IH]; intros s.
  { exists [], (pending (cr (client s))). unfold forwarded. simpl.
    rewrite raws_nil, !app_nil_r. done. }
  simpl. destruct (readCommand (cr (client s))) as [[[name raw] br]|err] eqn:Hread.
  2: { exists [], (pending (cr (client s))). rewrite (run_step_error _ _ Hread).
       unfold forwarded. rewrite !raws_nil, app_nil_r. simpl.
       destruct err; try (rewrite app_nil_r; done).
       destruct (pin_out None s) as [-> Hm]. done. }
  pose proof (readCommand_ok _ _ _ _ Hread) as (args & Hcmd & Hname & Hp & _).
  assert (valid_cmd (name, raw)) as Hvalid by (by exists args).
  destruct (decide (route_of name = RPin)) as [Hroute|Hroute].
  { exists [(name, raw)], (pending br). rewrite (run_step_pin _ _ _ _ Hread Hroute).
    destruct (pin_out (Some raw) (with_client (with_cr br (client s)) s)) as [Hr Hm].
    unfold forwarded. rewrite !raws_cons, !raws_nil, Hr, Hp. unfold to_replica, to_master.
    simpl. rewrite Hroute, !app_nil_r. simpl in Hm. split_and!; [done|by constructor|done|done]. }
  pose proof (run_step_command _ _ _ _ Hread Hroute) as Hout.
  destruct (run_step s) as [s'|e]; simpl in Hout.
  - destruct Hout as (Hc & Hh & Hm & Hr).
    destruct (IH s') as (cmds & rest & Hpend & Hval & Hrep & Hmas).
    exists ((name, raw) :: cmds), rest. unfold forwarded. rewrite !raws_cons. simpl.
    rewrite Hc in Hpend. simpl in Hpend.
    assert (has_replica s' = has_replica s) as Hh' by done.
    rewrite Hr, Hh', <- app_assoc in Hrep. rewrite Hm, Hh', <- app_assoc in Hmas.
    split_and!; [by rewrite Hp, Hpend, app_assoc|by constructor|done|].
    by rewrite <- app_assoc.
  - destruct Hout as (Hpiped & Hm & Hr).
    exists [(name, raw)], (pending br). unfold forwarded. rewrite !raws_cons, !raws_nil, Hpiped.
    simpl. rewrite !app_nil_r. split_and!; [done|by constructor|done|done].
Qed.

End SessionLemmas.

(** ** Sessions with well-behaved backends

    An exchange is a command together with the replies the master and the
    replica give to it; a backend that does not get the command gives none. *)

Record exchange : Type := MkExchange {
  x_args : list (list byte);
  x_raw : list byte;
  x_master : list byte;
  x_replica : list byte
}.

Section Exchanges.
Context `{UnicodeUpper}.

Definition x_name (x : exchange) : string := command_name (x_args x).

(** The reply the client is to see: the master's if the master got the command. *)
Definition x_seen (rep : bool) (x : exchange) : list byte :=
  if to_master rep (x_name x) then x_master x else x_replica x.

Definition is_answer (asked : bool) (b : list byte) : Prop :=
  if asked then reply b /\ Z.of_nat (length b) < 2 ^ 41 else b = [].

Definition good_exchange (rep : bool) (x : exchange) : Prop :=
  command (x_args x) (x_raw x) /\ route_of (x_name x) <> RPin /\
  is_answer (to_master rep (x_name x)) (x_master x) /\
  is_answer (to_replica rep (x_name x)) (x_replica x).

(** A session whose writing sides do not fail and whose peers have these bytes
    in store. *)
Definition session_at (s : routedSession) (ci mi : reader) (ri : option reader) : Prop :=
  cr (client s) = ci /\ cr (master s) = mi /\ cr <$> replica s = ri /\
  room (cw (client s)) = None /\ room (cw (master s)) = None /\
  match replica s with Some c => room (cw c) = None | None => True end.

(** The reads and writes a session counts. *)
Definition counts_read (rep : bool) (x : exchange) : Z :=
  match route_of (x_name x) with RRead => if rep then 1 else 0 | _ => 0 end.
Definition counts_write (rep : bool) (x : exchange) : Z :=
  match route_of (x_name x) with
  | RRead => if rep then 0 else 1
  | RMaster => 1
  | _ => 0
  end.

Definition sum (f : exchange -> Z) (xs : list exchange) : Z := foldr (fun x a => f x + a) 0 xs.

(** ** Lemmas: well-behaved backends *)

Lemma copyRESP_answer b rest e w :
  is_answer true b -> room w = None ->
  copyRESP w (MkReader (b ++ rest) e) = (push b w, Ok (MkReader rest e)).
Proof. intros [Hb Hlen] Hw. apply copyRESP_reply; auto with go. Qed.

(** How a session is changed by one exchange. *)
Definition after_exchange (rep : bool) (x : exchange) (s s' : routedSession) : Prop :=
  has_replica s' = has_replica s /\
  written (cw (client s')) = written (cw (client s)) ++ x_seen rep x /\
  master_out s' = master_out s ++ (if to_master rep (x_name x) then x_raw x else []) /\
  replica_out s' = replica_out s ++ (if to_replica rep (x_name x) then x_raw x else []) /\
  reads s' = wrap64 (reads s + counts_read rep x) /\
  writes s' = wrap64 (writes s + counts_write rep x).

Lemma run_step_exchange s x crest cf mrest mf rrest rf :
  let rep := has_replica s in
  good_exchange rep x -> wrap64 (reads s) = reads s -> wrap64 (writes s) = writes s ->
  session_at s (MkReader (x_raw x ++ crest) cf) (MkReader (x_master x ++ mrest) mf)
    (if rep then Some (MkReader (x_replica x ++ rrest) rf) else None) ->
  exists s', run_step s = inl s' /\ after_exchange rep x s s' /\
    session_at s' (MkReader crest cf) (MkReader mrest mf)
      (if rep then Some (MkReader rrest rf) else None).
Proof.
  intros rep (Hcmd & Hpin & Hm & Hr) Hrd Hwr (Hc & Hmi & Hri & Hrc & Hrm & Hrr).
  subst rep. destruct s as [c m r rd wr]. unfold has_replica in *. simpl in *.
  unfold run_step, session_at, after_exchange, x_seen. simpl.
  rewrite Hc, (readCommand_app _ _ _ _ Hcmd).
  fold (x_name x) in *. unfold to_master, to_replica, counts_read, counts_write, route_of in *.
  destruct (bool_decide (x_name x = EmptyString)).
  { simpl in Hm, Hr. rewrite Hm in Hmi. rewrite Hr in *. simpl in *.
    eexists. split; [done|]. unfold master_out, replica_out. simpl.
    rewrite !Z.add_0_r, !app_nil_r. split_and!; try done. }
  destruct (set_has pinCommands (x_name x)); [done|].
  destruct (set_has stateCommands (x_name x)).
  { unfold stateCommand. simpl. rewrite (Write_unlimited _ _ Hrm). simpl.
    simpl in Hm. destruct r as [rp|]; simpl in *.
    - injection Hri as Hri. rewrite (Write_unlimited _ _ Hrr). simpl.
      rewrite Hmi, (copyRESP_answer _ _ _ _ Hm Hrc), Hri, (copyRESP_answer _ _ _ Discard Hr) by done.
      eexists. split; [done|]. unfold master_out, replica_out, push. simpl.
      rewrite !Z.add_0_r, Hrc. done.
    - rewrite Hmi, (copyRESP_answer _ _ _ _ Hm Hrc).
      eexists. split; [done|]. unfold master_out, replica_out, push. simpl.
      rewrite !Z.add_0_r, Hrc. done. }
  destruct (bool_decide (GetDirection (x_name x) = Read)), r as [rp|]; simpl in *.
  1: { unfold relay_replica. simpl. injection Hri as Hri. rewrite (Write_unlimited _ _ Hrr). simpl.
       rewrite Hri, (copyRESP_answer _ _ _ _ Hr Hrc). rewrite Hm in Hmi.
       eexists. split; [done|]. unfold master_out, replica_out, push. simpl.
       rewrite !Z.add_0_r, Hrc, !app_nil_r. done. }
  all: unfold relay_master; simpl; rewrite (Write_unlimited _ _ Hrm); simpl;
    rewrite Hmi, (copyRESP_answer _ _ _ _ Hm Hrc);
    rewrite ?Hr in Hri;
    eexists; (split; [done|]); unfold master_out, replica_out, push; simpl;
    rewrite !Z.add_0_r, Hrc, ?app_nil_r; done.
Qed.

(** Running through a list of exchanges. *)
Lemma run_loop_exchanges xs fuel s crest cf mrest mf rrest rf :
  let rep := has_replica s in
  Forall (good_exchange rep) xs -> wrap64 (reads s) = reads s -> wrap64 (writes s) = writes s ->
  session_at s (MkReader (concat (x_raw <$> xs) ++ crest) cf)
    (MkReader (concat (x_master <$> xs) ++ mrest) mf)
    (if rep then Some (MkReader (concat (x_replica <$> xs) ++ rrest) rf) else None) ->
  exists s', run_loop (length xs + fuel) s = run_loop fuel s' /\
    has_replica s' = rep /\
    written (cw (client s')) = written (cw (client s)) ++ concat (x_seen rep <$> xs) /\
    master_out s' = master_out s ++ raws (to_master rep) ((fun x => (x_name x, x_raw x)) <$> xs) /\
    replica_out s' = replica_out s ++ raws (to_replica rep) ((fun x => (x_name x, x_raw x)) <$> xs) /\
    reads s' = wrap64 (reads s + sum (counts_read rep) xs) /\
    writes s' = wrap64 (writes s + sum (counts_write rep) xs) /\
    session_at s' (MkReader crest cf) (MkReader mrest mf)
      (if rep then Some (MkReader rrest rf) else None).
Proof.
  intros rep Hxs. revert s rep Hxs. induction xs as [|x xs IH]; intros s rep Hxs Hrd Hwr Hat.
  { exists s. simpl. rewrite !raws_nil, !app_nil_r, !Z.add_0_r. by split_and!. }
  inversion Hxs as [|? ? Hx Hxs']; subst. simpl in Hat. rewrite <- !app_assoc in Hat.
  destruct (run_step_exchange s x _ _ _ _ _ _ Hx Hrd Hwr Hat)
    as (s1 & Hstep & (Hh & Hcl & Hmo & Hro & Hr1 & Hw1) & Hat1).
  assert (forall z, wrap64 (wrap64 z) = wrap64 z) as Hidem.
  { intros z. apply wrap64_id, wrap64_range. }
  unfold rep in *. rewrite <- Hh in *.
  destruct (IH s1 Hxs') as (s2 & Hrun & ? & Hcl2 & Hmo2 & Hro2 & Hr2 & Hw2 & Hat2);
    [by rewrite Hr1|by rewrite Hw1|done|].
  exists s2. simpl. rewrite Hstep, !raws_cons. split_and!; try done.
  - by rewrite Hcl2, Hcl, <- app_assoc.
  - by rewrite Hmo2, Hmo, <- app_assoc.
  - by rewrite Hro2, Hro, <- app_assoc.
  - rewrite Hr2, Hr1, wrap64_add_l. f_equal. lia.
  - rewrite Hw2, Hw1, wrap64_add_l. f_equal. lia.
Qed.

Lemma length_exchanges xs rep :
  Forall (good_exchange rep) xs -> (length xs <= length (concat (x_raw <$> xs)))%nat.
Proof.
  induction 1 as [|x xs ((p & n & b & Hraw & _) & _) _ IH]; csimpl; [done|].
  rewrite length_app, Hraw, length_app, length_line_bytes. lia.
Qed.

Lemma run_exchanges s xs rest cf :
  Forall (good_exchange (has_replica s)) xs ->
  cr (client s) = MkReader (concat (x_raw <$> xs) ++ rest) cf ->
  exists fuel, run s = run_loop (length xs + S fuel) s /\ (length rest <= fuel)%nat.
Proof.
  intros Hxs Hc. unfold run. rewrite Hc. cbn [pending]. rewrite length_app.
  pose proof (length_exchanges _ _ Hxs) as Hlen.
  exists (length (concat (x_raw <$> xs)) - length xs + length rest)%nat.
  split; [|lia]. f_equal. lia.
Qed.

End Exchanges.

(** ** Properties *)

Section Properties.
Context `{UnicodeUpper}.

(** C1: whatever the three peers send and whenever a connection fails, the
    bytes the replica has received are a prefix of the read-only and
    connection-state commands of the client, in order and unchanged, and the
    bytes the master has received are a prefix of the commands that are its
    own (followed, after a pin, by the rest of the client's stream). A write
    or unknown command never reaches a replica. *)
Theorem run_routes s :
  exists cmds rest,
    pending (cr (client s)) = concat (snd <$> cmds) ++ rest /\
    Forall valid_cmd cmds /\
    end_replica (run s) `prefix_of` replica_out s ++ raws (to_replica (has_replica s)) cmds /\
    end_master (run s) `prefix_of`
      master_out s ++ raws (to_master (has_replica s)) cmds ++ (if piped (run s) then rest else []).
Proof. exact (run_loop_forwarded (S (length (pending (cr (client s))))) s). Qed.

(** The loop of a session returns: the rounds of the model are enough for
    every client stream. *)
Theorem run_total s : e_why (run s) <> RunFuel.
Proof. apply run_loop_fuel. lia. Qed.

(** C12: with backends that answer every command with one complete reply and
    connections that do not fail, a session that pins nothing relays all of it:
    each backend receives exactly its commands in the client's order, the
    client receives exactly one reply per command in that order (the master's
    for connection-state commands), no reply byte is left over or taken from
    the next one, and the counters count what went where. *)
Theorem run_relays s xs rest_m rest_r mf rf :
  Forall (good_exchange (has_replica s)) xs -> reads s = 0 -> writes s = 0 ->
  session_at s (MkReader (concat (x_raw <$> xs)) EOF)
    (MkReader (concat (x_master <$> xs) ++ rest_m) mf)
    (if has_replica s then Some (MkReader (concat (x_replica <$> xs) ++ rest_r) rf) else None) ->
  let names := (fun x => (x_name x, x_raw x)) <$> xs in
  let e := run s in
  e_why e = ClientStopped (RIO EOF) /\
  end_client e = written (cw (client s)) ++ concat (x_seen (has_replica s) <$> xs) /\
  end_master e = master_out s ++ raws (to_master (has_replica s)) names /\
  end_replica e = replica_out s ++ raws (to_replica (has_replica s)) names /\
  pending (cr (master (e_session e))) = rest_m /\
  reads (e_session e) = wrap64 (sum (counts_read (has_replica s)) xs) /\
  writes (e_session e) = wrap64 (sum (counts_write (has_replica s)) xs).
Proof.
  intros Hxs Hrd Hwr Hat names e. subst names e.
  rewrite <- (app_nil_r (concat (x_raw <$> xs))) in Hat.
  destruct (run_exchanges s xs [] EOF Hxs (proj1 Hat)) as (fuel & -> & _).
  destruct (run_loop_exchanges xs (S fuel) s [] EOF rest_m mf rest_r rf Hxs)
    as (s' & -> & _ & Hcl & Hmo & Hro & Hr & Hw & Hat'); [by rewrite Hrd|by rewrite Hwr|done|].
  assert (run_loop (S fuel) s' = MkEnd s' None (ClientStopped (RIO EOF))) as ->.
  { simpl. by rewrite (run_step_error s' (RIO EOF)) by (by rewrite (proj1 Hat')). }
  unfold end_client, end_master, end_replica. simpl.
  rewrite Hr, Hw, Hrd, Hwr, (proj1 (proj2 Hat')). done.
Qed.

(** C31: a pinning command ends the routing: the replica is closed and receives
    nothing more, the master receives the command and everything the client
    sends after it, and the client receives everything the master sends. *)
Theorem run_pin s args raw rest cf :
  command args raw -> route_of (command_name args) = RPin ->
  cr (client s) = MkReader (raw ++ rest) cf ->
  room (cw (client s)) = None -> room (cw (master s)) = None ->
  let e := run s in
  e_why e = Pinned /\ replica (e_session e) = None /\
  e_dropped e = close <$> replica s /\ end_replica e = replica_out s /\
  end_master e = master_out s ++ raw ++ rest /\
  end_client e = written (cw (client s)) ++ pending (cr (master s)).
Proof.
  intros Hcmd Hroute Hc Hrc Hrm e. subst e. unfold run. simpl.
  rewrite (run_step_pin s (command_name args) raw (MkReader rest cf)) by
    (by rewrite ?Hc, ?(readCommand_app _ _ _ _ Hcmd)).
  unfold pin. simpl. rewrite (Write_unlimited _ _ Hrm). simpl.
  unfold end_replica, end_master, end_client, master_out, replica_out, pipe, Copy. simpl.
  rewrite (Write_unlimited _ _ Hrc). unfold Netio.Write. simpl.
  split_and!; try done; [by destruct (replica s)| |].
  - destruct (has_closewrite (master s)); simpl; by rewrite <- app_assoc.
  - destruct (has_closewrite (client s)); simpl; done.
Qed.

(** A client of the inline protocol gets a plain pipe to the master: the
    first byte that is not an array header pins the session without consuming
    anything, so the master receives the client's stream unchanged. *)
Theorem run_inline s c rest cf :
  cr (client s) = MkReader (c :: rest) cf -> c <> "*"%byte ->
  room (cw (client s)) = None -> room (cw (master s)) = None ->
  let e := run s in
  e_why e = Pinned /\ e_dropped e = close <$> replica s /\ end_replica e = replica_out s /\
  end_master e = master_out s ++ c :: rest /\
  end_client e = written (cw (client s)) ++ pending (cr (master s)).
Proof.
  intros Hc Hstar Hrc Hrm e. subst e. unfold run. simpl.
  rewrite (run_step_error s InlineCommand).
  2: { rewrite Hc. unfold readCommand. simpl.
       by rewrite (proj2 (byte_eqb_neq _ _) Hstar). }
  unfold pin, end_replica, end_master, end_client, master_out, replica_out, pipe, Copy. simpl.
  rewrite (Write_unlimited _ _ Hrc), (Write_unlimited _ _ Hrm), Hc. simpl.
  split_and!; try done; [by destruct (replica s)| |].
  - by destruct (has_closewrite (master s)).
  - by destruct (has_closewrite (client s)).
Qed.

(** A session without a replica sends every command to the master, in
    order and unchanged; only empty arrays and commands with an empty name are
    left out. *)
Theorem run_without_replica s :
  replica s = None ->
  exists cmds rest,
    pending (cr (client s)) = concat (snd <$> cmds) ++ rest /\
    end_master (run s) `prefix_of`
      master_out s ++ raws (fun name => negb (bool_decide (name = EmptyString))) cmds ++
        (if piped (run s) then rest else []).
Proof.
  intros Hrep.
  destruct (run_loop_forwarded (S (length (pending (cr (client s))))) s)
    as (cmds & rest & Hp & _ & _ & Hm).
  exists cmds, rest. split; [done|]. fold (run s) in Hm.
  rewrite (raws_ext _ (to_master (has_replica s))); [done|].
  intros name. unfold to_master, route_of, has_replica. rewrite Hrep.
  repeat case_match; done.
Qed.

(** C40: a command whose name is the empty string is swallowed: although it is
    a complete command and not an empty array, nothing is forwarded and nothing
    is answered, and the session goes on with the next command. *)
Theorem run_empty_name s args raw rest cf :
  command ([] :: args) raw ->
  cr (client s) = MkReader (raw ++ rest) cf ->
  run_step s = inl (with_client (with_cr (MkReader rest cf) (client s)) s).
Proof.
  intros Hcmd Hc. unfold run_step.
  rewrite Hc, (readCommand_app _ _ _ _ Hcmd). done.
Qed.

Lemma copyRESP_silent w br e : readLine br = Err e -> copyRESP w br = (w, Err e).
Proof. intros H0. unfold copyRESP. cbn [copyRESP_loop]. by rewrite H0. Qed.

(** C39: A connection-state command that the master does not answer ends the
    session: the proxy waits for the reply until the connection fails or the
    idle timeout cuts it, relays nothing, and forwards none of what the client
    sends after it.  CLIENT REPLY OFF and CLIENT REPLY SKIP are such commands. *)
Theorem run_unanswered s args raw rest cf :
  command args raw -> cr (client s) = MkReader (raw ++ rest) cf ->
  set_has stateCommands (command_name args) = true ->
  pending (cr (master s)) = [] -> fits raw (cw (master s)) ->
  match replica s with Some rep => fits raw (cw rep) | None => True end ->
  e_why (run s) = StateFailed (command_name args) (RIO (fin (cr (master s)))) /\
  end_client (run s) = written (cw (client s)) /\
  end_master (run s) = master_out s ++ raw /\
  end_replica (run s) = replica_out s ++ (if has_replica s then raw else []).
Proof.
  intros Hcmd Hc Hst Hm Hfm Hfr.
  assert (bool_decide (command_name args = EmptyString) = false /\
    set_has pinCommands (command_name args) = false) as [Hne Hpin].
  { apply set_has_spec in Hst. unfold stateCommands in Hst.
    repeat (apply elem_of_cons in Hst as [->|Hst]; [done|]). by apply elem_of_nil in Hst. }
  assert (readLine (cr (master s)) = Err (RIO (fin (cr (master s))))) as Hline.
  { rewrite readLine_eq. unfold readLine_result. by rewrite Hm. }
  unfold run, run_loop. cbn [length].
  unfold run_step. rewrite Hc, (readCommand_app _ _ _ _ Hcmd), Hne, Hpin, Hst.
  unfold stateCommand. cbn [with_client client master replica].
  rewrite (Write_fits _ _ Hfm).
  destruct (replica s) as [rep|] eqn:Hrep; cbn [with_master with_client client master replica with_cw cr cw];
    rewrite ?Hrep; [rewrite (Write_fits _ _ Hfr)|]; cbn [with_replica client master replica];
    rewrite (copyRESP_silent _ _ _ Hline); cbn;
    unfold end_client, end_master, end_replica, master_out, replica_out, has_replica; cbn; rewrite ?Hrep; cbn;
    rewrite ?app_nil_r; done.
Qed.

End Properties.

(** ** Witnesses *)

Module Demo.

(** The replies of the example backends. *)
Definition ok_reply : list byte := line_bytes "+"%byte (bytes "OK").
Definition v_reply : list byte := line_bytes "$"%byte (bytes "1") ++ bytes "v" ++ CRLF.

Definition mkx (args : list (list byte)) (m r : list byte) : exchange :=
  MkExchange args (encode_command args) m r.

(** SET to the master, GET to the replica, SELECT to both. *)
Definition exchanges : list exchange :=
  [ mkx [bytes "set"; bytes "k"; bytes "v"] ok_reply [];
    mkx [bytes "get"; bytes "k"] [] v_reply;
    mkx [bytes "SELECT"; bytes "1"] ok_reply ok_reply ].

Definition conn_of (r : list byte) (e : io_err) : netconn :=
  MkConn (MkReader r e) (MkWriter [] None) true false false.

Definition session (c m : list byte) (r : option (list byte)) : routedSession :=
  MkSession (conn_of c EOF) (conn_of m EOF) ((fun b => conn_of b EOF) <$> r) 0 0.

Definition relay_session : routedSession :=
  session (concat (x_raw <$> exchanges)) (concat (x_master <$> exchanges) ++ bytes "M")
    (Some (concat (x_replica <$> exchanges) ++ bytes "R")).

Lemma ok_reply_reply : reply ok_reply.
Proof. apply reply_simple; [done|]. split; [by apply index_byte_None|by vm_compute]. Qed.

Lemma v_reply_reply : reply v_reply.
Proof.
  eapply (reply_blob _ _ 1); [done|split; [by apply index_byte_None|by vm_compute]|done| |done].
  by unfold maxBulkLen.
Qed.

Lemma command_of args :
  forallb (fun a => Z.of_nat (length a) <=? maxBulkLen) args = true ->
  (Z.of_nat (length args) <=? maxRESPElements) = true ->
  command args (encode_command args).
Proof.
  intros Ha Hn. apply encode_command_command; [by apply Z.leb_le|].
  apply Forall_forall. intros a Hin. rewrite forallb_forall in Ha.
  apply Z.leb_le, Ha, list_elem_of_In, Hin.
Qed.

Lemma good_mkx args m r bm br :
  command args (encode_command args) ->
  @route_of (fun s => s) (@command_name (fun s => s) args) <> RPin ->
  @to_master (fun s => s) true (@command_name (fun s => s) args) = bm ->
  @to_replica (fun s => s) true (@command_name (fun s => s) args) = br ->
  is_answer bm m -> is_answer br r -> @good_exchange (fun s => s) true (mkx args m r).
Proof. intros ? ? <- <- ? ?. done. Qed.

Lemma exchanges_good : Forall (@good_exchange (fun s => s) true) exchanges.
Proof.
  apply Forall_cons; split; [|apply Forall_cons; split; [|apply Forall_cons; split; [|constructor]]].
  - apply (good_mkx _ _ _ true false);
      [by apply command_of|vm_compute; discriminate|vm_compute; reflexivity..| |reflexivity].
    split; [apply ok_reply_reply|vm_compute; reflexivity].
  - apply (good_mkx _ _ _ false true);
      [by apply command_of|vm_compute; discriminate|vm_compute; reflexivity..|reflexivity|].
    split; [apply v_reply_reply|vm_compute; reflexivity].
  - apply (good_mkx _ _ _ true true);
      [by apply command_of|vm_compute; discriminate|vm_compute; reflexivity..| |];
      (split; [apply ok_reply_reply|vm_compute; reflexivity]).
Qed.

End Demo.

Lemma run_relays_witness :
  let e := @run (fun s => s) Demo.relay_session in
  e_why e = ClientStopped (RIO EOF) /\
  end_client e = Demo.ok_reply ++ Demo.v_reply ++ Demo.ok_reply /\
  reads (e_session e) = 1 /\ writes (e_session e) = 1.
Proof.
  destruct (@run_relays (fun s => s) Demo.relay_session Demo.exchanges (bytes "M") (bytes "R") EOF EOF)
    as (H1 & H2 & _ & _ & _ & H3 & H4).
  - exact Demo.exchanges_good.
  - reflexivity.
  - reflexivity.
  - repeat split; reflexivity.
  - split; [exact H1|]. split; [rewrite H2; reflexivity|]. split; [rewrite H3|rewrite H4]; reflexivity.
Defined.

Lemma run_pin_witness :
  let e := @run (fun s => s) (Demo.session
    (encode_command [bytes "multi"] ++ encode_command [bytes "get"; bytes "k"]) (bytes "reply")
    (Some [])) in
  e_why e = Pinned /\
  end_master e = encode_command [bytes "multi"] ++ encode_command [bytes "get"; bytes "k"].
Proof.
  destruct (@run_pin (fun s => s) (Demo.session
    (encode_command [bytes "multi"] ++ encode_command [bytes "get"; bytes "k"]) (bytes "reply")
    (Some [])) [bytes "multi"] (encode_command [bytes "multi"])
    (encode_command [bytes "get"; bytes "k"]) EOF) as (H1 & _ & _ & _ & H2 & _).
  - apply Demo.command_of; reflexivity.
  - vm_compute. reflexivity.
  - reflexivity.
  - reflexivity.
  - reflexivity.
  - split; [exact H1|exact H2].
Defined.

Lemma run_inline_witness :
  let e := @run (fun s => s) (Demo.session (bytes "PING" ++ CRLF) (bytes "+PONG" ++ CRLF) None) in
  e_why e = Pinned /\ end_master e = bytes "PING" ++ CRLF /\ end_client e = bytes "+PONG" ++ CRLF.
Proof.
  destruct (@run_inline (fun s => s)
    (Demo.session (bytes "PING" ++ CRLF) (bytes "+PONG" ++ CRLF) None) "P"%byte
    (bytes "ING" ++ CRLF) EOF) as (H1 & _ & _ & H2 & H3);
    [reflexivity|discriminate|reflexivity|reflexivity|].
  split; [exact H1|]. split; [exact H2|exact H3].
Defined.

Lemma run_without_replica_witness :
  exists cmds rest,
    encode_command [bytes "get"; bytes "k"] = concat (snd <$> cmds) ++ rest /\
    end_master (@run (fun s => s) (Demo.session (encode_command [bytes "get"; bytes "k"]) Demo.v_reply None))
      `prefix_of` [] ++ raws (fun name => negb (bool_decide (name = EmptyString))) cmds ++
      (if piped (@run (fun s => s) (Demo.session (encode_command [bytes "get"; bytes "k"]) Demo.v_reply None))
       then rest else []).
Proof.
  apply (@run_without_replica (fun s => s)
    (Demo.session (encode_command [bytes "get"; bytes "k"]) Demo.v_reply None)).
  reflexivity.
Defined.

(** CLIENT REPLY OFF, and a SET that is lost. *)
Lemma run_unanswered_witness :
  let off := encode_command [bytes "CLIENT"; bytes "REPLY"; bytes "OFF"] in
  let s := Demo.session (off ++ encode_command [bytes "SET"; bytes "k"; bytes "v"]) [] None in
  end_client (@run (fun s => s) s) = [] /\ end_master (@run (fun s => s) s) = [] ++ off.
Proof.
  cbv zeta. set (off := encode_command _).
  destruct (@run_unanswered (fun s => s)
    (Demo.session (off ++ encode_command [bytes "SET"; bytes "k"; bytes "v"]) [] None)
    [bytes "CLIENT"; bytes "REPLY"; bytes "OFF"] off (encode_command [bytes "SET"; bytes "k"; bytes "v"]) EOF)
    as (_ & H1 & H2 & _).
  - apply Demo.command_of; reflexivity.
  - reflexivity.
  - vm_compute. reflexivity.
  - reflexivity.
  - exact I.
  - exact I.
  - split; [exact H1|exact H2].
Defined.

Lemma run_empty_name_witness :
  @run_step (fun s => s) (Demo.session (encode_command [[]; bytes "k"] ++ bytes "next") [] None) =
  inl (Demo.session (bytes "next") [] None).
Proof.
  apply (@run_empty_name (fun s => s)
    (Demo.session (encode_command [[]; bytes "k"] ++ bytes "next") [] None)
    [bytes "k"] (encode_command [[]; bytes "k"]) (bytes "next") EOF).
  - apply Demo.command_of; reflexivity.
  - reflexivity.
Defined.
