(* ===== verification/PtrCache.v ===== *)
(** * PtrCache: reverse-DNS names (pkg/master_resolver/ptr_cache.go)

    The cache of reverse-DNS names of node addresses.  The clock and the
    resolver's answer are arguments of [Lookup]; the mutex makes a call atomic.
    The theorems show that a cached answer, negative ones included, is reused
    for less than a minute and never older than that, and which of several
    names is chosen. *)

From Stdlib Require Import Strings.Byte String ZArith Lia.
From stdpp Require Import base list strings gmap.
From S2P Require Import Prelude GoStd GoTime.

Local Open Scope Z_scope.

Definition ptrCacheTTL : Z := Minute.

Record ptrEntry : Type := MkPtrEntry { name : string; when : Z }.

Definition ptrCache : Type := gmap string ptrEntry.

Definition newPTRCache : ptrCache := ∅.

(** [strings.NewReplacer(".", "-", ":", "-").Replace]. *)
Definition dashes (s : list byte) : list byte :=
  (fun c => if Byte.eqb c "."%byte || Byte.eqb c ":"%byte then "-"%byte else c) <$> s.

Fixpoint pickPTRName_loop (dashed best : list byte) (names : list (list byte)) : list byte :=
  match names with
  | [] => best
  | name :: names' =>
      let name := TrimSuffix name (bytes ".") in
      let best := if bool_decide (best = []) then name else best in
      if negb (HasPrefix name dashed) then name
      else pickPTRName_loop dashed best names'
  end.

Definition pickPTRName (ip : string) (names : list string) : string :=
  String.string_of_list_byte
    (pickPTRName_loop (dashes (bytes ip) ++ bytes ".") [] (bytes <$> names)).

(** [Lookup] at time [now]; [lookupAddr] is [LookupAddr] of the resolver
    ([None] on an error). *)
Definition Lookup (now : Z) (lookupAddr : string -> option (list string)) (ip : string)
    (c : ptrCache) : string * ptrCache :=
  let miss :=
    let name := match lookupAddr ip with
                | Some names => pickPTRName ip names
                | None => ""%string
                end in
    (name, <[ip := MkPtrEntry name now]> c) in
  match c !! ip with
  | Some e => if now - when e <? ptrCacheTTL then (name e, c) else miss
  | None => miss
  end.

(** ** Which name is chosen *)

Definition trimmed (n : list byte) : list byte := TrimSuffix n (bytes ".").

(** The names that do not just re-encode the address. *)
Definition proper_name (dashed : list byte) (n : list byte) : bool := negb (HasPrefix n dashed).

Lemma pickPTRName_loop_spec dashed best names :
  dashed <> [] ->
  pickPTRName_loop dashed best names =
  match List.find (proper_name dashed) (trimmed <$> names) with
  | Some n => n
  | None => if bool_decide (best = []) then default [] (head (trimmed <$> names)) else best
  end.
Proof.
  intros Hd. revert best. induction names as [|n names IH]; intros best; cbn [pickPTRName_loop fmap list_fmap List.find].
  { by case_bool_decide. }
  change (TrimSuffix n (bytes ".")) with (trimmed n). unfold proper_name at 1.
  destruct (HasPrefix (trimmed n) dashed) eqn:Hp; cbn [negb]; [|done].
  rewrite IH. destruct (List.find _ _); [done|]. cbn [head default].
  assert (trimmed n <> []) as Hn.
  { intros E. rewrite E in Hp. apply HasPrefix_spec, prefix_nil_inv in Hp. done. }
  destruct (decide (best = [])) as [->|Hb].
  - rewrite (bool_decide_eq_false_2 (trimmed n = [])) by done. done.
  - by rewrite !(bool_decide_eq_false_2 (best = [])) by done.
Qed.

(** Of the reverse-DNS names of an address the first one that does not
    re-encode the address with dashes is chosen; when all do, the first; when
    there is none, no name.  The trailing dot is dropped. *)
Theorem pickPTRName_prefers (ip : string) (names : list string) :
  bytes (pickPTRName ip names) =
  let ns := trimmed <$> (bytes <$> names) in
  match List.find (proper_name (dashes (bytes ip) ++ bytes ".")) ns with
  | Some n => n
  | None => default [] (head ns)
  end.
Proof.
  unfold pickPTRName. rewrite bytes_string_of_list, pickPTRName_loop_spec; [done|].
  intros [_ E]%app_nil. discriminate.
Qed.

Example pickPTRName_pod :
  pickPTRName "10.42.4.18"
    ["10-42-4-18.redis.default.svc.cluster.local."; "redis-node-1.redis-headless.default.svc.cluster.local."]
  = "redis-node-1.redis-headless.default.svc.cluster.local"%string.
Proof. vm_compute. reflexivity. Qed.

(** ** Freshness *)

(** Lookups at the given times with the resolver's answers of that moment. *)
Fixpoint Lookups (qs : list (Z * (string -> option (list string)) * string)) (c : ptrCache)
  : list string * ptrCache :=
  match qs with
  | [] => ([], c)
  | (now, dns, ip) :: qs' =>
      let (n, c) := Lookup now dns ip c in
      let (ns, c) := Lookups qs' c in
      (n :: ns, c)
  end.

(** The name an answer of the resolver gives. *)
Definition answer (dns : string -> option (list string)) (ip : string) : string :=
  match dns ip with Some names => pickPTRName ip names | None => ""%string end.

(** Every entry was answered by a query of the history. *)
Definition from_history (h : list (Z * (string -> option (list string)) * string)) (c : ptrCache) : Prop :=
  map_Forall (fun ip e => exists dns, (when e, dns, ip) ∈ h /\ name e = answer dns ip) c.

(** An answer of the history for the address, less than a minute old. *)
Definition fresh_answer (h : list (Z * (string -> option (list string)) * string))
    (now : Z) (ip n : string) : Prop :=
  exists t dns, (t, dns, ip) ∈ h /\ n = answer dns ip /\ (t = now \/ now - t < ptrCacheTTL).

Lemma Lookup_history h now dns ip c n c' :
  from_history h c -> Lookup now dns ip c = (n, c') ->
  from_history (h ++ [(now, dns, ip)]) c' /\ fresh_answer (h ++ [(now, dns, ip)]) now ip n.
Proof.
  intros Hh HL.
  assert (from_history (h ++ [(now, dns, ip)]) c) as Hc.
  { intros i e He. destruct (Hh i e He) as (d & ? & ?). exists d. set_solver. }
  assert ((answer dns ip, <[ip := MkPtrEntry (answer dns ip) now]> c) = (n, c') ->
    from_history (h ++ [(now, dns, ip)]) c' /\ fresh_answer (h ++ [(now, dns, ip)]) now ip n) as Hmiss.
  { intros [= <- <-]. split.
    - apply map_Forall_insert_2; [|done]. exists dns. set_solver.
    - exists now, dns. set_solver. }
  unfold Lookup in HL. fold (answer dns ip) in HL.
  destruct (c !! ip) as [e|] eqn:He; [|by apply Hmiss].
  destruct (_ <? _) eqn:Ht; [|by apply Hmiss].
  injection HL as <- <-. split; [done|]. destruct (Hc ip e He) as (d & ? & ?).
  exists (when e), d. to_prop. auto.
Qed.

Lemma Lookups_history h qs c i now dns ip n :
  from_history h c ->
  qs !! i = Some (now, dns, ip) -> (Lookups qs c).1 !! i = Some n ->
  fresh_answer (h ++ take (S i) qs) now ip n.
Proof.
  revert h c i. induction qs as [|[[t d] a] qs IH]; intros h c i Hh Hq Hn; [done|].
  cbn in Hn. destruct (Lookup t d a c) as [n0 c0] eqn:HL.
  apply (Lookup_history h) in HL as [Hc0 Hf]; [|done].
  destruct (Lookups qs c0) as [ns c1] eqn:HLs.
  destruct i as [|i]; cbn in Hq, Hn.
  - injection Hq as -> -> ->. injection Hn as ->. cbn. exact Hf.
  - cbn [take]. change ((t, d, a) :: take (S i) qs) with ([(t, d, a)] ++ take (S i) qs).
    rewrite app_assoc. apply (IH _ c0); [done..|by rewrite HLs].
Qed.

(** A lookup of another moment's cache made at the same time does not change
    what a lookup answers. *)
Lemma Lookup_stable now dns ip ip' c :
  fst (Lookup now dns ip (snd (Lookup now dns ip' c))) = fst (Lookup now dns ip c).
Proof.
  assert (forall e, when e = now -> now - when e <? ptrCacheTTL = true) as Ht.
  { intros e ->. apply Z.ltb_lt. unfold ptrCacheTTL, Minute, Second. lia. }
  assert (forall x : string, fst (Lookup now dns ip (<[ip' := MkPtrEntry x now]> c)) =
    if decide (ip' = ip) then x else fst (Lookup now dns ip c)) as Hi.
  { intros x. unfold Lookup, ptrCache in *. destruct (decide (ip' = ip)) as [->|Hne].
    - rewrite lookup_insert_eq. by rewrite Ht.
    - rewrite lookup_insert_ne by done. destruct (c !! ip) as [e|]; [|done]. by destruct (_ <? _). }
  unfold Lookup at 2. destruct (c !! ip') as [e|] eqn:E.
  - destruct (_ <? _) eqn:El; [done|]. cbn [snd]. rewrite Hi. case_decide; [|done]. subst ip'.
    unfold Lookup. by rewrite E, El.
  - cbn [snd]. rewrite Hi. case_decide; [|done]. subst ip'. unfold Lookup. by rewrite E.
Qed.

(** C35: Over any sequence of lookups on a new cache, the name returned for an
    address is what the resolver answered for that very address in one of the
    lookups so far, now or less than a minute ago; failed lookups are answers
    too, of the empty name. *)
Theorem Lookups_fresh (qs : list (Z * (string -> option (list string)) * string))
    (i : nat) (now : Z) (dns : string -> option (list string)) (ip n : string) :
  qs !! i = Some (now, dns, ip) -> (Lookups qs newPTRCache).1 !! i = Some n ->
  fresh_answer (take (S i) qs) now ip n.
Proof. apply (Lookups_history []), map_Forall_empty. Qed.

Module PtrDemo.
Definition dns1 (ip : string) : option (list string) := Some ["redis-0.redis."]%string.
Definition dns2 (ip : string) : option (list string) := None.
Definition qs : list (Z * (string -> option (list string)) * string) :=
  [(0, dns1, "10.0.0.1"); (59 * Second, dns2, "10.0.0.1"); (60 * Second, dns2, "10.0.0.1");
   (61 * Second, dns1, "10.0.0.1")]%string.
(** The second lookup is answered from the cache, the third by the resolver,
    whose failure the fourth reuses. *)
Example names : (Lookups qs newPTRCache).1 = ["redis-0.redis"; "redis-0.redis"; ""; ""]%string.
Proof. vm_compute. reflexivity. Qed.
End PtrDemo.

Lemma Lookups_fresh_witness :
  fresh_answer (take 2 PtrDemo.qs) (59 * Second) "10.0.0.1" "redis-0.redis".
Proof.
  apply (Lookups_fresh PtrDemo.qs 1 (59 * Second) PtrDemo.dns2); [reflexivity|].
  vm_compute. reflexivity.
Defined.
