(* ===== verification/Resolver.v ===== *)
(** * Resolver: master and replica addresses (pkg/master_resolver/master_resolver.go)

    The state [RedisMasterResolver], the resolve steps against sentinel and the
    nodes, the update loop with its retry budget, on-demand refresh and the
    round-robin choice of a replica.

    What answers from outside - sentinel and the redis nodes through go-redis,
    DNS, the clock - is the record [World]; an update runs in one world, the
    loops in a sequence of them.  The locks make [setMasterAddress],
    [setReplicaAddresses], [MasterAddress] and [ReplicaAddress] atomic; the
    channel [initialMasterResolveLock] is the flag [initialResolved]. *)

From Stdlib Require Import Strings.Byte String ZArith Lia Sorting.
From stdpp Require Import base list strings gmap sorting.
From S2P Require Import Prelude GoStd GoTime Config NetAddr PtrCache.

Local Open Scope Z_scope.

(** ** Clients of redis (go-redis) *)

(** The options the program sets on a client. *)
Record Options : Type := MkOptions {
  Addr : string;
  OptUsername : string;
  OptPassword : string;
  TLSConfig : option tls_config;
  DialTimeout : Z;
  ReadTimeout : Z;
  WriteTimeout : Z;
  MaxRetries : Z;
  PoolSize : Z;
  DisableIdentity : bool
}.

Definition clientOptions (addr username password : string) (tlsConf : option tls_config) : Options :=
  MkOptions addr username password tlsConf Second Second Second (-1) 1 true.

Inductive redis_err : Type := RedisNil | RedisError.

(** An element of a reply array. *)
Inductive redis_val : Type := RString (s : string) | ROther.

Inductive dns_err : Type := DNSNotFound | DNSOther.

(** ** The world outside of the resolver during one update *)

Record World : Type := MkWorld {
  GetMasterAddrByName : Options -> string -> result redis_err (list string);
  Replicas : Options -> string -> result redis_err (list (gmap string string));
  Role : Options -> result redis_err (list redis_val);
  (** [net.ResolveTCPAddr] on a host that is not the text of an address: the
      address and its zone *)
  ResolveHost : string -> result dns_err (IP * string);
  LookupAddr : string -> option (list string);
  Now : Z
}.

(** ** Errors *)

Inductive addr_err : Type :=
| EmptyAddress
| PlaceholderHost            (* wraps errSentinelNotReady *)
| InvalidPort
| HostNotFound               (* wraps errSentinelNotReady *)
| ResolveFailed.

Inductive role_err : Type :=
| RoleQuery
| RoleEmpty
| RoleType
| RoleMismatch (role : string).

Inductive resolve_err : Type :=
| NilReply
| SentinelQuery
| UnexpectedElements (n : Z)
| BadAddress (e : addr_err)
| CheckRole (e : role_err).

(** [errors.Is(err, errSentinelNotReady)]. *)
Definition errSentinelNotReady (e : resolve_err) : bool :=
  match e with
  | BadAddress PlaceholderHost | BadAddress HostNotFound => true
  | _ => false
  end.

(** ** Timing *)

Definition sentinelNotReadyBackoff : Z := 10 * Second.
Definition refreshThrottle : Z := Second.
Definition resolveFailureBackoffCap : Z := 30 * Second.

Definition ResolveFailureBackoff (errCount : Z) : Z :=
  if errCount <? 1 then Second
  else if 5 <? errCount then resolveFailureBackoffCap
  else Z.min (Z.shiftl Second (errCount - 1)) resolveFailureBackoffCap.

(** ** State *)

Inductive log_entry : Type :=
| LogMaster (master display : string)
| LogMasterChanged (master old new : string)
| LogReplicasChanged (master : string) (old new : list string)
| LogResolveError (e : resolve_err)
| LogReplicaError.

(** The fields set once by [NewRedisMasterResolver]. *)
Record Settings : Type := MkSettings {
  masterName : string;
  sentinel : Options;
  masterTLSConf : option tls_config;
  masterUsername : string;
  masterPassword : string;
  retryOnMasterResolveFail : Z;
  trackReplicas : bool
}.

Record RedisMasterResolver : Type := MkResolver {
  settings : Settings;
  initialResolved : bool;
  lastRefresh : option Z;      (* [None]: the zero time *)
  masterAddr : string;
  masterDisplay : string;
  replicaAddrs : list string;
  replicaNames : list string;
  replicaIdx : Z;              (* uint64 *)
  ptrs : ptrCache;
  sentinelClosed : bool;
  logged : list log_entry
}.

Definition NewRedisMasterResolver (cfg : Config) : result config_err RedisMasterResolver :=
  let username := default ""%string (Username cfg) in
  let password := default ""%string (Password cfg) in
  let masterUsername := default username (MasterUsername cfg) in
  let masterPassword := default password (MasterPassword cfg) in
  let* master := deref (Master cfg) in
  let* sentinel := deref (Sentinel cfg) in
  let* retries := deref (ResolveRetries cfg) in
  Ok (MkResolver
    (MkSettings master (clientOptions sentinel username password (SentinelTLSConfig cfg))
       (MasterProbeTLSConfig cfg) masterUsername masterPassword retries (strSet (ReplicaListen cfg)))
    false None "" "" [] [] 0 newPTRCache false []).

(** Assignments to the fields. *)
Definition set_master (addr display : string) (r : RedisMasterResolver) : RedisMasterResolver :=
  MkResolver (settings r) (initialResolved r) (lastRefresh r) addr display (replicaAddrs r)
    (replicaNames r) (replicaIdx r) (ptrs r) (sentinelClosed r) (logged r).
Definition set_replicas (addrs names : list string) (r : RedisMasterResolver) : RedisMasterResolver :=
  MkResolver (settings r) (initialResolved r) (lastRefresh r) (masterAddr r) (masterDisplay r) addrs
    names (replicaIdx r) (ptrs r) (sentinelClosed r) (logged r).
Definition set_idx (idx : Z) (r : RedisMasterResolver) : RedisMasterResolver :=
  MkResolver (settings r) (initialResolved r) (lastRefresh r) (masterAddr r) (masterDisplay r)
    (replicaAddrs r) (replicaNames r) idx (ptrs r) (sentinelClosed r) (logged r).
Definition set_ptrs (c : ptrCache) (r : RedisMasterResolver) : RedisMasterResolver :=
  MkResolver (settings r) (initialResolved r) (lastRefresh r) (masterAddr r) (masterDisplay r)
    (replicaAddrs r) (replicaNames r) (replicaIdx r) c (sentinelClosed r) (logged r).
Definition set_lastRefresh (t : Z) (r : RedisMasterResolver) : RedisMasterResolver :=
  MkResolver (settings r) (initialResolved r) (Some t) (masterAddr r) (masterDisplay r)
    (replicaAddrs r) (replicaNames r) (replicaIdx r) (ptrs r) (sentinelClosed r) (logged r).
Definition close_initial (r : RedisMasterResolver) : RedisMasterResolver :=
  MkResolver (settings r) true (lastRefresh r) (masterAddr r) (masterDisplay r)
    (replicaAddrs r) (replicaNames r) (replicaIdx r) (ptrs r) (sentinelClosed r) (logged r).
Definition close_sentinel (r : RedisMasterResolver) : RedisMasterResolver :=
  MkResolver (settings r) (initialResolved r) (lastRefresh r) (masterAddr r) (masterDisplay r)
    (replicaAddrs r) (replicaNames r) (replicaIdx r) (ptrs r) true (logged r).
Definition println (e : log_entry) (r : RedisMasterResolver) : RedisMasterResolver :=
  MkResolver (settings r) (initialResolved r) (lastRefresh r) (masterAddr r) (masterDisplay r)
    (replicaAddrs r) (replicaNames r) (replicaIdx r) (ptrs r) (sentinelClosed r) (logged r ++ [e]).

(** ** Accessors: [None] while the call blocks on the initial resolve *)

Definition MasterAddress (r : RedisMasterResolver) : option string :=
  if initialResolved r then Some (masterAddr r) else None.

Inductive replica_result : Type :=
| ReplicaBlocked
| ReplicaNone                 (* "", false *)
| ReplicaPicked (addr : string)
| ReplicaPanic.               (* index out of range *)

Definition ReplicaAddress (r : RedisMasterResolver) : replica_result * RedisMasterResolver :=
  if negb (initialResolved r) then (ReplicaBlocked, r)
  else if bool_decide (replicaAddrs r = []) then (ReplicaNone, r)
  else
    let added := wrapu64 (replicaIdx r + 1) in
    let idx := wrapu64 (added - 1) mod Z.of_nat (length (replicaAddrs r)) in
    match replicaAddrs r !! Z.to_nat idx with
    | Some addr => (ReplicaPicked addr, set_idx added r)
    | None => (ReplicaPanic, set_idx added r)
    end.

Definition setMasterAddress (addr : TCPAddr) (name : string) (r : RedisMasterResolver)
  : RedisMasterResolver :=
  let addr := TCPAddr_String addr in
  let r :=
    if negb (String.eqb (masterAddr r) addr) then
      if String.eqb (masterAddr r) "" then println (LogMaster (masterName (settings r)) name) r
      else println (LogMasterChanged (masterName (settings r)) (masterDisplay r) name) r
    else r in
  set_master addr name r.

Definition setReplicaAddresses (addrs names : list string) (r : RedisMasterResolver)
  : RedisMasterResolver :=
  let r :=
    if negb (bool_decide (replicaAddrs r = addrs))
    then println (LogReplicasChanged (masterName (settings r)) (replicaNames r) names) r
    else r in
  set_replicas addrs names r.

(** ** Resolving *)

Section WithWorld.
Variable w : World.

Definition usableTCPAddr (host port : string) : result addr_err TCPAddr :=
  if String.eqb host "" || String.eqb port "" then Err EmptyAddress
  else if match ParseIP host with Some ip => IsUnspecified ip | None => false end
  then Err PlaceholderHost
  else
    match Atoi port with
    | None => Err InvalidPort
    | Some portNum =>
        if (portNum <? 1) || (65535 <? portNum) then Err InvalidPort
        else
          match ParseIP host with
          | Some ip => Ok (MkTCPAddr ip portNum "")
          | None =>
              match ResolveHost w host with
              | Ok (ip, zone) => Ok (MkTCPAddr ip portNum zone)
              | Err DNSNotFound => Err HostNotFound
              | Err DNSOther => Err ResolveFailed
              end
          end
    end.

Definition checkRole (s : Settings) (addr : TCPAddr) (wantRole : string) : result role_err unit :=
  match Role w (clientOptions (TCPAddr_String addr) (masterUsername s) (masterPassword s)
                  (masterTLSConf s)) with
  | Err _ => Err RoleQuery
  | Ok [] => Err RoleEmpty
  | Ok (ROther :: _) => Err RoleType
  | Ok (RString role :: _) => if String.eqb role wantRole then Ok tt else Err (RoleMismatch role)
  end.

Definition displayName (host port : string) (addr : TCPAddr) (c : ptrCache) : string * ptrCache :=
  let '(name, c) :=
    match ParseIP host with
    | Some _ => Lookup (Now w) (LookupAddr w) (IP_String (addrIP addr)) c
    | None => (host, c)
    end in
  if String.eqb name "" then (TCPAddr_String addr, c)
  else ((JoinHostPort name port ++ " (" ++ IP_String (addrIP addr) ++ ")")%string, c).

Definition resolveMasterAddress (s : Settings) (c : ptrCache)
  : result resolve_err (TCPAddr * string * ptrCache) :=
  match GetMasterAddrByName w (sentinel s) (masterName s) with
  | Err RedisNil => Err NilReply
  | Err RedisError => Err SentinelQuery
  | Ok [host; port] =>
      match usableTCPAddr host port with
      | Err e => Err (BadAddress e)
      | Ok addr =>
          match checkRole s addr "master" with
          | Err e => Err (CheckRole e)
          | Ok _ =>
              let '(name, c) := displayName host port addr c in
              Ok (addr, name, c)
          end
      end
  | Ok reply => Err (UnexpectedElements (Z.of_nat (length reply)))
  end.

(** Sentinel's verdict on a replica: [continue] on a flag or a broken link. *)
Definition flagged_down (fields : gmap string string) : bool :=
  let flags := bytes (default ""%string (fields !! "flags"%string)) in
  Contains flags (bytes "s_down") || Contains flags (bytes "o_down")
  || Contains flags (bytes "disconnected").

Definition link_broken (fields : gmap string string) : bool :=
  match fields !! "master-link-status"%string with
  | Some link => negb (String.eqb link "ok")
  | None => false
  end.

(** The loop of [resolveReplicaAddresses] over sentinel's replicas. *)
Fixpoint collectReplicas (s : Settings) (replicas : list (gmap string string)) (c : ptrCache)
  : list (string * string) * ptrCache :=
  match replicas with
  | [] => ([], c)
  | fields :: replicas' =>
      if flagged_down fields then collectReplicas s replicas' c
      else if link_broken fields then collectReplicas s replicas' c
      else
        let ip := default ""%string (fields !! "ip"%string) in
        let port := default ""%string (fields !! "port"%string) in
        match usableTCPAddr ip port with
        | Err _ => collectReplicas s replicas' c
        | Ok addr =>
            match checkRole s addr "slave" with
            | Err _ => collectReplicas s replicas' c
            | Ok _ =>
                let '(name, c) := displayName ip port addr c in
                let '(reps, c) := collectReplicas s replicas' c in
                ((TCPAddr_String addr, name) :: reps, c)
            end
        end
  end.

(** [slices.SortFunc] by address, as the insertion sort it is on short slices. *)
Fixpoint insert_rep (x : string * string) (l : list (string * string)) : list (string * string) :=
  match l with
  | [] => [x]
  | y :: l' =>
      match Compare (fst x) (fst y) with
      | Gt => y :: insert_rep x l'
      | _ => x :: l
      end
  end.

Fixpoint sort_reps (l : list (string * string)) : list (string * string) :=
  match l with
  | [] => []
  | x :: l' => insert_rep x (sort_reps l')
  end.

Definition resolveReplicaAddresses (s : Settings) (c : ptrCache)
  : result unit (list string * list string) * ptrCache :=
  match Replicas w (sentinel s) (masterName s) with
  | Err _ => (Err tt, c)
  | Ok replicas =>
      let '(reps, c) := collectReplicas s replicas c in
      let reps := sort_reps reps in
      (Ok (reps.*1, reps.*2), c)
  end.

(** [updateMasterAddress] publishes in two steps, each under the lock: first the
    master, then, with tracking, the replicas.  Between them other updates and
    readers may run. *)
Definition publishMaster (r : RedisMasterResolver) : option resolve_err * RedisMasterResolver :=
  match resolveMasterAddress (settings r) (ptrs r) with
  | Err e => (Some e, println (LogResolveError e) r)
  | Ok (addr, name, c) => (None, setMasterAddress addr name (set_ptrs c r))
  end.

Definition publishReplicas (r : RedisMasterResolver) : RedisMasterResolver :=
  if trackReplicas (settings r) then
    let '(res, c) := resolveReplicaAddresses (settings r) (ptrs r) in
    let r := set_ptrs c r in
    match res with
    | Ok (addrs, names) => setReplicaAddresses addrs names r
    | Err _ => setReplicaAddresses [] [] (println LogReplicaError r)
    end
  else r.

Definition updateMasterAddress (r : RedisMasterResolver) : option resolve_err * RedisMasterResolver :=
  match publishMaster r with
  | (Some e, r) => (Some e, r)
  | (None, r) => (None, publishReplicas r)
  end.

End WithWorld.

(** The update loop closes the sentinel client when it ends
    ([defer r.sentinel.Close()]), and refreshes go on after it: every query of
    the closed client is an error.  The role probes have clients of their own. *)
Definition closed_world (w : World) : World :=
  MkWorld (fun _ _ => Err RedisError) (fun _ _ => Err RedisError) (Role w) (ResolveHost w)
    (LookupAddr w) (Now w).

(** The world as the resolver's clients see it. *)
Definition view (r : RedisMasterResolver) (w : World) : World :=
  if sentinelClosed r then closed_world w else w.

Lemma view_cases r w : view r w = w \/ view r w = closed_world w.
Proof. unfold view. destruct (sentinelClosed r); auto. Qed.

(** [time.Since] of the zero time exceeds every throttle. *)
Definition RefreshAddresses (w : World) (r : RedisMasterResolver) : RedisMasterResolver :=
  if negb (initialResolved r) then r
  else if match lastRefresh r with
          | Some t => Now w - t <? refreshThrottle
          | None => false
          end
  then r
  else snd (updateMasterAddress (view r w) (set_lastRefresh (Now w) r)).

(** ** The loops

    An iteration of the loops sees one world and, at each [select], whether the
    context is done.  A loop that has used up the given iterations is still
    running. *)

Record Iteration : Type := MkIteration {
  tick_done : bool;      (* [ctx.Done] instead of the ticker *)
  world : World;
  wait_done : bool       (* [ctx.Done] instead of the end of the wait *)
}.

Inductive loop_status : Type :=
| Running (errCount : Z) (err : option resolve_err)
| Returned (err : option resolve_err).

(** What a loop did: its status, the waits it made and the resolver. *)
Definition loop_result : Type := (loop_status * list Z * RedisMasterResolver)%type.

Fixpoint initial_loop (its : list Iteration) (errCount : Z) (err : option resolve_err)
    (waits : list Z) (r : RedisMasterResolver) : loop_result :=
  match its with
  | [] => (Running errCount err, waits, r)
  | it :: its' =>
      let '(err, r) := updateMasterAddress (world it) r in
      match err with
      | None => (Returned None, waits, r)
      | Some e =>
          if errSentinelNotReady e then
            let waits := waits ++ [sentinelNotReadyBackoff] in
            if wait_done it then (Returned err, waits, r)
            else initial_loop its' errCount err waits r
          else
            let errCount := errCount + 1 in
            if retryOnMasterResolveFail (settings r) <? errCount then (Returned err, waits, r)
            else
              let waits := waits ++ [ResolveFailureBackoff errCount] in
              if wait_done it then (Returned err, waits, r)
              else initial_loop its' errCount err waits r
      end
  end.

Definition initialMasterAddressResolve (its : list Iteration) (r : RedisMasterResolver) : loop_result :=
  match initial_loop its 0 None [] r with
  | (Returned err, waits, r) => (Returned err, waits, close_initial r)
  | running => running
  end.

Fixpoint update_loop (its : list Iteration) (errCount : Z) (err : option resolve_err)
    (waits : list Z) (r : RedisMasterResolver) : loop_result :=
  if negb (errCount <=? retryOnMasterResolveFail (settings r)) then (Returned err, waits, r)
  else
    match its with
    | [] => (Running errCount err, waits, r)
    | it :: its' =>
        if tick_done it then (Returned None, waits, r)
        else
          let '(err, r) := updateMasterAddress (world it) r in
          match err with
          | None => update_loop its' 0 None waits r
          | Some e =>
              let '(errCount, wait) :=
                if errSentinelNotReady e then (errCount, sentinelNotReadyBackoff)
                else (errCount + 1, ResolveFailureBackoff (errCount + 1)) in
              let waits := waits ++ [wait] in
              if wait_done it then (Returned None, waits, r)
              else update_loop its' errCount err waits r
          end
    end.

Definition UpdateMasterAddressLoop (initial its : list Iteration) (r : RedisMasterResolver)
  : loop_result :=
  match initialMasterAddressResolve initial r with
  | (Returned None, waits, r) =>
      match update_loop its 0 None waits r with
      | (Returned err, waits, r) => (Returned err, waits, close_sentinel r)
      | running => running
      end
  | (Returned (Some e), waits, r) => (Returned (Some e), waits, close_sentinel r)
  | running => running
  end.

(** ** Backoff *)

(** The wait after the n-th consecutive counted failure is exactly
    min(2^(n-1) s, 30 s): one second after the first, doubled each time, never
    more than the cap, although the code never shifts by more than four. *)
Theorem ResolveFailureBackoff_exact (n : Z) :
  ResolveFailureBackoff n = Z.min (2 ^ Z.max 0 (n - 1) * Second) resolveFailureBackoffCap.
Proof.
  unfold ResolveFailureBackoff, resolveFailureBackoffCap.
  destruct (Z.ltb_spec n 1).
  { rewrite Z.max_l by lia. reflexivity. }
  rewrite Z.max_r by lia. destruct (Z.ltb_spec 5 n).
  - assert (2 ^ 5 <= 2 ^ (n - 1)) by (apply Z.pow_le_mono_r; lia).
    unfold Second in *. lia.
  - rewrite Z.shiftl_mul_pow2 by lia. f_equal. lia.
Qed.

Lemma ResolveFailureBackoff_bounds n :
  Second <= ResolveFailureBackoff n <= resolveFailureBackoffCap.
Proof.
  unfold ResolveFailureBackoff, resolveFailureBackoffCap, Second.
  destruct (Z.ltb_spec n 1); [lia|]. destruct (Z.ltb_spec 5 n); [lia|].
  rewrite Z.shiftl_mul_pow2 by lia.
  assert (2 ^ 0 <= 2 ^ (n - 1)) by (apply Z.pow_le_mono_r; lia). lia.
Qed.

(** ** Addresses *)

Section Addresses.
Variable w : World.

Definition is_placeholder (host : string) : bool :=
  match ParseIP host with Some ip => IsUnspecified ip | None => false end.

(** A port the program connects to. *)
Definition good_port (port : string) (n : Z) : Prop := Atoi port = Some n /\ 1 <= n <= 65535.

(** What [usableTCPAddr] promises about the address of a host and port. *)
Definition usable (host port : string) (a : TCPAddr) : Prop :=
  host <> ""%string /\ port <> ""%string /\ is_placeholder host = false /\
  good_port port (addrPort a) /\
  match ParseIP host with
  | Some ip => addrIP a = ip /\ addrZone a = ""%string
  | None => ResolveHost w host = Ok (addrIP a, addrZone a)
  end.

Lemma port_test n : (n <? 1) || (65535 <? n) = false <-> 1 <= n <= 65535.
Proof. rewrite orb_false_iff, !Z.ltb_ge. lia. Qed.

Lemma usableTCPAddr_Ok host port a : usableTCPAddr w host port = Ok a <-> usable host port a.
Proof.
  unfold usableTCPAddr, usable, good_port. fold (is_placeholder host).
  destruct (String.eqb_spec host ""); cbn [orb]; [naive_solver|].
  destruct (String.eqb_spec port ""); cbn [orb]; [naive_solver|].
  destruct (is_placeholder host); [naive_solver|].
  destruct (Atoi port) as [p|]; [|naive_solver].
  destruct (_ || _) eqn:Hp.
  { assert (~ 1 <= p <= 65535) by (rewrite <- port_test; congruence). naive_solver. }
  apply port_test in Hp. destruct a as [ip q z]; cbn [addrIP addrPort addrZone].
  destruct (ParseIP host) as [ip'|].
  - split; [by intros [= <- <- <-]|]. by intros (_ & _ & _ & [[= ->] _] & -> & ->).
  - destruct (ResolveHost w host) as [[ip' z']|[]]; [|naive_solver..].
    split; [by intros [= <- <- <-]|]. by intros (_ & _ & _ & [[= ->] _] & [= -> ->]).
Qed.

(** [usableTCPAddr] accepts exactly the usable pairs: non-empty host and
    port, a decimal port in 1..65535, a host that is not the text of an
    unspecified address, and then yields that address, or the one DNS gives
    for a host name. *)
Theorem usableTCPAddr_accepts (host port : string) (a : TCPAddr) :
  usableTCPAddr w host port = Ok a <-> usable host port a.
Proof. apply usableTCPAddr_Ok. Qed.

(** The only rejections that are waited out instead of being counted are the
    placeholder host, whatever its port, and a host name with a good port that
    DNS does not know. *)
Theorem usableTCPAddr_not_ready (host port : string) (e : addr_err) :
  usableTCPAddr w host port = Err e ->
  (errSentinelNotReady (BadAddress e) = true <->
   host <> ""%string /\ port <> ""%string /\
   (is_placeholder host = true \/
    (exists n, good_port port n) /\ ParseIP host = None /\ ResolveHost w host = Err DNSNotFound)).
Proof.
  unfold usableTCPAddr, good_port. fold (is_placeholder host).
  destruct (String.eqb_spec host "") as [->|Hh]; cbn [orb]; [by intros [= <-]; naive_solver|].
  destruct (String.eqb_spec port "") as [->|Hp]; cbn [orb]; [by intros [= <-]; naive_solver|].
  destruct (is_placeholder host); [by intros [= <-]; naive_solver|].
  destruct (Atoi port) as [n|]; [|by intros [= <-]; naive_solver].
  destruct (_ || _) eqn:Hn.
  { intros [= <-]. assert (~ 1 <= n <= 65535) by (rewrite <- port_test; congruence). naive_solver. }
  apply port_test in Hn. destruct (ParseIP host); [done|].
  destruct (ResolveHost w host) as [[]|[]]; [done|..]; intros [= <-]; naive_solver.
Qed.


(** ** What an update publishes *)

(** The node at the address answers ROLE, asked with the probe's credentials
    and TLS settings, with this role. *)
Definition has_role (s : Settings) (a : TCPAddr) (role : string) : Prop :=
  exists rest,
    Role w (clientOptions (TCPAddr_String a) (masterUsername s) (masterPassword s) (masterTLSConf s))
    = Ok (RString role :: rest).

Lemma checkRole_Ok s a role : is_ok (checkRole w s a role) = true <-> has_role s a role.
Proof.
  unfold checkRole, has_role. destruct (Role w _) as [[|[r|] rest]|]; cbn; [naive_solver| |naive_solver..].
  destruct (String.eqb_spec r role) as [->|Hr]; cbn; naive_solver.
Qed.

(** Sentinel names this master and the node confirms it. *)
Definition verified_master (s : Settings) (addr : string) : Prop :=
  exists host port a,
    GetMasterAddrByName w (sentinel s) (masterName s) = Ok [host; port] /\
    usable host port a /\ has_role s a "master" /\ addr = TCPAddr_String a.

(** Sentinel reports the replica as up and in sync, and the node confirms its
    role. *)
Definition healthy (s : Settings) (fields : gmap string string) (addr : string) : Prop :=
  (forall flag, flag ∈ ["s_down"; "o_down"; "disconnected"]%string ->
     ~ exists a b, bytes (default ""%string (fields !! "flags"%string)) = a ++ bytes flag ++ b) /\
  (forall link, fields !! "master-link-status"%string = Some link -> link = "ok"%string) /\
  exists a,
    usable (default ""%string (fields !! "ip"%string)) (default ""%string (fields !! "port"%string)) a /\
    has_role s a "slave" /\ addr = TCPAddr_String a.

(** How a node is shown in the log: under its host name, which for an address is
    the reverse-DNS name that the cache [c] gives now, or under its address
    alone when there is none. *)
Definition shown_as (c : ptrCache) (host port : string) (a : TCPAddr) (name : string) : Prop :=
  exists known,
    known = match ParseIP host with
            | Some _ => fst (Lookup (Now w) (LookupAddr w) (IP_String (addrIP a)) c)
            | None => host
            end /\
    (known = ""%string /\ name = TCPAddr_String a \/
     known <> ""%string /\
     name = (JoinHostPort known port ++ " (" ++ IP_String (addrIP a) ++ ")")%string).

(** What becomes of an entry of sentinel's list: the address and the name of a
    healthy replica, or nothing. *)
Definition picked (c : ptrCache) (s : Settings) (fields : gmap string string)
    (pick : option (string * string)) : Prop :=
  match pick with
  | Some (addr, name) => healthy s fields addr /\
      exists a,
        usable (default ""%string (fields !! "ip"%string)) (default ""%string (fields !! "port"%string)) a /\
        addr = TCPAddr_String a /\
        shown_as c (default ""%string (fields !! "ip"%string)) (default ""%string (fields !! "port"%string)) a name
  | None => forall addr, ~ healthy s fields addr
  end.

(** Sentinel's replicas, none when it does not answer. *)
Definition sentinel_replicas (s : Settings) : list (gmap string string) :=
  match Replicas w (sentinel s) (masterName s) with Ok l => l | Err _ => [] end.

(** Caches that answer alike now: the lookups of an update do not change what
    its later ones give. *)
Definition settled (c0 c : ptrCache) : Prop :=
  forall ip, fst (Lookup (Now w) (LookupAddr w) ip c) = fst (Lookup (Now w) (LookupAddr w) ip c0).

Lemma displayName_shown c0 c host port a name c' :
  settled c0 c -> displayName w host port a c = (name, c') -> shown_as c0 host port a name /\ settled c0 c'.
Proof.
  unfold displayName, shown_as. intros Hs. destruct (ParseIP host).
  - destruct (Lookup _ _ _ c) as [n c1] eqn:El. intros H.
    assert (settled c0 c1) as Hs1.
    { intros ip. rewrite <- (Hs ip). replace c1 with (snd (Lookup (Now w) (LookupAddr w) (IP_String (addrIP a)) c))
        by by rewrite El. apply Lookup_stable. }
    specialize (Hs (IP_String (addrIP a))). rewrite El in Hs. cbn [fst] in Hs. rewrite <- Hs.
    destruct (String.eqb_spec n ""); injection H as <- <-; (split; [|done]); exists n; auto.
  - intros H. destruct (String.eqb_spec host ""); injection H as <- <-; (split; [|done]); exists host; auto.
Qed.

Lemma resolveMasterAddress_Ok s c addr name c' :
  resolveMasterAddress w s c = Ok (addr, name, c') ->
  verified_master s (TCPAddr_String addr) /\ settled c c'.
Proof.
  unfold resolveMasterAddress, verified_master.
  destruct (GetMasterAddrByName w _ _) as [[|h [|p [|]]]|[]]; try done.
  destruct (usableTCPAddr w h p) as [a|] eqn:Hu; [|done].
  destruct (checkRole w s a "master") eqn:Hc; [|done].
  destruct (displayName w h p a c) as [n c0] eqn:Hd. intros [= -> -> ->].
  apply (displayName_shown c) in Hd as [_ Hd]; [|done]. split; [|done].
  apply usableTCPAddr_Ok in Hu. exists h, p, addr. split_and!; try done.
  apply checkRole_Ok. by rewrite Hc.
Qed.

Lemma resolveMasterAddress_Err s c e addr :
  resolveMasterAddress w s c = Err e -> ~ verified_master s addr.
Proof.
  unfold resolveMasterAddress. intros He (h & p & a & Hg & Hu%usableTCPAddr_Ok & Hr%checkRole_Ok & _).
  rewrite Hg, Hu in He. destruct (checkRole w s a "master"); [|done].
  by destruct (displayName w h p a c).
Qed.

Lemma verified_master_fun s a1 a2 : verified_master s a1 -> verified_master s a2 -> a1 = a2.
Proof.
  intros (h1 & p1 & x & G1 & Hx%usableTCPAddr_Ok & _ & ->) (h2 & p2 & y & G2 & Hy%usableTCPAddr_Ok & _ & ->).
  rewrite G1 in G2. injection G2 as <- <-. congruence.
Qed.

Lemma flagged_down_false fields :
  flagged_down fields = false <->
  (forall flag, flag ∈ ["s_down"; "o_down"; "disconnected"]%string ->
     ~ exists a b, bytes (default ""%string (fields !! "flags"%string)) = a ++ bytes flag ++ b).
Proof.
  unfold flagged_down. set (f := bytes (default _ _)).
  assert (forall flag, Contains f (bytes flag) = false <-> ~ exists a b, f = a ++ bytes flag ++ b) as Hc.
  { intros flag. rewrite <- Contains_spec. by destruct (Contains f (bytes flag)). }
  rewrite !orb_false_iff, !Hc. setoid_rewrite elem_of_cons. setoid_rewrite elem_of_cons.
  setoid_rewrite list_elem_of_singleton. split.
  - by intros [[H1 H2] H3] flag [-> | [-> | ->]].
  - intros H. repeat split; apply H; auto.
Qed.

Lemma link_broken_false fields :
  link_broken fields = false <->
  (forall link, fields !! "master-link-status"%string = Some link -> link = "ok"%string).
Proof.
  unfold link_broken. destruct (fields !! _) as [l|]; [|naive_solver].
  destruct (String.eqb_spec l "ok") as [->|Hl]; cbn.
  - split; [by intros _ ? [= <-]|done].
  - split; [done|]. intros H. by destruct Hl; apply H.
Qed.

Lemma healthy_fun s fields a1 a2 : healthy s fields a1 -> healthy s fields a2 -> a1 = a2.
Proof.
  intros (_ & _ & x & Hx%usableTCPAddr_Ok & _ & ->) (_ & _ & y & Hy%usableTCPAddr_Ok & _ & ->). congruence.
Qed.

(** The replicas collected are the healthy ones, in sentinel's order. *)
Lemma collectReplicas_picked c0 s l c :
  settled c0 c ->
  exists picks, Forall2 (picked c0 s) l picks /\ (collectReplicas w s l c).1 = omap id picks.
Proof.
  revert c. induction l as [|f l IH]; intros c Hs; cbn [collectReplicas].
  { exists []. split; [constructor|done]. }
  assert (forall addr, healthy s f addr -> flagged_down f = false /\ link_broken f = false /\
    exists a, usableTCPAddr w (default ""%string (f !! "ip"%string)) (default ""%string (f !! "port"%string)) = Ok a /\
      is_ok (checkRole w s a "slave") = true) as Hh.
  { intros addr (H1 & H2 & a & H3 & H4 & _). split_and!; [by apply flagged_down_false|by apply link_broken_false|].
    exists a. by rewrite usableTCPAddr_Ok, checkRole_Ok. }
  assert ((forall addr, ~ healthy s f addr) -> exists picks,
    Forall2 (picked c0 s) (f :: l) picks /\ (collectReplicas w s l c).1 = omap id picks) as Hskip.
  { intros Hno. destruct (IH c Hs) as (picks & Hp & E). exists (None :: picks).
    split; [by constructor|done]. }
  destruct (flagged_down f) eqn:Hfl; [apply Hskip; intros ? (? & _)%Hh; done|].
  destruct (link_broken f) eqn:Hlb; [apply Hskip; intros ? (_ & ? & _)%Hh; done|]. cbv zeta in *.
  destruct (usableTCPAddr w _ _) as [a|e] eqn:Hu; [|apply Hskip; intros ? (_ & _ & ? & ? & _)%Hh; done].
  destruct (checkRole w s a "slave") as [[]|e] eqn:Hr.
  2:{ apply Hskip. intros ? (_ & _ & a' & [= <-] & Hr')%Hh. by rewrite Hr in Hr'. }
  destruct (displayName w _ _ a c) as [n c1] eqn:Ed. apply (displayName_shown c0) in Ed as [Hn Hs1]; [|done].
  destruct (IH c1 Hs1) as (picks & Hp & E). destruct (collectReplicas w s l c1) as [reps c2].
  exists (Some (TCPAddr_String a, n) :: picks). cbn in *. split; [|by f_equal].
  apply usableTCPAddr_Ok in Hu. constructor; [|done]. split; [|by exists a].
  split; [by apply flagged_down_false|]. split; [by apply link_broken_false|].
  exists a. rewrite <- checkRole_Ok. by rewrite Hr.
Qed.

Lemma insert_rep_perm x l : insert_rep x l ≡ₚ x :: l.
Proof.
  induction l as [|y l IH]; cbn; [done|]. destruct (Compare x.1 y.1); [done..|].
  rewrite IH. apply Permutation_swap.
Qed.

Lemma sort_reps_perm l : sort_reps l ≡ₚ l.
Proof. induction l as [|x l IH]; cbn; [done|]. by rewrite insert_rep_perm, IH. Qed.

Lemma insert_rep_HdRel x a l :
  str_le a x.1 -> HdRel str_le a l.*1 -> HdRel str_le a (insert_rep x l).*1.
Proof.
  intros Hx Hl. destruct l as [|z l]; cbn; [by constructor|].
  destruct (Compare x.1 z.1); by constructor; inversion Hl.
Qed.

Lemma sort_reps_sorted l : Sorted str_le (sort_reps l).*1.
Proof.
  induction l as [|x l IH]; cbn; [constructor|].
  induction (sort_reps l) as [|y m IHm]; cbn; [by repeat constructor|].
  inversion IH as [|?? Hs Hd]; subst.
  destruct (Compare x.1 y.1) eqn:E; cbn.
  - constructor; [done|]. constructor. unfold str_le. congruence.
  - constructor; [done|]. constructor. unfold str_le. congruence.
  - constructor; [auto|]. apply insert_rep_HdRel; [by apply Compare_Gt|done].
Qed.

(** Whatever algorithm sorts the collected replicas by address, the
    published addresses are those of the insertion sort. *)
Theorem sort_reps_unique (l l' : list (string * string)) :
  l' ≡ₚ l -> Sorted str_le l'.*1 -> l'.*1 = (sort_reps l).*1.
Proof.
  intros Hp Hs. apply (Sorted_unique str_le); [done|apply sort_reps_sorted|].
  by rewrite Hp, sort_reps_perm.
Qed.

(** The address state an update that reached the master leaves, when its reverse
    DNS cache is [c]: addresses and names, position by position, are the picks
    of sentinel's list, sorted by address. *)
Definition replicas_published (c : ptrCache) (s : Settings) (addrs names : list string) : Prop :=
  length names = length addrs /\ Sorted str_le addrs /\
  (exists picks, Forall2 (picked c s) (sentinel_replicas s) picks /\ omap id picks ≡ₚ zip addrs names) /\
  (forall addr, addr ∈ addrs <-> exists fields, fields ∈ sentinel_replicas s /\ healthy s fields addr).

Lemma zip_fst_snd {A B} (l : list (A * B)) : zip l.*1 l.*2 = l.
Proof. induction l as [|[] l IH]; cbn; [done|by f_equal]. Qed.

Lemma picked_addrs c s l picks addr :
  Forall2 (picked c s) l picks ->
  addr ∈ (omap id picks).*1 <-> exists fields, fields ∈ l /\ healthy s fields addr.
Proof.
  induction 1 as [|f p l picks Hp _ IH]; [set_solver|].
  setoid_rewrite elem_of_cons. destruct p as [[a n]|]; cbn.
  - destruct Hp as [Hh _]. rewrite elem_of_cons, IH. split.
    + intros [->|(g & ? & ?)]; eauto.
    + intros (g & [->|?] & Hg); [left; by eapply healthy_fun|eauto].
  - rewrite IH. split; [naive_solver|]. intros (g & [->|?] & Hg); [by destruct (Hp addr)|eauto].
Qed.

Lemma collect_published c0 s c :
  settled c0 c ->
  let reps := sort_reps (collectReplicas w s (sentinel_replicas s) c).1 in
  replicas_published c0 s reps.*1 reps.*2.
Proof.
  intros Hs. destruct (collectReplicas_picked c0 s (sentinel_replicas s) c Hs) as (picks & Hp & ->). cbn.
  split_and!.
  - by rewrite !length_fmap.
  - apply sort_reps_sorted.
  - exists picks. split; [done|]. by rewrite zip_fst_snd, sort_reps_perm.
  - intros addr. rewrite sort_reps_perm. by apply (picked_addrs c0).
Qed.

Lemma replicas_published_none c s : sentinel_replicas s = [] -> replicas_published c s [] [].
Proof.
  intros E. unfold replicas_published. rewrite E. split_and!; [done|constructor| |set_solver].
  exists []. by split; [constructor|].
Qed.
End Addresses.

(** ** Updates *)

(** What no update touches. *)
Definition same_control (r r' : RedisMasterResolver) : Prop :=
  settings r' = settings r /\ initialResolved r' = initialResolved r /\
  lastRefresh r' = lastRefresh r /\ replicaIdx r' = replicaIdx r /\ sentinelClosed r' = sentinelClosed r.

#[global] Instance same_control_preorder : PreOrder same_control.
Proof.
  split; [by intros r|]. unfold same_control.
  intros r1 r2 r3 (?&?&?&?&?) (?&?&?&?&?). split_and!; congruence.
Qed.

Lemma setMasterAddress_spec addr name r :
  let r' := setMasterAddress addr name r in
  same_control r r' /\ masterAddr r' = TCPAddr_String addr /\ ptrs r' = ptrs r /\
  replicaAddrs r' = replicaAddrs r /\ replicaNames r' = replicaNames r.
Proof.
  unfold setMasterAddress. cbv zeta. destruct (negb _); [destruct (String.eqb _ _)|]; done.
Qed.

Lemma setReplicaAddresses_spec addrs names r :
  let r' := setReplicaAddresses addrs names r in
  same_control r r' /\ masterAddr r' = masterAddr r /\
  replicaAddrs r' = addrs /\ replicaNames r' = names.
Proof. unfold setReplicaAddresses. cbv zeta. by destruct (negb _). Qed.

Lemma publishMaster_spec w r :
  match publishMaster w r with
  | (None, r') => same_control r r' /\ verified_master w (settings r) (masterAddr r') /\
      settled w (ptrs r) (ptrs r') /\ replicaAddrs r' = replicaAddrs r /\ replicaNames r' = replicaNames r
  | (Some e, r') => r' = println (LogResolveError e) r /\
      resolveMasterAddress w (settings r) (ptrs r) = Err e
  end.
Proof.
  unfold publishMaster. destruct (resolveMasterAddress _ _ _) as [[[addr name] c]|] eqn:Hm; [|done].
  apply resolveMasterAddress_Ok in Hm as [Hv Hp].
  by destruct (setMasterAddress_spec addr name (set_ptrs c r)) as (Hsc & -> & -> & -> & ->).
Qed.

Lemma publishReplicas_from w c0 r :
  settled w c0 (ptrs r) ->
  let r' := publishReplicas w r in
  same_control r r' /\ masterAddr r' = masterAddr r /\
  if trackReplicas (settings r)
  then replicas_published w c0 (settings r) (replicaAddrs r') (replicaNames r')
  else replicaAddrs r' = replicaAddrs r /\ replicaNames r' = replicaNames r.
Proof.
  intros Hc. cbv zeta. unfold publishReplicas. destruct (trackReplicas (settings r)); [|done].
  unfold resolveReplicaAddresses. destruct (Replicas w _ _) as [l|e] eqn:Hl.
  - pose proof (collect_published w c0 (settings r) (ptrs r) Hc) as Hpub.
    unfold sentinel_replicas in Hpub. rewrite Hl in Hpub. cbn zeta in Hpub.
    destruct (collectReplicas w _ l _) as [reps c'].
    destruct (setReplicaAddresses_spec (sort_reps reps).*1 (sort_reps reps).*2 (set_ptrs c' r))
      as (Hsc & Hm & Ha & Hn). by rewrite Ha, Hn.
  - destruct (setReplicaAddresses_spec [] [] (println LogReplicaError (set_ptrs (ptrs r) r)))
      as (Hsc & Hm & Ha & Hn). rewrite Ha, Hn. split; [done|]. split; [done|].
    apply replicas_published_none. unfold sentinel_replicas. by rewrite Hl.
Qed.

Lemma publishReplicas_spec w r :
  let r' := publishReplicas w r in
  same_control r r' /\ masterAddr r' = masterAddr r /\
  if trackReplicas (settings r)
  then replicas_published w (ptrs r) (settings r) (replicaAddrs r') (replicaNames r')
  else replicaAddrs r' = replicaAddrs r /\ replicaNames r' = replicaNames r.
Proof. by apply publishReplicas_from. Qed.

Lemma update_success w r r' :
  updateMasterAddress w r = (None, r') ->
  same_control r r' /\ verified_master w (settings r) (masterAddr r') /\
  if trackReplicas (settings r)
  then replicas_published w (ptrs r) (settings r) (replicaAddrs r') (replicaNames r')
  else replicaAddrs r' = replicaAddrs r /\ replicaNames r' = replicaNames r.
Proof.
  unfold updateMasterAddress. pose proof (publishMaster_spec w r) as Hm.
  destruct (publishMaster w r) as [[e|] r1]; [done|]. intros [= <-].
  destruct Hm as (Hsc & Hv & Hc & Ha & Hn). destruct (publishReplicas_from w (ptrs r) r1 Hc) as (Hsc' & Hm' & Hr).
  pose proof Hsc as (Hs & _). rewrite Hs in Hr. rewrite Hm'.
  split; [by etrans|]. split; [done|]. destruct (trackReplicas (settings r)); [done|].
  destruct Hr as [-> ->]. done.
Qed.

Lemma update_failure w r e r' :
  updateMasterAddress w r = (Some e, r') ->
  r' = println (LogResolveError e) r /\ resolveMasterAddress w (settings r) (ptrs r) = Err e.
Proof.
  unfold updateMasterAddress. pose proof (publishMaster_spec w r) as Hm.
  destruct (publishMaster w r) as [[e'|] r1]; [|done]. by intros [= <- <-].
Qed.

(** C4: An update that succeeds publishes the master address sentinel reports,
    and only after that very node has answered the role probe, made with the
    configured credentials and TLS settings, as a master; an update that fails
    leaves every address as it was, and fails only when no address passes that
    test. *)
Theorem update_master_verified (w : World) (r : RedisMasterResolver) :
  match updateMasterAddress w r with
  | (None, r') => verified_master w (settings r) (masterAddr r')
  | (Some _, r') =>
      (forall addr, ~ verified_master w (settings r) addr) /\
      masterAddr r' = masterAddr r /\ masterDisplay r' = masterDisplay r /\
      replicaAddrs r' = replicaAddrs r /\ replicaNames r' = replicaNames r
  end.
Proof.
  destruct (updateMasterAddress w r) as [[e|] r'] eqn:E.
  - apply update_failure in E as [-> He]. split; [|done].
    intros addr. by apply (resolveMasterAddress_Err _ _ _ _ _ He).
  - by apply update_success in E as (_ & ? & _).
Qed.

(** C15: With replica tracking, a successful update publishes exactly the healthy
    replicas: the addresses of those sentinel lists without a down or
    disconnected flag and without a broken link, whose address is usable and
    whose node answers the role probe as a slave; sorted by address, one per
    such entry of sentinel.  The names go with the addresses, position by
    position: each is the host name of that entry, or for an address the name
    reverse DNS gives (with the cache as it is when the update begins), with
    port and IP, and the address itself without a name.  When sentinel does not
    answer, no replica is published and the update still succeeds. *)
Theorem update_replicas_healthy (w : World) (r r' : RedisMasterResolver) :
  trackReplicas (settings r) = true -> updateMasterAddress w r = (None, r') ->
  replicas_published w (ptrs r) (settings r) (replicaAddrs r') (replicaNames r').
Proof. intros Ht (_ & _ & H)%update_success. by rewrite Ht in H. Qed.

(** The error of an update, which depends on the world and the settings only. *)
Definition outcome (w : World) (s : Settings) : option resolve_err :=
  match resolveMasterAddress w s newPTRCache with Ok _ => None | Err e => Some e end.

Lemma resolveMasterAddress_outcome w s c :
  match resolveMasterAddress w s c with Ok _ => None | Err e => Some e end = outcome w s.
Proof.
  unfold outcome, resolveMasterAddress.
  destruct (GetMasterAddrByName w _ _) as [[|h [|p [|]]]|[]]; try done.
  destruct (usableTCPAddr w h p) as [a|]; [|done]. destruct (checkRole w s a "master"); [|done].
  by destruct (displayName w h p a c), (displayName w h p a newPTRCache).
Qed.

Lemma publishMaster_outcome w r : fst (publishMaster w r) = outcome w (settings r).
Proof.
  rewrite <- (resolveMasterAddress_outcome w (settings r) (ptrs r)). unfold publishMaster.
  by destruct (resolveMasterAddress _ _ _) as [[[addr name] c]|e'].
Qed.

Lemma update_outcome w r : fst (updateMasterAddress w r) = outcome w (settings r).
Proof.
  rewrite <- publishMaster_outcome. unfold updateMasterAddress.
  by destruct (publishMaster w r) as [[e|] r1].
Qed.

Lemma update_same_control w r : same_control r (snd (updateMasterAddress w r)).
Proof.
  destruct (updateMasterAddress w r) as [[e|] r'] eqn:E.
  - by apply update_failure in E as [-> _].
  - by apply update_success in E as (? & _).
Qed.

(** ** Choosing a replica *)

Definition u64 (z : Z) : Prop := 0 <= z < 2 ^ 64.

Lemma wrapu64_range z : u64 (wrapu64 z).
Proof. apply Z.mod_pos_bound. lia. Qed.

Lemma wrapu64_succ_pred z : u64 z -> wrapu64 (wrapu64 (z + 1) - 1) = z.
Proof.
  intros Hz. unfold wrapu64. rewrite Zminus_mod_idemp_l.
  replace (z + 1 - 1) with z by lia. by apply Z.mod_small.
Qed.

(** Enough calls in a row, collected. *)
Fixpoint ReplicaAddresses (n : nat) (r : RedisMasterResolver)
  : list replica_result * RedisMasterResolver :=
  match n with
  | O => ([], r)
  | S n' =>
      let (a, r) := ReplicaAddress r in
      let (l, r) := ReplicaAddresses n' r in
      (a :: l, r)
  end.

Lemma ReplicaAddress_picks r :
  initialResolved r = true -> replicaAddrs r <> [] -> u64 (replicaIdx r) ->
  exists addr,
    replicaAddrs r !! Z.to_nat (replicaIdx r mod Z.of_nat (length (replicaAddrs r))) = Some addr /\
    ReplicaAddress r = (ReplicaPicked addr, set_idx (wrapu64 (replicaIdx r + 1)) r).
Proof.
  intros Hi Hne Hu. unfold ReplicaAddress. rewrite Hi. cbn [negb].
  rewrite bool_decide_eq_false_2 by done. cbv zeta. rewrite wrapu64_succ_pred by done.
  destruct (lookup_lt_is_Some_2 (replicaAddrs r)
    (Z.to_nat (replicaIdx r mod Z.of_nat (length (replicaAddrs r))))) as [addr Ha].
  { destruct (replicaAddrs r) as [|x l]; [done|]. cbn [length].
    pose proof (Z.mod_pos_bound (replicaIdx r) (Z.of_nat (S (length l)))). lia. }
  exists addr. by rewrite Ha.
Qed.

(** After the initial resolve the choice of a replica neither blocks nor
    indexes out of range, at any value of the 64-bit counter, its wrap-around
    included: it yields the replica at the counter's position, or none exactly
    when none is known. *)
Theorem ReplicaAddress_total (r : RedisMasterResolver) :
  initialResolved r = true -> u64 (replicaIdx r) ->
  match ReplicaAddress r with
  | (ReplicaPicked addr, r') =>
      replicaAddrs r !! Z.to_nat (replicaIdx r mod Z.of_nat (length (replicaAddrs r))) = Some addr /\
      replicaIdx r' = (replicaIdx r + 1) mod 2 ^ 64
  | (ReplicaNone, r') => replicaAddrs r = [] /\ r' = r
  | _ => False
  end.
Proof.
  intros Hi Hu. destruct (decide (replicaAddrs r = [])) as [He|Hne].
  - unfold ReplicaAddress. rewrite Hi. cbn [negb]. by rewrite bool_decide_eq_true_2.
  - by destruct (ReplicaAddress_picks r Hi Hne Hu) as (addr & Ha & ->).
Qed.

Lemma ReplicaAddresses_round n r :
  initialResolved r = true -> replicaAddrs r <> [] -> 0 <= replicaIdx r ->
  replicaIdx r + Z.of_nat n < 2 ^ 64 ->
  (ReplicaAddresses n r).1 =
  (fun i : nat => match replicaAddrs r !! Z.to_nat ((replicaIdx r + Z.of_nat i) mod Z.of_nat (length (replicaAddrs r))) with
            | Some a => ReplicaPicked a | None => ReplicaPanic end) <$> seq 0 n.
Proof.
  revert r. induction n as [|n IH]; intros r Hi Hne H0 Hb; [done|].
  assert (u64 (replicaIdx r)) as Hu by (unfold u64; lia).
  destruct (ReplicaAddress_picks r Hi Hne Hu) as (addr & Ha & HR).
  cbn [ReplicaAddresses]. rewrite HR.
  specialize (IH (set_idx (wrapu64 (replicaIdx r + 1)) r) Hi Hne).
  cbn [replicaIdx set_idx replicaAddrs] in IH.
  assert (wrapu64 (replicaIdx r + 1) = replicaIdx r + 1) as Ew by (apply Z.mod_small; lia).
  rewrite Ew in IH. rewrite Ew.
  destruct (ReplicaAddresses n _) as [l r'] eqn:El. cbn [fst] in *.
  rewrite IH by lia. cbn [seq fmap list_fmap]. rewrite Z.add_0_r, Ha. f_equal.
  rewrite <- fmap_S_seq, <- list_fmap_compose. apply list_fmap_ext. intros i x _. cbn.
  by replace (replicaIdx r + 1 + Z.of_nat x) with (replicaIdx r + Z.of_nat (S x)) by lia.
Qed.

Lemma rotate_perm {A} n (l : list A) : rotate n l ≡ₚ l.
Proof. unfold rotate. rewrite Permutation_app_comm. by rewrite take_drop. Qed.

(** C28: Round robin: as many consecutive choices as there are replicas serve the
    replicas in rotation from the counter's position, so every replica is
    served exactly once (while the 64-bit counter does not wrap). *)
Theorem ReplicaAddress_round_robin (r : RedisMasterResolver) :
  initialResolved r = true -> replicaAddrs r <> [] -> 0 <= replicaIdx r ->
  replicaIdx r + Z.of_nat (length (replicaAddrs r)) < 2 ^ 64 ->
  (ReplicaAddresses (length (replicaAddrs r)) r).1
    = ReplicaPicked <$> rotate (Z.to_nat (replicaIdx r)) (replicaAddrs r) /\
  (ReplicaAddresses (length (replicaAddrs r)) r).1 ≡ₚ ReplicaPicked <$> replicaAddrs r.
Proof.
  intros Hi Hne H0 Hb. rewrite ReplicaAddresses_round by done.
  match goal with |- ?a = ?b /\ _ => assert (a = b) as E end.
  { apply list_eq. intros i. rewrite !list_lookup_fmap.
    destruct (decide (i < length (replicaAddrs r))%nat) as [Hlt|Hge].
    - rewrite lookup_seq_lt by done. cbn [fmap option_fmap option_map].
      rewrite lookup_rotate_r by done. unfold rotate_nat_add. rewrite Z2Nat.id by done.
      cbn [Nat.add].
      destruct (lookup_lt_is_Some_2 (replicaAddrs r)
        (Z.to_nat ((replicaIdx r + Z.of_nat i) mod Z.of_nat (length (replicaAddrs r))))) as [a Ha].
      { pose proof (Z.mod_pos_bound (replicaIdx r + Z.of_nat i) (Z.of_nat (length (replicaAddrs r)))). lia. }
      by rewrite Ha.
    - rewrite lookup_seq_ge by lia. rewrite lookup_ge_None_2; [done|].
      rewrite length_rotate. lia. }
  split; [exact E|]. rewrite E. by rewrite rotate_perm.
Qed.

(** ** On-demand refresh *)

Definition refresh_all (ws : list World) (r : RedisMasterResolver) : RedisMasterResolver :=
  fold_left (fun r w => RefreshAddresses w r) ws r.

Lemma refresh_throttled w r t :
  lastRefresh r = Some t -> Now w - t < refreshThrottle -> RefreshAddresses w r = r.
Proof.
  intros Ht Hn. unfold RefreshAddresses. rewrite Ht. destruct (initialResolved r); [|done]. cbn [negb].
  by rewrite (proj2 (Z.ltb_lt _ _) Hn).
Qed.

Lemma refresh_all_throttled ws r t :
  lastRefresh r = Some t -> Forall (fun w => Now w - t < refreshThrottle) ws -> refresh_all ws r = r.
Proof.
  intros Ht. induction 1 as [|w ws Hw _ IH]; [done|].
  cbn. rewrite (refresh_throttled w r t) by done. apply IH.
Qed.

Lemma RefreshAddresses_cases w r :
  RefreshAddresses w r = r \/
  (initialResolved r = true /\
   RefreshAddresses w r = snd (updateMasterAddress (view r w) (set_lastRefresh (Now w) r))).
Proof.
  unfold RefreshAddresses. destruct (initialResolved r); [|by left]. cbn [negb].
  destruct (lastRefresh r); [destruct (_ <? _)|]; auto.
Qed.

(** However many clients ask for a refresh within one second, sentinel and
    the nodes are asked at most once; before the initial resolve has ended, not
    at all. *)
Theorem refresh_burst (ws : list World) (t : Z) (r : RedisMasterResolver) :
  Forall (fun w => t <= Now w < t + refreshThrottle) ws ->
  refresh_all ws r = r \/
  (initialResolved r = true /\ exists w, w ∈ ws /\
   refresh_all ws r = snd (updateMasterAddress (view r w) (set_lastRefresh (Now w) r))).
Proof.
  revert r. induction ws as [|w ws IH]; intros r Hw; [by left|].
  apply Forall_cons in Hw as [Hw Hws]. cbn [refresh_all fold_left].
  destruct (RefreshAddresses_cases w r) as [->|[Hi ->]].
  - destruct (IH r Hws) as [H|(? & v & ? & H)]; [by left|].
    right. split; [done|]. exists v. split; [set_solver|done].
  - right. split; [done|]. exists w. split; [set_solver|].
    change (refresh_all ws (updateMasterAddress (view r w) (set_lastRefresh (Now w) r)).2
      = (updateMasterAddress (view r w) (set_lastRefresh (Now w) r)).2).
    apply (refresh_all_throttled ws _ (Now w)).
    + by destruct (update_same_control (view r w) (set_lastRefresh (Now w) r)) as (_ & _ & -> & _).
    + eapply Forall_impl; [exact Hws|]. cbn. lia.
Qed.

(** Once the sentinel client is closed no refresh finds anything: the addresses
    stay as they are. *)
Lemma refresh_closed w r :
  sentinelClosed r = true ->
  sentinelClosed (RefreshAddresses w r) = true /\
  masterAddr (RefreshAddresses w r) = masterAddr r /\
  replicaAddrs (RefreshAddresses w r) = replicaAddrs r.
Proof.
  intros Hc. destruct (RefreshAddresses_cases w r) as [->|[_ ->]]; [done|].
  unfold view. rewrite Hc. destruct (updateMasterAddress _ _) as [[e|] r'] eqn:E.
  - by apply update_failure in E as [-> _].
  - apply update_success in E as (_ & (h & q & a & H & _) & _). done.
Qed.

Lemma refresh_all_closed ws r :
  sentinelClosed r = true ->
  masterAddr (refresh_all ws r) = masterAddr r /\ replicaAddrs (refresh_all ws r) = replicaAddrs r.
Proof.
  revert r. induction ws as [|w ws IH]; intros r Hc; [done|].
  destruct (refresh_closed w r Hc) as (Hc' & <- & <-). by apply IH.
Qed.

(** ** Reachable states

    The states the resolver goes through while the update loop, refreshes and
    the choices of replicas run concurrently.  The lock is not held between the
    two steps of an update, so that the steps of several updates interleave, and
    the sentinel client may be closed in between.  [ws] are the worlds of the
    updates begun so far, the last one first. *)

Inductive reach (r0 : RedisMasterResolver) : list World -> RedisMasterResolver -> Prop :=
| reach_new : reach r0 [] r0
| reach_begin ws w r :
    reach r0 ws r -> reach r0 (w :: ws) (snd (publishMaster w r))
| reach_finish ws w w' r :
    reach r0 ws r -> w ∈ ws -> outcome w (settings r) = None -> w' = w \/ w' = closed_world w ->
    reach r0 ws (publishReplicas w' r)
| reach_refreshed ws t r :
    reach r0 ws r -> initialResolved r = true -> reach r0 ws (set_lastRefresh t r)
| reach_pick ws r :
    reach r0 ws r -> reach r0 ws (snd (ReplicaAddress r))
| reach_initial_done ws r :
    reach r0 ws r -> reach r0 ws (close_initial r)
| reach_close ws r :
    reach r0 ws r -> reach r0 ws (close_sentinel r).

(** Updates and refreshes that run without interruption are among them. *)
Lemma reach_update r0 ws w r :
  reach r0 ws r -> reach r0 (w :: ws) (snd (updateMasterAddress w r)).
Proof.
  intros Hr. pose proof (reach_begin _ _ w _ Hr) as Hb. pose proof (publishMaster_outcome w r) as Ho.
  pose proof (publishMaster_spec w r) as Hm. unfold updateMasterAddress.
  destruct (publishMaster w r) as [[e|] r1]; [done|]. cbn [fst snd] in *.
  destruct Hm as ((Hs & _) & _). apply (reach_finish _ _ w); [done|set_solver|by rewrite Hs|by left].
Qed.

Lemma reach_refresh r0 ws w r :
  reach r0 ws r -> exists ws', reach r0 ws' (RefreshAddresses w r).
Proof.
  intros Hr. destruct (RefreshAddresses_cases w r) as [->|[Hi ->]]; [by exists ws|].
  exists (view r w :: ws). by apply reach_update, reach_refreshed.
Qed.

(** Every name in the cache is what reverse DNS answered in one of the updates. *)
Definition from_worlds (ws : list World) (c : ptrCache) : Prop :=
  map_Forall (fun ip e => exists v, v ∈ ws /\ when e = Now v /\ name e = answer (LookupAddr v) ip) c.

Lemma from_worlds_mono ws w c : from_worlds ws c -> from_worlds (w :: ws) c.
Proof. intros H ip e He. destruct (H ip e He) as (v & ? & ?). exists v. set_solver. Qed.

Lemma displayName_from_worlds ws w host port a c :
  w ∈ ws -> from_worlds ws c -> from_worlds ws (snd (displayName w host port a c)).
Proof.
  intros Hw Hc. unfold displayName. destruct (ParseIP host).
  - assert (from_worlds ws (snd (Lookup (Now w) (LookupAddr w) (IP_String (addrIP a)) c))) as H.
    { unfold Lookup. fold (answer (LookupAddr w) (IP_String (addrIP a))).
      assert (from_worlds ws (<[IP_String (addrIP a) :=
        MkPtrEntry (answer (LookupAddr w) (IP_String (addrIP a))) (Now w)]> c)) as Hi
        by (apply map_Forall_insert_2; [by exists w|done]).
      destruct (c !! _); [destruct (_ <? _)|]; done. }
    destruct (Lookup _ _ _ c) as [n c']. by destruct (String.eqb n "").
  - by destruct (String.eqb host "").
Qed.

Lemma collectReplicas_from_worlds ws w s l c :
  w ∈ ws -> from_worlds ws c -> from_worlds ws (snd (collectReplicas w s l c)).
Proof.
  intros Hw. revert c. induction l as [|f l IH]; intros c Hc; cbn [collectReplicas]; [done|].
  destruct (flagged_down f); [by apply IH|]. destruct (link_broken f); [by apply IH|]. cbv zeta.
  destruct (usableTCPAddr w _ _) as [a|]; [|by apply IH].
  destruct (checkRole w s a "slave"); [|by apply IH].
  pose proof (displayName_from_worlds ws w (default ""%string (f !! "ip"%string))
    (default ""%string (f !! "port"%string)) a c Hw Hc) as H1.
  destruct (displayName w _ _ a c) as [n c1]. specialize (IH c1 H1).
  by destruct (collectReplicas w s l c1).
Qed.

Lemma publishMaster_from_worlds ws w r :
  w ∈ ws -> from_worlds ws (ptrs r) -> from_worlds ws (ptrs (snd (publishMaster w r))).
Proof.
  intros Hw Hc. unfold publishMaster, resolveMasterAddress.
  destruct (GetMasterAddrByName w _ _) as [[|h [|p [|]]]|[]]; try done.
  destruct (usableTCPAddr w h p) as [a|]; [|done]. destruct (checkRole w (settings r) a "master"); [|done].
  pose proof (displayName_from_worlds ws w h p a _ Hw Hc) as H.
  destruct (displayName w h p a (ptrs r)) as [n c]. cbn [snd].
  by destruct (setMasterAddress_spec a n (set_ptrs c r)) as (_ & _ & -> & _).
Qed.

Lemma publishReplicas_ptrs ws w r :
  w ∈ ws -> from_worlds ws (ptrs r) -> from_worlds ws (ptrs (publishReplicas w r)).
Proof.
  intros Hw Hc. unfold publishReplicas, resolveReplicaAddresses, setReplicaAddresses.
  destruct (trackReplicas (settings r)); [|done]. destruct (Replicas w _ _) as [l|].
  - pose proof (collectReplicas_from_worlds ws w (settings r) l _ Hw Hc) as H.
    destruct (collectReplicas w _ l _) as [reps c]. by case_match.
  - by case_match.
Qed.

(** A closed sentinel client tells of no replicas. *)
Lemma publishReplicas_closed w r :
  let r' := publishReplicas (closed_world w) r in
  ptrs r' = ptrs r /\ same_control r r' /\ masterAddr r' = masterAddr r /\
  if trackReplicas (settings r) then replicaAddrs r' = [] /\ replicaNames r' = []
  else replicaAddrs r' = replicaAddrs r /\ replicaNames r' = replicaNames r.
Proof.
  cbv zeta. unfold publishReplicas, resolveReplicaAddresses, setReplicaAddresses.
  destruct (trackReplicas (settings r)); [|done]. cbn [closed_world Replicas]. by case_match.
Qed.

(** The published master was verified in one of the updates, and the published
    replicas are what one of them found healthy, named with a cache of reverse
    DNS answers from the updates. *)
Definition published (ws : list World) (r : RedisMasterResolver) : Prop :=
  (masterAddr r = ""%string \/
   exists w, w ∈ ws /\ verified_master w (settings r) (masterAddr r)) /\
  (replicaAddrs r = [] /\ replicaNames r = [] \/
   trackReplicas (settings r) = true /\
   exists w c, w ∈ ws /\ from_worlds ws c /\
     replicas_published w c (settings r) (replicaAddrs r) (replicaNames r)) /\
  from_worlds ws (ptrs r).

Definition resolver_inv (ws : list World) (r : RedisMasterResolver) : Prop :=
  published ws r /\ u64 (replicaIdx r) /\ length (replicaNames r) = length (replicaAddrs r) /\
  (trackReplicas (settings r) = false -> replicaAddrs r = []).

Lemma published_mono ws w r : published ws r -> published (w :: ws) r.
Proof.
  unfold published. intros (H1 & H2 & H3). split_and!; [| |by apply from_worlds_mono].
  - destruct H1 as [H1|(v & ? & ?)]; [by left|]. right. exists v. set_solver.
  - destruct H2 as [H2|(? & u & c & ? & ? & ?)]; [by left|]. right. split; [done|]. exists u, c.
    split; [set_solver|]. split; [by apply from_worlds_mono|done].
Qed.

Lemma published_no_tracking ws r :
  published ws r -> trackReplicas (settings r) = false -> replicaAddrs r = [] /\ replicaNames r = [].
Proof. intros (_ & [?|[? _]] & _) Ht; [done|congruence]. Qed.

Lemma published_aligned ws r : published ws r -> length (replicaNames r) = length (replicaAddrs r).
Proof. intros (_ & [[-> ->]|(_ & w & c & _ & _ & H)] & _); [done|apply H]. Qed.

Lemma publishMaster_published w ws r : published ws r -> published (w :: ws) (snd (publishMaster w r)).
Proof.
  intros Hp%(published_mono _ w). pose proof (publishMaster_spec w r) as Hm. pose proof Hp as (_ & _ & Hc).
  apply (publishMaster_from_worlds _ w) in Hc; [|set_solver].
  destruct (publishMaster w r) as [[e|] r']; cbn [snd] in *; [by destruct Hm as [-> _]|].
  destruct Hm as ((Hs & _) & Hv & _ & Ha & Hn). destruct Hp as (_ & Hr & _).
  unfold published. rewrite Hs, Ha, Hn. split_and!; [|done|done]. right. exists w. split; [set_solver|done].
Qed.

Lemma publishReplicas_published w w' ws r :
  w ∈ ws -> w' = w \/ w' = closed_world w -> published ws r -> published ws (publishReplicas w' r).
Proof.
  intros Hw Hcl (Hm & Hr & Hc). unfold published. destruct Hcl as [-> | ->].
  - destruct (publishReplicas_spec w r) as ((Hs & _) & Ha & Hp). rewrite Hs, Ha.
    split_and!; [done| |by apply publishReplicas_ptrs].
    destruct (trackReplicas (settings r)) eqn:Ht; [|by destruct Hp as [-> ->]].
    right. split; [done|]. by exists w, (ptrs r).
  - destruct (publishReplicas_closed w r) as (-> & (Hs & _) & Ha & Hp). rewrite Hs, Ha.
    split_and!; [done| |done].
    destruct (trackReplicas (settings r)) eqn:Ht; [by left|by destruct Hp as [-> ->]].
Qed.

Lemma pick_same r :
  let r' := snd (ReplicaAddress r) in
  settings r' = settings r /\ masterAddr r' = masterAddr r /\ replicaAddrs r' = replicaAddrs r /\
  replicaNames r' = replicaNames r /\ ptrs r' = ptrs r /\ (u64 (replicaIdx r) -> u64 (replicaIdx r')).
Proof.
  unfold ReplicaAddress. destruct (negb _); [done|]. case_bool_decide; [done|]. cbv zeta.
  destruct (replicaAddrs r !! _); cbn; split_and!; try done; intros; apply wrapu64_range.
Qed.

Lemma publishMaster_same_control w r : same_control r (snd (publishMaster w r)).
Proof.
  pose proof (publishMaster_spec w r) as Hm. destruct (publishMaster w r) as [[e|] r'].
  - by destruct Hm as [-> _].
  - by destruct Hm as (? & _).
Qed.

Lemma reach_published r0 ws r :
  reach r0 ws r -> published [] r0 -> u64 (replicaIdx r0) ->
  published ws r /\ u64 (replicaIdx r) /\ settings r = settings r0.
Proof.
  intros Hr H0 Hu. induction Hr as [|ws w r _ (IHp & IHu & IHs)|ws w w' r _ (IHp & IHu & IHs) Hw _ Hcl
    |ws t r _ (IHp & IHu & IHs) _|ws r _ (IHp & IHu & IHs)|ws r _ (IHp & IHu & IHs)
    |ws r _ (IHp & IHu & IHs)]; [done|..|done|done].
  - destruct (publishMaster_same_control w r) as (Hs & _ & _ & Hi & _). rewrite Hs, Hi.
    split; [by apply publishMaster_published|done].
  - destruct (publishReplicas_spec w' r) as ((Hs & _ & _ & Hi & _) & _). rewrite Hs, Hi.
    split; [by eapply publishReplicas_published|done].
  - done.
  - destruct (pick_same r) as (Hs & Hm & Ha & Hn & Hp & Hi).
    unfold published. rewrite Hs, Hm, Ha, Hn, Hp. auto.
Qed.

Lemma New_published cfg r0 :
  NewRedisMasterResolver cfg = Ok r0 -> published [] r0 /\ u64 (replicaIdx r0).
Proof.
  unfold NewRedisMasterResolver. intros (m & _ & H)%result_bind_Ok.
  apply result_bind_Ok in H as (s & _ & H). apply result_bind_Ok in H as (t & _ & [= <-]).
  split; [split_and!; [by left|by left|apply map_Forall_empty]|]. cbn. unfold u64. lia.
Qed.

(** In every state the resolver can reach, with the two publishing steps of
    concurrent updates, choices of replicas, the end of the initial resolve and
    of the loop in any order, the published master is none or was verified by
    one of the updates so far, and the published replicas are none or exactly
    those one of the updates found healthy, each with its name.  Names stay aligned with addresses,
    the counter stays a 64-bit number, and without tracking there are never
    replicas. *)
Theorem resolver_invariant (cfg : Config) (r0 r : RedisMasterResolver) (ws : list World) :
  NewRedisMasterResolver cfg = Ok r0 -> reach r0 ws r -> resolver_inv ws r.
Proof.
  intros [H0 Hu]%New_published Hr.
  destruct (reach_published _ _ _ Hr H0 Hu) as (Hp & Hi & _).
  split; [done|]. split; [done|]. split; [by eapply published_aligned|].
  intros Ht. by destruct (published_no_tracking _ _ Hp Ht).
Qed.

(** ** The retry budget *)

(** The abstract budget: consecutive counted failures.  A success resets the
    count, a failure that fixes itself leaves it. *)
Definition count_step (n : Z) (o : option resolve_err) : Z :=
  match o with
  | None => 0
  | Some e => if errSentinelNotReady e then n else n + 1
  end.

Definition failures (n : Z) (os : list (option resolve_err)) : Z := fold_left count_step os n.

(** The waits that go with the outcomes. *)
Fixpoint waits_of (n : Z) (os : list (option resolve_err)) : list Z :=
  match os with
  | [] => []
  | None :: os' => waits_of 0 os'
  | Some e :: os' =>
      if errSentinelNotReady e then sentinelNotReadyBackoff :: waits_of n os'
      else ResolveFailureBackoff (n + 1) :: waits_of (n + 1) os'
  end.

(** The budget holds for all prefixes of the outcomes. *)
Definition within (budget n : Z) (os : list (option resolve_err)) : Prop :=
  forall k, (k <= length os)%nat -> failures n (take k os) <= budget.

(** It is overdrawn at the end, and not before. *)
Definition overdrawn (budget n : Z) (os : list (option resolve_err)) : Prop :=
  budget < failures n os /\ forall k, (k < length os)%nat -> failures n (take k os) <= budget.

Definition outcomes (its : list Iteration) (s : Settings) : list (option resolve_err) :=
  (fun it => outcome (world it) s) <$> its.

Definition no_cancel (it : Iteration) : Prop := tick_done it = false /\ wait_done it = false.

Definition last_err (err : option resolve_err) (os : list (option resolve_err)) : option resolve_err :=
  default err (last os).

Lemma last_err_cons err o os : last_err err (o :: os) = last_err o os.
Proof.
  unfold last_err. destruct os as [|o' os]; [done|]. rewrite last_cons_cons.
  by destruct (last (o' :: os)) eqn:E; [|apply last_None in E].
Qed.

Lemma within_cons budget n o os :
  n <= budget -> within budget (count_step n o) os -> within budget n (o :: os).
Proof. intros Hn Hw [|k] Hk; [done|]. apply (Hw k). cbn in Hk. lia. Qed.

Lemma overdrawn_cons budget n o os :
  n <= budget -> overdrawn budget (count_step n o) os -> overdrawn budget n (o :: os).
Proof. intros Hn [Ho Hb]. split; [done|]. intros [|k] Hk; [done|]. apply (Hb k). cbn in Hk. lia. Qed.

(** One iteration without cancellation. *)
Lemma update_loop_cons it its n err waits r :
  n <= retryOnMasterResolveFail (settings r) -> no_cancel it ->
  exists r', settings r' = settings r /\
    update_loop (it :: its) n err waits r =
    update_loop its (count_step n (outcome (world it) (settings r))) (outcome (world it) (settings r))
      (waits ++ waits_of n [outcome (world it) (settings r)]) r'.
Proof.
  intros Hn [Ht Hw]. cbn [update_loop]. rewrite (proj2 (Z.leb_le _ _) Hn), Ht. cbn [negb].
  pose proof (update_outcome (world it) r) as Ho.
  pose proof (update_same_control (world it) r) as (Hs & _).
  destruct (updateMasterAddress (world it) r) as [o r']. cbn [fst snd] in Ho, Hs. subst o.
  exists r'. split; [done|]. destruct (outcome (world it) (settings r)) as [e|]; cbn [count_step waits_of].
  - rewrite Hw. by destruct (errSentinelNotReady e).
  - by rewrite app_nil_r.
Qed.

Lemma waits_of_cons n o os : waits_of n (o :: os) = waits_of n [o] ++ waits_of (count_step n o) os.
Proof. destruct o as [e|]; cbn; [|done]. by destruct (errSentinelNotReady e). Qed.

Lemma update_loop_spec its n err waits r :
  Forall no_cancel its -> n <= retryOnMasterResolveFail (settings r) ->
  let budget := retryOnMasterResolveFail (settings r) in
  let os := outcomes its (settings r) in
  (within budget n os /\
   exists r', update_loop its n err waits r =
     (Running (failures n os) (last_err err os), waits ++ waits_of n os, r')) \/
  (exists k, (k <= length os)%nat /\ overdrawn budget n (take k os) /\
   exists r', update_loop its n err waits r =
     (Returned (last_err err (take k os)), waits ++ waits_of n (take k os), r')).
Proof.
  cbv zeta. revert n err waits r. induction its as [|it its IH]; intros n err waits r Hc Hn.
  - left. split; [intros [|k] Hk; cbn in *; lia|]. exists r. cbn [update_loop].
    rewrite (proj2 (Z.leb_le _ _) Hn). cbn. by rewrite app_nil_r.
  - apply Forall_cons in Hc as [Hc Hcs].
    destruct (update_loop_cons it its n err waits r Hn Hc) as (r' & Hs & ->).
    unfold outcomes. cbn [fmap list_fmap]. fold (outcomes its (settings r)).
    set (o := outcome (world it) (settings r)) in *.
    destruct (decide (count_step n o <= retryOnMasterResolveFail (settings r))) as [Hle|Hgt].
    + rewrite <- Hs in Hle. destruct (IH _ o (waits ++ waits_of n [o]) r' Hcs Hle) as [H|H]; rewrite Hs in *.
      * destruct H as [Hw (r'' & ->)]. left. split; [by apply within_cons|]. exists r''.
        by rewrite last_err_cons, (waits_of_cons n o (outcomes its _)), app_assoc.
      * destruct H as (k & Hk & Ho & r'' & ->). right. exists (S k). cbn [length take].
        split; [lia|]. split; [by apply overdrawn_cons|]. exists r''.
        by rewrite last_err_cons, (waits_of_cons n o (take k _)), app_assoc.
    + right. exists 1%nat. cbn [length take]. rewrite take_0. split; [lia|]. split.
      { split; [change (retryOnMasterResolveFail (settings r) < count_step n o); lia|]. intros k Hk.
        destruct k; [done|]. cbn in Hk. lia. }
      exists r'. destruct its; cbn [update_loop]; rewrite Hs, (proj2 (Z.leb_gt _ _)) by lia; done.
Qed.

(** C7: The update loop gives up exactly when the consecutive counted failures
    exceed the retry budget, with the error of the last attempt.  A success
    resets the count and a failure that fixes itself (placeholder, unknown
    host) is never counted; until the budget is exceeded the loop keeps
    running.  The waits are the backoff of the count, ten seconds for the
    failures that fix themselves, none after a success. *)
Theorem update_loop_budget (its : list Iteration) (r : RedisMasterResolver) :
  Forall no_cancel its -> 0 <= retryOnMasterResolveFail (settings r) ->
  let budget := retryOnMasterResolveFail (settings r) in
  let os := outcomes its (settings r) in
  match update_loop its 0 None [] r with
  | (Running n err, waits, _) =>
      within budget 0 os /\ n = failures 0 os /\ err = last_err None os /\ waits = waits_of 0 os
  | (Returned err, waits, _) =>
      exists k, (k <= length os)%nat /\ overdrawn budget 0 (take k os) /\
        err = last_err None (take k os) /\ waits = waits_of 0 (take k os)
  end.
Proof.
  intros Hc Hb. destruct (update_loop_spec its 0 None [] r Hc Hb) as [[Hw (r' & ->)]|(k & Hk & Ho & r' & ->)].
  - done.
  - by exists k.
Qed.

(** However long sentinel reports the placeholder or an unknown host name,
    the loop keeps running with its count unchanged and waits ten seconds
    between the attempts. *)
Theorem update_loop_waits_out (its : list Iteration) (n : Z) (err : option resolve_err)
    (waits : list Z) (r : RedisMasterResolver) :
  Forall no_cancel its -> n <= retryOnMasterResolveFail (settings r) ->
  Forall (fun it => exists e, outcome (world it) (settings r) = Some e /\ errSentinelNotReady e = true) its ->
  exists err' r', update_loop its n err waits r =
    (Running n err', waits ++ replicate (length its) sentinelNotReadyBackoff, r').
Proof.
  intros Hc Hn Hall. revert n err waits r Hn Hall. induction Hc as [|it its Hit _ IH]; intros n err waits r Hn Hall.
  - exists err, r. cbn. by rewrite (proj2 (Z.leb_le _ _) Hn), app_nil_r.
  - apply Forall_cons in Hall as [(e & He & Hr) Hall].
    destruct (update_loop_cons it its n err waits r Hn Hit) as (r' & Hs & ->).
    rewrite He. cbn [count_step waits_of]. rewrite Hr. rewrite <- Hs in Hn, Hall.
    destruct (IH n (Some e) (waits ++ [sentinelNotReadyBackoff]) r' Hn Hall) as (err' & r'' & ->).
    exists err', r''. by rewrite <- app_assoc.
Qed.

(** ** The initial resolve *)

Definition is_failure (o : option resolve_err) : Prop := is_Some o.

(** The possible courses of the initial resolve, from [n] counted failures. *)
Inductive initial_course (budget n : Z) (err : option resolve_err) (os : list (option resolve_err))
  : loop_status -> list Z -> Prop :=
| initial_running :
    Forall is_failure os -> within budget n os ->
    initial_course budget n err os (Running (failures n os) (last_err err os)) (waits_of n os)
| initial_ok k :
    os !! k = Some None -> Forall is_failure (take k os) -> within budget n (take k os) ->
    initial_course budget n err os (Returned None) (waits_of n (take k os))
| initial_failed k e :
    os !! k = Some (Some e) -> Forall is_failure (take (S k) os) -> overdrawn budget n (take (S k) os) ->
    initial_course budget n err os (Returned (Some e)) (waits_of n (take k os)).

Lemma initial_course_cons budget n e err os st ws :
  n <= budget -> initial_course budget (count_step n (Some e)) (Some e) os st ws ->
  initial_course budget n err (Some e :: os) st (waits_of n [Some e] ++ ws).
Proof.
  intros Hn H. assert (is_failure (Some e)) as He by by eexists.
  inversion H as [Hf Hw|k Hk Hf Hw|k e' Hk Hf Ho]; subst; rewrite <- (waits_of_cons n (Some e)).
  - rewrite <- (last_err_cons err).
    change (failures (count_step n (Some e)) os) with (failures n (Some e :: os)).
    apply initial_running; [by constructor|by apply within_cons].
  - refine (initial_ok budget n err (Some e :: os) (S k) Hk _ _); [by constructor|by apply within_cons].
  - refine (initial_failed budget n err (Some e :: os) (S k) e' Hk _ _); [by constructor|by apply overdrawn_cons].
Qed.

Lemma initial_loop_spec its n err waits r :
  Forall (fun it => wait_done it = false) its -> n <= retryOnMasterResolveFail (settings r) ->
  exists st ws r', initial_loop its n err waits r = (st, waits ++ ws, r') /\
    initial_course (retryOnMasterResolveFail (settings r)) n err (outcomes its (settings r)) st ws /\
    same_control r r' /\
    (st = Returned None -> exists it, it ∈ its /\ verified_master (world it) (settings r) (masterAddr r')) /\
    (st <> Returned None -> masterAddr r' = masterAddr r).
Proof.
  intros Hc. revert n err waits r. induction Hc as [|it its Hit _ IH]; intros n err waits r Hn.
  { eexists (Running n err), [], r. cbn. rewrite app_nil_r. split; [done|]. split; [|split_and!; done].
    apply (initial_running _ n err []); [constructor|]. intros [|k] Hk; cbn in *; lia. }
  cbn [initial_loop]. pose proof (update_outcome (world it) r) as Ho.
  pose proof (update_same_control (world it) r) as Hsc.
  unfold outcomes. cbn [fmap list_fmap]. fold (outcomes its (settings r)).
  destruct (updateMasterAddress (world it) r) as [o r1] eqn:E. cbn [fst snd] in Ho, Hsc. rewrite <- Ho.
  pose proof Hsc as (Hs & _). destruct o as [e|].
  - apply update_failure in E as [-> _]. rewrite Hit. cbn zeta.
    assert (forall n' ws', n' = count_step n (Some e) -> ws' = waits_of n [Some e] ->
      n' <= retryOnMasterResolveFail (settings r) ->
      exists st ws r', initial_loop its n' (Some e) (waits ++ ws') (println (LogResolveError e) r)
        = (st, waits ++ ws, r') /\
        initial_course (retryOnMasterResolveFail (settings r)) n err
          (Some e :: outcomes its (settings r)) st ws /\ same_control r r' /\
        (st = Returned None ->
         exists it0, it0 ∈ it :: its /\ verified_master (world it0) (settings r) (masterAddr r')) /\
        (st <> Returned None -> masterAddr r' = masterAddr r)) as Hgo.
    { intros n' ws' -> -> Hn'.
      destruct (IH _ (Some e) (waits ++ waits_of n [Some e]) (println (LogResolveError e) r) Hn')
        as (st & ws & r' & -> & Hic & Hsc' & Hok & Hno).
      exists st, (waits_of n [Some e] ++ ws), r'. rewrite app_assoc. split; [done|].
      split; [by apply initial_course_cons|]. split; [by etrans|]. split; [|done].
      intros Hst. destruct (Hok Hst) as (it0 & ? & ?). exists it0. set_solver. }
    destruct (errSentinelNotReady e) eqn:Hnr.
    + apply Hgo; [by cbn; rewrite Hnr..|lia].
    + change (settings (println (LogResolveError e) r)) with (settings r).
      destruct (Z.ltb_spec (retryOnMasterResolveFail (settings r)) (n + 1)) as [Hlt|Hge].
      * exists (Returned (Some e)), [], (println (LogResolveError e) r). rewrite app_nil_r.
        split; [done|]. split; [|split_and!; done].
        apply (initial_failed _ n err (Some e :: _) O); [done|..]; cbn [take]; rewrite take_0.
        -- constructor; [by eexists|constructor].
        -- split; [cbn; rewrite Hnr; lia|]. intros [|k] Hk; [done|]. cbn in Hk. lia.
      * apply Hgo; [by cbn; rewrite Hnr..|lia].
  - apply update_success in E as (_ & Hv & _).
    exists (Returned None), [], r1. rewrite app_nil_r. split; [done|]. split.
    { apply (initial_ok _ n err _ O); [done|constructor|]. intros [|k] Hk; cbn in *; lia. }
    split; [done|]. split; [|done]. intros _. exists it. split; [set_solver|done].
Qed.

(** C23: The initial resolve ends with the first success, and the master it
    publishes is verified; it fails exactly when the counted failures exceed
    the budget, with the last error and without publishing anything; failures
    that fix themselves only make it wait.  The addresses are readable exactly
    from the moment it ends, in success or failure; until then [MasterAddress]
    blocks. *)
Theorem initial_resolve_spec (its : list Iteration) (r : RedisMasterResolver) :
  Forall (fun it => wait_done it = false) its ->
  0 <= retryOnMasterResolveFail (settings r) -> initialResolved r = false ->
  exists st ws r', initialMasterAddressResolve its r = (st, ws, r') /\
    initial_course (retryOnMasterResolveFail (settings r)) 0 None (outcomes its (settings r)) st ws /\
    match st with
    | Running _ _ => MasterAddress r' = None
    | Returned None => exists it addr, it ∈ its /\ MasterAddress r' = Some addr /\
        verified_master (world it) (settings r) addr
    | Returned (Some _) => MasterAddress r' = Some (masterAddr r)
    end.
Proof.
  intros Hc Hb Hi. unfold initialMasterAddressResolve.
  destruct (initial_loop_spec its 0 None [] r Hc Hb) as (st & ws & r' & -> & Hic & Hsc & Hok & Hno).
  destruct Hsc as (_ & Hres & _). cbn [app].
  destruct st as [n err|[e|]]; eexists _, _, _; (split; [reflexivity|]); (split; [exact Hic|]).
  - unfold MasterAddress. by rewrite Hres, Hi.
  - unfold MasterAddress. cbn. by rewrite Hno.
  - destruct (Hok eq_refl) as (it & Hin & Hv). exists it, (masterAddr r'). by unfold MasterAddress.
Qed.

(** With a negative retry budget the loop ends as soon as the initial
    resolve has succeeded: it returns without an error, having closed the
    sentinel client, and no later tick ever refreshes the addresses. *)
Lemma negative_retries_loop (it : Iteration) (initial its : list Iteration)
    (r : RedisMasterResolver) :
  retryOnMasterResolveFail (settings r) < 0 -> outcome (world it) (settings r) = None ->
  UpdateMasterAddressLoop (it :: initial) its r =
  (Returned None, [], close_sentinel (close_initial (snd (updateMasterAddress (world it) r)))).
Proof.
  intros Hb Ho. unfold UpdateMasterAddressLoop, initialMasterAddressResolve. cbn [initial_loop].
  pose proof (update_outcome (world it) r) as Hu. pose proof (update_same_control (world it) r) as (Hs & _).
  destruct (updateMasterAddress (world it) r) as [o r']. cbn [fst snd] in *. rewrite Hu, Ho.
  destruct its; cbn [update_loop]; change (settings (close_initial r')) with (settings r');
    rewrite Hs, (proj2 (Z.leb_gt _ _)) by lia; done.
Qed.

Lemma update_loop_app a b n err waits r n' err' waits' r' :
  update_loop a n err waits r = (Running n' err', waits', r') ->
  update_loop (a ++ b) n err waits r = update_loop b n' err' waits' r'.
Proof.
  revert n err waits r. induction a as [|it a IH]; intros n err waits r; cbn [update_loop app].
  - destruct (negb _) eqn:E; [done|]. intros [= -> -> -> ->]. destruct b; cbn [update_loop]; by rewrite E.
  - destruct (negb _); [done|]. destruct (tick_done it); [done|].
    destruct (updateMasterAddress (world it) r) as [[e|] r1]; [|apply IH].
    destruct (if errSentinelNotReady e then _ else _) as [n1 w1]. destruct (wait_done it); [done|apply IH].
Qed.

(** Cancelling the context ends a running loop without an error, at the next
    tick without a further update, or during the wait after a failure. *)
Theorem update_loop_cancel (a b : list Iteration) (it : Iteration) (n n' : Z)
    (err err' : option resolve_err) (waits waits' : list Z) (r r' : RedisMasterResolver) :
  update_loop a n err waits r = (Running n' err', waits', r') ->
  tick_done it = true \/ (wait_done it = true /\ outcome (world it) (settings r') <> None) ->
  exists ws r'', update_loop (a ++ it :: b) n err waits r = (Returned None, waits' ++ ws, r'') /\
    (tick_done it = true -> r'' = r' /\ ws = []).
Proof.
  intros Ha Hd. rewrite (update_loop_app _ _ _ _ _ _ _ _ _ _ Ha).
  assert (n' <= retryOnMasterResolveFail (settings r')) as Hn.
  { revert n err waits r Ha. induction a as [|it' a IH]; intros n err waits r; cbn [update_loop].
    - destruct (negb _) eqn:E; [done|]. intros [= <- <- <- <-]. to_prop. lia.
    - destruct (negb _); [done|]. destruct (tick_done it'); [done|].
      destruct (updateMasterAddress (world it') r) as [[e|] r1]; [|apply IH].
      destruct (if errSentinelNotReady e then _ else _) as [n1 w1]. destruct (wait_done it'); [done|apply IH]. }
  cbn [update_loop]. rewrite (proj2 (Z.leb_le _ _) Hn). cbn [negb].
  destruct (tick_done it) eqn:Ht.
  { exists [], r'. by rewrite app_nil_r. }
  destruct Hd as [?|[Hw Ho]]; [done|]. pose proof (update_outcome (world it) r') as Hu.
  destruct (updateMasterAddress (world it) r') as [o r1]. cbn [fst] in Hu. rewrite <- Hu in Ho.
  destruct o as [e|]; [|done]. rewrite Hw.
  destruct (errSentinelNotReady e); eexists _, _; (split; [reflexivity|done]).
Qed.

(** ** A concrete world *)

Module ResolverDemo.
Definition replica (ip flags link : string) : gmap string string :=
  <["ip" := ip]> (<["port" := "6379"]> (<["flags" := flags]> (<["master-link-status" := link]> ∅)))%string.

(** Sentinel knows the master 10.0.0.1 and four replicas, two of them healthy;
    the world's clock is a parameter. *)
Definition up (now : Z) : World :=
  MkWorld (fun _ _ => Ok ["10.0.0.1"; "6379"]%string)
    (fun _ _ => Ok [replica "10.0.0.4" "slave" "ok"; replica "10.0.0.3" "slave" "err";
                    replica "10.0.0.2" "slave" "ok"; replica "10.0.0.5" "s_down,slave" "ok"])
    (fun o => Ok [RString (if String.eqb (Addr o) "10.0.0.1:6379" then "master" else "slave")])
    (fun _ => Err DNSNotFound) (fun _ => None) now.
(** The same with a reverse-DNS name for one of the replicas. *)
Definition named : World :=
  let w := up 0 in
  MkWorld (GetMasterAddrByName w) (Replicas w) (Role w) (ResolveHost w)
    (fun ip => if String.eqb ip "10.0.0.4" then Some ["redis-2.redis."]%string else None) 0.
(** Sentinel right after a restart, and one that does not answer. *)
Definition placeholder : World :=
  MkWorld (fun _ _ => Ok ["0.0.0.0"; "6379"]%string) (fun _ _ => Err RedisError)
    (fun _ => Err RedisError) (fun _ => Err DNSNotFound) (fun _ => None) 0.
Definition down : World :=
  MkWorld (fun _ _ => Err RedisError) (fun _ _ => Err RedisError)
    (fun _ => Err RedisError) (fun _ => Err DNSOther) (fun _ => None) 0.

Definition run_in (w : World) : Iteration := MkIteration false w false.

Definition new (retries : Z) (replicaListen : option string) : RedisMasterResolver :=
  match NewRedisMasterResolver
          (set_ReplicaListen (set_ResolveRetries Default (Some retries)) replicaListen) with
  | Ok r => r
  | Err _ => MkResolver (MkSettings "" (clientOptions "" "" "" None) None "" "" 0 false)
               false None "" "" [] [] 0 newPTRCache false []
  end.
Definition r0 : RedisMasterResolver := new 1 (Some ":6381"%string).
Definition r1 : RedisMasterResolver := close_initial (snd (updateMasterAddress (up 0) r0)).

Example r1_addresses :
  (masterAddr r1, replicaAddrs r1) = ("10.0.0.1:6379", ["10.0.0.2:6379"; "10.0.0.4:6379"])%string.
Proof. vm_compute. reflexivity. Qed.

(** A success, two failures that fix themselves and two counted ones exhaust a
    budget of one. *)
Example loop_gives_up :
  let '(st, waits, _) :=
    update_loop (run_in <$> [up 0; placeholder; down; placeholder; down; up 0]) 0 None [] r1 in
  (st, waits) = (Returned (Some SentinelQuery), [10 * Second; Second; 10 * Second; 2 * Second]).
Proof. vm_compute. reflexivity. Qed.
End ResolverDemo.

Section Witnesses.
Import ResolverDemo.

Lemma usableTCPAddr_not_ready_witness :
  errSentinelNotReady (BadAddress PlaceholderHost) = true <->
  "::"%string <> ""%string /\ "bad"%string <> ""%string /\
  (is_placeholder "::" = true \/
   (exists n, good_port "bad" n) /\ ParseIP "::" = None /\ ResolveHost down "::" = Err DNSNotFound).
Proof. apply (usableTCPAddr_not_ready down "::" "bad"). vm_compute. reflexivity. Defined.

Lemma sort_reps_unique_witness :
  [("a", "1"); ("b", "0")]%string.*1 = (sort_reps [("b", "0"); ("a", "1")]%string).*1.
Proof.
  apply (sort_reps_unique [("b", "0"); ("a", "1")]%string).
  - apply Permutation_swap.
  - repeat constructor. vm_compute. discriminate.
Defined.

Lemma update_replicas_healthy_witness :
  replicas_published named newPTRCache (settings r0) ["10.0.0.2:6379"; "10.0.0.4:6379"]%string
    ["10.0.0.2:6379"; "redis-2.redis:6379 (10.0.0.4)"]%string.
Proof.
  refine (update_replicas_healthy named r0 (snd (updateMasterAddress named r0)) _ _);
    vm_compute; reflexivity.
Defined.

Lemma ReplicaAddress_total_witness :
  match ReplicaAddress (set_idx (2 ^ 64 - 1) r1) with
  | (ReplicaPicked addr, r') => replicaIdx r' = 0
  | _ => False
  end.
Proof.
  assert (initialResolved (set_idx (2 ^ 64 - 1) r1) = true) as Hi by (vm_compute; reflexivity).
  assert (u64 (replicaIdx (set_idx (2 ^ 64 - 1) r1))) as Hu
    by (vm_compute; split; [discriminate|reflexivity]).
  pose proof (ReplicaAddress_total (set_idx (2 ^ 64 - 1) r1) Hi Hu) as H.
  vm_compute in H. vm_compute. exact (proj2 H).
Defined.

Lemma ReplicaAddress_round_robin_witness :
  length (replicaAddrs r1) = 2%nat /\
  (ReplicaAddresses (length (replicaAddrs r1)) r1).1 ≡ₚ ReplicaPicked <$> replicaAddrs r1.
Proof.
  split; [vm_compute; reflexivity|].
  refine (proj2 (ReplicaAddress_round_robin r1 _ _ _ _)); vm_compute; try reflexivity; discriminate.
Defined.

Lemma refresh_burst_witness :
  refresh_all [up 5; up 6; up 7] r1 = r1 \/
  (initialResolved r1 = true /\ exists w, w ∈ [up 5; up 6; up 7] /\
   refresh_all [up 5; up 6; up 7] r1 = snd (updateMasterAddress w (set_lastRefresh (Now w) r1))).
Proof.
  apply (refresh_burst [up 5; up 6; up 7] 5 r1). repeat constructor; vm_compute; congruence.
Defined.

Lemma resolver_invariant_witness : resolver_inv [up 0] (snd (updateMasterAddress (up 0) r0)).
Proof.
  apply (resolver_invariant (set_ReplicaListen (set_ResolveRetries Default (Some 1)) (Some ":6381"%string)) r0).
  - vm_compute. reflexivity.
  - apply reach_update, reach_new.
Defined.

Lemma update_loop_budget_witness :
  exists k, (k <= 3)%nat /\
    overdrawn 1 0 (take k (outcomes (run_in <$> [up 0; down; down]) (settings r1))).
Proof.
  assert (0 <= retryOnMasterResolveFail (settings r1)) as Hb by (vm_compute; discriminate).
  assert (Forall no_cancel (run_in <$> [up 0; down; down])) as Hc by (repeat constructor).
  pose proof (update_loop_budget _ r1 Hc Hb) as H.
  assert ((update_loop (run_in <$> [up 0; down; down]) 0 None [] r1).1.1 = Returned (Some SentinelQuery)) as E
    by (vm_compute; reflexivity).
  destruct (update_loop _ 0 None [] r1) as [[st ws] r']. cbn [fst] in E. subst st.
  destruct H as (k & Hk & Ho & _). exists k. split; [exact Hk|exact Ho].
Defined.

Lemma update_loop_waits_out_witness :
  exists err' r', update_loop (replicate 100 (run_in placeholder)) 1 None [] r1 =
    (Running 1 err', replicate 100 (10 * Second), r').
Proof.
  apply (update_loop_waits_out (replicate 100 (run_in placeholder)) 1 None [] r1).
  - apply Forall_replicate. by split.
  - vm_compute. discriminate.
  - apply Forall_replicate. exists (BadAddress PlaceholderHost). by split.
Defined.

Lemma initial_resolve_spec_witness :
  exists st ws r', initialMasterAddressResolve [run_in placeholder; run_in (up 0)] r0 = (st, ws, r') /\
    initial_course 1 0 None [Some (BadAddress PlaceholderHost); None] st ws.
Proof.
  destruct (initial_resolve_spec [run_in placeholder; run_in (up 0)] r0) as (st & ws & r' & H1 & H2 & _).
  - by repeat constructor.
  - vm_compute. discriminate.
  - reflexivity.
  - exists st, ws, r'. split; [exact H1|exact H2].
Defined.

Lemma update_loop_cancel_witness :
  exists ws r'', update_loop [run_in (up 0); MkIteration true (up 1) false] 0 None [] r1
    = (Returned None, ws, r'').
Proof.
  destruct (update_loop_cancel [run_in (up 0)] [] (MkIteration true (up 1) false) 0 0 None None [] [] r1
    (snd (updateMasterAddress (up 0) r1)) ltac:(vm_compute; reflexivity) (or_introl eq_refl))
    as (ws & r'' & H & _).
  exists ws, r''. exact H.
Defined.

End Witnesses.
