(* ===== verification/Proxy.v ===== *)
(** * Proxy: backends and client sessions (pkg/proxy/proxy.go, routing.go, pkg/utils/utils.go)

    [NewRedisSentinelProxy] with its validation, the choice of a backend, the
    connection to it with one retry after a refresh, and the handlers of a
    client connection in pipe mode ([proxy]) and router mode ([routedProxy]).

    The proxy knows its resolver through the interfaces of proxy.go; here they
    are the class [ResolverIface], and its promises to the proxy the class
    [ResolverLaws], which the resolver of [Resolver] meets.  The calls of one
    handler on the shared resolver are taken in sequence, each on the state the
    previous one left. *)

From Stdlib Require Import Strings.Byte String ZArith Lia.
From stdpp Require Import base list strings gmap.
From S2P Require Import Prelude GoStd GoTime Config NetAddr Netio Resp Router Routing Resolver.

Local Open Scope Z_scope.

(** ** The resolver's interfaces

    [R] is the resolver's state and [W] what a refresh sees of the world.
    [MasterAddress] yields [None] while it blocks.  The other two interfaces
    are optional: [None] when the type assertion fails. *)

Class ResolverIface (W R : Type) : Type := {
  masterAddress : R -> option string;
  replicaAddress : option (R -> replica_result * R);
  refreshAddresses : option (W -> R -> R)
}.

(** What the proxy relies on once the resolver is ready. *)
Class ResolverLaws (W R : Type) `{ResolverIface W R} (ready : R -> Prop) : Prop := {
  master_ready : forall r, ready r -> is_Some (masterAddress r);
  replica_ready : forall f r, replicaAddress = Some f -> ready r ->
    ready (snd (f r)) /\ fst (f r) <> ReplicaBlocked /\ fst (f r) <> ReplicaPanic;
  replica_master : forall f r, replicaAddress = Some f ->
    masterAddress (snd (f r)) = masterAddress r;
  refresh_ready : forall f w r, refreshAddresses = Some f -> ready r -> ready (f w r)
}.

(** ** Dialling (pkg/utils) *)

Record dial_req : Type := MkDial { d_addr : string; d_tls : option tls_config; d_timeout : Z }.

Definition TCPConnectWithTimeout (addr : string) : dial_req := MkDial addr None Second.
Definition TLSConnectWithTimeout (addr : string) (tlsConf : tls_config) : dial_req :=
  MkDial addr (Some tlsConf) Second.

(** ** The proxy *)

Record RedisSentinelProxy : Type := MkProxy {
  localAddr : option TCPAddr;
  tlsConf : option tls_config;
  masterTLSConf : option tls_config;
  idleTimeout : Z;
  sem : option Z;                      (* capacity of the channel *)
  debug : bool;
  hasRefresher : bool;
  replicaAddr : option TCPAddr;
  hasReplicaResolver : bool;
  replicaFallbackMaster : bool;
  router : bool
}.

Inductive proxy_err : Type :=
| ProxyPanic
| ListenAddress
| ReplicaListenAddress
| NoReplicaSupport
| NoEndpoint
| RouterNeedsListen.

Definition deref_p {A} (p : option A) : result proxy_err A :=
  match p with Some a => Ok a | None => Err ProxyPanic end.

Section Proxy.
Context {W R : Type} `{!ResolverIface W R} `{!UnicodeUpper}.

(** [net.ResolveTCPAddr] on a listen address ([None] on an error). *)
Variable ResolveListenAddr : string -> option TCPAddr.

Definition supportsReplicas : bool := bool_decide (is_Some replicaAddress).
Definition supportsRefresh : bool := bool_decide (is_Some refreshAddresses).

Definition NewRedisSentinelProxy (cfg : Config) : result proxy_err RedisSentinelProxy :=
  let* maxConns := deref_p (MaxConnections cfg) in
  let* idle := deref_p (IdleTimeout cfg) in
  let* debug := deref_p (Debug cfg) in
  let* local :=
    if strSet (Listen cfg) then
      match Listen cfg ≫= ResolveListenAddr with
      | Some a => Ok (Some a)
      | None => Err ListenAddress
      end
    else Ok None in
  let* (replica, hasReplicas, fallback) :=
    if strSet (ReplicaListen cfg) then
      match ReplicaListen cfg ≫= ResolveListenAddr with
      | None => Err ReplicaListenAddress
      | Some a =>
          if negb supportsReplicas then Err NoReplicaSupport
          else
            let* fb := deref_p (ReplicaFallback cfg) in
            Ok (Some a, true, String.eqb fb ReplicaFallbackMaster)
      end
    else Ok (None, false, false) in
  match local, replica with
  | None, None => Err NoEndpoint
  | _, _ =>
      let* (hasReplicas, router) :=
        if boolSet (Router cfg) then
          match local with
          | None => Err RouterNeedsListen
          | Some _ => if negb supportsReplicas then Err NoReplicaSupport else Ok (true, true)
          end
        else Ok (hasReplicas, false) in
      Ok (MkProxy local (ListenTLSConfig cfg) (MasterTLSConfig cfg) idle
        (if 0 <? maxConns then Some maxConns else None) debug supportsRefresh replica hasReplicas
        fallback router)
  end.

(** ** Choosing and dialling a backend *)

Inductive label : Type := LMaster | LReplica | LMasterFallback.

Inductive pick_result : Type :=
| PickBlocked
| PickPanic
| NoHealthyReplica
| Picked (addr : string) (l : label).

Definition pickBackend : Type := R -> pick_result * R.

Definition pickMaster : pickBackend := fun r =>
  match masterAddress r with
  | Some addr => (Picked addr LMaster, r)
  | None => (PickBlocked, r)
  end.

Variable p : RedisSentinelProxy.

Definition pickReplica : pickBackend := fun r =>
  match replicaAddress with
  | None => (PickPanic, r)
  | Some f =>
      match f r with
      | (ReplicaPicked addr, r) => (Picked addr LReplica, r)
      | (ReplicaNone, r) =>
          if replicaFallbackMaster p then
            match masterAddress r with
            | Some addr => (Picked addr LMasterFallback, r)
            | None => (PickBlocked, r)
            end
          else (NoHealthyReplica, r)
      | (ReplicaBlocked, r) => (PickBlocked, r)
      | (ReplicaPanic, r) => (PickPanic, r)
      end
  end.

(** The handler's state: the shared resolver and the backends it has dialled.
    The network answers a dial with a connection or an error, which may depend
    on what was dialled before. *)
Record hstate : Type := MkH { res : R; dialed : list dial_req }.

Variable network : list dial_req -> dial_req -> option netconn.

Definition dialRedis (addr : string) (h : hstate) : option netconn * hstate :=
  let req := match masterTLSConf p with
             | None => TCPConnectWithTimeout addr
             | Some t => TLSConnectWithTimeout addr t
             end in
  (network (dialed h) req, MkH (res h) (dialed h ++ [req])).

Inductive connect_result : Type :=
| CBlocked
| CPanic
| CPickError                              (* no healthy replica available *)
| CDialError (addr : string) (l : label)
| Connected (remote : netconn) (addr : string) (l : label).

Definition pickAndDial (pick : pickBackend) (h : hstate) : connect_result * hstate :=
  let '(pr, r) := pick (res h) in
  let h := MkH r (dialed h) in
  match pr with
  | PickBlocked => (CBlocked, h)
  | PickPanic => (CPanic, h)
  | NoHealthyReplica => (CPickError, h)
  | Picked addr l =>
      match dialRedis addr h with
      | (Some remote, h) => (Connected remote addr l, h)
      | (None, h) => (CDialError addr l, h)
      end
  end.

(** [w] is the world of the refresh. *)
Definition connectBackend (w : W) (pick : pickBackend) (h : hstate) : connect_result * hstate :=
  let '(c, h) := pickAndDial pick h in
  match c with
  | CPickError | CDialError _ _ =>
      match refreshAddresses with
      | None => (c, h)
      | Some refresh => pickAndDial pick (MkH (refresh w (res h)) (dialed h))
      end
  | _ => (c, h)
  end.

(** ** A client connection *)

(** An accepted connection and, on a TLS listener, whether the client's
    handshake succeeds within [handshakeTimeout]. *)
Record incoming : Type := MkIncoming { i_conn : netconn; i_handshake : option bool }.

Definition handshakeTimeout : Z := 10 * Second.

Definition completeClientHandshake (i : incoming) : bool :=
  match i_handshake i with
  | Some ok => ok
  | None => true
  end.

(** How a handler ended: the connections it held, as it leaves them. *)
Inductive handler_end : Type :=
| HandshakeFailed (c : netconn)
| Rejected (c : netconn)
| HandlerBlocked
| HandlerPanic
| Piped (c remote : netconn) (addr : string) (l : label)
| Routed (e : session_end) (masterAddr : string) (replicaAddr : option string).

(** Both pipes run to their end; [proxy] then closes both connections. *)
Definition proxy (w : W) (pick : pickBackend) (i : incoming) (h : hstate) : handler_end * hstate :=
  if negb (completeClientHandshake i) then (HandshakeFailed (close (i_conn i)), h)
  else
    match connectBackend w pick h with
    | (CBlocked, h) => (HandlerBlocked, h)
    | (CPanic, h) => (HandlerPanic, h)
    | (CPickError, h) | (CDialError _ _, h) => (Rejected (close (i_conn i)), h)
    | (Connected remote addr l, h) =>
        let c := pipe (i_conn i) (cr remote) in
        let m := pipe remote (cr (i_conn i)) in
        (Piped (close c) (close m) addr l, h)
    end.

(** [dialReplicaForRouting]: [inr] when the resolver blocks or panics. *)
Definition dialReplicaForRouting (w : W) (h : hstate)
  : (option (netconn * string)) * hstate + handler_end * hstate :=
  match replicaAddress with
  | None => inr (HandlerPanic, h)
  | Some pick =>
      let '(a, r) := pick (res h) in
      let h := MkH r (dialed h) in
      let '(a, h) :=
        match a, refreshAddresses with
        | ReplicaNone, Some refresh =>
            let '(a, r) := pick (refresh w (res h)) in (a, MkH r (dialed h))
        | _, _ => (a, h)
        end in
      match a with
      | ReplicaBlocked => inr (HandlerBlocked, h)
      | ReplicaPanic => inr (HandlerPanic, h)
      | ReplicaNone => inl (None, h)
      | ReplicaPicked addr =>
          match dialRedis addr h with
          | (Some conn, h) => inl (Some (conn, addr), h)
          | (None, h) => inl (None, h)
          end
      end
  end.

(** The deferred closes of [routedProxy]. *)
Definition close_session (e : session_end) : session_end :=
  let s := e_session e in
  MkEnd (MkSession (close (client s)) (close (master s)) (close <$> replica s) (reads s) (writes s))
    (close <$> e_dropped e) (e_why e).

Definition routedProxy (w w' : W) (i : incoming) (h : hstate) : handler_end * hstate :=
  if negb (completeClientHandshake i) then (HandshakeFailed (close (i_conn i)), h)
  else
    match connectBackend w pickMaster h with
    | (CBlocked, h) => (HandlerBlocked, h)
    | (CPanic, h) => (HandlerPanic, h)
    | (CPickError, h) | (CDialError _ _, h) => (Rejected (close (i_conn i)), h)
    | (Connected master masterAddr _, h) =>
        match dialReplicaForRouting w' h with
        | inr (e, h) => (e, h)
        | inl (rep, h) =>
            let s := MkSession (i_conn i) master (fst <$> rep) 0 0 in
            (Routed (close_session (run s)) masterAddr (snd <$> rep), h)
        end
    end.

End Proxy.
Arguments hstate R : clear implicits.
Arguments pickBackend R : clear implicits.
Arguments dialRedis : simpl never.

(** ** The resolver as the proxy sees it *)

#[global] Instance redis_resolver : ResolverIface World RedisMasterResolver := {|
  masterAddress := MasterAddress;
  replicaAddress := Some ReplicaAddress;
  refreshAddresses := Some RefreshAddresses
|}.

(** The initial resolve has ended and the counter is a machine word. *)
Definition resolver_ready (r : RedisMasterResolver) : Prop :=
  initialResolved r = true /\ u64 (replicaIdx r).

Lemma ReplicaAddress_ready r :
  resolver_ready r ->
  resolver_ready (snd (ReplicaAddress r)) /\
  fst (ReplicaAddress r) <> ReplicaBlocked /\ fst (ReplicaAddress r) <> ReplicaPanic.
Proof.
  intros [Hi Hu]. destruct (decide (replicaAddrs r = [])) as [He|Hne].
  - unfold ReplicaAddress. rewrite Hi. cbn [negb]. by rewrite bool_decide_eq_true_2.
  - destruct (ReplicaAddress_picks r Hi Hne Hu) as (addr & _ & ->).
    split; [|done]. split; [done|]. apply wrapu64_range.
Qed.

Lemma RefreshAddresses_ready w r : resolver_ready r -> resolver_ready (RefreshAddresses w r).
Proof.
  intros [Hi Hu]. destruct (RefreshAddresses_cases w r) as [->|[_ ->]]; [done|].
  destruct (update_same_control (view r w) (set_lastRefresh (Now w) r)) as (_ & H1 & _ & H2 & _).
  unfold resolver_ready. by rewrite H1, H2.
Qed.

(** The resolver keeps the promises the proxy relies on. *)
#[global] Instance redis_resolver_laws : ResolverLaws World RedisMasterResolver resolver_ready.
Proof.
  split.
  - intros r [Hi _]. cbn. unfold MasterAddress. rewrite Hi. eauto.
  - intros f r [= <-] Hr. by apply ReplicaAddress_ready.
  - intros f r [= <-]. cbn. unfold MasterAddress, ReplicaAddress.
    destruct (initialResolved r) eqn:Hi; cbn [negb]; [|cbn; by rewrite Hi].
    case_bool_decide; [cbn; by rewrite Hi|]. cbv zeta.
    destruct (replicaAddrs r !! _); cbn; by rewrite Hi.
  - intros f w r [= <-] Hr. by apply RefreshAddresses_ready.
Qed.

(** ** Against the interface *)

Section Interface.
Context {W R : Type} `{!ResolverIface W R} `{!UnicodeUpper}.
Context (ready : R -> Prop) `{!ResolverLaws W R ready}.
Context (p : RedisSentinelProxy) (network : list dial_req -> dial_req -> option netconn).

(** A choice that, on a ready resolver, neither blocks nor panics. *)
Definition pick_ok (pick : pickBackend R) : Prop :=
  forall r, ready r -> ready (snd (pick r)) /\ fst (pick r) <> PickBlocked /\ fst (pick r) <> PickPanic.

Lemma pickMaster_ok : pick_ok pickMaster.
Proof. intros r Hr. unfold pickMaster. by destruct (master_ready r Hr) as [a ->]. Qed.

Lemma pickReplica_ok : is_Some (replicaAddress (R := R)) -> pick_ok (pickReplica p).
Proof.
  intros [f Hf] r Hr. unfold pickReplica. rewrite Hf.
  destruct (replica_ready f r Hf Hr) as (Hr' & Hb & Hp). destruct (f r) as [a r']. cbn [fst snd] in *.
  destruct a as [| |addr|]; [done| |done|done].
  destruct (replicaFallbackMaster p); [|done]. by destruct (master_ready r' Hr') as [a ->].
Qed.

(** A dial as the configuration asks for it. *)
Definition proper_dial (q : dial_req) : Prop := d_tls q = masterTLSConf p /\ d_timeout q = Second.

(** What an attempt to reach a backend does. *)
Definition attempt_spec (h : hstate R) (c : connect_result) (h' : hstate R) (budget : nat) : Prop :=
  ready (res h') /\
  exists ds, dialed h' = dialed h ++ ds /\ (length ds <= budget)%nat /\ Forall proper_dial ds /\
    match c with
    | CBlocked | CPanic => False
    | CPickError => True
    | CDialError addr _ => exists ds0 q, ds = ds0 ++ [q] /\ d_addr q = addr /\
        network (dialed h ++ ds0) q = None
    | Connected remote addr _ => exists ds0 q, ds = ds0 ++ [q] /\ d_addr q = addr /\
        network (dialed h ++ ds0) q = Some remote
    end.

Lemma pickAndDial_spec pick h c h' :
  pick_ok pick -> ready (res h) -> pickAndDial p network pick h = (c, h') -> attempt_spec h c h' 1.
Proof.
  intros Hp Hr. unfold pickAndDial. destruct (Hp _ Hr) as (Hr' & Hb & Hpn).
  destruct (pick (res h)) as [pr r']. cbn [fst snd] in *. destruct pr as [| | |addr l]; [done|done|..].
  - intros [= <- <-]. split; [done|]. exists []. rewrite app_nil_r.
    split_and!; [done|cbn; lia|constructor|done].
  - unfold dialRedis. cbn [dialed res].
    set (q := match masterTLSConf p with None => _ | Some _ => _ end).
    assert (proper_dial q /\ d_addr q = addr) as [Hq Ha].
    { unfold q, proper_dial. by destruct (masterTLSConf p). }
    destruct (network (dialed h) q) as [remote|] eqn:Hn; intros [= <- <-]; (split; [done|]);
      exists [q]; (split_and!; [done|cbn; lia|by constructor|]); exists [], q; by rewrite app_nil_r.
Qed.

Lemma connectBackend_spec w pick h c h' :
  pick_ok pick -> ready (res h) -> connectBackend p network w pick h = (c, h') -> attempt_spec h c h' 2.
Proof.
  intros Hp Hr. unfold connectBackend.
  destruct (pickAndDial p network pick h) as [c1 h1] eqn:E1.
  pose proof (pickAndDial_spec _ _ _ _ Hp Hr E1) as (Hr1 & ds1 & Hd1 & Hl1 & Hf1 & Hc1).
  assert ((c1, h1) = (c, h') -> attempt_spec h c h' 2) as Hone.
  { intros [= <- <-]. split; [done|]. exists ds1. split_and!; [done|lia|done|done]. }
  destruct c1; try exact Hone; (destruct refreshAddresses as [f|] eqn:Hf; [|exact Hone]);
    intros E2;
    destruct (pickAndDial_spec _ (MkH (f w (res h1)) (dialed h1)) _ _ Hp (refresh_ready f w _ Hf Hr1) E2)
      as (Hr2 & ds2 & Hd2 & Hl2 & Hf2 & Hc2); cbn [dialed] in Hd2, Hc2;
    (split; [done|]); exists (ds1 ++ ds2); rewrite Hd2, Hd1, app_assoc;
    (split_and!; [done|rewrite length_app; lia|by apply Forall_app|]);
    (destruct c as [| | |addr' l'|remote addr' l']; [done|done|done|..]);
    destruct Hc2 as (ds0 & q & -> & ? & ?); exists (ds1 ++ ds0), q;
    (split; [by rewrite app_assoc|]); (split; [done|]); by rewrite app_assoc, <- Hd1.
Qed.

(** C22: A client connection costs at most two dials of a backend, and none
    before the client's TLS handshake has succeeded.  Every dial uses the
    configured TLS settings and the one-second timeout; the handler, once the
    resolver is ready, neither blocks on it nor panics; and the client is
    rejected only when the last attempt found no backend or could not reach
    it. *)
Theorem proxy_dials (w : W) (pick : pickBackend R) (i : incoming) (h h' : hstate R) (e : handler_end) :
  pick_ok pick -> ready (res h) -> proxy p network w pick i h = (e, h') ->
  ready (res h') /\
  exists ds, dialed h' = dialed h ++ ds /\ (length ds <= 2)%nat /\ Forall proper_dial ds /\
    (completeClientHandshake i = false -> ds = [] /\ res h' = res h) /\
    match e with
    | HandshakeFailed c => completeClientHandshake i = false /\ c = close (i_conn i)
    | Rejected c => completeClientHandshake i = true /\ c = close (i_conn i)
    | Piped c m addr _ => completeClientHandshake i = true /\ closed c = true /\ closed m = true /\
        exists ds0 q remote, ds = ds0 ++ [q] /\ d_addr q = addr /\
          network (dialed h ++ ds0) q = Some remote
    | _ => False
    end.
Proof.
  intros Hp Hr. unfold proxy. destruct (completeClientHandshake i); cbn [negb].
  2:{ intros [= <- <-]. split; [done|]. exists []. rewrite app_nil_r. split_and!; try done; cbn; lia. }
  destruct (connectBackend p network w pick h) as [c h1] eqn:E.
  pose proof (connectBackend_spec _ _ _ _ _ Hp Hr E) as (Hr1 & ds & Hd & Hl & Hf & Hc).
  destruct c as [| | |addr l|remote addr l]; [done|done|..]; intros [= <- <-];
    (split; [done|]); exists ds; split_and!; try done.
  destruct Hc as (ds0 & q & ? & ? & ?). eauto 10.
Qed.

End Interface.

(** ** Pipe mode *)

Section Pipe.
Context {W R : Type} `{!ResolverIface W R}.
Context (p : RedisSentinelProxy) (network : list dial_req -> dial_req -> option netconn).

Lemma pipe_unlimited dst src :
  room (cw dst) = None -> written (cw (pipe dst src)) = written (cw dst) ++ pending src.
Proof.
  intros Hr. unfold pipe, Copy. rewrite (Write_unlimited _ _ Hr).
  destruct (fin src); cbn; by destruct (has_closewrite dst).
Qed.

Lemma pipe_prefix dst src : written (cw (pipe dst src)) `prefix_of` written (cw dst) ++ pending src.
Proof.
  unfold pipe, Copy. destruct (Netio.Write (pending src) (cw dst)) as [w' o] eqn:E.
  apply Write_prefix in E as (q & E & Hq).
  assert (written w' `prefix_of` written (cw dst) ++ pending src) as Hw by (rewrite E; auto with go).
  destruct o; cbn; by destruct (has_closewrite dst).
Qed.

Lemma proxy_Piped w pick i h h' c m addr l :
  proxy p network w pick i h = (Piped c m addr l, h') ->
  exists remote, connectBackend p network w pick h = (Connected remote addr l, h') /\
    c = close (pipe (i_conn i) (cr remote)) /\ m = close (pipe remote (cr (i_conn i))).
Proof.
  unfold proxy. destruct (completeClientHandshake i); [|done]. cbn [negb].
  destruct (connectBackend p network w pick h) as [[| | |a0 l0|remote a0 l0] h1]; try done.
  intros [= <- <- <- <- <-]. eauto.
Qed.

Lemma connectBackend_Connected w pick h h' remote addr l :
  connectBackend p network w pick h = (Connected remote addr l, h') ->
  exists h1, pickAndDial p network pick h1 = (Connected remote addr l, h').
Proof.
  unfold connectBackend. destruct (pickAndDial p network pick h) as [c h1] eqn:E.
  destruct c; [by intros [=]|by intros [=]|..];
    [destruct refreshAddresses; [eauto|by intros [=]]..|].
  intros [= <- <- <- <-]. by exists h.
Qed.

(** C19: A session in pipe mode is transparent: the backend receives the client's
    bytes and the client the backend's, unchanged, in order and in full, unless
    a connection fails, and then a prefix; at the end both connections are
    closed. *)
Theorem proxy_transparent (w : W) (pick : pickBackend R) (i : incoming) (h h' : hstate R)
    (c m : netconn) (addr : string) (l : label) :
  proxy p network w pick i h = (Piped c m addr l, h') ->
  exists remote, connectBackend p network w pick h = (Connected remote addr l, h') /\
    closed c = true /\ closed m = true /\
    written (cw c) `prefix_of` written (cw (i_conn i)) ++ pending (cr remote) /\
    written (cw m) `prefix_of` written (cw remote) ++ pending (cr (i_conn i)) /\
    (room (cw (i_conn i)) = None -> written (cw c) = written (cw (i_conn i)) ++ pending (cr remote)) /\
    (room (cw remote) = None -> written (cw m) = written (cw remote) ++ pending (cr (i_conn i))).
Proof.
  intros (remote & Hc & -> & ->)%proxy_Piped. exists remote. split_and!; try done; cbn [cw close];
    first [apply pipe_prefix | apply pipe_unlimited].
Qed.

(** The replica endpoint connects clients to a replica the resolver offered,
    or, only with the fallback policy "master" and only when the resolver had
    no replica, to the current master; with "reject" it never does. *)
Theorem replica_endpoint_policy (w : W) (i : incoming) (h h' : hstate R)
    (c m : netconn) (addr : string) (l : label) :
  proxy p network w (pickReplica p) i h = (Piped c m addr l, h') ->
  exists f r, replicaAddress = Some f /\
    (l = LReplica /\ f r = (ReplicaPicked addr, res h') \/
     l = LMasterFallback /\ replicaFallbackMaster p = true /\ f r = (ReplicaNone, res h') /\
     masterAddress (res h') = Some addr).
Proof.
  intros (remote & Hc & _)%proxy_Piped. apply connectBackend_Connected in Hc as (h1 & Hc).
  revert Hc. unfold pickAndDial, pickReplica, dialRedis. destruct replicaAddress as [f|]; [|done].
  destruct (f (res h1)) as [[| |a|] r'] eqn:Hf; [done| | |done]; cbn [res dialed].
  - destruct (replicaFallbackMaster p) eqn:Hfb; [|done]. destruct (masterAddress r') as [a|] eqn:Hm; [|done].
    destruct (network _ _); [|done]. intros [= <- <- <- <-]. exists f, (res h1). auto 10.
  - destruct (network _ _); [|done]. intros [= <- <- <- <-]. exists f, (res h1). auto.
Qed.
End Pipe.

(** ** Failover *)

Section Failover.
Context (p : RedisSentinelProxy) (network : list dial_req -> dial_req -> option netconn).

(** The request the proxy dials an address with. *)
Definition request (addr : string) : dial_req := MkDial addr (masterTLSConf p) Second.

Lemma dialRedis_request {R} addr (h : hstate R) :
  dialRedis p network addr h =
  (network (dialed h) (request addr), MkH (res h) (dialed h ++ [request addr])).
Proof. unfold dialRedis, request. by destruct (masterTLSConf p). Qed.

(** C9: Failover: when the published master cannot be reached, no refresh was
    made within the last second and sentinel, whose client is open as long as
    the update loop runs, now names a new master that confirms its role, a
    client that connects is served by the new master at once: the failed dial
    triggers the refresh and the retry dials the address it published. *)
Theorem failover_recovers (w : World) (r : RedisMasterResolver) (ds : list dial_req) (addr : string)
    (remote : netconn) :
  initialResolved r = true -> sentinelClosed r = false ->
  match lastRefresh r with Some t => refreshThrottle <= Now w - t | None => True end ->
  verified_master w (settings r) addr ->
  network ds (request (masterAddr r)) = None ->
  network (ds ++ [request (masterAddr r)]) (request addr) = Some remote ->
  exists r', connectBackend p network w pickMaster (MkH r ds) =
    (Connected remote addr LMaster, MkH r' (ds ++ [request (masterAddr r); request addr])) /\
    masterAddr r' = addr.
Proof.
  intros Hi Hc Ht Hv Hd1 Hd2. unfold connectBackend.
  assert (pickAndDial p network pickMaster (MkH r ds) =
    (CDialError (masterAddr r) LMaster, MkH r (ds ++ [request (masterAddr r)]))) as ->.
  { unfold pickAndDial, pickMaster. cbn [res dialed masterAddress redis_resolver].
    unfold MasterAddress. rewrite Hi, dialRedis_request. cbn [res dialed]. by rewrite Hd1. }
  cbn [refreshAddresses redis_resolver res dialed].
  assert (RefreshAddresses w r = snd (updateMasterAddress w (set_lastRefresh (Now w) r))) as ->.
  { unfold RefreshAddresses, view. rewrite Hi, Hc. cbn [negb]. destruct (lastRefresh r); [|done].
    by rewrite (proj2 (Z.ltb_ge _ _) Ht). }
  set (r1 := set_lastRefresh (Now w) r).
  destruct (updateMasterAddress w r1) as [[e|] r'] eqn:E.
  { apply update_failure in E as [_ E]. by apply (resolveMasterAddress_Err _ _ _ _ addr) in E. }
  apply update_success in E as ((_ & Hi' & _) & Hv' & _). exists r'. cbn [snd].
  assert (masterAddr r' = addr) as Ha by exact (verified_master_fun w (settings r) _ _ Hv' Hv).
  split; [|done]. unfold pickAndDial, pickMaster. cbn [res dialed masterAddress redis_resolver].
  unfold MasterAddress. rewrite Hi'. cbn [initialResolved r1 set_lastRefresh]. rewrite Hi, Ha, dialRedis_request.
  cbn [res dialed]. rewrite Hd2, <- app_assoc. done.
Qed.
End Failover.

(** ** Router mode *)

Section RouterMode.
Context `{!UnicodeUpper}.
Context (p : RedisSentinelProxy) (network : list dial_req -> dial_req -> option netconn).

(** Fresh connections: nothing written to them yet. *)
Definition fresh_network : Prop :=
  forall ds q c, network ds q = Some c -> written (cw c) = [].

(** The replica connection of a session was dialled as a replica is. *)
Lemma dialReplica_cases w' (h : hstate RedisMasterResolver) :
  match dialReplicaForRouting p network w' h with
  | inr (e, _) => e = HandlerBlocked \/ e = HandlerPanic
  | inl (None, _) => True
  | inl (Some (c, addr), _) => exists ds, network ds (request p addr) = Some c
  end.
Proof.
  unfold dialReplicaForRouting. cbn [replicaAddress redis_resolver refreshAddresses].
  destruct (ReplicaAddress (res h)) as [a0 r0]. cbn [res dialed].
  destruct a0; cbn; auto;
    [destruct (ReplicaAddress (RefreshAddresses w' r0)) as [[| |a1|] r2]; cbn; auto|];
    rewrite dialRedis_request; cbn [res dialed]; destruct (network _ _) eqn:En; eauto.
Qed.

Lemma routedProxy_Routed (w w' : World) i (h h' : hstate RedisMasterResolver) e ma ra :
  routedProxy p network w w' i h = (Routed e ma ra, h') ->
  exists m l h1 rep, connectBackend p network w pickMaster h = (Connected m ma l, h1) /\
    dialReplicaForRouting p network w' h1 = inl (rep, h') /\ ra = snd <$> rep /\
    e = close_session (run (MkSession (i_conn i) m (fst <$> rep) 0 0)).
Proof.
  unfold routedProxy. destruct (completeClientHandshake i); [|done]. cbn [negb].
  destruct (connectBackend p network w pickMaster h) as [[| | |a l|m a l] h1]; try done.
  pose proof (dialReplica_cases w' h1) as Hd.
  destruct (dialReplicaForRouting p network w' h1) as [[rep h2]|[e' h2]] eqn:E.
  - intros [= <- <- <- <-]. by exists m, l, h1, rep.
  - intros [= -> ->]. by destruct Hd.
Qed.

(** Closing delivers nothing. *)
Lemma close_session_out e :
  end_replica (close_session e) = end_replica e /\ end_master (close_session e) = end_master e /\
  piped (close_session e) = piped e.
Proof.
  destruct e as [s d why]. unfold end_replica, end_master, piped, close_session. cbn.
  split; [|done]. destruct d; [done|]. unfold replica_out. cbn. by destruct (replica s).
Qed.

(** C18: A client of the router-mode endpoint: whatever it sends, the replica
    receives only commands that read or set connection state and the master
    only what the routing table sends it (and, once pinned, the rest of the
    stream); without a reachable replica everything goes to the master.  All
    connections of the session are closed at its end, the dropped replica
    included. *)
Theorem routedProxy_routes (w w' : World) (i : incoming) (h h' : hstate RedisMasterResolver)
    (e : session_end) (ma : string) (ra : option string) :
  fresh_network -> routedProxy p network w w' i h = (Routed e ma ra, h') ->
  let has := bool_decide (is_Some ra) in
  (exists cmds rest,
    pending (cr (i_conn i)) = concat (snd <$> cmds) ++ rest /\ Forall valid_cmd cmds /\
    end_replica e `prefix_of` raws (to_replica has) cmds /\
    end_master e `prefix_of` raws (to_master has) cmds ++ (if piped e then rest else [])) /\
  closed (client (e_session e)) = true /\ closed (master (e_session e)) = true /\
  (forall c, replica (e_session e) = Some c \/ e_dropped e = Some c -> closed c = true).
Proof.
  intros Hfresh (m & l & h1 & rep & Hm & Hr & -> & ->)%routedProxy_Routed. cbv zeta.
  set (s := MkSession (i_conn i) m (fst <$> rep) 0 0). split.
  - destruct (run_loop_forwarded (S (length (pending (cr (client s))))) s) as (cmds & rest & Hp & Hv & Hre & Hma).
    fold (run s) in Hre, Hma.
    assert (master_out s = []) as Hm0.
    { apply connectBackend_Connected in Hm as (h2 & Hm). revert Hm.
      unfold pickAndDial, pickMaster. destruct (masterAddress (res h2)); [|done].
      rewrite dialRedis_request. cbn [res dialed]. destruct (network _ _) eqn:En; [|done].
      intros [= -> _ _ _]. exact (Hfresh _ _ _ En). }
    assert (replica_out s = [] /\ has_replica s = bool_decide (is_Some (snd <$> rep))) as [Hr0 Hhas].
    { destruct rep as [[c a]|]; [|done]. pose proof (dialReplica_cases w' h1) as Hd.
      rewrite Hr in Hd. destruct Hd as (ds & En). split; [exact (Hfresh _ _ _ En)|done]. }
    rewrite Hm0 in Hma. rewrite Hr0 in Hre. rewrite Hhas in Hma, Hre.
    exists cmds, rest. split; [exact Hp|]. split; [exact Hv|].
    destruct (close_session_out (run s)) as (-> & -> & ->). by split.
  - unfold close_session. cbn [e_session client master replica e_dropped]. split; [done|]. split; [done|].
    intros c [Hc|Hc]; apply fmap_Some in Hc as (c0 & _ & ->); done.
Qed.

(** C36: Without a replica endpoint, router mode has no replicas to route to: in
    every state the resolver of such a configuration can reach, a routed
    session is opened without a replica connection, so reads go to the
    master. *)
Theorem router_without_replica_listen (cfg : Config) (r0 r : RedisMasterResolver) (ws : list World)
    (ds : list dial_req) (w' : World) :
  ReplicaListen cfg = None -> NewRedisMasterResolver cfg = Ok r0 -> reach r0 ws r ->
  initialResolved r = true ->
  exists r', dialReplicaForRouting p network w' (MkH r ds) = inl (None, MkH r' ds).
Proof.
  intros Hl Hnew Hr Hi. destruct (New_published _ _ Hnew) as [H0 Hu].
  assert (trackReplicas (settings r0) = false) as Ht0.
  { revert Hnew. unfold NewRedisMasterResolver. rewrite Hl. intros (x & _ & HB)%result_bind_Ok.
    apply result_bind_Ok in HB as (y & _ & HB). by apply result_bind_Ok in HB as (z & _ & [= <-]). }
  assert (forall ws r, reach r0 ws r -> initialResolved r = true -> ReplicaAddress r = (ReplicaNone, r)) as Hnone.
  { intros ws1 r1 Hr1 Hi1. destruct (reach_published _ _ _ Hr1 H0 Hu) as (Hp & _ & Hs).
    rewrite <- Hs in Ht0. destruct (published_no_tracking _ _ Hp Ht0) as [Ha _].
    unfold ReplicaAddress. by rewrite Hi1, Ha. }
  unfold dialReplicaForRouting. cbn [replicaAddress redis_resolver refreshAddresses res dialed].
  rewrite (Hnone _ _ Hr Hi). cbn [res dialed].
  destruct (reach_refresh _ _ w' _ Hr) as (ws' & Hr').
  rewrite (Hnone ws'); [by eexists|done|].
  destruct (RefreshAddresses_cases w' r) as [->|[_ ->]]; [done|].
  by destruct (update_same_control (view r w') (set_lastRefresh (Now w') r)) as (_ & -> & _).
Qed.
End RouterMode.

(** ** Start-up *)

(** A configuration [Load] accepts always starts: the resolver is made with
    the documented credentials (the probe's default to sentinel's), and the
    proxy is made unless a listen address does not resolve or router mode lacks
    the master endpoint; no nil pointer is dereferenced on the way. *)
Lemma startup_cases (host : Host) (f : option Config) (path : string) (cfg : Config)
    (ResolveListenAddr : string -> option TCPAddr) :
  Load host f path = Ok cfg ->
  (exists r, NewRedisMasterResolver cfg = Ok r /\
     masterUsername (settings r) = default (default ""%string (Username cfg)) (MasterUsername cfg) /\
     masterPassword (settings r) = default (default ""%string (Password cfg)) (MasterPassword cfg) /\
     Resolver.masterTLSConf (settings r) = MasterProbeTLSConfig cfg) /\
  match NewRedisSentinelProxy ResolveListenAddr cfg with
  | Ok p => is_Some (localAddr p) \/ is_Some (replicaAddr p)
  | Err ListenAddress | Err ReplicaListenAddress => True
  | Err RouterNeedsListen => strSet (Listen cfg) = false /\ Router cfg = Some true
  | Err _ => False
  end.
Proof.
  intros ((Hl & Hne & Hfb & _) & (Hse & Hma & Hro & Hre & Hmc & Hid & Hdb) & _)%Load_valid. split.
  { unfold NewRedisMasterResolver. destruct Hse as [se ->], Hma as [ma ->], Hre as [re ->]. by eexists. }
  assert (strSet (ReplicaListen cfg) = true -> is_Some (ReplicaFallback cfg)) as Hfb'.
  { intros Hs. destruct (ReplicaFallback cfg); [eauto|]. by rewrite (proj2 Hfb eq_refl) in Hs. }
  unfold NewRedisSentinelProxy, deref_p.
  destruct Hmc as [mc ->], Hid as [idl ->], Hdb as [db ->], Hro as [ro Hro]. cbn [result_bind].
  rewrite Hro. cbn [boolSet].
  destruct (strSet (Listen cfg)) eqn:El, (strSet (ReplicaListen cfg)) eqn:Er; [..|by destruct Hl].
  - destruct (Listen cfg ≫= _); [|done]. cbn [result_bind].
    destruct (ReplicaListen cfg ≫= _); [|done]. destruct (Hfb' eq_refl) as [fb ->]. destruct ro; cbn; eauto.
  - destruct (Listen cfg ≫= _); [|done]. destruct ro; cbn; eauto.
  - destruct (ReplicaListen cfg ≫= _); [|done]. destruct (Hfb' eq_refl) as [fb ->]. destruct ro; cbn; eauto.
Qed.

(** ** Witnesses *)

Module ProxyDemo.
Import ResolverDemo.
Definition upper_id : UnicodeUpper := fun s => s.

(** A proxy in front of the demonstration's group, a client that sends a PING
    and a network on which only 10.0.0.1 answers. *)
Definition cfg : Config := set_Listen (set_ReplicaListen Default (Some ":6381"%string)) (Some ":6380"%string).
Definition listen_addr (s : string) : option TCPAddr := Some (MkTCPAddr [] 6380 "").
Definition prx : RedisSentinelProxy :=
  match NewRedisSentinelProxy listen_addr cfg with
  | Ok p => p
  | Err _ => MkProxy None None None 0 None false false None false false false
  end.
Definition conn (s : string) : netconn :=
  MkConn (MkReader (bytes s) EOF) (MkWriter [] None) true false false.
Definition client_conn : incoming := MkIncoming (conn "PING") None.
Definition network (ds : list dial_req) (q : dial_req) : option netconn :=
  if String.eqb (d_addr q) "10.0.0.1:6379" then Some (conn "PONG") else None.
Definition everywhere (ds : list dial_req) (q : dial_req) : option netconn := Some (conn "PONG").
(** The resolver while it still publishes a master that is gone. *)
Definition stale : RedisMasterResolver := set_master "10.0.0.9:6379" "old" r1.

Example failover_demo :
  fst (proxy prx network (up 5) pickMaster client_conn (MkH stale [])) =
  Piped (close (close_write (with_cw (MkWriter (bytes "PONG") None) (conn "PING"))))
    (close (close_write (with_cw (MkWriter (bytes "PING") None) (conn "PONG")))) "10.0.0.1:6379" LMaster.
Proof. vm_compute. reflexivity. Qed.
End ProxyDemo.

Section ProxyWitnesses.
Import ResolverDemo ProxyDemo.
#[local] Existing Instance upper_id.

Lemma stale_ready : resolver_ready (res (MkH stale [])).
Proof. split; [vm_compute; reflexivity|]. vm_compute. split; [discriminate|reflexivity]. Qed.

Lemma proxy_dials_witness :
  exists ds, dialed (snd (proxy prx network (up 5) pickMaster client_conn (MkH stale []))) = [] ++ ds /\
    (length ds <= 2)%nat.
Proof.
  destruct (proxy_dials resolver_ready prx network (up 5) pickMaster client_conn (MkH stale [])
    (snd (proxy prx network (up 5) pickMaster client_conn (MkH stale [])))
    (fst (proxy prx network (up 5) pickMaster client_conn (MkH stale []))))
    as (_ & ds & Hd & Hl & _).
  - apply (pickMaster_ok resolver_ready).
  - exact stale_ready.
  - apply surjective_pairing.
  - exists ds. split; [exact Hd|exact Hl].
Defined.

Lemma proxy_transparent_witness :
  exists remote, written (cw (conn "PING")) ++ pending (cr remote) = bytes "PONG".
Proof.
  destruct (proxy_transparent prx network (up 5) pickMaster client_conn (MkH stale [])
    (snd (proxy prx network (up 5) pickMaster client_conn (MkH stale [])))
    (close (close_write (with_cw (MkWriter (bytes "PONG") None) (conn "PING"))))
    (close (close_write (with_cw (MkWriter (bytes "PING") None) (conn "PONG"))))
    "10.0.0.1:6379" LMaster) as (remote & _ & _ & _ & _ & _ & Hc & _).
  - vm_compute. reflexivity.
  - exists remote. symmetry. exact (Hc eq_refl).
Defined.

Lemma replica_endpoint_policy_witness :
  exists f r, replicaAddress = Some f /\
    f r = (ReplicaPicked "10.0.0.2:6379", res (snd (proxy prx everywhere (up 5) (pickReplica prx)
                                              client_conn (MkH r1 [])))).
Proof.
  destruct (replica_endpoint_policy prx everywhere (up 5) client_conn (MkH r1 [])
    (snd (proxy prx everywhere (up 5) (pickReplica prx) client_conn (MkH r1 [])))
    (close (close_write (with_cw (MkWriter (bytes "PONG") None) (conn "PING"))))
    (close (close_write (with_cw (MkWriter (bytes "PING") None) (conn "PONG"))))
    "10.0.0.2:6379" LReplica) as (f & r & Hf & [[_ H] | [H _]]).
  - vm_compute. reflexivity.
  - exists f, r. split; [exact Hf|exact H].
  - discriminate H.
Defined.

Lemma failover_recovers_witness :
  exists r', connectBackend prx network (up 5) pickMaster (MkH stale []) =
    (Connected (conn "PONG") "10.0.0.1:6379" LMaster,
     MkH r' [request prx "10.0.0.9:6379"; request prx "10.0.0.1:6379"]).
Proof.
  destruct (failover_recovers prx network (up 5) stale [] "10.0.0.1:6379" (conn "PONG")) as (r' & H & _).
  - vm_compute. reflexivity.
  - vm_compute. reflexivity.
  - vm_compute. exact I.
  - exists "10.0.0.1"%string, "6379"%string, (MkTCPAddr (v4_prefix ++ [10; 0; 0; 1]) 6379 "").
    split; [reflexivity|]. split; [|split; [exists []|]; vm_compute; reflexivity].
    apply usableTCPAddr_Ok. vm_compute. reflexivity.
  - vm_compute. reflexivity.
  - vm_compute. reflexivity.
  - exists r'. exact H.
Defined.

(** A client of the router-mode endpoint that sends one command. *)
Definition get_client : incoming :=
  MkIncoming (MkConn (MkReader (encode_command [bytes "GET"; bytes "k"]) EOF) (MkWriter [] None)
    true false false) None.

Lemma routedProxy_routes_witness :
  closed (client (e_session (match fst (routedProxy prx everywhere (up 5) (up 5) get_client (MkH r1 [])) with
    | Routed e _ _ => e | _ => MkEnd (MkSession (conn "") (conn "") None 0 0) None RunFuel end))) = true.
Proof.
  destruct (routedProxy prx everywhere (up 5) (up 5) get_client (MkH r1 [])) as [e h'] eqn:E.
  assert (exists x y z, e = Routed x y z) as (x & y & z & ->).
  { replace e with (fst (routedProxy prx everywhere (up 5) (up 5) get_client (MkH r1 []))) by (by rewrite E).
    vm_compute. eauto. }
  destruct (routedProxy_routes prx everywhere (up 5) (up 5) get_client (MkH r1 []) h' x y z) as (_ & H & _).
  - intros ds q c [= <-]. reflexivity.
  - exact E.
  - exact H.
Defined.

Lemma router_without_replica_listen_witness :
  exists r', dialReplicaForRouting prx everywhere (up 9)
    (MkH (close_initial (snd (updateMasterAddress (up 0) (new 3 None)))) []) = inl (None, MkH r' []).
Proof.
  apply (router_without_replica_listen prx everywhere
    (set_ReplicaListen (set_Router (set_ResolveRetries Default (Some 3)) (Some true)) None)
    (new 3 None) _ [up 0]).
  - reflexivity.
  - vm_compute. reflexivity.
  - apply reach_initial_done, reach_update, reach_new.
  - vm_compute. reflexivity.
Defined.

End ProxyWitnesses.
