(* ===== verification/Server.v ===== *)
(** * Server: running sessions and listeners (pkg/proxy/proxy.go)

    The parts of proxy.go that are concurrent: the two [pipe] goroutines of a
    session ([Duplex]) with the byte counters of debug mode ([Counting]), the
    idle timeout their readers share ([Idle]), [Run] with the accept loops of
    both endpoints, the connection limit and the shutdown ([Listeners]), and the
    goroutines of [Run] with their listeners ([Lifecycle]).  Each is a step
    system; the theorems hold for every interleaving of its steps. *)

From Stdlib Require Import Strings.Byte String ZArith Lia.
From stdpp Require Import base list strings gmap relations.
From S2P Require Import Prelude GoStd GoTime Config NetAddr Netio Resp Routing Resolver Proxy.

Local Open Scope Z_scope.

(** ** Two pipes over two connections *)

Module Duplex.

(** A session in pipe mode: both connections and which direction has ended and
    signalled. *)
Record duplex : Type := MkDuplex {
  d_client : netconn;
  d_remote : netconn;
  down_done : bool;        (* backend to client *)
  up_done : bool           (* client to backend *)
}.

(** One direction of [io.Copy], chunk by chunk, from [src] to [dst]; the chunk's
    size is whatever the read delivered.  [None] when the direction goes on. *)
Definition copy_chunk (n : nat) (dst src : netconn) : netconn * netconn * bool :=
  let (w', err) := Netio.Write (take n (pending (cr src))) (cw dst) in
  let dst := with_cw w' dst in
  let src := with_cr (advance n (cr src)) src in
  match err with
  | None => (dst, src, false)
  | Some _ => (if has_closewrite dst then close_write dst else close dst, src, true)
  end.

(** The source has ended: half-close. *)
Definition copy_end (dst : netconn) : netconn :=
  if has_closewrite dst then close_write dst else close dst.

Inductive step : duplex -> duplex -> Prop :=
| down_chunk n c m u c' m' b :
    (0 < n <= length (pending (cr m)))%nat -> copy_chunk n c m = (c', m', b) ->
    step (MkDuplex c m false u) (MkDuplex c' m' b u)
| down_end c m u :
    pending (cr m) = [] -> step (MkDuplex c m false u) (MkDuplex (copy_end c) m true u)
| up_chunk n c m d c' m' b :
    (0 < n <= length (pending (cr c)))%nat -> copy_chunk n m c = (m', c', b) ->
    step (MkDuplex c m d false) (MkDuplex c' m' d b)
| up_end c m d :
    pending (cr c) = [] -> step (MkDuplex c m d false) (MkDuplex c (copy_end m) d true).

(** Both signals received: [proxy] goes on to close the connections. *)
Definition finished (d : duplex) : Prop := down_done d = true /\ up_done d = true.

(** What is left to do. *)
Definition measure (d : duplex) : nat :=
  length (pending (cr (d_client d))) + length (pending (cr (d_remote d)))
  + (if down_done d then 0 else 1) + (if up_done d then 0 else 1).

(** *** Lemmas *)

(** What the destination of a direction will have received at its end. *)
Definition delivers (dst : netconn) (src : netconn) : list byte :=
  written (fst (Netio.Write (pending (cr src)) (cw dst))).

Lemma copy_chunk_delivers n dst src dst' src' b :
  copy_chunk n dst src = (dst', src', b) ->
  delivers dst src = (if b then written (cw dst') else delivers dst' src') /\
  cr dst' = cr dst /\ cw src' = cw src /\ has_closewrite dst' = has_closewrite dst /\
  has_closewrite src' = has_closewrite src /\ wclosed src' = wclosed src /\ closed src' = closed src /\
  cr src' = advance n (cr src) /\
  (if b then wclosed dst' = true else wclosed dst' = wclosed dst) /\
  (has_closewrite dst = true -> closed dst' = closed dst).
Proof.
  unfold copy_chunk, delivers.
  assert (pending (cr src) = take n (pending (cr src)) ++ drop n (pending (cr src))) as Hsplit
    by by rewrite take_drop.
  destruct (Netio.Write (take n (pending (cr src))) (cw dst)) as [w' o] eqn:E.
  assert (written (fst (Netio.Write (pending (cr src)) (cw dst))) =
    match o with
    | Some _ => written w'
    | None => written (fst (Netio.Write (drop n (pending (cr src))) w'))
    end) as Hw.
  { rewrite Hsplit at 1. clear Hsplit. revert E. unfold Netio.Write.
    set (a := take n _). set (b' := drop n _). destruct (room (cw dst)) as [k|].
    - destruct (length a <=? k)%nat eqn:Hk; to_prop; intros [= <- <-].
      + cbn [room written]. rewrite length_app.
        destruct (length b' <=? k - length a)%nat eqn:Hk2; to_prop.
        * rewrite (proj2 (Nat.leb_le _ _)) by lia. cbn. by rewrite app_assoc.
        * rewrite (proj2 (Nat.leb_gt _ _)) by lia. cbn.
          rewrite take_app, (take_ge a) by lia. by rewrite app_assoc.
      + cbn. rewrite length_app, (proj2 (Nat.leb_gt _ _)) by lia. cbn.
        rewrite take_app_le by lia. done.
    - intros [= <- <-]. cbn. by rewrite app_assoc. }
  destruct o; intros [= <- <- <-]; rewrite Hw; cbn;
    destruct (has_closewrite dst) eqn:Hcw; cbn; rewrite ?Hcw; split_and!; done.
Qed.

Lemma copy_end_out dst :
  written (cw (copy_end dst)) = written (cw dst) /\ cr (copy_end dst) = cr dst /\
  wclosed (copy_end dst) = true /\ has_closewrite (copy_end dst) = has_closewrite dst /\
  (has_closewrite dst = true -> closed (copy_end dst) = closed dst).
Proof. unfold copy_end. by destruct (has_closewrite dst) eqn:E; cbn; rewrite ?E. Qed.

(** What the two sides hold when the session is over, read off any of its
    states. *)
Definition final_client (d : duplex) : list byte :=
  if down_done d then written (cw (d_client d)) else delivers (d_client d) (d_remote d).
Definition final_remote (d : duplex) : list byte :=
  if up_done d then written (cw (d_remote d)) else delivers (d_remote d) (d_client d).

Lemma delivers_nil dst src : pending (cr src) = [] -> delivers dst src = written (cw dst).
Proof.
  intros E. unfold delivers, Netio.Write. rewrite E.
  destruct (room (cw dst)); cbn; by rewrite app_nil_r.
Qed.

Lemma delivers_cw dst dst' src src' :
  cw dst' = cw dst -> cr src' = cr src -> delivers dst' src' = delivers dst src.
Proof. unfold delivers. by intros -> ->. Qed.

Lemma step_final d d' :
  step d d' -> final_client d' = final_client d /\ final_remote d' = final_remote d.
Proof.
  unfold final_client, final_remote.
  destruct 1 as [n c m u c' m' b Hn E|c m u E|n c m d c' m' b Hn E|c m d E]; cbn.
  - apply copy_chunk_delivers in E as (-> & Hcr & Hcw & _). split; [by destruct b|].
    destruct u; [by rewrite Hcw|]. by apply delivers_cw.
  - rewrite (delivers_nil c m E). destruct (copy_end_out c) as (-> & Hcr & _). split; [done|].
    destruct u; [done|]. by apply delivers_cw.
  - apply copy_chunk_delivers in E as (-> & Hcr & Hcw & _). split; [|by destruct b].
    destruct d; [by rewrite Hcw|]. by apply delivers_cw.
  - rewrite (delivers_nil m c E). destruct (copy_end_out m) as (-> & Hcr & _). split; [|done].
    destruct d; [done|]. by apply delivers_cw.
Qed.

Lemma step_measure d d' : step d d' -> (measure d' < measure d)%nat.
Proof.
  unfold measure.
  destruct 1 as [n c m u c' m' b Hn E|c m u E|n c m d c' m' b Hn E|c m d E]; cbn.
  - apply copy_chunk_delivers in E as (_ & -> & _ & _ & _ & _ & _ & -> & _).
    unfold advance. cbn. rewrite length_drop. destruct b; lia.
  - destruct (copy_end_out c) as (_ & -> & _). lia.
  - apply copy_chunk_delivers in E as (_ & -> & _ & _ & _ & _ & _ & -> & _).
    unfold advance. cbn. rewrite length_drop. destruct b; lia.
  - destruct (copy_end_out m) as (_ & -> & _). lia.
Qed.

Lemma step_progress d : ~ finished d -> exists d', step d d'.
Proof.
  destruct d as [c m [|] [|]]; unfold finished; cbn; intros Hf; [by destruct Hf|..].
  - destruct (decide (pending (cr c) = [])) as [E|E]; [eexists; by apply up_end|].
    destruct (copy_chunk 1 m c) as [[m' c'] b] eqn:Hc. eexists. eapply (up_chunk 1); [|done].
    destruct (pending (cr c)); [done|cbn; lia].
  - destruct (decide (pending (cr m) = [])) as [E|E]; [eexists; by apply down_end|].
    destruct (copy_chunk 1 c m) as [[c' m'] b] eqn:Hc. eexists. eapply (down_chunk 1); [|done].
    destruct (pending (cr m)); [done|cbn; lia].
  - destruct (decide (pending (cr m) = [])) as [E|E]; [eexists; by apply down_end|].
    destruct (copy_chunk 1 c m) as [[c' m'] b] eqn:Hc. eexists. eapply (down_chunk 1); [|done].
    destruct (pending (cr m)); [done|cbn; lia].
Qed.

Lemma pipe_delivers dst src : written (cw (pipe dst (cr src))) = delivers dst src.
Proof.
  unfold pipe, Copy, delivers. destruct (Netio.Write _ _) as [w' o].
  destruct o; cbn; by destruct (has_closewrite dst).
Qed.

(** C20: The two goroutines of a session need no order: however their chunks
    interleave, every run of the session comes to an end, with both signals
    given, and then each side has received exactly what one [pipe] after the
    other would have delivered to it. *)
Theorem pipes_interleave (c m : netconn) :
  (forall d, rtc step (MkDuplex c m false false) d -> ~ finished d -> exists d', step d d') /\
  (forall d n, nsteps step n (MkDuplex c m false false) d ->
     (n <= length (pending (cr c)) + length (pending (cr m)) + 2)%nat) /\
  (forall d, rtc step (MkDuplex c m false false) d -> finished d ->
     written (cw (d_client d)) = written (cw (pipe c (cr m))) /\
     written (cw (d_remote d)) = written (cw (pipe m (cr c)))).
Proof.
  split; [intros d _; apply step_progress|]. split.
  - assert (forall n d d', nsteps step n d d' -> (n + measure d' <= measure d)%nat) as H.
    { induction 1 as [|n d1 d2 d3 Hs _ IH]; [lia|]. apply step_measure in Hs. lia. }
    intros d n Hn. apply H in Hn. unfold measure in Hn at 2. cbn in Hn. lia.
  - intros d Hd [Hd1 Hd2].
    assert (final_client d = delivers c m /\ final_remote d = delivers m c) as [H1 H2].
    { change (final_client d = final_client (MkDuplex c m false false) /\
              final_remote d = final_remote (MkDuplex c m false false)).
      induction Hd as [|d1 d2 d3 Hs _ IH]; [done|]. destruct (step_final _ _ Hs) as [<- <-]. by apply IH. }
    unfold final_client in H1. unfold final_remote in H2. rewrite Hd1 in H1. rewrite Hd2 in H2.
    by rewrite !pipe_delivers.
Qed.
End Duplex.

(** ** The byte counters of debug mode *)

Module Counting.
Import Duplex.

(** [countingReader.Read] when the wrapped reader returns [n] bytes. *)
Definition countingRead (n : nat) (counter : Z) : Z := wrap64 (counter + Z.of_nat n).

(** A session with its counters: [sent] wraps the client's connection,
    [received] the backend's. *)
Record counted : Type := MkCounted { c_session : duplex; sent : Z; received : Z }.

Inductive cstep : counted -> counted -> Prop :=
| count_down_chunk n c m u c' m' b s r :
    (0 < n <= length (pending (cr m)))%nat -> copy_chunk n c m = (c', m', b) ->
    cstep (MkCounted (MkDuplex c m false u) s r) (MkCounted (MkDuplex c' m' b u) s (countingRead n r))
| count_down_end c m u s r :
    pending (cr m) = [] ->
    cstep (MkCounted (MkDuplex c m false u) s r)
      (MkCounted (MkDuplex (copy_end c) m true u) s (countingRead 0 r))
| count_up_chunk n c m d c' m' b s r :
    (0 < n <= length (pending (cr c)))%nat -> copy_chunk n m c = (m', c', b) ->
    cstep (MkCounted (MkDuplex c m d false) s r) (MkCounted (MkDuplex c' m' d b) (countingRead n s) r)
| count_up_end c m d s r :
    pending (cr c) = [] ->
    cstep (MkCounted (MkDuplex c m d false) s r)
      (MkCounted (MkDuplex c (copy_end m) d true) (countingRead 0 s) r).

(** *** Lemmas *)

Lemma cstep_step x y : cstep x y -> step (c_session x) (c_session y).
Proof. destruct 1; cbn; by econstructor. Qed.

Lemma step_cstep x d' : step (c_session x) d' -> exists y, cstep x y /\ c_session y = d'.
Proof.
  destruct x as [d s r]. cbn. destruct 1; eexists; (split; [by econstructor|done]).
Qed.

(** What the counters count: the bytes taken from each side's stream. *)
Definition count_inv (c m : netconn) (x : counted) : Prop :=
  let taken (a b : netconn) := Z.of_nat (length (pending (cr a))) - Z.of_nat (length (pending (cr b))) in
  sent x = wrap64 (taken c (d_client (c_session x))) /\
  received x = wrap64 (taken m (d_remote (c_session x))).

Lemma cstep_inv c m x y : cstep x y -> count_inv c m x -> count_inv c m y.
Proof.
  unfold count_inv. cbv zeta.
  assert (forall a n k, (n <= k)%nat -> wrap64 (wrap64 (a - Z.of_nat k) + Z.of_nat n) = wrap64 (a - Z.of_nat (k - n)))
    as Hw.
  { intros a n k Hk. rewrite wrap64_add_l. f_equal. lia. }
  destruct 1 as [n c0 m0 u c' m' b s r Hn E|c0 m0 u s r E|n c0 m0 u c' m' b s r Hn E|c0 m0 u s r E];
    cbn; intros [-> ->]; unfold countingRead.
  1,3: apply copy_chunk_delivers in E as (_ & -> & _ & _ & _ & _ & _ & -> & _);
    unfold advance; cbn; rewrite length_drop, Hw by lia; done.
  all: destruct (copy_end_out c0) as (_ & H1 & _), (copy_end_out m0) as (_ & H2 & _).
  all: rewrite ?H1, ?H2, ?wrap64_add_l, Z.add_0_r; done.
Qed.

(** A direction whose writes cannot fail ends only at the end of its stream. *)
Definition drained (d : duplex) : Prop :=
  (room (cw (d_remote d)) = None -> up_done d = true -> pending (cr (d_client d)) = []) /\
  (room (cw (d_client d)) = None -> down_done d = true -> pending (cr (d_remote d)) = []).

Lemma copy_chunk_room n dst src dst' src' b :
  copy_chunk n dst src = (dst', src', b) ->
  cw src' = cw src /\ (room (cw dst') = None -> room (cw dst) = None /\ b = false) /\
  (room (cw dst) = None -> room (cw dst') = None).
Proof.
  unfold copy_chunk, Netio.Write. destruct (room (cw dst)) eqn:Hr.
  - destruct (_ <=? _)%nat; intros [= <- <- <-]; cbn; [done|]. by destruct (has_closewrite dst).
  - by intros [= <- <- <-].
Qed.

Lemma copy_end_room dst : cw (copy_end dst) = cw dst.
Proof. unfold copy_end. by destruct (has_closewrite dst). Qed.

Lemma step_drained d d' : step d d' -> drained d -> drained d'.
Proof.
  unfold drained.
  destruct 1 as [n c m u c' m' b Hn E|c m u E|n c m u c' m' b Hn E|c m u E]; cbn; intros [Hu Hd];
    rewrite ?copy_end_room.
  - pose proof (copy_chunk_delivers _ _ _ _ _ _ E) as (_ & -> & _).
    apply copy_chunk_room in E as (-> & Hr & _). split; [done|]. intros [_ ->]%Hr. done.
  - destruct (copy_end_out c) as (_ & -> & _). done.
  - pose proof (copy_chunk_delivers _ _ _ _ _ _ E) as (_ & -> & _).
    apply copy_chunk_room in E as (-> & Hr & _). split; [|done]. intros [_ ->]%Hr. done.
  - destruct (copy_end_out m) as (_ & -> & _). done.
Qed.

Lemma step_room d d' :
  step d d' ->
  (room (cw (d_client d)) = None -> room (cw (d_client d')) = None) /\
  (room (cw (d_remote d)) = None -> room (cw (d_remote d')) = None).
Proof.
  destruct 1 as [n c m u c' m' b Hn E|c m u E|n c m u c' m' b Hn E|c m u E]; cbn; rewrite ?copy_end_room; try done.
  all: apply copy_chunk_room in E as (-> & _ & ?); done.
Qed.

(** All of it along a run. *)
Definition tracks (c m : netconn) (x : counted) : Prop :=
  rtc step (MkDuplex c m false false) (c_session x) /\ count_inv c m x /\ drained (c_session x) /\
  (room (cw c) = None -> room (cw (d_client (c_session x))) = None) /\
  (room (cw m) = None -> room (cw (d_remote (c_session x))) = None).

Lemma tracks_rtc c m x y : rtc cstep x y -> tracks c m x -> tracks c m y.
Proof.
  induction 1 as [|x y z Hxy _ IH]; [done|]. intros (I1 & I2 & I3 & I4 & I5). apply IH.
  pose proof (cstep_step _ _ Hxy) as Hs. destruct (step_room _ _ Hs).
  split_and!; [by eapply rtc_r|by eapply cstep_inv|by eapply step_drained|auto..].
Qed.

Lemma rtc_cstep x d : rtc step (c_session x) d -> exists y, rtc cstep x y /\ c_session y = d.
Proof.
  intros Hd. remember (c_session x) as d0 eqn:Hx. revert x Hx.
  induction Hd as [d|d1 d2 d3 Hs _ IH]; intros x Hx; [by exists x|].
  rewrite Hx in Hs. apply step_cstep in Hs as (y & Hy & Hyd). destruct (IH y) as (z & Hz & ?); [done|].
  exists z. split; [by eapply rtc_l|done].
Qed.

(** C30: Debug mode watches without touching: the counted session makes exactly
    the steps of the plain one, in every interleaving; at any time the counters
    are the bytes taken from the client's and from the backend's stream, as
    64-bit integers; and when the session has ended without a failed write they
    are the sizes of all that each side has sent. *)
Theorem debug_counters (c m : netconn) :
  let d0 := MkDuplex c m false false in
  (forall d, rtc step d0 d -> exists x, rtc cstep (MkCounted d0 0 0) x /\ c_session x = d) /\
  forall x, rtc cstep (MkCounted d0 0 0) x ->
    rtc step d0 (c_session x) /\ count_inv c m x /\
    (room (cw c) = None -> room (cw m) = None -> finished (c_session x) ->
     sent x = wrap64 (Z.of_nat (length (pending (cr c)))) /\
     received x = wrap64 (Z.of_nat (length (pending (cr m))))).
Proof.
  cbv zeta. set (d0 := MkDuplex c m false false).
  split; [intros d; apply (rtc_cstep (MkCounted d0 0 0))|].
  intros x Hx. assert (tracks c m x) as (H1 & H2 & [H3 H3'] & H4 & H5).
  { apply (tracks_rtc _ _ _ _ Hx). unfold tracks, count_inv. cbn. rewrite !Z.sub_diag.
    split_and!; done. }
  split_and!; [done|done|..]; destruct H2 as [-> ->]; intros Hc Hm [Hd Hu].
  rewrite H3, H3' by auto. cbn. by rewrite !Z.sub_0_r.
Qed.

(** A write that fails half way: four bytes were taken, two delivered. *)
Example counts_reads :
  let c := MkConn (MkReader [] EOF) (MkWriter [] (Some 2%nat)) true false false in
  let m := MkConn (MkReader (bytes "PONG") EOF) (MkWriter [] None) true false false in
  exists x, cstep (MkCounted (MkDuplex c m false false) 0 0) x /\ received x = 4 /\
    written (cw (d_client (c_session x))) = bytes "PO".
Proof.
  eexists. split; [eapply (count_down_chunk 4); [cbn; lia|reflexivity]|]. done.
Qed.
End Counting.

(** ** The idle timeout *)

Module Idle.

(** A session with its two [idleConn]s as a timed system: the goroutines of both
    directions run [Read] again and again, over one clock and one activity
    word.  A step is one access to what they share; a clock reading and the
    access it is used in are two steps, since the other goroutine may come
    between them. *)

(** Where a direction is in [Read]; the last field of a phase between two
    statements that do not block is the time it was entered. *)
Inductive read_phase : Type :=
| Setting                                            (* at SetReadDeadline *)
| Waiting (deadline : Z)                             (* in Conn.Read *)
| Arrived (n : Z) (err : option io_err) (x : Z)      (* n > 0: at time.Now *)
| Storing (n : Z) (err : option io_err) (y : Z)      (* at activity.Store of y *)
| Checking (n : Z) (err : option io_err)             (* at errors.Is *)
| Loaded (n : Z) (err : option io_err) (a l : Z)     (* a loaded, at time.Since *)
| Returned (n : Z) (err : option io_err).

Record idleConns : Type := MkSession {
  clock : Z;
  activity : Z;
  traffic : list Z;        (* when either side sent something, and the start *)
  s_in : read_phase;       (* reads from the client *)
  s_out : read_phase       (* reads from the backend *)
}.

Definition phase_of (d : bool) (s : idleConns) : read_phase := if d then s_in s else s_out s.
Definition set_phase (d : bool) (ph : read_phase) (s : idleConns) : idleConns :=
  if d then MkSession (clock s) (activity s) (traffic s) ph (s_out s)
  else MkSession (clock s) (activity s) (traffic s) (s_in s) ph.
Definition set_activity (a : Z) (s : idleConns) : idleConns :=
  MkSession (clock s) a (traffic s) (s_in s) (s_out s).
Definition add_traffic (s : idleConns) : idleConns :=
  MkSession (clock s) (activity s) (traffic s ++ [clock s]) (s_in s) (s_out s).

(** What the environment decides at a step. *)
Inductive act : Type :=
| Go                                                 (* the next statement *)
| Sets (err : option io_err)                         (* SetReadDeadline returns *)
| Gives (n : Z) (err : option io_err).               (* Conn.Read returns *)

(** A session starts with the activity word set to the time. *)
Definition open_session (t : Z) : idleConns := MkSession t t [t] Setting Setting.

Section Timed.
Variable timeout : Z.
(** How long a goroutine takes at most between two statements that do not
    block. *)
Variable delay : Z.

(** One step of [idleConn.Read] in direction [d], and the next call of it by
    [io.Copy] after a read without an error. *)
Definition read_step (d : bool) (a : act) (s : idleConns) : option idleConns :=
  match phase_of d s, a with
  | Setting, Sets None => Some (set_phase d (Waiting (clock s + timeout)) s)
  | Setting, Sets (Some e) => Some (set_phase d (Returned 0 (Some e)) s)
  | Waiting deadline, Gives n err =>
      if bool_decide (err = Some ErrDeadlineExceeded) && (clock s <? deadline) then None
      else if 0 <? n then Some (set_phase d (Arrived n err (clock s)) (add_traffic s))
      else Some (set_phase d (Checking n err) s)
  | Arrived n err _, Go => Some (set_phase d (Storing n err (clock s)) s)
  | Storing n err y, Go => Some (set_phase d (Checking n err) (set_activity y s))
  | Checking n err, Go =>
      if bool_decide (err = Some ErrDeadlineExceeded)
      then Some (set_phase d (Loaded n err (activity s) (clock s)) s)
      else Some (set_phase d (Returned n err) s)
  | Loaded n err a _, Go =>
      if clock s - a <? timeout then Some (set_phase d Setting s)
      else Some (set_phase d (Returned n err) s)
  | Returned _ None, Go => Some (set_phase d Setting s)
  | _, _ => None
  end.

(** A direction is not late. *)
Definition prompt (now : Z) (ph : read_phase) : Prop :=
  match ph with
  | Arrived _ _ t | Storing _ _ t | Loaded _ _ _ t => now <= t + delay
  | _ => True
  end.

(** A session runs by the steps of its directions and by time that passes. *)
Inductive runs (t0 : Z) : idleConns -> Prop :=
| runs_start : runs t0 (open_session t0)
| runs_read s d a s' : runs t0 s -> read_step d a s = Some s' -> runs t0 s'
| runs_time s now :
    runs t0 s -> clock s <= now -> prompt now (s_in s) -> prompt now (s_out s) ->
    runs t0 (MkSession now (activity s) (traffic s) (s_in s) (s_out s)).

(** The direction has yet to store that something was sent at [x]. *)
Definition unstored (x : Z) (ph : read_phase) : Prop :=
  match ph with
  | Arrived _ _ x' => x = x'
  | Storing _ _ y => x <= y <= x + delay
  | _ => False
  end.

(** A time taken from the clock goes back to something sent just before. *)
Definition recorded (s : idleConns) (a : Z) : Prop := exists x, x ∈ traffic s /\ x <= a <= x + delay.

Definition phase_inv (s : idleConns) (ph : read_phase) : Prop :=
  prompt (clock s) ph /\
  match ph with
  | Arrived _ _ x => x ∈ traffic s /\ x <= clock s
  | Storing _ _ y => recorded s y /\ y <= clock s
  | Loaded _ _ a l => recorded s a /\ l <= clock s /\
      forall x, x ∈ traffic s -> x <= a + delay \/ l <= x + 2 * delay
  | _ => True
  end.

(** Everything sent is covered by the activity word or about to be stored. *)
Definition session_inv (s : idleConns) : Prop :=
  recorded s (activity s) /\ (forall d, phase_inv s (phase_of d s)) /\
  forall x, x ∈ traffic s -> x <= clock s /\
    (x <= activity s + delay \/ exists d, unstored x (phase_of d s)).

Hypothesis delay_nonneg : 0 <= delay.

Lemma phase_of_set d d' ph s :
  phase_of d' (set_phase d ph s) = if Bool.eqb d d' then ph else phase_of d' s.
Proof. by destruct d, d'. Qed.

Lemma inv_set d ph s :
  session_inv s -> phase_inv s ph -> (forall x, unstored x (phase_of d s) -> unstored x ph) ->
  session_inv (set_phase d ph s).
Proof.
  intros (H1 & H2 & H3) Hp Hu.
  assert (clock (set_phase d ph s) = clock s /\ activity (set_phase d ph s) = activity s /\
          traffic (set_phase d ph s) = traffic s) as (E1 & E2 & E3) by by destruct d.
  unfold session_inv, phase_inv, recorded in *. rewrite E1, E2, E3. split_and!; [done|..].
  - intros d'. rewrite phase_of_set. destruct (Bool.eqb d d'); [done|apply H2].
  - intros x Hx. destruct (H3 x Hx) as [Hle Hc]. split; [done|].
    destruct Hc as [?|[d' Hd]]; [by left|right]. exists d'. rewrite phase_of_set.
    destruct (Bool.eqb d d') eqn:Hdd; [|done]. apply eqb_prop in Hdd as <-. auto.
Qed.

(** A direction takes the clock's time: it is new for all that was sent. *)
Lemma inv_gives d n err s :
  session_inv s -> (forall x, ~ unstored x (phase_of d s)) ->
  session_inv (set_phase d (Arrived n err (clock s)) (add_traffic s)).
Proof.
  intros (H1 & H2 & H3) Hu.
  assert (forall a, recorded s a -> recorded (add_traffic s) a) as Hr.
  { intros a (x & Hx & ?). exists x. split; [set_solver|done]. }
  assert (forall d', phase_inv (add_traffic s) (phase_of d' s)) as H2'.
  { intros d'. destruct (H2 d') as [Hp Hph]. split; [done|].
    destruct (phase_of d' s); try done; cbn [traffic add_traffic clock].
    - split; [set_solver|apply Hph].
    - split; [apply Hr|]; apply Hph.
    - destruct Hph as (Ha & Hl & Hx). split; [by apply Hr|]. split; [done|].
      intros x [Hx'| ->%list_elem_of_singleton]%elem_of_app; [by apply Hx|right; lia]. }
  assert (phase_inv (add_traffic s) (Arrived n err (clock s))) as H4.
  { split; cbn; [lia|]. split; [set_solver|lia]. }
  assert (clock (set_phase d (Arrived n err (clock s)) (add_traffic s)) = clock s /\
          activity (set_phase d (Arrived n err (clock s)) (add_traffic s)) = activity s /\
          traffic (set_phase d (Arrived n err (clock s)) (add_traffic s)) = traffic (add_traffic s))
    as (E1 & E2 & E3) by by destruct d.
  unfold session_inv, phase_inv, recorded in *. rewrite E1, E2, E3. split_and!; [by apply Hr|..].
  - intros d'. rewrite phase_of_set. destruct (Bool.eqb d d'); [apply H4|]. destruct d'; [apply (H2' true)|apply (H2' false)].
  - cbn [traffic add_traffic]. intros x [Hx| ->%list_elem_of_singleton]%elem_of_app.
    + destruct (H3 x Hx) as [Hle Hc]. split; [done|]. destruct Hc as [?|[d' Hd]]; [by left|right].
      exists d'. rewrite phase_of_set. destruct (Bool.eqb d d') eqn:Hdd; [|by destruct d'].
      apply eqb_prop in Hdd as <-. by destruct (Hu x).
    + split; [lia|]. right. exists d. rewrite phase_of_set, eqb_reflx. done.
Qed.

(** A store: whatever was stored before it lies at most a delay after it. *)
Lemma inv_store d n err y s :
  session_inv s -> phase_of d s = Storing n err y ->
  session_inv (set_phase d (Checking n err) (set_activity y s)).
Proof.
  intros (H1 & H2 & H3) Hph. destruct (H2 d) as [Hp Hy]. rewrite Hph in Hp, Hy. cbn in Hp.
  destruct Hy as [Hy Hle].
  assert (clock (set_phase d (Checking n err) (set_activity y s)) = clock s /\
          activity (set_phase d (Checking n err) (set_activity y s)) = y /\
          traffic (set_phase d (Checking n err) (set_activity y s)) = traffic s)
    as (E1 & E2 & E3) by by destruct d.
  unfold session_inv, phase_inv, recorded in *. rewrite E1, E2, E3. split_and!; [done|..].
  - intros d'. rewrite phase_of_set. destruct (Bool.eqb d d'); [done|]. destruct d'; [apply (H2 true)|apply (H2 false)].
  - intros x Hx. destruct (H3 x Hx) as [Hxc _]. split; [done|]. left. lia.
Qed.

Lemma inv_read s d a s' : session_inv s -> read_step d a s = Some s' -> session_inv s'.
Proof.
  intros HI. pose proof HI as (H1 & H2 & H3). destruct (H2 d) as [Hp Hph].
  unfold read_step. destruct (phase_of d s) as [|dl|n err x|n err y|n err|n err b l|n [e|]] eqn:Eph;
    destruct a as [|[e'|]|n' err']; try done.
  all: try by intros [= <-]; apply inv_set; rewrite ?Eph.
  - destruct (_ && _); [done|]. destruct (_ <? _); intros [= <-].
    + apply inv_gives; [done|]. rewrite Eph. by intros ? [].

    + apply inv_set; rewrite ?Eph; done.
  - intros [= <-]. cbn in Hp, Hph. apply inv_set; rewrite ?Eph; [done| |].
    + split; [cbn; lia|]. split; [|lia]. exists x. split; [apply Hph|lia].
    + intros ? ->. cbn. lia.
  - intros [= <-]. by apply inv_store.
  - destruct (bool_decide _); intros [= <-]; apply inv_set; rewrite ?Eph; try done.
    split; [cbn; lia|]. split_and!; [done|lia|]. intros x Hx.
    destruct (H3 x Hx) as [_ [?|[d' Hd]]]; [by left|right].
    destruct (H2 d') as [Hp' Hph']. destruct (phase_of d' s); cbn in Hd, Hp', Hph'; try done; lia.
  - destruct (_ <? _); intros [= <-]; apply inv_set; by rewrite ?Eph.
Qed.

Lemma idle_runs_inv t0 s : runs t0 s -> session_inv s.
Proof.
  induction 1 as [|s d a s' _ IH Hs|s now _ (H1 & H2 & H3) Hn Hi Ho].
  - assert (recorded (open_session t0) t0) by (exists t0; cbn; split; [set_solver|lia]).
    split_and!; [done|by intros []|]. cbn. intros x ->%list_elem_of_singleton. split; [lia|left; lia].
  - by eapply inv_read.
  - split_and!; [done|..].
    + intros d. destruct (H2 d) as [_ Hph]. split; [by destruct d|].
      replace (phase_of d (MkSession _ _ _ _ _)) with (phase_of d s) by by destruct d.
      destruct (phase_of d s); try done; cbn [clock traffic].
      * split; [apply Hph|]. destruct Hph. lia.
      * split; [apply Hph|]. destruct Hph. lia.
      * destruct Hph as (Ha & Hl & Hx). split_and!; [done|lia|done].
    + intros x Hx. destruct (H3 x Hx) as [? Hc]. split; [cbn; lia|].
      destruct Hc as [?|[d Hd]]; [by left|right; by exists d].
Qed.

(** C29: A session is cut for idleness exactly when nobody has sent anything for
    the timeout, up to the time [delay] a goroutine may take between two
    statements.  In every run of the two directions, from the start of the
    session on: when a read ends with the deadline error of its connection,
    everything that either side has sent (and the start) lies the timeout back,
    unless it arrived so shortly before that it raced with the look at the
    activity word; and when a timed out read goes on waiting instead, one side
    has sent something within the timeout. *)
Theorem idle_only_when_silent (t0 : Z) (s s' : idleConns) (d : bool) (a : act) :
  runs t0 s -> read_step d a s = Some s' ->
  (forall n, phase_of d s' = Returned n (Some ErrDeadlineExceeded) -> phase_of d s <> Setting ->
     forall x, x ∈ traffic s -> x + timeout <= clock s + delay \/ clock s <= x + 3 * delay) /\
  (phase_of d s' = Setting -> (forall n, phase_of d s <> Returned n None) ->
     exists x, x ∈ traffic s /\ clock s < x + timeout + delay).
Proof.
  intros (_ & H2 & _)%idle_runs_inv. destruct (H2 d) as [Hp Hph]. unfold read_step.
  destruct (phase_of d s) as [|dl|n err x|n err y|n err|n err b l|n [e|]];
    destruct a as [|[e'|]|n' err']; try done; intros Hs; repeat case_match; simplify_eq;
    rewrite phase_of_set, eqb_reflx; (split; [intros m Hm Hne|intros Hm Hne]); simplify_eq.
  - to_prop. cbn in Hp. destruct Hph as ((x0 & Hx0 & Ha) & Hl & Hx). exists x0. split; [done|lia].
  - to_prop. cbn in Hp. destruct Hph as ((x0 & Hx0 & Ha) & Hl & Hx). intros x Hin. destruct (Hx x Hin); lia.
  - by destruct (Hne n).
Qed.

(** A session that has fallen silent is cut when the read's deadline passes:
    with a deadline at least the timeout after the word, and no store before
    the look, the read that times out returns. *)
Theorem idle_cut (d : bool) (s : idleConns) (deadline : Z) :
  phase_of d s = Waiting deadline -> activity s + timeout <= deadline -> deadline <= clock s ->
  exists s1 s2 s3, read_step d (Gives 0 (Some ErrDeadlineExceeded)) s = Some s1 /\
    read_step d Go s1 = Some s2 /\ read_step d Go s2 = Some s3 /\
    phase_of d s3 = Returned 0 (Some ErrDeadlineExceeded).
Proof.
  intros Eph H1 H2. eexists _, _, _. unfold read_step at 1. rewrite Eph.
  rewrite bool_decide_eq_true_2, (proj2 (Z.ltb_ge _ _)) by (done || lia). cbn [andb Z.ltb Z.compare].
  split; [done|]. unfold read_step at 1. rewrite phase_of_set, eqb_reflx, bool_decide_eq_true_2 by done.
  split; [done|]. unfold read_step. rewrite phase_of_set, eqb_reflx.
  assert (forall ph1 ph2, clock (set_phase d ph2 (set_phase d ph1 s)) = clock s) as -> by by destruct d.
  assert (forall ph, activity (set_phase d ph s) = activity s) as -> by by destruct d.
  rewrite (proj2 (Z.ltb_ge _ _)) by lia. split; [done|]. by rewrite phase_of_set, eqb_reflx.
Qed.
End Timed.

(** ** Witness *)

(** A timeout of 30 seconds and a millisecond of delay: the client sends
    something after 20 seconds; at 30 seconds the backend's direction times out
    and goes on waiting. *)
Definition demo_delay : Z := 1000000.
Definition after (s : idleConns) (dt : Z) : idleConns :=
  MkSession (clock s + dt) (activity s) (traffic s) (s_in s) (s_out s).
Definition reads (l : list (bool * act)) (s : idleConns) : option idleConns :=
  foldl (fun o x => s ← o; read_step (30 * Second) (fst x) (snd x) s) (Some s) l.
Definition both_wait : list (bool * act) := [(true, Sets None); (false, Sets None)].
Definition client_sends : list (bool * act) := [(true, Gives 4 None); (true, Go); (true, Go); (true, Go)].
Definition times_out (d : bool) : list (bool * act) := [(d, Gives 0 (Some ErrDeadlineExceeded)); (d, Go)].

Definition demo_looks : option idleConns :=
  s ← reads both_wait (open_session 0); s ← reads client_sends (after s (20 * Second));
  reads (times_out false) (after s (10 * Second)).

Lemma runs_reads t0 l s s' :
  runs (30 * Second) demo_delay t0 s -> reads l s = Some s' -> runs (30 * Second) demo_delay t0 s'.
Proof.
  unfold reads. revert s. induction l as [|[d a] l IH]; intros s Hr; cbn; [by intros [= <-]|].
  destruct (read_step _ d a s) as [s1|] eqn:E.
  - cbn [mbind option_bind]. apply IH. by eapply runs_read.
  - intros H. exfalso. revert H. clear. by induction l.
Qed.

Lemma runs_after t0 s dt :
  runs (30 * Second) demo_delay t0 s -> 0 <= dt ->
  prompt demo_delay (clock s + dt) (s_in s) -> prompt demo_delay (clock s + dt) (s_out s) ->
  runs (30 * Second) demo_delay t0 (after s dt).
Proof. intros. apply runs_time; try done. lia. Qed.

Lemma demo_runs : exists s, demo_looks = Some s /\ runs (30 * Second) demo_delay 0 s /\
  phase_of false s = Loaded 0 (Some ErrDeadlineExceeded) (20 * Second) (30 * Second).
Proof.
  unfold demo_looks.
  destruct (reads both_wait (open_session 0)) as [s1|] eqn:E1; [|vm_compute in E1; done].
  assert (runs (30 * Second) demo_delay 0 s1) as H1 by (eapply runs_reads; [constructor|exact E1]).
  vm_compute in E1. injection E1 as <-. cbn [mbind option_bind].
  apply (runs_after _ _ (20 * Second)) in H1; [|vm_compute; done..].
  destruct (reads client_sends _) as [s2|] eqn:E2; [|vm_compute in E2; done].
  eapply runs_reads in H1; [|exact E2]. vm_compute in E2. injection E2 as <-. cbn [mbind option_bind].
  apply (runs_after _ _ (10 * Second)) in H1; [|vm_compute; done..].
  destruct (reads (times_out false) _) as [s3|] eqn:E3; [|vm_compute in E3; done].
  eapply runs_reads in H1; [|exact E3]. exists s3. split; [done|]. split; [done|].
  vm_compute in E3. by injection E3 as <-.
Qed.

Lemma idle_only_when_silent_witness :
  exists s s', demo_looks = Some s /\ read_step (30 * Second) false Go s = Some s' /\
    phase_of false s' = Setting /\ exists x, x ∈ traffic s /\ clock s < x + 30 * Second + demo_delay.
Proof.
  destruct demo_runs as (s & Hd & Hr & Hp).
  destruct (read_step (30 * Second) false Go s) as [s'|] eqn:Es.
  - exists s, s'. split; [exact Hd|]. split; [exact Es|].
    assert (phase_of false s' = Setting) as Hs'.
    { vm_compute in Hd. injection Hd as <-. vm_compute in Es. injection Es as <-. reflexivity. }
    split; [exact Hs'|].
    refine (proj2 (idle_only_when_silent (30 * Second) demo_delay ltac:(vm_compute; discriminate)
                0 s s' false Go Hr Es) Hs' _).
    intros n. rewrite Hp. discriminate.
  - exfalso. vm_compute in Hd. injection Hd as <-. vm_compute in Es. discriminate Es.
Defined.

(** Half a minute of silence in both directions. *)
Example idle_cut_demo :
  let s := MkSession (30 * Second) 0 [0] (Waiting (30 * Second)) (Waiting (30 * Second)) in
  exists s1 s2 s3, read_step (30 * Second) true (Gives 0 (Some ErrDeadlineExceeded)) s = Some s1 /\
    read_step (30 * Second) true Go s1 = Some s2 /\ read_step (30 * Second) true Go s2 = Some s3 /\
    phase_of true s3 = Returned 0 (Some ErrDeadlineExceeded).
Proof. apply (idle_cut (30 * Second) true _ (30 * Second)); vm_compute; (reflexivity || discriminate). Qed.
End Idle.

(** ** Listeners and the connection limit *)

Module Listeners.

Inductive endpoint : Type := EMaster | EReplica.

#[global] Instance endpoint_eq_dec : EqDecision endpoint.
Proof. solve_decision. Defined.

Inductive loop_state : Type :=
| NotConfigured
| Accepting
| LoopReturned.

(** The running proxy: the accept loops, the number of tokens in the channel
    [sem], the sessions alive with the endpoint and mode that started them, and
    the connections closed by the limit. *)
Record server : Type := MkServer {
  ctx_done : bool;
  master_loop : loop_state;
  replica_loop : loop_state;
  tokens : Z;
  live : list (endpoint * bool);
  refused : nat
}.

(** What happens to a server. *)
Inductive event : Type :=
| Accepted (e : endpoint)        (* [Accept] returns a connection *)
| AcceptFailed (e : endpoint)    (* [Accept] returns an error *)
| SessionEnds (k : nat)          (* the handler of the k-th live session returns *)
| Cancelled.                     (* the context is done; the listeners get closed *)

Section Run.
Variable p : RedisSentinelProxy.

Definition loop_of (e : endpoint) (s : server) : loop_state :=
  match e with EMaster => master_loop s | EReplica => replica_loop s end.

Definition set_loop (e : endpoint) (l : loop_state) (s : server) : server :=
  match e with
  | EMaster => MkServer (ctx_done s) l (replica_loop s) (tokens s) (live s) (refused s)
  | EReplica => MkServer (ctx_done s) (master_loop s) l (tokens s) (live s) (refused s)
  end.

(** The top of the loop: [ctx.Err()]. *)
Definition loop_top (e : endpoint) (s : server) : server :=
  if ctx_done s then set_loop e LoopReturned s else s.

(** [routed] as [Run] passes it to [runListenLoop]. *)
Definition routed (e : endpoint) : bool :=
  match e with EMaster => router p | EReplica => false end.

Definition spawn (e : endpoint) (t : Z) (s : server) : server :=
  MkServer (ctx_done s) (master_loop s) (replica_loop s) t (live s ++ [(e, routed e)]) (refused s).

(** One round of [runListenLoop] after [Accept] has returned. *)
Definition runListenLoop_round (e : endpoint) (ok : bool) (s : server) : server :=
  if negb ok then
    if ctx_done s then set_loop e LoopReturned s else loop_top e s
  else
    let s :=
      match sem p with
      | None => spawn e (tokens s) s
      | Some cap =>
          if tokens s <? cap then spawn e (tokens s + 1) s
          else MkServer (ctx_done s) (master_loop s) (replica_loop s) (tokens s) (live s) (S (refused s))
      end in
    loop_top e s.

Definition handle (s : server) (ev : event) : server :=
  match ev with
  | Accepted e => match loop_of e s with Accepting => runListenLoop_round e true s | _ => s end
  | AcceptFailed e => match loop_of e s with Accepting => runListenLoop_round e false s | _ => s end
  | SessionEnds k =>
      match live s !! k with
      | None => s
      | Some _ =>
          MkServer (ctx_done s) (master_loop s) (replica_loop s)
            (match sem p with Some _ => tokens s - 1 | None => tokens s end)
            (delete k (live s)) (refused s)
      end
  | Cancelled =>
      MkServer true (master_loop s) (replica_loop s) (tokens s) (live s) (refused s)
  end.

(** The start of [Run]: the listeners are opened in order; when one cannot be,
    those open so far are closed. *)
Inductive run_start : Type :=
| StartFailed (closed_listeners : list endpoint)
| Started (s : server).

Definition Run (listen : TCPAddr -> bool) : run_start :=
  match localAddr p with
  | Some a =>
      if negb (listen a) then StartFailed []
      else
        match replicaAddr p with
        | Some b =>
            if negb (listen b) then StartFailed [EMaster]
            else Started (MkServer false Accepting Accepting 0 [] 0)
        | None => Started (MkServer false Accepting NotConfigured 0 [] 0)
        end
  | None =>
      match replicaAddr p with
      | Some b =>
          if negb (listen b) then StartFailed []
          else Started (MkServer false NotConfigured Accepting 0 [] 0)
      | None => Started (MkServer false NotConfigured NotConfigured 0 [] 0)
      end
  end.

(** [errGr.Wait] returns when no accept loop is left. *)
Definition run_returned (s : server) : bool :=
  match master_loop s, replica_loop s with
  | Accepting, _ | _, Accepting => false
  | _, _ => true
  end.

Definition serve (s : server) (evs : list event) : server := fold_left handle evs s.

(** *** Lemmas *)

(** Every token belongs to a live session. *)
Definition limit_inv (s : server) : Prop :=
  match sem p with
  | Some cap => tokens s = Z.of_nat (length (live s)) /\ tokens s <= Z.max 0 cap
  | None => True
  end.

Lemma set_loop_same e l s :
  tokens (set_loop e l s) = tokens s /\ live (set_loop e l s) = live s /\
  refused (set_loop e l s) = refused s /\ ctx_done (set_loop e l s) = ctx_done s.
Proof. by destruct e. Qed.

Lemma loop_top_same e s :
  tokens (loop_top e s) = tokens s /\ live (loop_top e s) = live s /\
  refused (loop_top e s) = refused s /\ ctx_done (loop_top e s) = ctx_done s.
Proof. unfold loop_top. destruct (ctx_done s) eqn:E; [|done]. rewrite <- E. apply set_loop_same. Qed.

Lemma limit_inv_ext s s' : tokens s' = tokens s -> live s' = live s -> limit_inv s -> limit_inv s'.
Proof. unfold limit_inv. by intros -> ->. Qed.

Lemma handle_inv s ev : limit_inv s -> limit_inv (handle s ev).
Proof.
  intros Hi. destruct ev as [e|e|k|]; cbn [handle]; [..|exact Hi].
  - destruct (loop_of e s); [done| |done]. unfold runListenLoop_round. cbn [negb].
    match goal with |- limit_inv (loop_top e ?x) =>
      destruct (loop_top_same e x) as (Ht & Hl & _); apply (limit_inv_ext x); [done..|] end.
    unfold limit_inv in *. destruct (sem p) as [cap|]; [|done]. destruct Hi as [Hi1 Hi2].
    destruct (_ <? _) eqn:Hlt; to_prop; cbn; [|done]. rewrite length_app. cbn. lia.
  - destruct (loop_of e s); [done| |done]. unfold runListenLoop_round. cbn [negb].
    destruct (ctx_done s).
    + destruct (set_loop_same e LoopReturned s) as (Ht & Hl & _). by apply (limit_inv_ext s).
    + destruct (loop_top_same e s) as (Ht & Hl & _). by apply (limit_inv_ext s).
  - destruct (live s !! k) eqn:Hk; [|done]. unfold limit_inv in *. cbn.
    destruct (sem p) as [cap|]; [|done]. destruct Hi as [Hi1 Hi2].
    apply lookup_lt_Some in Hk. rewrite length_delete by (by apply lookup_lt_is_Some). lia.
Qed.

Lemma serve_inv s evs : limit_inv s -> limit_inv (serve s evs).
Proof. revert s. induction evs as [|ev evs IH]; intros s Hi; [done|]. apply IH. by apply handle_inv. Qed.

Lemma Run_inv listen s : Run listen = Started s -> limit_inv s /\ live s = [] /\ ctx_done s = false.
Proof.
  assert (forall a b, limit_inv (MkServer false a b 0 [] 0)) as H0.
  { intros a b. unfold limit_inv. destruct (sem p); [|done]. cbn. lia. }
  unfold Run. destruct (localAddr p); [destruct (negb _); [done|]|];
    (destruct (replicaAddr p); [destruct (negb _); [done|]|]); intros [= <-]; auto.
Qed.

(** C8: The connection limit holds at all times, for both endpoints together and
    for every order of accepts, session ends and shutdown: there are never more
    live sessions than [max_connections], each holds exactly one token, and a
    client is refused only while the limit is reached; as soon as one session
    has ended, the next client is admitted. *)
Theorem connection_limit (listen : TCPAddr -> bool) (s0 : server) (evs : list event) (cap : Z)
    (e : endpoint) :
  sem p = Some cap -> 0 < cap -> Run listen = Started s0 ->
  let s := serve s0 evs in
  Z.of_nat (length (live s)) <= cap /\ tokens s = Z.of_nat (length (live s)) /\
  (loop_of e s = Accepting ->
   if Z.of_nat (length (live s)) <? cap
   then live (handle s (Accepted e)) = live s ++ [(e, routed e)] /\ refused (handle s (Accepted e)) = refused s
   else live (handle s (Accepted e)) = live s /\ refused (handle s (Accepted e)) = S (refused s)).
Proof.
  intros Hsem Hcap (Hi0 & _)%Run_inv. cbv zeta. pose proof (serve_inv s0 evs Hi0) as Hi.
  set (s := serve s0 evs) in *. clearbody s. unfold limit_inv in Hi. rewrite Hsem in Hi.
  destruct Hi as [Ht Hle]. split; [lia|]. split; [done|]. intros Ha. cbn [handle]. rewrite Ha.
  unfold runListenLoop_round. cbn [negb]. rewrite Hsem, Ht.
  destruct (_ <? _);
    match goal with |- context [loop_top e ?x] => destruct (loop_top_same e x) as (_ & -> & -> & _) end; done.
Qed.

(** Without a limit no client is ever refused. *)
Theorem no_limit_never_refuses (s : server) (evs : list event) :
  sem p = None -> refused (serve s evs) = refused s.
Proof.
  intros Hsem. revert s. induction evs as [|ev evs IH]; intros s; [done|].
  cbn. fold (serve (handle s ev) evs). rewrite IH. destruct ev as [e|e|k|]; cbn [handle]; [..|done].
  - destruct (loop_of e s); [done| |done]. unfold runListenLoop_round. cbn [negb]. rewrite Hsem.
    by destruct (loop_top_same e (spawn e (tokens s) s)) as (_ & _ & -> & _).
  - destruct (loop_of e s); [done| |done]. unfold runListenLoop_round. cbn [negb].
    destruct (ctx_done s); [apply (set_loop_same e LoopReturned s)|apply (loop_top_same e s)].
  - by destruct (live s !! k).
Qed.

(** An accept error does not end a loop that has not been cancelled. *)
Lemma loop_survives s e : ctx_done s = false -> handle s (AcceptFailed e) = s.
Proof.
  intros Hc. cbn [handle]. unfold runListenLoop_round, loop_top. cbn [negb]. rewrite Hc.
  by destruct (loop_of e s).
Qed.

(** Shutdown: accept errors alone never end the proxy, and once the context
    is done the error each closed listener then returns ends its loop, so that
    [Run] returns; live sessions are not cut. *)
Theorem shutdown (listen : TCPAddr -> bool) (s0 : server) (evs : list event) :
  Run listen = Started s0 -> Cancelled ∉ evs ->
  let s := serve s0 evs in
  (forall e, handle s (AcceptFailed e) = s) /\
  let s' := serve s [Cancelled; AcceptFailed EMaster; AcceptFailed EReplica] in
  run_returned s' = true /\ live s' = live s.
Proof.
  intros (_ & _ & Hc)%Run_inv Hev. cbv zeta.
  assert (ctx_done (serve s0 evs) = false) as Hs.
  { revert s0 Hc. induction evs as [|ev evs IH]; intros s0 Hc; [done|].
    apply not_elem_of_cons in Hev as [Hne Hev]. apply (IH Hev).
    destruct ev as [e|e|k|]; [..|done].
    - cbn [handle]. destruct (loop_of e s0); [done| |done]. unfold runListenLoop_round. cbn [negb].
      match goal with |- context [loop_top e ?x] => destruct (loop_top_same e x) as (_ & _ & _ & ->) end.
      destruct (sem p); [destruct (_ <? _)|]; done.
    - by rewrite loop_survives.
    - cbn [handle]. by destruct (live s0 !! k). }
  set (s := serve s0 evs) in *. clearbody s. split; [intros e; by apply loop_survives|].
  destruct s as [c ml rl t lv rf]. cbn in Hs. subst c. by destruct ml, rl.
Qed.
End Run.

(** *** Witnesses *)

Definition demo : RedisSentinelProxy :=
  MkProxy (Some (MkTCPAddr [] 6380 "")) None None 0 (Some 2) false true
    (Some (MkTCPAddr [] 6381 "")) true true true.
Definition demo0 : server := MkServer false Accepting Accepting 0 [] 0.

(** A third client is refused while two are served, and admitted after one has
    left. *)
Example limit_demo :
  let s := serve demo demo0 [Accepted EMaster; Accepted EReplica; Accepted EMaster; SessionEnds 0;
                             Accepted EReplica] in
  (live s, refused s, tokens s) = ([(EReplica, false); (EReplica, false)], 1%nat, 2).
Proof. reflexivity. Qed.

Lemma connection_limit_witness :
  Z.of_nat (length (live (serve demo demo0 [Accepted EMaster; Accepted EReplica; Accepted EMaster]))) <= 2.
Proof.
  apply (connection_limit demo (fun _ => true) demo0
    [Accepted EMaster; Accepted EReplica; Accepted EMaster] 2 EMaster); reflexivity.
Defined.

Definition unlimited : RedisSentinelProxy :=
  MkProxy (Some (MkTCPAddr [] 6380 "")) None None 0 None false true None true true true.

Lemma no_limit_never_refuses_witness :
  refused (serve unlimited demo0 (replicate 1000 (Accepted EMaster))) = O.
Proof. apply (no_limit_never_refuses unlimited demo0 (replicate 1000 (Accepted EMaster))). reflexivity. Defined.

Lemma shutdown_witness :
  run_returned (serve demo (serve demo demo0 [Accepted EMaster])
    [Cancelled; AcceptFailed EMaster; AcceptFailed EReplica]) = true.
Proof.
  apply (shutdown demo (fun _ => true) demo0 [Accepted EMaster]).
  - reflexivity.
  - apply not_elem_of_cons. split; [discriminate|apply not_elem_of_nil].
Defined.
End Listeners.

(** ** The goroutines of Run

    The accept loops of [Listeners] with what feeds them: the listeners, and the
    goroutines [closeListenerByContext] that close them once the context is
    done.  [Run] returns when all of them have. *)

Module Lifecycle.
Import Listeners.

(** Per endpoint: whether the listener is open and whether its
    [closeListenerByContext] has returned. *)
Record endpoint_state : Type := MkEndpoint { is_open : bool; closer_done : bool }.

Record running : Type := MkRunning {
  g_server : server;
  g_master : endpoint_state;
  g_replica : endpoint_state
}.

Definition state_of (e : endpoint) (g : running) : endpoint_state :=
  match e with EMaster => g_master g | EReplica => g_replica g end.

Definition set_state (e : endpoint) (x : endpoint_state) (g : running) : running :=
  match e with
  | EMaster => MkRunning (g_server g) x (g_replica g)
  | EReplica => MkRunning (g_server g) (g_master g) x
  end.

Section Run.
Variable p : RedisSentinelProxy.

(** [<-ctx.Done()], then the deferred [listener.Close()]. *)
Definition closeListenerByContext (e : endpoint) (g : running) : option running :=
  if ctx_done (g_server g) && negb (closer_done (state_of e g))
  then Some (set_state e (MkEndpoint false true) g) else None.

Definition serves (ev : event) (g : running) : running :=
  MkRunning (handle p (g_server g) ev) (g_master g) (g_replica g).

(** A closed listener accepts nothing; an open one may fail too. *)
Inductive lstep : running -> running -> Prop :=
| ls_accept e g :
    loop_of e (g_server g) = Accepting -> is_open (state_of e g) = true -> lstep g (serves (Accepted e) g)
| ls_accept_error e g :
    loop_of e (g_server g) = Accepting -> lstep g (serves (AcceptFailed e) g)
| ls_close e g g' : closeListenerByContext e g = Some g' -> lstep g g'
| ls_session_end k g : (k < length (live (g_server g)))%nat -> lstep g (serves (SessionEnds k) g)
| ls_cancel g : ctx_done (g_server g) = false -> lstep g (serves Cancelled g).

(** [Run] up to [errGr.Wait]. *)
Definition listening (a : option TCPAddr) : endpoint_state :=
  match a with Some _ => MkEndpoint true false | None => MkEndpoint false true end.

Definition begin (s : server) : running :=
  MkRunning s (listening (localAddr p)) (listening (replicaAddr p)).

(** All four goroutines have returned. *)
Definition returned (g : running) : bool :=
  run_returned (g_server g) && closer_done (g_master g) && closer_done (g_replica g).

(** *** Lemmas *)

(** A listener is open until its closing goroutine returns; a loop belongs to a
    listener. *)
Definition life_inv (g : running) : Prop :=
  forall e, is_open (state_of e g) = negb (closer_done (state_of e g)) /\
    (closer_done (state_of e g) = true -> ctx_done (g_server g) = true \/ loop_of e (g_server g) = NotConfigured).

Lemma handle_same s ev :
  (ctx_done s = true -> ctx_done (handle p s ev) = true) /\
  forall e, loop_of e s = NotConfigured -> loop_of e (handle p s ev) = NotConfigured.
Proof.
  destruct s as [c ml rl t lv rf]. destruct ev as [e'|e'|k|]; cbn [handle];
    unfold runListenLoop_round, loop_top, spawn; cbn;
    try destruct e'; repeat (case_match; cbn in *; try (split; [done|by intros []])).
  all: split; [done|intros []; cbn; congruence].
Qed.

Lemma serves_state ev e g : state_of e (serves ev g) = state_of e g.
Proof. by destruct e. Qed.

Lemma lstep_inv g g' : lstep g g' -> life_inv g -> life_inv g'.
Proof.
  assert (forall ev, life_inv g -> life_inv (serves ev g)) as Hserve.
  { intros ev Hg e. destruct (Hg e) as [H1 H2]. rewrite serves_state. split; [done|].
    destruct (handle_same (g_server g) ev) as [Hc Hn]. intros Hd. destruct (H2 Hd); auto. }
  destruct 1 as [e g H1 H2|e g H1|e g g' H1|k g H1|g H1]; try apply Hserve.
  intros Hg e'. revert H1. unfold closeListenerByContext.
  destruct (ctx_done (g_server g)) eqn:Hc; [|done]. destruct (closer_done (state_of e g)) eqn:Hd; [done|].
  intros [= <-]. destruct (Hg e'), e, e'; cbn in *; auto.
Qed.

Lemma begin_inv listen s : Run p listen = Started s -> life_inv (begin s).
Proof.
  unfold Run, begin, life_inv, listening. destruct (localAddr p); [destruct (negb _); [done|]|];
    (destruct (replicaAddr p); [destruct (negb _); [done|]|]); intros [= <-] []; cbn; auto.
Qed.

(** What is left to do once the context is done. *)
Definition accepting (s : server) : nat :=
  ((match master_loop s with Accepting => 1 | _ => 0 end) +
   (match replica_loop s with Accepting => 1 | _ => 0 end))%nat.

Definition work (g : running) : nat :=
  (2 * (accepting (g_server g) + Nat.b2n (negb (closer_done (g_master g)))
        + Nat.b2n (negb (closer_done (g_replica g)))) + length (live (g_server g)))%nat.

Lemma accepting_returned e s :
  loop_of e s = Accepting -> S (accepting (set_loop e LoopReturned s)) = accepting s.
Proof.
  destruct s as [c ml rl t lv rf]. unfold accepting. destruct e; cbn; intros ->; [done|]. lia.
Qed.

(** A round of an accept loop after the context is done is its last. *)
Lemma round_returns e ok s :
  ctx_done s = true ->
  exists s1, runListenLoop_round p e ok s = set_loop e LoopReturned s1 /\
    (forall e', loop_of e' s1 = loop_of e' s) /\ (length (live s1) <= S (length (live s)))%nat.
Proof.
  intros Hc. unfold runListenLoop_round, loop_top. destruct ok; cbn [negb].
  - destruct (sem p) as [cap|]; [destruct (tokens s <? cap)|]; cbn [spawn ctx_done]; rewrite Hc;
      eexists; (split; [done|]); (split; [by intros []|]); cbn; rewrite ?length_app; cbn; lia.
  - rewrite Hc. exists s. split_and!; [done|done|lia].
Qed.

Lemma round_work e ok s :
  ctx_done s = true -> loop_of e s = Accepting ->
  (2 * accepting (runListenLoop_round p e ok s) + length (live (runListenLoop_round p e ok s))
   < 2 * accepting s + length (live s))%nat.
Proof.
  intros Hc Hl. destruct (round_returns e ok s Hc) as (s1 & -> & Hloops & Hlive).
  destruct (set_loop_same e LoopReturned s1) as (_ & -> & _).
  rewrite <- (Hloops e) in Hl. apply accepting_returned in Hl.
  assert (accepting s1 = accepting s) as Ha.
  { unfold accepting. pose proof (Hloops EMaster) as H1. pose proof (Hloops EReplica) as H2. cbn in H1, H2.
    by rewrite H1, H2. }
  lia.
Qed.

Lemma lstep_work g g' :
  ctx_done (g_server g) = true -> lstep g g' ->
  ctx_done (g_server g') = true /\ (work g' < work g)%nat.
Proof.
  intros Hc. destruct 1 as [e g Hl Ho|e g Hl|e g g' Hg|k g Hk|g Hf]; [..|congruence].
  1,2: split; [by apply (handle_same (g_server g))|]; unfold work; cbn [serves g_server g_master g_replica handle];
    rewrite Hl.
  - pose proof (round_work e true _ Hc Hl). lia.
  - pose proof (round_work e false _ Hc Hl). lia.
  - revert Hg. unfold closeListenerByContext. rewrite Hc. cbn [andb].
    destruct (closer_done (state_of e g)) eqn:Hd; [done|]. intros [= <-].
    destruct e; cbn in *; (split; [done|]); unfold work; cbn; rewrite Hd; cbn; lia.
  - split; [by apply (handle_same (g_server g))|]. unfold work. cbn [serves g_server g_master g_replica handle].
    destruct (lookup_lt_is_Some_2 _ _ Hk) as [x Hx]. rewrite Hx. cbn.
    rewrite length_delete by eauto. unfold accepting. cbn. lia.
Qed.

Lemma returns_progress g :
  ctx_done (g_server g) = true -> returned g = false -> exists g', lstep g g'.
Proof.
  intros Hc Hr.
  assert (forall e, closer_done (state_of e g) = false -> exists g', lstep g g') as Hclose.
  { intros e Hd. eexists. apply (ls_close e). unfold closeListenerByContext. by rewrite Hc, Hd. }
  assert (forall e, loop_of e (g_server g) = Accepting -> exists g', lstep g g') as Hloop.
  { intros e Hl. eexists. by apply (ls_accept_error e). }
  unfold returned, run_returned in Hr. destruct (closer_done (g_master g)) eqn:H1; [|by apply (Hclose EMaster)].
  destruct (closer_done (g_replica g)) eqn:H2; [|by apply (Hclose EReplica)].
  destruct (master_loop (g_server g)) eqn:H3; [|by apply (Hloop EMaster)|].
  all: destruct (replica_loop (g_server g)) eqn:H4; try done; by apply (Hloop EReplica).
Qed.

(** C21: Shutdown terminates and leaks no listener.  Once the context is done,
    in every state the goroutines of [Run] can reach: every further step,
    accepts that slip in and failing accepts included, uses up one unit of a
    finite amount of work; as long as [Run] has not returned some goroutine can
    step; and when it has returned, every listener is closed and no accept loop
    is left. *)
Theorem run_returns (listen : TCPAddr -> bool) (s0 : server) (g : running) :
  Run p listen = Started s0 -> rtc lstep (begin s0) g -> ctx_done (g_server g) = true ->
  (forall g' n, nsteps lstep n g g' -> (n <= work g)%nat) /\
  (returned g = false -> exists g', lstep g g') /\
  (returned g = true -> accepting (g_server g) = O /\ forall e, is_open (state_of e g) = false).
Proof.
  intros HR Hg Hc. assert (life_inv g) as Hi.
  { apply begin_inv in HR. induction Hg as [|g1 g2 g3 Hs _ IH]; [done|]. apply IH; [|done]. by eapply lstep_inv. }
  split_and!; [|by apply returns_progress|].
  - assert (forall n g1 g2, ctx_done (g_server g1) = true -> nsteps lstep n g1 g2 -> (n <= work g1)%nat) as H.
    { induction n as [|n IH]; intros g1 g2 H1 Hn; [lia|]. inversion Hn as [|? ? g3 ? Hs Hn']; subst.
      apply lstep_work in Hs as [H3 Hw]; [|done]. apply IH in Hn'; [lia|done]. }
    intros g' n. by apply H.
  - intros Hr. unfold returned, run_returned in Hr. to_prop. split.
    + unfold accepting. by repeat case_match.
    + intros e. destruct (Hi e) as [-> _]. by destruct e; cbn; apply negb_false_iff.
Qed.
End Run.

(** Both listeners, a client, a signal. *)
Definition stopping : running := serves demo Cancelled (serves demo (Accepted EMaster) (begin demo demo0)).

Lemma run_returns_witness : exists g', lstep demo stopping g'.
Proof.
  apply (run_returns demo (fun _ => true) demo0 stopping).
  - reflexivity.
  - eapply rtc_l; [apply (ls_accept demo EMaster); reflexivity|].
    eapply rtc_l; [apply ls_cancel; reflexivity|]. apply rtc_refl.
  - reflexivity.
  - reflexivity.
Defined.
End Lifecycle.
