(* ===== verification/Version.v ===== *)
(** * Version: what the process says about itself (main.go, pkg/config/version.go)

    The first lines of [main]: the variables the linker sets, the build time
    parsed with [time.Parse], the program's name taken from the path of a
    package, and [NewVersion].  Both the parsing and the indexing can panic
    before the program has done anything; the theorem shows that only a build
    time outside of the layout's forms (the grammar [layout]) does, and that
    what scripts/build_dist.sh stamps into the executable is never outside. *)

From Stdlib Require Import Strings.Byte String ZArith Lia.
From stdpp Require Import base list strings.
From S2P Require Import Prelude GoStd GoTime.

Local Open Scope Z_scope.

(** ** time.Time and time.Parse *)

(** A time as it is written: the fields, and the zone's offset in seconds. *)
Record Time : Type := MkTime {
  t_year : Z; t_month : Z; t_day : Z;
  t_hour : Z; t_min : Z; t_sec : Z; t_nsec : Z;
  t_offset : Z
}.

(** The zero [time.Time]. *)
Definition zeroTime : Time := MkTime 1 1 1 0 0 0 0 0.

Definition isLeap (year : Z) : bool :=
  (year mod 4 =? 0) && (negb (year mod 100 =? 0) || (year mod 400 =? 0)).

Definition daysIn (month year : Z) : Z :=
  if month =? 2 then (if isLeap year then 29 else 28)
  else if existsb (Z.eqb month) [4; 6; 9; 11] then 30 else 31.

(** [time.getnum]: two digits, or one when the layout allows it. *)
Definition getnum (fixed : bool) (s : list byte) : option (Z * list byte) :=
  match s with
  | [] => None
  | c1 :: s1 =>
      d1 ← digit_val c1;
      match s1 with
      | c2 :: s2 =>
          match digit_val c2 with
          | Some d2 => Some (10 * d1 + d2, s2)
          | None => if fixed then None else Some (d1, s1)
          end
      | [] => if fixed then None else Some (d1, s1)
      end
  end.

(** A literal character of the layout. *)
Definition skip (c : byte) (s : list byte) : option (list byte) :=
  match s with
  | x :: s => if Byte.eqb x c then Some s else None
  | [] => None
  end.

Definition year4 (s : list byte) : option (Z * list byte) :=
  if (length s <? 4)%nat then None
  else y ← digits_val 0 (take 4 s); Some (y, drop 4 s).

Fixpoint span_digits (s : list byte) : list byte * list byte :=
  match s with
  | c :: s' =>
      if is_digit c then let '(ds, rest) := span_digits s' in (c :: ds, rest) else ([], s)
  | [] => ([], [])
  end.

(** Fractional seconds are taken after the seconds although the layout has
    none; digits beyond the ninth are dropped. *)
Definition fraction (s : list byte) : option (Z * list byte) :=
  match s with
  | c :: d :: _ =>
      if (Byte.eqb c "."%byte || Byte.eqb c ","%byte) && is_digit d then
        let '(ds, rest) := span_digits (tail s) in
        let ds := take 9 ds in
        n ← digits_val 0 ds;
        Some (n * 10 ^ (9 - Z.of_nat (length ds)), rest)
      else Some (0, s)
  | _ => Some (0, s)
  end.

(** The layout's "Z0700": a Z, or a sign, two digits of hours and of minutes. *)
Definition zone (s : list byte) : option (Z * list byte) :=
  match s with
  | [] => None
  | c :: s' =>
      if Byte.eqb c "Z"%byte then Some (0, s')
      else if (length s <? 5)%nat then None
      else
        '(hr, s) ← getnum true s';
        '(mm, s) ← getnum true s;
        if (24 <? hr) || (60 <? mm) then None
        else
          let off := (hr * 60 + mm) * 60 in
          if Byte.eqb c "+"%byte then Some (off, s)
          else if Byte.eqb c "-"%byte then Some (- off, s)
          else None
  end.

Definition ranged (lo hi : Z) (x : option (Z * list byte)) : option (Z * list byte) :=
  '(v, s) ← x; if (lo <=? v) && (v <=? hi) then Some (v, s) else None.

(** [time.Parse(ISO8601, value)] for the layout "2006-01-02T15:04:05Z0700". *)
Definition parseISO8601 (value : list byte) : option Time :=
  '(year, s) ← year4 value;
  s ← skip "-" s; '(month, s) ← ranged 1 12 (getnum true s);
  s ← skip "-" s; '(day, s) ← getnum true s;
  s ← skip "T" s; '(hour, s) ← ranged 0 23 (getnum false s);
  s ← skip ":" s; '(min, s) ← ranged 0 59 (getnum true s);
  s ← skip ":" s; '(sec, s) ← ranged 0 59 (getnum true s);
  '(nsec, s) ← fraction s;
  '(offset, s) ← zone s;
  match s with
  | [] =>
      if (day <? 1) || (daysIn month year <? day) then None
      else Some (MkTime year month day hour min sec nsec offset)
  | _ => None
  end.

(** ** version.go *)

Record Version : Type := MkVersion {
  BuildDate : Time;
  Compiler : string;
  GitCommit : string;
  GitTreeState : string;
  GitVersion : string;
  GoVersion : string;
  Platform : string;
  Executable : string
}.

(** What package runtime and [os.Executable] report. *)
Record Runtime : Type := MkRuntime {
  rt_compiler : string;
  rt_version : string;
  rt_goos : string;
  rt_goarch : string;
  os_executable : option string
}.

Definition NewVersion (rt : Runtime) (buildDate : Time) (gitCommit tag treeState : string) : Version :=
  MkVersion buildDate (rt_compiler rt) gitCommit treeState tag (rt_version rt)
    (rt_goos rt ++ "/" ++ rt_goarch rt)%string (default ""%string (os_executable rt)).

(** ** main.go, up to the flags *)

(** [strings.Split] at a single character. *)
Fixpoint Split (sep : byte) (s : list byte) : list (list byte) :=
  match s with
  | [] => [[]]
  | c :: s' =>
      match Split sep s' with
      | part :: parts => if Byte.eqb c sep then [] :: part :: parts else (c :: part) :: parts
      | [] => [[c]]                      (* never: there is always a part *)
      end
  end.

Inductive start_panic : Type :=
| BuildTimePanic              (* panic(err) *)
| IndexPanic.                 (* index out of range *)

(** The variables set with -ldflags -X. *)
Record Stamp : Type := MkStamp { tag : string; gitCommit : string; buildTime : string; treeState : string }.

Definition banner (rt : Runtime) (pkgPath : string) (st : Stamp) : result start_panic (string * Version) :=
  let '(tag, treeState) :=
    if String.eqb (tag st) "" then ("dev", "dirty")%string else (tag st, treeState st) in
  let* bt :=
    if String.eqb (buildTime st) "" then Ok zeroTime
    else match parseISO8601 (bytes (buildTime st)) with
         | Some t => Ok t
         | None => Err BuildTimePanic
         end in
  let name := Split "/" (bytes pkgPath) in
  let* exec :=
    match (if (length name <? 3)%nat then None else name !! (length name - 3)%nat) with
    | Some n => Ok (String.string_of_list_byte n)
    | None => Err IndexPanic
    end in
  Ok (exec, NewVersion rt bt (gitCommit st) tag treeState).

(** [reflect.TypeOf(config.Version{}).PkgPath()]. *)
Definition pkgPath : string := "github.com/zauberhaus/redis-sentinel-proxy/pkg/config".

(** ** What the build script stamps

    [date +%Y-%m-%dT%T%z]. *)

Definition two (n : Z) : list byte := [digit_byte (n / 10); digit_byte (n mod 10)].
Definition four (n : Z) : list byte := two (n / 100) ++ two (n mod 100).

Definition valid_time (t : Time) : Prop :=
  0 <= t_year t <= 9999 /\ 1 <= t_month t <= 12 /\ 1 <= t_day t <= daysIn (t_month t) (t_year t) /\
  0 <= t_hour t <= 23 /\ 0 <= t_min t <= 59 /\ 0 <= t_sec t <= 59 /\ t_nsec t = 0 /\
  t_offset t mod 60 = 0 /\ Z.abs (t_offset t) <= 24 * 3600.

Definition date (t : Time) : list byte :=
  let off := Z.abs (t_offset t) in
  four (t_year t) ++ bytes "-" ++ two (t_month t) ++ bytes "-" ++ two (t_day t) ++ bytes "T" ++
  two (t_hour t) ++ bytes ":" ++ two (t_min t) ++ bytes ":" ++ two (t_sec t) ++
  bytes (if t_offset t <? 0 then "-" else "+") ++ two (off / 3600) ++ two (off / 60 mod 60).

Example date_demo :
  String.string_of_list_byte (date (MkTime 2026 2 28 7 5 9 0 (-12600))) = "2026-02-28T07:05:09-0330"%string.
Proof. reflexivity. Qed.

(** The forms [time.Parse] takes: a Z, a one-digit hour, a fraction; and some it
    does not: a day that does not exist, trailing text, a zone in the form
    hh:mm. *)
Example parse_tests :
  parseISO8601 (bytes "2026-01-02T03:04:05Z") = Some (MkTime 2026 1 2 3 4 5 0 0) /\
  parseISO8601 (bytes "2024-02-29T3:04:05.25+0200") = Some (MkTime 2024 2 29 3 4 5 250000000 7200) /\
  (parseISO8601 ∘ bytes) <$>
    ["2026-02-29T03:04:05Z"; "2026-01-02T03:04:05Z "; "2026-01-02T03:04:05+02:00"; "2026-13-02T03:04:05Z";
     "2026-01-02 03:04:05Z"; ""]%string = replicate 6 None.
Proof. vm_compute. auto. Qed.

(** ** Lemmas *)

Lemma two_digits n : 0 <= n < 100 -> forall s, getnum true (two n ++ s) = Some (n, s) /\
  getnum false (two n ++ s) = Some (n, s).
Proof.
  intros Hn s. unfold two, getnum. cbn [app].
  assert (0 <= n / 10 < 10) by (split; [apply Z.div_pos|apply Z.div_lt_upper_bound]; lia).
  pose proof (Z.mod_pos_bound n 10 ltac:(lia)).
  rewrite !digit_val_byte by done. cbn.
  by rewrite <- (Z.div_mod n 10) by lia.
Qed.

Lemma year4_four n s : 0 <= n <= 9999 -> year4 (four n ++ s) = Some (n, s).
Proof.
  intros Hn. unfold year4, four, two. cbn [app length Nat.ltb Nat.leb take drop].
  assert (0 <= n / 100 < 100) as H1 by (split; [apply Z.div_pos|apply Z.div_lt_upper_bound]; lia).
  pose proof (Z.mod_pos_bound n 100 ltac:(lia)) as H2.
  assert (forall m, 0 <= m < 100 -> 0 <= m / 10 < 10) as H3.
  { intros m Hm. split; [apply Z.div_pos|apply Z.div_lt_upper_bound]; lia. }
  pose proof (fun m => Z.mod_pos_bound m 10 ltac:(lia)) as H4.
  cbn [digits_val]. rewrite !digit_val_byte by auto. rewrite take_0, drop_0. cbn [digits_val mbind option_bind].
  do 2 f_equal. pose proof (Z.div_mod n 100 ltac:(lia)).
  pose proof (Z.div_mod (n / 100) 10 ltac:(lia)). pose proof (Z.div_mod (n mod 100) 10 ltac:(lia)). lia.
Qed.

Lemma skip_same c s : skip c (c :: s) = Some s.
Proof. cbn. by rewrite byte_eqb_refl. Qed.

Lemma ranged_ok lo hi v s : lo <= v <= hi -> ranged lo hi (Some (v, s)) = Some (v, s).
Proof. intros H. cbn. by rewrite (proj2 (Z.leb_le _ _)), (proj2 (Z.leb_le _ _)) by lia. Qed.

Lemma offset_split off :
  0 <= off -> off mod 60 = 0 -> (off / 3600 * 60 + off / 60 mod 60) * 60 = off.
Proof.
  intros H0 Hm. pose proof (Z.div_mod off 60 ltac:(lia)) as H1.
  pose proof (Z.div_mod (off / 60) 60 ltac:(lia)) as H2.
  rewrite Z.div_div in H2 by lia. change (60 * 60) with 3600 in H2. lia.
Qed.

(** ** The accepted forms

    The layout as a grammar, independent of how [time.Parse] reads it. *)

(** An hour of one or two digits. *)
Inductive hour_form : list byte -> Z -> Prop :=
| hour_two h : 0 <= h <= 23 -> hour_form (two h) h
| hour_one h : 0 <= h < 10 -> hour_form [digit_byte h] h.

(** No fraction, or a separator and digits, of which nine count. *)
Inductive fraction_form : list byte -> Z -> Prop :=
| fraction_none : fraction_form [] 0
| fraction_digits c ds n :
    c = "."%byte \/ c = ","%byte -> ds <> [] -> Forall (fun x => is_digit x = true) ds ->
    digits_val 0 (take 9 ds) = Some n ->
    fraction_form (c :: ds) (n * 10 ^ (9 - Z.of_nat (length (take 9 ds)))).

Inductive zone_form : list byte -> Z -> Prop :=
| zone_utc : zone_form ["Z"%byte] 0
| zone_east hh mm : 0 <= hh <= 24 -> 0 <= mm <= 60 ->
    zone_form ("+"%byte :: two hh ++ two mm) ((hh * 60 + mm) * 60)
| zone_west hh mm : 0 <= hh <= 24 -> 0 <= mm <= 60 ->
    zone_form ("-"%byte :: two hh ++ two mm) (- ((hh * 60 + mm) * 60)).

(** A day of the calendar, a time of the day, and a zone, as the layout writes
    them. *)
Inductive layout : list byte -> Time -> Prop :=
| layout_intro y mo d h mi se ns off hs fs zs :
    0 <= y <= 9999 -> 1 <= mo <= 12 -> 1 <= d <= daysIn mo y -> 0 <= mi <= 59 -> 0 <= se <= 59 ->
    hour_form hs h -> fraction_form fs ns -> zone_form zs off ->
    layout (four y ++ "-"%byte :: two mo ++ "-"%byte :: two d ++ "T"%byte :: hs ++
            ":"%byte :: two mi ++ ":"%byte :: two se ++ fs ++ zs)
           (MkTime y mo d h mi se ns off).

Lemma digit_val_inv c d : digit_val c = Some d -> 0 <= d < 10 /\ c = digit_byte d.
Proof. destruct c; cbn; try done; intros [= <-]; (split; [lia|reflexivity]). Qed.

Lemma two_of d1 d2 : 0 <= d1 < 10 -> 0 <= d2 < 10 -> two (10 * d1 + d2) = [digit_byte d1; digit_byte d2].
Proof.
  intros H1 H2. unfold two. replace ((10 * d1 + d2) / 10) with d1 by (apply Z.div_unique with d2; lia).
  by replace ((10 * d1 + d2) mod 10) with d2 by (apply Z.mod_unique with d1; lia).
Qed.

Lemma getnum_inv fixed s n r :
  getnum fixed s = Some (n, r) ->
  (0 <= n < 100 /\ s = two n ++ r) \/ (fixed = false /\ 0 <= n < 10 /\ s = digit_byte n :: r).
Proof.
  unfold getnum. destruct s as [|c1 s1]; [done|].
  destruct (digit_val c1) as [d1|] eqn:E1; [|done]. apply digit_val_inv in E1 as [H1 ->]. cbn [mbind option_bind].
  destruct s1 as [|c2 s2]; [destruct fixed; [done|]; intros [= <- <-]; by right|].
  destruct (digit_val c2) as [d2|] eqn:E2.
  - apply digit_val_inv in E2 as [H2 ->]. intros [= <- <-]. left. split; [lia|].
    by rewrite two_of.
  - destruct fixed; [done|]. intros [= <- <-]. by right.
Qed.

Lemma year4_inv s n r : year4 s = Some (n, r) -> 0 <= n <= 9999 /\ s = four n ++ r.
Proof.
  unfold year4. destruct s as [|a [|b [|c [|d s]]]]; cbn [length Nat.ltb Nat.leb]; try done.
  cbn [take drop digits_val].
  destruct (digit_val a) as [a0|] eqn:Ea; [|done]. destruct (digit_val b) as [b0|] eqn:Eb; [|done].
  destruct (digit_val c) as [c0|] eqn:Ec; [|done]. destruct (digit_val d) as [d0|] eqn:Ed; [|done].
  apply digit_val_inv in Ea as [Ha ->], Eb as [Hb ->], Ec as [Hc ->], Ed as [Hd ->].
  cbn -[Z.mul Z.add four]. intros [= <- <-]. split; [lia|]. rewrite drop_0. unfold four.
  replace (_ / 100) with (10 * a0 + b0) by (apply Z.div_unique with (10 * c0 + d0); lia).
  replace (_ mod 100) with (10 * c0 + d0) by (apply Z.mod_unique with (10 * a0 + b0); lia).
  by rewrite !two_of.
Qed.

Lemma skip_inv c s r : skip c s = Some r -> s = c :: r.
Proof.
  destruct s as [|x s]; [done|]. cbn. destruct (Byte.eqb x c) eqn:E; [|done].
  intros [= ->]. f_equal. by apply Byte.byte_dec_bl.
Qed.

Lemma ranged_inv lo hi x v s : ranged lo hi x = Some (v, s) -> x = Some (v, s) /\ lo <= v <= hi.
Proof.
  destruct x as [[v0 s0]|]; [|done]. cbn. destruct (Z.leb_spec lo v0), (Z.leb_spec v0 hi); try done.
  by intros [= <- <-].
Qed.

Lemma span_digits_spec s ds rest :
  span_digits s = (ds, rest) <->
  s = ds ++ rest /\ Forall (fun x => is_digit x = true) ds /\
    match rest with c :: _ => is_digit c = false | [] => True end.
Proof.
  revert ds. induction s as [|c s IH]; intros ds; cbn.
  - split; [by intros [= <- <-]|]. intros (H & _ & _). destruct ds; cbn in H; [by subst|done].
  - destruct (is_digit c) eqn:E.
    + destruct (span_digits s) as [ds' rest'] eqn:Es. split.
      * intros [= <- <-]. destruct (proj1 (IH ds')) as (-> & HF & Hr); [done|]. auto.
      * intros (H & HF & Hr). destruct ds as [|x ds]; cbn in H; [subst rest; congruence|].
        injection H as -> ->. inversion HF; subst.
        by injection (proj2 (IH ds) ltac:(auto)) as -> ->.
    + split; [intros [= <- <-]; auto|]. intros (H & HF & Hr).
      destruct ds as [|x ds]; cbn in H; [by subst|]. injection H as -> ->. inversion HF; congruence.
Qed.

Lemma fraction_inv s n r :
  fraction s = Some (n, r) -> exists fs, s = fs ++ r /\ fraction_form fs n.
Proof.
  unfold fraction. destruct s as [|c [|d s]]; try by (intros [= <- <-]; exists []; split; [done|constructor]).
  destruct (Byte.eqb c "." || Byte.eqb c ",") eqn:Ec; cbn [andb];
    [|by intros [= <- <-]; exists []; split; [done|constructor]].
  destruct (is_digit d) eqn:Ed; [|by intros [= <- <-]; exists []; split; [done|constructor]].
  cbn [tail]. destruct (span_digits (d :: s)) as [ds rest] eqn:Es.
  apply span_digits_spec in Es as (Eq & HF & Hr).
  destruct (digits_val 0 (take 9 ds)) as [v|] eqn:Ev; cbn [mbind option_bind]; [|done].
  intros [= <- <-]. exists (c :: ds). split; [by rewrite Eq|]. constructor; try done.
  - apply orb_true_iff in Ec as [H|H]; apply Byte.byte_dec_bl in H; auto.
  - intros ->. cbn in Eq. subst rest. cbn in Hr. congruence.
Qed.

Lemma zone_inv s off : zone s = Some (off, []) -> zone_form s off.
Proof.
  destruct s as [|c s]; [done|]. unfold zone.
  destruct (Byte.eqb c "Z") eqn:Ez.
  { apply Byte.byte_dec_bl in Ez as ->. intros [= <- ->]. constructor. }
  destruct (_ <? 5)%nat; [done|].
  destruct (getnum true s) as [[hh s1]|] eqn:E1; [|done]. cbn [mbind option_bind].
  destruct (getnum true s1) as [[mm s2]|] eqn:E2; [|done]. cbn [mbind option_bind].
  apply getnum_inv in E1 as [[H1 ->]|[? _]]; [|done]. apply getnum_inv in E2 as [[H2 ->]|[? _]]; [|done].
  destruct (Z.ltb_spec 24 hh), (Z.ltb_spec 60 mm); try done. cbn [orb].
  destruct (Byte.eqb c "+") eqn:Ep; [|destruct (Byte.eqb c "-") eqn:Em; [|done]].
  - apply Byte.byte_dec_bl in Ep as ->. intros [= <- ->]. rewrite app_nil_r. constructor; lia.
  - apply Byte.byte_dec_bl in Em as ->. intros [= <- ->]. rewrite app_nil_r. constructor; lia.
Qed.

Lemma zone_complete zs off : zone_form zs off -> zone zs = Some (off, []).
Proof.
  destruct 1 as [|hh mm Hh Hm|hh mm Hh Hm]; [done| |].
  all: destruct (two_digits hh ltac:(lia) (two mm)) as [H1 _].
  all: destruct (two_digits mm ltac:(lia) []) as [H2 _]; rewrite app_nil_r in H2.
  all: unfold zone; cbn -[two getnum]; rewrite H1; cbn -[two getnum]; rewrite H2; cbn [mbind option_bind].
  all: by rewrite (proj2 (Z.ltb_ge 24 _)), (proj2 (Z.ltb_ge 60 _)) by lia.
Qed.

Lemma fraction_complete fs ns zs off :
  fraction_form fs ns -> zone_form zs off -> fraction (fs ++ zs) = Some (ns, zs).
Proof.
  intros Hf Hz.
  assert (match zs with c :: _ => is_digit c = false | [] => True end) as Hd by by destruct Hz.
  destruct Hf as [|c ds n Hc Hne HF Hv]; [by destruct Hz|].
  destruct ds as [|d ds]; [done|]. cbn [app].
  assert (is_digit d = true) as Hdd by by inversion HF.
  assert (span_digits (d :: ds ++ zs) = (d :: ds, zs)) as Hs by by apply span_digits_spec.
  unfold fraction. rewrite Hdd. cbn [tail]. rewrite Hs, Hv. by destruct Hc as [-> | ->].
Qed.

Lemma hour_complete hs h s : hour_form hs h -> ranged 0 23 (getnum false (hs ++ ":"%byte :: s)) = Some (h, ":"%byte :: s).
Proof.
  destruct 1 as [h Hh|h Hh].
  - rewrite (proj2 (two_digits h ltac:(lia) _)). by apply ranged_ok.
  - assert (getnum false ([digit_byte h] ++ ":"%byte :: s) = Some (h, ":"%byte :: s)) as ->.
    { cbn [app getnum]. by rewrite digit_val_byte. }
    apply ranged_ok. lia.
Qed.

(** [time.Parse] takes exactly the layout's forms. *)
Lemma parse_layout s t : parseISO8601 s = Some t <-> layout s t.
Proof.
  unfold parseISO8601. split.
  - intros ([y s0] & (Hy & ->)%year4_inv & H)%bind_Some.
    apply bind_Some in H as (s1 & ->%skip_inv & H). apply bind_Some in H as ([mo s2] & [Em Hmo]%ranged_inv & H).
    apply bind_Some in H as (s3 & ->%skip_inv & H). apply bind_Some in H as ([d s4] & Ed & H).
    apply bind_Some in H as (s5 & ->%skip_inv & H). apply bind_Some in H as ([h s6] & [Eh Hh]%ranged_inv & H).
    apply bind_Some in H as (s7 & ->%skip_inv & H). apply bind_Some in H as ([mi s8] & [Emi Hmi]%ranged_inv & H).
    apply bind_Some in H as (s9 & ->%skip_inv & H). apply bind_Some in H as ([se s10] & [Ese Hse]%ranged_inv & H).
    apply bind_Some in H as ([ns s11] & (fs & -> & Hfs)%fraction_inv & H).
    apply bind_Some in H as ([off s12] & Ez & H). destruct s12; [|done]. apply zone_inv in Ez.
    destruct (Z.ltb_spec d 1), (Z.ltb_spec (daysIn mo y) d); try done. injection H as <-.
    apply getnum_inv in Em as [[_ ->]|[? _]], Ed as [[_ ->]|[? _]], Emi as [[_ ->]|[? _]], Ese as [[_ ->]|[? _]];
      try done.
    apply getnum_inv in Eh as [[_ ->]|(_ & ? & ->)].
    + apply (layout_intro y mo d h mi se ns off (two h)); try done; try lia. by constructor.
    + apply (layout_intro y mo d h mi se ns off [digit_byte h]); try done; try lia. by constructor.
  - destruct 1 as [y mo d h mi se ns off hs fs zs Hy Hmo Hd Hmi Hse Hh Hf Hz].
    assert (daysIn mo y <= 31) as Hdi by (unfold daysIn; repeat case_match; lia).
    pose proof (fun n Hn s => proj1 (two_digits n Hn s)) as Ht.
    rewrite year4_four by done. cbn [mbind option_bind]. rewrite skip_same. cbn [mbind option_bind].
    rewrite Ht, ranged_ok by lia. cbn [mbind option_bind]. rewrite skip_same. cbn [mbind option_bind].
    rewrite Ht by lia. cbn [mbind option_bind]. rewrite skip_same. cbn [mbind option_bind].
    rewrite (hour_complete hs h) by done. cbn [mbind option_bind]. rewrite skip_same. cbn [mbind option_bind].
    rewrite Ht, ranged_ok by lia. cbn [mbind option_bind]. rewrite skip_same. cbn [mbind option_bind].
    rewrite Ht, ranged_ok by lia. cbn [mbind option_bind].
    erewrite fraction_complete by done. cbn [mbind option_bind].
    rewrite (zone_complete zs off) by done. cbn [mbind option_bind].
    by rewrite (proj2 (Z.ltb_ge _ _)), (proj2 (Z.ltb_ge _ _)) by lia.
Qed.

Lemma parse_none s : (forall t, ~ layout s t) -> parseISO8601 s = None.
Proof. intros H. destruct (parseISO8601 s) as [t|] eqn:E; [|done]. by apply parse_layout, H in E. Qed.

(** A zone the script prints. *)
Lemma zone_text off :
  off mod 60 = 0 -> Z.abs off <= 24 * 3600 ->
  zone_form ((if off <? 0 then "-"%byte else "+"%byte) :: two (Z.abs off / 3600) ++ two (Z.abs off / 60 mod 60)) off.
Proof.
  intros Hm Ha.
  assert (Z.abs off mod 60 = 0) as Hma.
  { destruct (Z.abs_eq_or_opp off) as [->| ->]; [done|]. by apply Z.mod_opp_l_z. }
  assert (0 <= Z.abs off / 3600 <= 24) as Hh.
  { split; [apply Z.div_pos; lia|]. apply Z.lt_succ_r, Z.div_lt_upper_bound; lia. }
  pose proof (Z.mod_pos_bound (Z.abs off / 60) 60 ltac:(lia)) as Hmm.
  pose proof (offset_split (Z.abs off) ltac:(lia) Hma) as Hs.
  destruct (Z.ltb_spec off 0).
  - replace off with (- ((Z.abs off / 3600 * 60 + Z.abs off / 60 mod 60) * 60)) at 3 by lia. constructor; lia.
  - replace off with ((Z.abs off / 3600 * 60 + Z.abs off / 60 mod 60) * 60) at 3 by lia. constructor; lia.
Qed.

(** What the script prints is of the layout. *)
Lemma date_layout t : valid_time t -> layout (date t) t.
Proof.
  unfold valid_time, date. destruct t as [y mo d h mi se ns off].
  cbn [t_year t_month t_day t_hour t_min t_sec t_nsec t_offset].
  intros (Hy & Hmo & Hd & Hh & Hmi & Hse & -> & Hom & Hoa).
  replace (bytes (if off <? 0 then "-" else "+")) with [if off <? 0 then "-"%byte else "+"%byte]
    by by destruct (off <? 0).
  apply (layout_intro y mo d h mi se 0 off (two h) [] _); try done.
  - by constructor.
  - constructor.
  - by apply zone_text.
Qed.

Lemma banner_spec (rt : Runtime) (st : Stamp) :
  let tagged := if String.eqb (tag st) "" then ("dev", "dirty")%string else (tag st, treeState st) in
  match banner rt pkgPath st with
  | Ok (exec, v) => exec = "redis-sentinel-proxy"%string /\ (GitVersion v, GitTreeState v) = tagged /\
      GitCommit v = gitCommit st /\
      (buildTime st = ""%string /\ BuildDate v = zeroTime \/
       buildTime st <> ""%string /\ layout (bytes (buildTime st)) (BuildDate v))
  | Err e => e = BuildTimePanic /\ buildTime st <> ""%string /\ forall t, ~ layout (bytes (buildTime st)) t
  end.
Proof.
  unfold banner. cbv zeta.
  assert (Split "/" (bytes pkgPath) = bytes <$> ["github.com"; "zauberhaus"; "redis-sentinel-proxy"; "pkg"; "config"]%string)
    as -> by reflexivity.
  destruct (String.eqb_spec (tag st) "") as [Et|Et];
    (destruct (String.eqb_spec (buildTime st) "") as [Eb|Eb];
     [|destruct (parseISO8601 (bytes (buildTime st))) as [t0|] eqn:E0]).
  all: cbn [result_bind]; split_and!; try done; try by left.
  all: try by right; split; [|apply parse_layout].
  all: intros t Hl%parse_layout; congruence.
Qed.

(** A stamp of the build script is of the layout, with its time only. *)
Lemma stamped_layout (st : Stamp) t :
  valid_time t -> buildTime st = String.string_of_list_byte (date t) ->
  forall t', layout (bytes (buildTime st)) t' <-> t' = t.
Proof.
  intros Ht E t'. unfold bytes. rewrite E, String.list_byte_of_string_of_list_byte.
  split; [|intros ->; by apply date_layout].
  intros H1%parse_layout. pose proof (proj2 (parse_layout _ _) (date_layout t Ht)). congruence.
Qed.

(** ** Property *)

(** C27: The banner is made exactly when no build time is stamped or it is of
    the layout's form ([layout]): then it names the program
    redis-sentinel-proxy and carries the time the stamp says (the zero time
    without a stamp), the commit and the tag, and a build without a tag is
    called dev and dirty; a stamp in any other form makes the program panic
    before it has read its configuration.  What the build script stamps (years
    0 to 9999, any zone) is always of that form, and is read back as exactly
    that time. *)
Theorem banner_build_script (rt : Runtime) (st : Stamp) :
  let tagged := if String.eqb (tag st) "" then ("dev", "dirty")%string else (tag st, treeState st) in
  match banner rt pkgPath st with
  | Ok (exec, v) => exec = "redis-sentinel-proxy"%string /\ (GitVersion v, GitTreeState v) = tagged /\
      GitCommit v = gitCommit st /\
      (buildTime st = ""%string /\ BuildDate v = zeroTime \/
       buildTime st <> ""%string /\ layout (bytes (buildTime st)) (BuildDate v)) /\
      (forall t, valid_time t -> buildTime st = String.string_of_list_byte (date t) -> BuildDate v = t)
  | Err e => e = BuildTimePanic /\ buildTime st <> ""%string /\ parseISO8601 (bytes (buildTime st)) = None /\
      (forall t, ~ layout (bytes (buildTime st)) t) /\
      forall t, valid_time t -> buildTime st <> String.string_of_list_byte (date t)
  end.
Proof.
  pose proof (banner_spec rt st) as H. cbv zeta in *.
  destruct (banner rt pkgPath st) as [[exec v]|e].
  - destruct H as (H1 & H2 & H3 & H4). split_and!; try done. intros t Ht E.
    destruct H4 as [[Eb _]|[_ Hl]]; [|by apply (stamped_layout st t Ht E)].
    rewrite E in Eb. discriminate.
  - destruct H as (-> & H2 & H3). split_and!; try done.
    + by apply parse_none.
    + intros t Ht E. by apply (H3 t), (stamped_layout st t Ht E).
Qed.
