(* ===== verification/Main.v ===== *)
(** * Main: the process (main.go)

    [main] loads the configuration and [runProxying] runs the resolver's update
    loop and the proxy in one errgroup: the first error cancels the shared
    context, and the group's result is that error once both have returned.  The
    theorems compose the components: what a start with a loaded configuration
    leads to, and how the end of the update loop shows. *)

From Stdlib Require Import String ZArith Lia.
From stdpp Require Import base list strings gmap.
From S2P Require Import Prelude GoStd GoTime Config NetAddr Netio Routing Resolver Proxy Server Version.
Import Listeners.

Local Open Scope Z_scope.

(** A running process: the two members of the errgroup. *)
Record process : Type := MkProcess {
  pr_proxy : RedisSentinelProxy;
  pr_resolver : RedisMasterResolver;
  pr_loop : option (option resolve_err);   (* the update loop's result *)
  pr_server : server
}.

Inductive start : Type :=
| StampPanic (e : start_panic)
| FatalConfig (e : config_err)
| FatalPanic
| FatalProxy (e : proxy_err)
| FatalListen
| Up (pr : process).

Section Main.
Variable ResolveListenAddr : string -> option TCPAddr.
Variable listen : TCPAddr -> bool.

Definition runProxying (cfg : Config) : start :=
  match NewRedisMasterResolver cfg with
  | Err _ => FatalPanic
  | Ok r =>
      match NewRedisSentinelProxy ResolveListenAddr cfg with
      | Err ProxyPanic => FatalPanic
      | Err e => FatalProxy e
      | Ok p =>
          match Run p listen with
          | StartFailed _ => FatalListen
          | Started s => Up (MkProcess p r None s)
          end
      end
  end.

Definition main (rt : Runtime) (st : Stamp) (host : Host) (fs : FlagSet) (path : string) : start :=
  match banner rt pkgPath st with
  | Err e => StampPanic e
  | Ok _ =>
      match Load host (Some (fromFlags fs)) path with
      | Err e => FatalConfig e
      | Ok cfg => runProxying cfg
      end
  end.
End Main.

(** What happens to a process: an event of its listeners, a signal, or the end
    of the update loop, whose error cancels the context. *)
Inductive process_event : Type :=
| ServerEvent (ev : event)
| Signal
| LoopEnds (err : option resolve_err).

Definition process_step (pr : process) (ev : process_event) : process :=
  let serve_ev x := handle (pr_proxy pr) (pr_server pr) x in
  match ev with
  | ServerEvent x => MkProcess (pr_proxy pr) (pr_resolver pr) (pr_loop pr) (serve_ev x)
  | Signal => MkProcess (pr_proxy pr) (pr_resolver pr) (pr_loop pr) (serve_ev Cancelled)
  | LoopEnds err =>
      match pr_loop pr with
      | Some _ => pr
      | None =>
          MkProcess (pr_proxy pr) (pr_resolver pr) (Some err)
            (match err with Some _ => serve_ev Cancelled | None => pr_server pr end)
      end
  end.

Definition process_run (pr : process) (evs : list process_event) : process :=
  fold_left process_step evs pr.

(** [eg.Wait()]: the error [main] exits with, once both members have returned. *)
Definition exit_status (pr : process) : option (option resolve_err) :=
  match pr_loop pr with
  | Some err => if run_returned (pr_server pr) then Some err else None
  | None => None
  end.

(** ** Start *)

(** C26: Starting never dereferences a nil pointer or indexes out of range,
    whatever the command line, the environment and the file say: it ends with a
    reported configuration error, an address that cannot be resolved or
    listened on, router mode without the master endpoint, or a running process
    with at least one endpoint accepting clients.  It panics only over a stamped
    build time that is not of the layout's form. *)
Theorem main_starts (resolve : string -> option TCPAddr) (listen : TCPAddr -> bool)
    (rt : Runtime) (st : Stamp) (host : Host) (fs : FlagSet) (path : string) :
  match main resolve listen rt st host fs path with
  | StampPanic _ => buildTime st <> ""%string /\ parseISO8601 (bytes (buildTime st)) = None
  | FatalPanic => False
  | FatalConfig e => e <> Panic
  | FatalProxy e => e = ListenAddress \/ e = ReplicaListenAddress \/ e = RouterNeedsListen
  | FatalListen => True
  | Up pr => run_returned (pr_server pr) = false /\ MasterAddress (pr_resolver pr) = None
  end.
Proof.
  unfold main. pose proof (banner_spec rt st) as Hb.
  destruct (banner rt pkgPath st) as [b|e]; [clear Hb|by destruct Hb as (_ & ? & ?%parse_none)].
  destruct (Load host (Some (fromFlags fs)) path) as [cfg|e] eqn:HL.
  2:{ intros ->. by apply (Load_no_panic host (Some (fromFlags fs)) path). }
  pose proof (startup_cases host (Some (fromFlags fs)) path cfg resolve HL) as [(r & Hr & _) Hp].
  unfold runProxying. rewrite Hr.
  destruct (NewRedisSentinelProxy resolve cfg) as [p|[]]; auto; [|done..].
  destruct (Run p listen) as [|s] eqn:ER; [done|]. cbn [pr_server pr_resolver]. split.
  - revert ER. unfold Run. destruct (localAddr p); [destruct (negb _); [done|]|];
      (destruct (replicaAddr p); [destruct (negb _); [done|]|]); intros [= <-]; try done.
    by destruct Hp as [[? ?]|[? ?]].
  - revert Hr. unfold NewRedisMasterResolver. intros (x & _ & HB)%result_bind_Ok.
    apply result_bind_Ok in HB as (y & _ & HB). by apply result_bind_Ok in HB as (z & _ & [= <-]).
Qed.

(** ** The end of the update loop *)

(** When the update loop gives up, the process ends with its error: the
    context is cancelled, the closed listeners end their accept loops, and the
    error is what the process exits with; sessions alive are not cut before. *)
Theorem give_up_exits (pr : process) (e : resolve_err) :
  pr_loop pr = None ->
  let pr' := process_run pr [LoopEnds (Some e); ServerEvent (AcceptFailed EMaster);
                             ServerEvent (AcceptFailed EReplica)] in
  exit_status pr' = Some (Some e) /\ live (pr_server pr') = live (pr_server pr).
Proof.
  destruct pr as [p r l [c ml rl t lv rf]]. cbn. intros ->. by destruct ml, rl.
Qed.

(** C37: With a negative retry budget the process keeps serving without ever
    finding the master again: after the first successful resolve the loop ends
    without an error and closes the sentinel client, nothing is cancelled, and
    the listeners go on accepting; however many refreshes clients ask for
    afterwards, the addresses stay those of that first resolve. *)
Theorem negative_retries_serve_stale (pr : process) (it : Iteration) (initial its : list Iteration) :
  retryOnMasterResolveFail (settings (pr_resolver pr)) < 0 ->
  outcome (world it) (settings (pr_resolver pr)) = None -> pr_loop pr = None ->
  exists r', UpdateMasterAddressLoop (it :: initial) its (pr_resolver pr) = (Returned None, [], r') /\
    sentinelClosed r' = true /\
    (forall ws, masterAddr (refresh_all ws r') = masterAddr r' /\
       replicaAddrs (refresh_all ws r') = replicaAddrs r') /\
    pr_server (process_step pr (LoopEnds None)) = pr_server pr /\
    (run_returned (pr_server pr) = false -> exit_status (process_step pr (LoopEnds None)) = None).
Proof.
  intros Hb Ho Hl. eexists. split; [by apply negative_retries_loop|]. split; [done|].
  split; [intros ws; by apply refresh_all_closed|].
  unfold process_step, exit_status. rewrite Hl. cbn. split; [done|]. by intros ->.
Qed.

(** ** Witness *)

(** The demonstration's resolver with a negative budget in a process with both
    endpoints. *)
Definition demo_process : process := MkProcess demo (ResolverDemo.new (-1) None) None demo0.

Lemma negative_retries_serve_stale_witness :
  exit_status (process_step demo_process (LoopEnds None)) = None.
Proof.
  destruct (negative_retries_serve_stale demo_process (ResolverDemo.run_in (ResolverDemo.up 0)) [] [])
    as (r' & _ & _ & _ & _ & H).
  - reflexivity.
  - vm_compute. reflexivity.
  - reflexivity.
  - apply H. reflexivity.
Defined.
