(* ===== verification/System.v ===== *)
(** * System: update loop, refreshes and client handlers running together

    [Proxy] and [Resolver] take the calls of one goroutine in sequence.  Here
    the goroutines of the process share one resolver and take turns: the
    resolver's update loop, and one handler per client connection (pkg/proxy:
    [proxy], [routedProxy], [connectBackend], [dialReplicaForRouting];
    pkg/master_resolver: [RefreshAddresses], [updateMasterAddress], the loops).
    A step is what a goroutine does between two points where others can
    intervene: one operation under the resolver's lock, one dial, one
    handshake, taking or releasing [refreshLock].  The listeners and the
    connection limit are the server of [Server.Listeners].

    The theorems hold for every interleaving; SystemRuns shows that the
    sequential definitions are the runs of this system in which one goroutine
    runs alone. *)

From Stdlib Require Import String ZArith Lia.
From stdpp Require Import base list strings gmap sorting.
From S2P Require Import Prelude GoStd GoTime Config NetAddr Netio Routing Resolver Proxy Server Main.
Import Listeners.

Local Open Scope Z_scope.

(** ** A client handler *)

(** Where a handler is inside [RefreshAddresses]: before the check of the
    initial resolve, waiting for [refreshLock], and, holding it since the given
    time, before the master, and before the replicas are resolved. *)
Inductive stage : Type :=
| RStart
| RLock
| RMaster (t : Z)
| RReplicas (w : World).

(** Who called [RefreshAddresses]: [connectBackend], or [dialReplicaForRouting]
    with the master connected already. *)
Inductive caller : Type :=
| FromConnect
| FromRouting (addr : string) (l : label).

(** Where a handler is; [again] tells the second attempt of [connectBackend]
    and of [dialReplicaForRouting] from the first. *)
Inductive phase : Type :=
| Handshaking
| Picking (again : bool)
| PickingFallback (again : bool)
| Dialing (again : bool) (addr : string) (l : label)
| Refreshing (st : stage) (c : caller)
| PickingReplica (addr : string) (l : label) (again : bool)
| DialingReplica (addr : string) (l : label) (rep : string)
| Serving (addr : string) (l : label) (rep : option string)
| Crashed.

Record handler : Type := MkHandler {
  h_endpoint : endpoint;
  h_routed : bool;
  h_phase : phase;
  h_dials : list (string * label)      (* the addresses dialled, and as what *)
}.

Definition new_handler (x : endpoint * bool) : handler := MkHandler x.1 x.2 Handshaking [].

(** What the outside answers to a step. *)
Inductive input : Type :=
| INone
| IHandshake (ok : bool)
| IDial (ok : bool)
| IWorld (w : World).

(** What a step does: the resolver, [refreshLock], the address dialled if any,
    and where the handler goes; [None]: it returns. *)
Record effect : Type := MkEffect {
  f_res : RedisMasterResolver;
  f_locked : bool;
  f_dial : list (string * label);
  f_next : option phase
}.

Section System.
Variable p : RedisSentinelProxy.

(** Dialling an empty address is an error ("missing address"). *)
Definition dial_ok (addr : string) (ok : bool) : bool := ok && negb (String.eqb addr "").

(** [connectBackend] after a failed attempt: one refresh and one retry. *)
Definition attempt_failed (again : bool) : option phase :=
  if again || negb (hasRefresher p) then None else Some (Refreshing RStart FromConnect).

Definition refresh_returns (c : caller) : phase :=
  match c with
  | FromConnect => Picking true
  | FromRouting addr l => PickingReplica addr l true
  end.

Definition connected (h : handler) (addr : string) (l : label) : phase :=
  if h_routed h then PickingReplica addr l false else Serving addr l None.

Definition throttled (w : World) (r : RedisMasterResolver) : bool :=
  match lastRefresh r with
  | Some t => Now w - t <? refreshThrottle
  | None => false
  end.

(** The steps of a handler, function by function; [None] when a step cannot be
    taken: the handler waits for the initial resolve, for [refreshLock], or for
    another input. *)
Definition goes (r : RedisMasterResolver) (locked : bool) (ph : phase) : option effect :=
  Some (MkEffect r locked [] (Some ph)).

(** [pickMaster] and [pickReplica]; the latter's two calls on the resolver are
    two steps. *)
Definition pick_step (again : bool) (e : endpoint) (r : RedisMasterResolver) (locked : bool)
  : option effect :=
  match e with
  | EMaster =>
      match MasterAddress r with
      | None => None
      | Some addr => goes r locked (Dialing again addr LMaster)
      end
  | EReplica =>
      if negb (hasReplicaResolver p) then goes r locked Crashed
      else
        match ReplicaAddress r with
        | (ReplicaBlocked, _) => None
        | (ReplicaPanic, r) => goes r locked Crashed
        | (ReplicaPicked addr, r) => goes r locked (Dialing again addr LReplica)
        | (ReplicaNone, r) =>
            if replicaFallbackMaster p then goes r locked (PickingFallback again)
            else Some (MkEffect r locked [] (attempt_failed again))
        end
  end.

Definition fallback_step (again : bool) (r : RedisMasterResolver) (locked : bool) : option effect :=
  match MasterAddress r with
  | None => None
  | Some addr => goes r locked (Dialing again addr LMasterFallback)
  end.

(** The dial of [pickAndDial] and what [connectBackend] does with its result. *)
Definition dial_step (ok again : bool) (addr : string) (l : label) (h : handler)
    (r : RedisMasterResolver) (locked : bool) : option effect :=
  Some (MkEffect r locked [(addr, l)]
    (if dial_ok addr ok then Some (connected h addr l) else attempt_failed again)).

(** [RefreshAddresses]; its queries see the world as the resolver's clients do. *)
Definition refresh_step (i : input) (st : stage) (c : caller) (r : RedisMasterResolver) (locked : bool)
  : option effect :=
  match st, i with
  | RStart, INone =>
      if initialResolved r then goes r locked (Refreshing RLock c) else goes r locked (refresh_returns c)
  | RLock, IWorld w =>
      if locked then None
      else if throttled w r then goes r locked (refresh_returns c)
      else Some (MkEffect (set_lastRefresh (Now w) r) true [] (Some (Refreshing (RMaster (Now w)) c)))
  | RMaster _, IWorld w =>
      match publishMaster (view r w) r with
      | (Some _, r1) => Some (MkEffect r1 false [] (Some (refresh_returns c)))
      | (None, r1) => goes r1 locked (Refreshing (RReplicas (view r w)) c)
      end
  | RReplicas w, INone =>
      Some (MkEffect (publishReplicas (view r w) r) false [] (Some (refresh_returns c)))
  | _, _ => None
  end.

(** [dialReplicaForRouting] up to the dial. *)
Definition route_step (addr : string) (l : label) (again : bool) (r : RedisMasterResolver) (locked : bool)
  : option effect :=
  if negb (hasReplicaResolver p) then goes r locked Crashed
  else
    match ReplicaAddress r with
    | (ReplicaBlocked, _) => None
    | (ReplicaPanic, r) => goes r locked Crashed
    | (ReplicaPicked rep, r) => goes r locked (DialingReplica addr l rep)
    | (ReplicaNone, r) =>
        if again || negb (hasRefresher p) then goes r locked (Serving addr l None)
        else goes r locked (Refreshing RStart (FromRouting addr l))
    end.

(** [proxy] and [routedProxy]. *)
Definition handler_step (i : input) (r : RedisMasterResolver) (locked : bool) (h : handler)
  : option effect :=
  match h_phase h, i with
  | Handshaking, IHandshake ok =>
      Some (MkEffect r locked [] (if ok then Some (Picking false) else None))
  | Picking again, INone => pick_step again (h_endpoint h) r locked
  | PickingFallback again, INone => fallback_step again r locked
  | Dialing again addr l, IDial ok => dial_step ok again addr l h r locked
  | Refreshing st c, _ => refresh_step i st c r locked
  | PickingReplica addr l again, INone => route_step addr l again r locked
  | DialingReplica addr l rep, IDial ok =>
      Some (MkEffect r locked [(rep, LReplica)]
        (Some (Serving addr l (if dial_ok rep ok then Some rep else None))))
  | Serving _ _ _, INone => Some (MkEffect r locked [] None)
  | _, _ => None
  end.

(** ** The update loop *)

(** Where [UpdateMasterAddressLoop] is: before an update of the initial
    resolve or of the loop, between the two publishing steps of one, in the
    wait after a failure, at the end of the initial resolve, or returned. *)
Inductive updater : Type :=
| UInitial (errCount : Z)
| UInitialReplicas (w : World)
| UInitialWait (errCount : Z) (e : resolve_err)
| UInitialDone (err : option resolve_err)
| UTick (errCount : Z) (err : option resolve_err)
| UReplicas (w : World)
| UWait (errCount : Z) (e : resolve_err)
| UReturned (err : option resolve_err).

(** What the loop sees: the world of an update, or which case a [select]
    takes. *)
Inductive uinput : Type :=
| UNone
| UWorld (w : World)
| UDone                (* [ctx.Done()] *)
| UElapsed.            (* the wait is over *)

Definition updater_step (i : uinput) (r : RedisMasterResolver) (u : updater)
  : option (RedisMasterResolver * updater) :=
  match u, i with
  | UInitial n, UWorld w =>
      match publishMaster w r with
      | (None, r) => Some (r, UInitialReplicas w)
      | (Some e, r) =>
          if errSentinelNotReady e then Some (r, UInitialWait n e)
          else if retryOnMasterResolveFail (settings r) <? n + 1 then Some (r, UInitialDone (Some e))
          else Some (r, UInitialWait (n + 1) e)
      end
  | UInitialReplicas w, UNone => Some (publishReplicas w r, UInitialDone None)
  | UInitialWait n e, UElapsed => Some (r, UInitial n)
  | UInitialWait n e, UDone => Some (r, UInitialDone (Some e))
  | UInitialDone None, UNone => Some (close_initial r, UTick 0 None)
  | UInitialDone (Some e), UNone => Some (close_sentinel (close_initial r), UReturned (Some e))
  | UTick n err, _ =>
      if negb (n <=? retryOnMasterResolveFail (settings r)) then
        match i with UNone => Some (close_sentinel r, UReturned err) | _ => None end
      else
        match i with
        | UDone => Some (close_sentinel r, UReturned None)
        | UWorld w =>
            match publishMaster w r with
            | (None, r) => Some (r, UReplicas w)
            | (Some e, r) => Some (r, UWait (if errSentinelNotReady e then n else n + 1) e)
            end
        | _ => None
        end
  | UReplicas w, UNone => Some (publishReplicas w r, UTick 0 None)
  | UWait n e, UElapsed => Some (r, UTick n (Some e))
  | UWait n e, UDone => Some (close_sentinel r, UReturned None)
  | _, _ => None
  end.

(** ** The system *)

(** The goroutines and what they share.  [worlds] and [refreshes] record the
    worlds of the updates begun so far and, of the refreshes that have queried
    sentinel so far, the times they began, the last one first. *)
Record system : Type := MkSystem {
  y_server : server;
  y_handlers : list handler;           (* the live sessions, in [live]'s order *)
  y_res : RedisMasterResolver;
  y_locked : bool;                     (* [refreshLock] *)
  y_updater : updater;
  worlds : list World;
  refreshes : list Z
}.

Inductive move : Type :=
| Listener (ev : event)
| Handler (k : nat) (i : input)
| Updater (i : uinput).

(** The history a step of a handler or of the loop adds: both records are made
    where a refresh queries sentinel for the master. *)
Definition handler_worlds (i : input) (h : handler) (r : RedisMasterResolver) (ws : list World) : list World :=
  match h_phase h, i with
  | Refreshing (RMaster _) _, IWorld w => view r w :: ws
  | _, _ => ws
  end.

Definition handler_refreshes (i : input) (h : handler) (ts : list Z) : list Z :=
  match h_phase h, i with
  | Refreshing (RMaster t) _, IWorld _ => t :: ts
  | _, _ => ts
  end.

Definition updater_worlds (i : uinput) (ws : list World) : list World :=
  match i with UWorld w => w :: ws | _ => ws end.

(** A listener's event: a session that is admitted gets its handler.  Sessions
    end by the last step of their handler. *)
Definition listener_step (ev : event) (y : system) : option system :=
  match ev with
  | SessionEnds _ => None
  | _ =>
      let s := handle p (y_server y) ev in
      let added := drop (length (y_handlers y)) (live s) in
      Some (MkSystem s (y_handlers y ++ (new_handler <$> added)) (y_res y) (y_locked y)
              (y_updater y) (worlds y) (refreshes y))
  end.

Definition system_step (m : move) (y : system) : option system :=
  match m with
  | Listener ev => listener_step ev y
  | Handler k i =>
      h ← y_handlers y !! k;
      f ← handler_step i (y_res y) (y_locked y) h;
      let dials := h_dials h ++ f_dial f in
      let '(s, hs) :=
        match f_next f with
        | Some ph =>
            (y_server y, <[k := MkHandler (h_endpoint h) (h_routed h) ph dials]> (y_handlers y))
        | None => (handle p (y_server y) (SessionEnds k), delete k (y_handlers y))
        end in
      Some (MkSystem s hs (f_res f) (f_locked f) (y_updater y)
              (handler_worlds i h (y_res y) (worlds y)) (handler_refreshes i h (refreshes y)))
  | Updater i =>
      '(r, u) ← updater_step i (y_res y) (y_updater y);
      Some (MkSystem (y_server y) (y_handlers y) r (y_locked y) u
              (updater_worlds i (worlds y)) (refreshes y))
  end.

(** A process that has just started: the resolver is new, nobody is connected. *)
Definition started (r : RedisMasterResolver) (s : server) : system :=
  MkSystem s [] r false (UInitial 0) [] [].

Fixpoint system_run (ms : list move) (y : system) : option system :=
  match ms with
  | [] => Some y
  | m :: ms => y ← system_step m y; system_run ms y
  end.

(** ** The steps of a handler as rules

    [trans i r lk h r' lk' ds ph]: with input [i] the handler [h] goes to phase
    [ph], dials [ds], and leaves the resolver and [refreshLock] as [r'] and
    [lk'].  [handler_step_trans] shows that these are the steps of
    [handler_step] after which the handler goes on. *)
Inductive trans (i : input) (r : RedisMasterResolver) (lk : bool) (h : handler)
  : RedisMasterResolver -> bool -> list (string * label) -> phase -> Prop :=
| tr_handshake :
    h_phase h = Handshaking -> i = IHandshake true -> trans i r lk h r lk [] (Picking false)
| tr_master again addr :
    h_phase h = Picking again -> i = INone -> h_endpoint h = EMaster ->
    MasterAddress r = Some addr -> trans i r lk h r lk [] (Dialing again addr LMaster)
| tr_replica again addr r' :
    h_phase h = Picking again -> i = INone -> h_endpoint h = EReplica ->
    ReplicaAddress r = (ReplicaPicked addr, r') ->
    trans i r lk h r' lk [] (Dialing again addr LReplica)
| tr_no_replica again r' :
    h_phase h = Picking again -> i = INone -> h_endpoint h = EReplica ->
    ReplicaAddress r = (ReplicaNone, r') -> replicaFallbackMaster p = true ->
    trans i r lk h r' lk [] (PickingFallback again)
| tr_pick_error r' :
    h_phase h = Picking false -> i = INone -> h_endpoint h = EReplica ->
    ReplicaAddress r = (ReplicaNone, r') -> trans i r lk h r' lk [] (Refreshing RStart FromConnect)
| tr_fallback again addr :
    h_phase h = PickingFallback again -> i = INone -> MasterAddress r = Some addr ->
    trans i r lk h r lk [] (Dialing again addr LMasterFallback)
| tr_connected again addr l :
    h_phase h = Dialing again addr l -> i = IDial true -> addr <> ""%string ->
    trans i r lk h r lk [(addr, l)] (connected h addr l)
| tr_dial_error addr l ok :
    h_phase h = Dialing false addr l -> i = IDial ok ->
    trans i r lk h r lk [(addr, l)] (Refreshing RStart FromConnect)
| tr_refresh_skip c :
    h_phase h = Refreshing RStart c -> i = INone -> initialResolved r = false ->
    trans i r lk h r lk [] (refresh_returns c)
| tr_refresh_enter c :
    h_phase h = Refreshing RStart c -> i = INone -> initialResolved r = true ->
    trans i r lk h r lk [] (Refreshing RLock c)
| tr_refresh_throttled c w :
    h_phase h = Refreshing RLock c -> i = IWorld w -> lk = false -> throttled w r = true ->
    trans i r lk h r false [] (refresh_returns c)
| tr_refresh_lock c w :
    h_phase h = Refreshing RLock c -> i = IWorld w -> lk = false -> throttled w r = false ->
    trans i r lk h (set_lastRefresh (Now w) r) true [] (Refreshing (RMaster (Now w)) c)
| tr_refresh_failed t c w e r' :
    h_phase h = Refreshing (RMaster t) c -> i = IWorld w -> publishMaster (view r w) r = (Some e, r') ->
    trans i r lk h r' false [] (refresh_returns c)
| tr_refresh_master t c w r' :
    h_phase h = Refreshing (RMaster t) c -> i = IWorld w -> publishMaster (view r w) r = (None, r') ->
    trans i r lk h r' lk [] (Refreshing (RReplicas (view r w)) c)
| tr_refresh_replicas c w :
    h_phase h = Refreshing (RReplicas w) c -> i = INone ->
    trans i r lk h (publishReplicas (view r w) r) false [] (refresh_returns c)
| tr_route addr l again rep r' :
    h_phase h = PickingReplica addr l again -> i = INone ->
    ReplicaAddress r = (ReplicaPicked rep, r') -> trans i r lk h r' lk [] (DialingReplica addr l rep)
| tr_route_refresh addr l r' :
    h_phase h = PickingReplica addr l false -> i = INone ->
    ReplicaAddress r = (ReplicaNone, r') ->
    trans i r lk h r' lk [] (Refreshing RStart (FromRouting addr l))
| tr_route_none addr l again r' :
    h_phase h = PickingReplica addr l again -> i = INone ->
    ReplicaAddress r = (ReplicaNone, r') -> trans i r lk h r' lk [] (Serving addr l None)
| tr_routed addr l rep ok :
    h_phase h = DialingReplica addr l rep -> i = IDial ok ->
    trans i r lk h r lk [(rep, LReplica)] (Serving addr l (if dial_ok rep ok then Some rep else None))
| tr_crash ph :
    h_phase h = ph -> i = INone ->
    match ph with Picking _ => h_endpoint h = EReplica | PickingReplica _ _ _ => True | _ => False end ->
    hasReplicaResolver p = false \/ fst (ReplicaAddress r) = ReplicaPanic ->
    trans i r lk h (if hasReplicaResolver p then snd (ReplicaAddress r) else r) lk [] Crashed.

#[local] Hint Constructors trans : go.

Lemma attempt_failed_Some again ph :
  attempt_failed again = Some ph -> again = false /\ ph = Refreshing RStart FromConnect.
Proof. unfold attempt_failed. destruct again, (hasRefresher p); by intros [= <-]. Qed.

Lemma dial_ok_true addr ok : dial_ok addr ok = true -> addr <> ""%string /\ ok = true.
Proof. unfold dial_ok. destruct (String.eqb_spec addr ""); by destruct ok. Qed.

Lemma handler_step_trans i r lk h f ph :
  handler_step i r lk h = Some f -> f_next f = Some ph ->
  trans i r lk h (f_res f) (f_locked f) (f_dial f) ph.
Proof.
  pose proof (tr_crash i r lk h) as Hcrash. unfold handler_step, pick_step, fallback_step, dial_step, refresh_step, route_step, goes.
  destruct (h_phase h) as [|again|again|again addr l|[| |t|w] c|addr l again|addr l rep|addr l rep|] eqn:Eph;
    destruct i as [|ok|ok|w']; try done.
  - destruct ok; intros [= <-] [= <-]. eauto with go.
  - destruct (h_endpoint h) eqn:He; [destruct (MasterAddress r) eqn:Hm; intros [= <-] [= <-]; eauto with go|].
    specialize (Hcrash (Picking again) eq_refl eq_refl eq_refl).
    destruct (hasReplicaResolver p); [|intros [= <-] [= <-]; eauto].
    destruct (ReplicaAddress r) as [[| |a|] r'] eqn:Hr; cbn [negb]; [done|..].
    + destruct (replicaFallbackMaster p) eqn:Hf; intros [= <-]; cbn.
      * intros [= <-]. eauto with go.
      * intros [-> ->]%attempt_failed_Some. eauto with go.
    + intros [= <-] [= <-]. eauto with go.
    + intros [= <-] [= <-]. eauto.
  - destruct (MasterAddress r) eqn:Hm; intros [= <-] [= <-]; eauto with go.
  - intros [= <-]. cbn. destruct (dial_ok addr ok) eqn:Hd.
    + apply dial_ok_true in Hd as [? ->]. intros [= <-]. eauto with go.
    + intros [-> ->]%attempt_failed_Some. eauto with go.
  - destruct (initialResolved r) eqn:Hi; intros [= <-] [= <-]; eauto with go.
  - destruct lk; [done|]. destruct (throttled w' r) eqn:Ht; intros [= <-] [= <-]; eauto with go.
  - destruct (publishMaster (view r w') r) as [[e|] r'] eqn:Hm; intros [= <-] [= <-]; eauto with go.
  - intros [= <-] [= <-]. eauto with go.
  - specialize (Hcrash (PickingReplica addr l again) eq_refl eq_refl I).
    destruct (hasReplicaResolver p); [|intros [= <-] [= <-]; eauto].
    destruct (ReplicaAddress r) as [[| |a|] r'] eqn:Hr; cbn [negb]; [done|..].
    + destruct again; cbn [orb]; [intros [= <-] [= <-]; eauto with go|].
      destruct (hasRefresher p); intros [= <-] [= <-]; eauto with go.
    + intros [= <-] [= <-]. eauto with go.
    + intros [= <-] [= <-]. eauto.
  - intros [= <-] [= <-]. eauto with go.
  - by intros [= <-].
Qed.

(** ** What is invariant *)

Section Invariant.
Variable r0 : RedisMasterResolver.

(** The address was found by one of the updates: as the verified master, or as
    a healthy replica.  No master is known before the first success. *)
Definition justified (ws : list World) (addr : string) (l : label) : Prop :=
  match l with
  | LReplica => exists w fields, w ∈ ws /\ fields ∈ sentinel_replicas w (settings r0) /\
      healthy w (settings r0) fields addr
  | _ => addr = ""%string \/ exists w, w ∈ ws /\ verified_master w (settings r0) addr
  end.

(** The label fits the endpoint and the fallback policy. *)
Definition label_ok (e : endpoint) (l : label) : Prop :=
  match l with
  | LMaster => e = EMaster
  | LReplica => e = EReplica
  | LMasterFallback => e = EReplica /\ replicaFallbackMaster p = true
  end.

Definition backend_ok (ws : list World) (e : endpoint) (addr : string) (l : label) : Prop :=
  addr <> ""%string /\ justified ws addr l /\ label_ok e l.

Definition stage_ok (ws : list World) (st : stage) : Prop :=
  match st with
  | RReplicas w => w ∈ ws /\ outcome w (settings r0) = None
  | _ => True
  end.

Definition phase_ok (ws : list World) (e : endpoint) (routed : bool) (ph : phase) : Prop :=
  match ph with
  | Handshaking | Picking _ => True
  | PickingFallback _ => e = EReplica /\ replicaFallbackMaster p = true
  | Dialing _ addr l => justified ws addr l /\ label_ok e l
  | Refreshing st FromConnect => stage_ok ws st
  | Refreshing st (FromRouting addr l) => stage_ok ws st /\ routed = true /\ backend_ok ws e addr l
  | PickingReplica addr l _ => routed = true /\ backend_ok ws e addr l
  | DialingReplica addr l rep =>
      routed = true /\ backend_ok ws e addr l /\ justified ws rep LReplica
  | Serving addr l rep => backend_ok ws e addr l /\
      match rep with
      | None => True
      | Some a => routed = true /\ a <> ""%string /\ justified ws a LReplica
      end
  | Crashed => False
  end.

(** How many dials a handler has made at most where it is. *)
Definition dial_budget (routed : bool) (ph : phase) : nat :=
  match ph with
  | Handshaking | Picking false | PickingFallback false | Dialing false _ _ => 0
  | Picking true | PickingFallback true | Dialing true _ _ | Refreshing _ FromConnect => 1
  | Refreshing _ (FromRouting _ _) | PickingReplica _ _ _ | DialingReplica _ _ _ => 2
  | Serving _ _ _ => if routed then 3 else 2
  | Crashed => 3
  end.

(** The phases a handler can be in before the initial resolve has ended. *)
Definition early (ph : phase) : bool :=
  match ph with Handshaking | Picking false => true | _ => false end.

Record handler_ok (ws : list World) (init : bool) (h : handler) : Prop := {
  ok_phase : phase_ok ws (h_endpoint h) (h_routed h) (h_phase h);
  ok_dials : Forall (fun d => justified ws d.1 d.2) (h_dials h);
  ok_budget : (length (h_dials h) <= dial_budget (h_routed h) (h_phase h))%nat;
  ok_init : early (h_phase h) = false -> init = true;
  ok_routed : h_routed h = true -> h_endpoint h = EMaster;
  ok_replicas : h_endpoint h = EReplica \/ h_routed h = true -> hasReplicaResolver p = true
}.

Lemma justified_mono ws ws' addr l : ws ⊆ ws' -> justified ws addr l -> justified ws' addr l.
Proof. unfold justified. intros Hs. destruct l; set_solver. Qed.

Lemma phase_ok_mono ws ws' e routed ph :
  ws ⊆ ws' -> phase_ok ws e routed ph -> phase_ok ws' e routed ph.
Proof.
  intros Hs. pose proof (fun a l => justified_mono ws ws' a l Hs) as Hj.
  destruct ph as [| | | |st [|]| | | ? ? [|]|]; cbn; unfold backend_ok; try naive_solver.
  all: destruct st; cbn; set_solver.
Qed.

Lemma handler_ok_mono ws ws' init init' h :
  ws ⊆ ws' -> (init = true -> init' = true) -> handler_ok ws init h -> handler_ok ws' init' h.
Proof.
  intros Hs Hi [H1 H2 H3 H4 H5 H6]. split; auto.
  - by eapply phase_ok_mono.
  - eapply Forall_impl; [exact H2|]. intros d. by apply justified_mono.
Qed.

(** *** One step of a handler *)

Context (Hnew : published [] r0) (Hidx : u64 (replicaIdx r0)).

Lemma reach_master ws r addr :
  reach r0 ws r -> MasterAddress r = Some addr ->
  justified ws addr LMaster /\ justified ws addr LMasterFallback /\ initialResolved r = true.
Proof.
  intros Hr. destruct (reach_published _ _ _ Hr Hnew Hidx) as ((Hm & _) & _ & Hs).
  unfold MasterAddress. destruct (initialResolved r); [|done]. intros [= <-].
  rewrite Hs in Hm. by unfold justified.
Qed.

Lemma reach_replica ws r :
  reach r0 ws r ->
  match ReplicaAddress r with
  | (ReplicaBlocked, _) => initialResolved r = false
  | (ReplicaPanic, _) => False
  | (ReplicaPicked addr, _) => justified ws addr LReplica /\ initialResolved r = true
  | (ReplicaNone, _) => initialResolved r = true
  end.
Proof.
  intros Hr. destruct (reach_published _ _ _ Hr Hnew Hidx) as ((_ & Hp & _) & Hu & Hs).
  destruct (initialResolved r) eqn:Hi; [|unfold ReplicaAddress; by rewrite Hi].
  destruct (decide (replicaAddrs r = [])) as [He|Hne].
  { unfold ReplicaAddress. by rewrite Hi, He. }
  destruct (ReplicaAddress_picks r Hi Hne Hu) as (addr & Ha & ->). split; [|done].
  destruct Hp as [[? _]|(_ & w & c & Hw & _ & _ & _ & _ & Hall)]; [done|]. rewrite Hs in Hall.
  apply list_elem_of_lookup_2, Hall in Ha as (fields & ? & ?). by exists w, fields.
Qed.

(** What a step keeps of the resolver. *)
Definition same_setup (r r' : RedisMasterResolver) : Prop :=
  settings r' = settings r /\ initialResolved r' = initialResolved r.

Lemma handler_step_reach ws i r lk h f :
  reach r0 ws r -> handler_ok ws (initialResolved r) h -> handler_step i r lk h = Some f ->
  reach r0 (handler_worlds i h r ws) (f_res f) /\ same_setup r (f_res f).
Proof.
  intros Hr Hok Hst. pose proof (ok_phase _ _ _ Hok) as Hph. revert Hst.
  pose proof (reach_pick _ _ _ Hr) as Hpick.
  assert (same_setup r (snd (ReplicaAddress r))) as Hpc.
  { unfold ReplicaAddress. repeat case_match; done. }
  unfold handler_step, pick_step, fallback_step, dial_step, refresh_step, route_step, goes, handler_worlds.
  destruct (h_phase h) as [| | | |[| |t|w] c| | | |] eqn:Eph, i as [|ok|ok|w']; try done.
  all: try (intros [= <-]; done).
  - destruct (h_endpoint h); [by case_match; [intros [= <-]|]|].
    case_match; [by intros [= <-]|].
    destruct (ReplicaAddress r) as [[] r1]; [done|case_match|..]; intros [= <-]; done.
  - by case_match; [intros [= <-]|].
  - by case_match; intros [= <-].
  - case_match; [done|]. case_match; intros [= <-]; [done|]. cbn. split; [|done].
    apply reach_refreshed; [done|]. apply (ok_init _ _ _ Hok). by rewrite Eph.
  - pose proof (reach_begin _ _ (view r w') _ Hr) as Hb. pose proof (publishMaster_same_control (view r w') r) as Hc.
    destruct (publishMaster (view r w') r) as [[e|] r1]; intros [= <-]; (split; [done|]); split; apply Hc.
  - intros [= <-]. destruct (reach_published _ _ _ Hr Hnew Hidx) as (_ & _ & Hs).
    assert (w ∈ ws /\ outcome w (settings r) = None) as [Hw Ho].
    { rewrite Hs. destruct c; apply Hph. }
    destruct (publishReplicas_spec (view r w) r) as ((? & ? & _) & _).
    split; [|done]. by apply (reach_finish _ _ w); [..|apply view_cases].
  - case_match; [by intros [= <-]|].
    destruct (ReplicaAddress r) as [[] r1]; [done|case_match|..]; intros [= <-]; done.
Qed.

Definition moved (h : handler) (ph : phase) (ds : list (string * label)) : handler :=
  MkHandler (h_endpoint h) (h_routed h) ph (h_dials h ++ ds).

Lemma handler_ok_moved ws ws' init h ph ds :
  handler_ok ws init h -> ws ⊆ ws' ->
  phase_ok ws' (h_endpoint h) (h_routed h) ph -> Forall (fun d => justified ws' d.1 d.2) ds ->
  (dial_budget (h_routed h) (h_phase h) + length ds <= dial_budget (h_routed h) ph)%nat ->
  (early ph = false -> init = true) -> handler_ok ws' init (moved h ph ds).
Proof.
  intros [H1 H2 H3 H4 H5 H6] Hs Hp Hd Hb Hi. unfold moved. split; cbn; auto.
  - apply Forall_app. split; [|done]. eapply Forall_impl; [exact H2|]. intros d. by apply justified_mono.
  - rewrite length_app. lia.
Qed.

(** Rewrites with the phase a rule starts from. *)
Ltac at_phase Hph :=
  match goal with E : h_phase _ = _ |- _ => rewrite E in Hph; cbn in Hph end.

Lemma trans_budget ws i r lk h r' lk' ds ph :
  phase_ok ws (h_endpoint h) (h_routed h) (h_phase h) -> trans i r lk h r' lk' ds ph ->
  (dial_budget (h_routed h) (h_phase h) + length ds <= dial_budget (h_routed h) ph)%nat.
Proof.
  intros Hph Ht. destruct Ht; at_phase Hph;
    match goal with E : h_phase _ = _ |- _ => rewrite E end; cbn;
    repeat match goal with c : caller |- _ => destruct c | |- context [if ?b then _ else _] => is_var b; destruct b end;
    cbn; try lia.
  all: try (unfold connected; destruct (h_routed h); cbn; naive_solver lia).
  destruct ph as [|[]|[]|[]|? []| | | |]; cbn; try done; lia.
Qed.

Lemma trans_early ws i r lk h r' lk' ds ph :
  reach r0 ws r -> (early (h_phase h) = false -> initialResolved r = true) ->
  hasReplicaResolver p = true \/ ph <> Crashed -> trans i r lk h r' lk' ds ph ->
  early ph = false -> initialResolved r = true.
Proof.
  intros Hr Hin Hrr Ht. pose proof (reach_replica _ _ Hr) as Hpr.
  pose proof (fun a => reach_master _ _ a Hr) as Hpm.
  destruct Ht; match goal with E : h_phase _ = _ |- _ => rewrite E in Hin; cbn in Hin end; auto.
  all: try match goal with E : ReplicaAddress _ = _ |- _ => rewrite E in Hpr; naive_solver end.
  all: try match goal with E : MasterAddress _ = _ |- _ => apply Hpm in E as (? & ? & ?) end; auto.
  destruct Hrr as [Hrr|?]; [|done].
  match goal with E : _ \/ _ |- _ => destruct E as [?|E]; [congruence|] end.
  by destruct (ReplicaAddress r) as [[] ?].
Qed.

Lemma trans_dials ws i r lk h r' lk' ds ph :
  phase_ok ws (h_endpoint h) (h_routed h) (h_phase h) -> trans i r lk h r' lk' ds ph ->
  Forall (fun d => justified ws d.1 d.2) ds.
Proof.
  intros Hph Ht. destruct Ht; try constructor; try constructor; at_phase Hph; apply Hph.
Qed.

Lemma begun ws i r h t c w r' :
  reach r0 ws r -> h_phase h = Refreshing (RMaster t) c -> i = IWorld w ->
  publishMaster (view r w) r = (None, r') ->
  view r w ∈ handler_worlds i h r ws /\ outcome (view r w) (settings r0) = None.
Proof.
  intros Hr Eph -> Hm. unfold handler_worlds. rewrite Eph. split; [set_solver|].
  destruct (reach_published _ _ _ Hr Hnew Hidx) as (_ & _ & <-).
  by rewrite <- publishMaster_outcome, Hm.
Qed.

Lemma trans_phase ws i r lk h r' lk' ds ph :
  reach r0 ws r -> phase_ok ws (h_endpoint h) (h_routed h) (h_phase h) ->
  (h_endpoint h = EReplica \/ h_routed h = true -> hasReplicaResolver p = true) ->
  trans i r lk h r' lk' ds ph -> phase_ok (handler_worlds i h r ws) (h_endpoint h) (h_routed h) ph.
Proof.
  intros Hr Hph Hrr Ht. pose proof (reach_replica _ _ Hr) as Hpr.
  pose proof (fun a => reach_master _ _ a Hr) as Hpm.
  assert (ws ⊆ handler_worlds i h r ws) as Hsub.
  { unfold handler_worlds. repeat case_match; set_solver. }
  apply (phase_ok_mono _ _ _ _ _ Hsub) in Hph.
  destruct Ht; at_phase Hph.
  all: try match goal with E : ReplicaAddress _ = _ |- _ => rewrite E in Hpr end.
  all: try match goal with E : MasterAddress _ = _ |- _ => apply Hpm in E as (? & ? & ?) end.
  all: clear Hpm; cbn [phase_ok]; cbn [stage_ok].
  all: try match goal with c : caller |- _ => destruct c; [|destruct Hph as (? & ? & ?)] end.
  all: try (cbn; done).
  - split; [by eapply justified_mono|done].
  - destruct Hpr. split; [by eapply justified_mono|done].
  - split; [by eapply justified_mono|done].
  - unfold connected. destruct Hph. destruct (h_routed h); cbn; by unfold backend_ok.
  - by eapply begun.
  - split; [by eapply begun|done].
  - destruct Hph, Hpr. split_and!; try done. by eapply justified_mono.
  - by destruct Hph.
  - destruct Hph as (? & ? & ?). split; [done|].
    destruct (dial_ok rep ok) eqn:Hd; [|done]. by apply dial_ok_true in Hd as [? _].
  - match goal with E : _ \/ _ |- _ => destruct E as [E|E] end.
    + rewrite Hrr in *; [done|]. destruct ph; try done; [by left|by right; apply Hph].
    + by destruct (ReplicaAddress r) as [[] ?].
Qed.

Lemma handler_step_ok ws i r lk h f ph :
  reach r0 ws r -> handler_ok ws (initialResolved r) h -> handler_step i r lk h = Some f ->
  f_next f = Some ph ->
  handler_ok (handler_worlds i h r ws) (initialResolved r) (moved h ph (f_dial f)).
Proof.
  intros Hr Hok Hst Hn. pose proof (handler_step_trans _ _ _ _ _ _ Hst Hn) as Ht.
  pose proof Hok as [Hph _ _ Hin Hro Hrr].
  assert (ws ⊆ handler_worlds i h r ws) as Hsub.
  { unfold handler_worlds. repeat case_match; set_solver. }
  pose proof (trans_phase _ _ _ _ _ _ _ _ _ Hr Hph Hrr Ht) as Hph'.
  eapply handler_ok_moved; [done..| | |].
  - eapply Forall_impl; [by eapply trans_dials|]. intros d. by apply justified_mono.
  - by eapply trans_budget.
  - eapply trans_early; [done..| |done]. right. by intros ->.
Qed.

(** *** [refreshLock] *)

Definition holds (ph : phase) : bool :=
  match ph with
  | Refreshing (RMaster _) _ | Refreshing (RReplicas _) _ => true
  | _ => false
  end.

Lemma trans_lock i r lk h r' lk' ds ph :
  (holds (h_phase h) = true -> lk = true) -> trans i r lk h r' lk' ds ph ->
  (Nat.b2n lk' + Nat.b2n (holds (h_phase h)) = Nat.b2n lk + Nat.b2n (holds ph))%nat.
Proof.
  intros Hh Ht. destruct Ht;
    match goal with E : h_phase _ = _ |- _ => rewrite E in *; cbn in Hh |- * end;
    repeat match goal with c : caller |- _ => destruct c end; subst; cbn; try lia;
    rewrite ?Hh by done; cbn; try lia.
  - unfold connected. destruct (h_routed h); cbn; lia.
  - by destruct (h_phase h).
Qed.

(** A handler that returns leaves the resolver's clock and the lock alone. *)
Lemma handler_step_end i r lk h f :
  handler_step i r lk h = Some f -> f_next f = None ->
  f_locked f = lk /\ lastRefresh (f_res f) = lastRefresh r /\ holds (h_phase h) = false /\
  forall ts, handler_refreshes i h ts = ts.
Proof.
  assert (lastRefresh (ReplicaAddress r).2 = lastRefresh r) as Hl.
  { unfold ReplicaAddress. by repeat case_match. }
  unfold handler_step, pick_step, fallback_step, dial_step, refresh_step, route_step, goes, handler_refreshes.
  destruct (h_phase h) as [|again|again|again addr l|[| |t|w] c|addr l again|addr l rep|addr l rep|];
    destruct i as [|ok|ok|w']; try done.
  all: intros Hs; repeat case_match; simplify_eq/=; done.
Qed.

Lemma delete_insert_same {A} (k : nat) (x : A) (l : list A) : delete k (<[k := x]> l) = delete k l.
Proof. rewrite !delete_take_drop, take_insert_ge, drop_insert_lt by lia. done. Qed.

Lemma length_filter_split (P : phase -> bool) l k h :
  l !! k = Some h ->
  (length (filter (fun h => P (h_phase h)) l) =
   Nat.b2n (P (h_phase h)) + length (filter (fun h => P (h_phase h)) (delete k l)))%nat.
Proof.
  intros Hk. rewrite <- (take_drop_middle _ _ _ Hk) at 1. rewrite delete_take_drop.
  rewrite !filter_app, filter_cons, !length_app.
  destruct (P (h_phase h)); cbn; [rewrite decide_True by done; cbn|rewrite decide_False by naive_solver]; lia.
Qed.

Lemma length_filter_insert (P : phase -> bool) l k h h' :
  l !! k = Some h ->
  (length (filter (fun h => P (h_phase h)) (<[k := h']> l)) + Nat.b2n (P (h_phase h)) =
   length (filter (fun h => P (h_phase h)) l) + Nat.b2n (P (h_phase h')))%nat.
Proof.
  intros Hk. rewrite (length_filter_split P l k h Hk).
  rewrite (length_filter_split P (<[k := h']> l) k h').
  - rewrite delete_insert_same. lia.
  - apply list_lookup_insert_eq. by eapply lookup_lt_Some.
Qed.

(** *** Refresh times *)

Definition apart (t1 t2 : Z) : Prop := t2 + refreshThrottle <= t1.

(** A refresh about to query is the last one that took its time, a second after
    all that have queried. *)
Definition due (ts : list Z) (last : option Z) (h : handler) : Prop :=
  match h_phase h with
  | Refreshing (RMaster t) _ => last = Some t /\ Forall (apart t) ts
  | _ => True
  end.

Definition times_ok (ts : list Z) (last : option Z) (hs : list handler) : Prop :=
  StronglySorted apart ts /\ Forall (fun t => exists l, last = Some l /\ t <= l) ts /\ Forall (due ts last) hs.

Lemma due_idle ts last h : holds (h_phase h) = false -> due ts last h.
Proof. unfold due. by destruct (h_phase h) as [| | | |[| |t|w] c| | | |]. Qed.

Lemma Forall_insert_delete {A} (P : A -> Prop) k x l :
  P x -> Forall P (delete k l) -> Forall P (<[k := x]> l).
Proof.
  intros Hx. destruct (decide (k < length l)%nat) as [Hk|Hk].
  - rewrite delete_take_drop, insert_take_drop, !Forall_app, Forall_cons by done. tauto.
  - rewrite list_insert_ge, delete_take_drop, take_ge, drop_ge, app_nil_r by lia. done.
Qed.

(** While one handler holds the lock no other is about to query, and none while
    nobody does. *)
Lemma others_due ts last k h hs n :
  hs !! k = Some h -> length (filter (fun h => holds (h_phase h)) hs) = n ->
  (n <= Nat.b2n (holds (h_phase h)))%nat -> Forall (due ts last) (delete k hs).
Proof.
  intros Hk Hl Hn. rewrite (length_filter_split holds _ _ _ Hk) in Hl.
  assert (filter (fun h => holds (h_phase h)) (delete k hs) = []) as He by (apply nil_length_inv; lia).
  apply Forall_forall. intros x Hx. apply due_idle. destruct (holds (h_phase x)) eqn:E; [|done].
  assert (x ∈ filter (fun h => holds (h_phase h)) (delete k hs)) as Hin.
  { apply list_elem_of_filter. rewrite E. done. }
  rewrite He in Hin. by apply elem_of_nil in Hin.
Qed.

(** What a step of a handler does to the times: nothing, or it takes the lock
    with the time, or it queries. *)
Inductive times_step (i : input) (r : RedisMasterResolver) (lk : bool) (h : handler)
    (r' : RedisMasterResolver) (ph : phase) : Prop :=
| ts_same :
    lastRefresh r' = lastRefresh r -> (forall ts, handler_refreshes i h ts = ts) ->
    (forall t c, ph <> Refreshing (RMaster t) c) -> times_step i r lk h r' ph
| ts_lock w c :
    lk = false -> throttled w r = false -> lastRefresh r' = Some (Now w) ->
    (forall ts, handler_refreshes i h ts = ts) -> ph = Refreshing (RMaster (Now w)) c ->
    times_step i r lk h r' ph
| ts_query t c :
    h_phase h = Refreshing (RMaster t) c -> lastRefresh r' = lastRefresh r ->
    (forall ts, handler_refreshes i h ts = t :: ts) ->
    (forall t c, ph <> Refreshing (RMaster t) c) -> times_step i r lk h r' ph.

Lemma returns_not_master c t c' : refresh_returns c <> Refreshing (RMaster t) c'.
Proof. by destruct c. Qed.

Lemma trans_times_step i r lk h r' lk' ds ph :
  trans i r lk h r' lk' ds ph -> times_step i r lk h r' ph.
Proof.
  intros Ht.
  assert (lastRefresh (ReplicaAddress r).2 = lastRefresh r) as Hl.
  { unfold ReplicaAddress. by repeat case_match. }
  pose proof returns_not_master as Hret.
  destruct Ht; subst.
  all: try (eapply ts_lock; [done|done|done| |reflexivity]; intros ts; unfold handler_refreshes;
    match goal with E : h_phase _ = _ |- _ => by rewrite E end).
  all: try match goal with E : publishMaster ?w ?r = _ |- _ =>
    pose proof (publishMaster_same_control w r) as (_ & _ & Hc & _); rewrite E in Hc; cbn in Hc;
    eapply ts_query; [done|done| |by auto]; intros ts; unfold handler_refreshes;
    match goal with E : h_phase _ = _ |- _ => by rewrite E end end.
  all: apply ts_same; try done.
  all: try (intros ts; unfold handler_refreshes;
    match goal with E : h_phase _ = _ |- _ => by rewrite E end).
  all: try match goal with E : ReplicaAddress _ = _ |- _ => rewrite E in Hl; cbn in Hl; by rewrite Hl end.
  - intros t c. unfold connected. by destruct (h_routed h).
  - by destruct (publishReplicas_spec (view r w) r) as ((_ & _ & -> & _) & _).
  - by destruct (hasReplicaResolver p); rewrite ?Hl.
  - intros ts. unfold handler_refreshes. by destruct (h_phase h).
Qed.

Lemma trans_times i r lk h r' lk' ds ph ts k hs :
  hs !! k = Some h -> length (filter (fun h => holds (h_phase h)) hs) = Nat.b2n lk ->
  times_ok ts (lastRefresh r) hs -> trans i r lk h r' lk' ds ph ->
  times_ok (handler_refreshes i h ts) (lastRefresh r') (<[k := moved h ph ds]> hs).
Proof.
  intros Hk Hlk (Hs & Hle & Hd) Ht. pose proof (Forall_lookup_1 _ _ _ _ Hd Hk) as Hdh.
  destruct (trans_times_step _ _ _ _ _ _ _ _ Ht) as [El Er Hn|w c -> Hthr El Er ->|t c Eph El Er Hn].
  - rewrite El, Er. split_and!; [done..|]. apply Forall_insert; [done|]. unfold due. cbn.
    destruct ph as [| | | |[| |t|w] c| | | |]; try done. by destruct (Hn t c).
  - rewrite El, Er.
    assert (Forall (apart (Now w)) ts) as Ha.
    { eapply Forall_impl; [exact Hle|]. intros t (l & El' & ?). unfold throttled in Hthr.
      rewrite El' in Hthr. to_prop. unfold apart. lia. }
    split_and!; [done| |].
    + eapply Forall_impl; [exact Ha|]. intros t. unfold apart, refreshThrottle, Second.
      exists (Now w). split; [done|lia].
    + apply Forall_insert_delete; [done|]. eapply others_due; [done..|]. cbn. lia.
  - rewrite El, Er. unfold due in Hdh. rewrite Eph in Hdh. destruct Hdh as [Hl Ha]. split_and!.
    + by constructor.
    + constructor; [exists t; split; [done|lia]|done].
    + apply Forall_insert_delete.
      * unfold due. cbn. destruct ph as [| | | |[| |t'|w] c'| | | |]; try done. by destruct (Hn t' c').
      * eapply others_due; [done..|]. rewrite Eph. destruct lk; cbn; lia.
Qed.

(** *** One step of the update loop *)

Definition past_initial (u : updater) : bool :=
  match u with UTick _ _ | UReplicas _ | UWait _ _ | UReturned _ => true | _ => false end.

Definition updater_ok (ws : list World) (init : bool) (u : updater) : Prop :=
  init = past_initial u /\
  match u with
  | UInitialReplicas w | UReplicas w => w ∈ ws /\ outcome w (settings r0) = None
  | _ => True
  end.

Lemma updater_step_ok ws i r u r' u' :
  reach r0 ws r -> updater_ok ws (initialResolved r) u -> updater_step i r u = Some (r', u') ->
  reach r0 (updater_worlds i ws) r' /\ updater_ok (updater_worlds i ws) (initialResolved r') u' /\
  (initialResolved r = true -> initialResolved r' = true) /\ lastRefresh r' = lastRefresh r.
Proof.
  intros Hr [Hi Hu]. destruct (reach_published _ _ _ Hr Hnew Hidx) as (_ & _ & Hs).
  assert (forall w, i = UWorld w -> match publishMaster w r with
    | (o, r1) => reach r0 (updater_worlds i ws) r1 /\ same_control r r1 /\ outcome w (settings r0) = o end) as Hm.
  { intros w ->. pose proof (publishMaster_outcome w r) as Ho. pose proof (publishMaster_same_control w r) as Hc.
    pose proof (reach_begin _ _ w _ Hr) as Hb. destruct (publishMaster w r). by rewrite <- Hs. }
  unfold updater_step, updater_ok.
  destruct u as [n|w|n e|[e|]|n err|w|n e|err], i as [|w'| |]; cbn [past_initial] in Hi; try done.
  all: try (specialize (Hm w' eq_refl); destruct (publishMaster w' r) as [[e'|] r1] eqn:Em;
    destruct Hm as (Hb & (_ & Hc1 & Hc2 & _) & Ho)).
  all: try match goal with |- Some (publishReplicas ?w _, _) = _ -> _ =>
    destruct (publishReplicas_spec w r) as ((? & Hc1 & Hc2 & _) & _); intros [= <- <-];
    destruct Hu; rewrite Hc1, Hc2, Hi; split_and!; try done; apply (reach_finish _ _ w); rewrite ?Hs; auto end.
  all: intros Hst; repeat case_match; simplify_eq/=.
  all: rewrite ?Hc1, ?Hc2, ?Hi; split_and!; try done; try set_solver.
  all: eauto using reach, reach_close, reach_initial_done.
Qed.

(** *** The system *)

Definition session_of (h : handler) : endpoint * bool := (h_endpoint h, h_routed h).

(** The replica resolver is there wherever it is asked. *)
Definition well_made : Prop :=
  is_Some (replicaAddr p) \/ router p = true -> hasReplicaResolver p = true.

Record system_inv (y : system) : Prop := {
  inv_reach : reach r0 (worlds y) (y_res y);
  inv_live : live (y_server y) = session_of <$> y_handlers y;
  inv_limit : limit_inv p (y_server y);
  inv_loop : replica_loop (y_server y) <> NotConfigured -> is_Some (replicaAddr p);
  inv_handlers : Forall (handler_ok (worlds y) (initialResolved (y_res y))) (y_handlers y);
  inv_lock : length (filter (fun h => holds (h_phase h)) (y_handlers y)) = Nat.b2n (y_locked y);
  inv_times : times_ok (refreshes y) (lastRefresh (y_res y)) (y_handlers y);
  inv_updater : updater_ok (worlds y) (initialResolved (y_res y)) (y_updater y)
}.

(** What an event other than the end of a session does to the sessions. *)
Lemma handle_live s ev :
  (forall k, ev <> SessionEnds k) ->
  exists new, live (handle p s ev) = live s ++ new /\
    Forall (fun x => x.2 = routed p x.1 /\ (x.1 = EReplica -> replica_loop s <> NotConfigured)) new /\
    (replica_loop (handle p s ev) <> NotConfigured -> replica_loop s <> NotConfigured).
Proof.
  intros Hev. destruct ev as [e|e|k|]; cbn [handle]; [..|by destruct (Hev k)|].
  3: { exists []. rewrite app_nil_r. split_and!; [done|constructor|done]. }
  - destruct (loop_of e s) eqn:El.
    1,3: exists []; rewrite app_nil_r; split_and!; [done|constructor|done].
    unfold runListenLoop_round. cbn [negb].
    match goal with |- context [loop_top e ?x] =>
      destruct (loop_top_same e x) as (_ & -> & _);
      assert (replica_loop (loop_top e x) <> NotConfigured -> replica_loop s <> NotConfigured) as Hrl end.
    { unfold loop_top. destruct e; cbn in El; repeat case_match; cbn; congruence. }
    assert (Forall (fun x => x.2 = routed p x.1 /\ (x.1 = EReplica -> replica_loop s <> NotConfigured))
      [(e, routed p e)]) as Hnew1.
    { repeat constructor; cbn. intros ->. cbn in El. congruence. }
    destruct (sem p); [case_match|]; [by exists [(e, routed p e)]| |by exists [(e, routed p e)]].
    exists []. rewrite app_nil_r. split_and!; [done|constructor|done].
  - exists []. rewrite app_nil_r. split_and!; [|constructor|].
    + destruct (loop_of e s); [done| |done]. unfold runListenLoop_round. cbn [negb].
      destruct (ctx_done s); [apply (set_loop_same e)|apply (loop_top_same e)].
    + destruct (loop_of e s) eqn:El; [done| |done]. unfold runListenLoop_round, loop_top. cbn [negb].
      destruct e; cbn in El; repeat case_match; cbn; congruence.
Qed.

Context (Hmade : well_made).

Lemma listener_inv ev y y' : system_inv y -> listener_step ev y = Some y' -> system_inv y'.
Proof.
  intros [Hr Hl Hlim Hloop Hh Hlk Ht Hu] Hst.
  assert (forall k, ev <> SessionEnds k) as Hev by (intros k ->; done).
  destruct (handle_live (y_server y) ev Hev) as (new & Hnl & Hnf & Hnr).
  assert (drop (length (y_handlers y)) (live (handle p (y_server y) ev)) = new) as Hd.
  { rewrite Hnl, Hl. rewrite drop_app_length'; [done|]. by rewrite length_fmap. }
  unfold listener_step in Hst. rewrite Hd in Hst.
  assert (y' = MkSystem (handle p (y_server y) ev) (y_handlers y ++ (new_handler <$> new)) (y_res y)
    (y_locked y) (y_updater y) (worlds y) (refreshes y)) as ->.
  { destruct ev; [..|by destruct (Hev k)|]; by injection Hst. }
  assert (session_of <$> (new_handler <$> new) = new) as Hse.
  { rewrite <- list_fmap_compose. rewrite <- (list_fmap_id new) at 2.
    apply list_fmap_ext. by intros ? [? ?]. }
  split; cbn; auto.
  - by rewrite fmap_app, Hse, <- Hl.
  - by apply handle_inv.
  - apply Forall_app. split; [done|]. apply Forall_fmap. eapply Forall_impl; [exact Hnf|].
    intros [e b] [Hb He]. cbn in *. subst b. split; cbn; auto; [done|by destruct e|].
    intros [->|Hro]; apply Hmade; [left; auto|]. right. by destruct e.
  - rewrite filter_app, length_app, Hlk.
    assert (filter (fun h => holds (h_phase h)) (new_handler <$> new) = []) as ->; [|cbn; lia].
    clear. induction new as [|x new IH]; [done|].
    rewrite fmap_cons, filter_cons_False by (cbn; tauto). done.
  - destruct Ht as (? & ? & ?). split_and!; [done..|]. apply Forall_app. split; [done|].
    apply Forall_fmap, Forall_true. intros x. by apply due_idle.
Qed.

Lemma handlers_mono ws ws' init init' hs :
  ws ⊆ ws' -> (init = true -> init' = true) ->
  Forall (handler_ok ws init) hs -> Forall (handler_ok ws' init') hs.
Proof. intros Hs Hi Hf. eapply Forall_impl; [exact Hf|]. intros h. by apply handler_ok_mono. Qed.

Lemma updater_ok_mono ws ws' init u :
  ws ⊆ ws' -> updater_ok ws init u -> updater_ok ws' init u.
Proof. intros Hs [-> Hu]. split; [done|]. destruct u; set_solver. Qed.

Lemma updater_inv i y y' : system_inv y -> system_step (Updater i) y = Some y' -> system_inv y'.
Proof.
  intros [Hr Hl Hlim Hloop Hh Hlk Ht Hu] Hst. cbn in Hst.
  destruct (updater_step i (y_res y) (y_updater y)) as [[r' u']|] eqn:E; [|done].
  injection Hst as <-. destruct (updater_step_ok _ _ _ _ _ _ Hr Hu E) as (Hr' & Hu' & Hi & Hla).
  split; cbn; auto; [|by rewrite Hla].
  eapply handlers_mono; [|done..]. unfold updater_worlds. case_match; set_solver.
Qed.

Lemma handler_inv k i y y' : system_inv y -> system_step (Handler k i) y = Some y' -> system_inv y'.
Proof.
  intros [Hr Hl Hlim Hloop Hh Hlk Ht Hu] Hst. cbn in Hst.
  destruct (y_handlers y !! k) as [h|] eqn:Hk; [|done]. cbn in Hst.
  destruct (handler_step i (y_res y) (y_locked y) h) as [f|] eqn:Hf; [|done]. cbn in Hst.
  pose proof (Forall_lookup_1 _ _ _ _ Hh Hk) as Hok.
  destruct (handler_step_reach _ _ _ _ _ _ Hr Hok Hf) as [Hr' [Hse Hin]].
  assert (worlds y ⊆ handler_worlds i h (y_res y) (worlds y)) as Hsub.
  { unfold handler_worlds. repeat case_match; set_solver. }
  assert (holds (h_phase h) = true -> y_locked y = true) as Hhold.
  { intros Eh. rewrite (length_filter_split holds _ _ _ Hk), Eh in Hlk. by destruct (y_locked y). }
  apply (handlers_mono _ _ _ (initialResolved (y_res y)) _ Hsub) in Hh; [|done].
  apply (updater_ok_mono _ _ _ _ Hsub) in Hu.
  destruct (f_next f) as [ph|] eqn:Hn; injection Hst as <-.
  - pose proof (handler_step_trans _ _ _ _ _ _ Hf Hn) as Htr.
    pose proof (handler_step_ok _ _ _ _ _ _ _ Hr Hok Hf Hn) as Hok'.
    split; cbn; rewrite ?Hin; auto.
    + rewrite list_fmap_insert, Hl. symmetry. apply list_insert_id. by rewrite list_lookup_fmap, Hk.
    + by apply Forall_insert.
    + pose proof (trans_lock _ _ _ _ _ _ _ _ Hhold Htr) as Hc.
      pose proof (length_filter_insert holds _ _ _ (moved h ph (f_dial f)) Hk) as Hli.
      cbn in Hli. unfold moved in Hli. lia.
    + by eapply (trans_times _ _ _ _ _ _ (f_dial f)).
  - destruct (handler_step_end _ _ _ _ _ Hf Hn) as (Hlo & Hla & Hho & Hre).
    split; cbn; rewrite ?Hin, ?Hla, ?Hre, ?Hlo; auto.
    + rewrite Hl, list_lookup_fmap, Hk. cbn. by rewrite list_fmap_delete.
    + exact (handle_inv p (y_server y) (SessionEnds k) Hlim).
    + destruct (live (y_server y) !! k); done.
    + by apply Forall_delete.
    + rewrite (length_filter_split holds _ _ _ Hk), Hho in Hlk. done.
    + destruct Ht as (? & ? & ?). split_and!; [done..|]. by apply Forall_delete.
Qed.

Lemma system_run_inv ms y y' : system_inv y -> system_run ms y = Some y' -> system_inv y'.
Proof.
  revert y. induction ms as [|m ms IH]; intros y Hy Hrun; [by injection Hrun as <-|].
  cbn in Hrun. destruct (system_step m y) as [y1|] eqn:Hm; [|done]. cbn in Hrun.
  apply (IH y1); [|done]. destruct m as [ev|k i|i].
  - by eapply listener_inv.
  - by eapply handler_inv.
  - by eapply updater_inv.
Qed.

Lemma started_inv listen s0 :
  lastRefresh r0 = None -> initialResolved r0 = false -> Run p listen = Started s0 ->
  system_inv (started r0 s0).
Proof.
  intros Hla Hi HR. pose proof (Run_inv _ _ _ HR) as (Hlim & Hlive & _).
  split; cbn; auto.
  - constructor.
  - revert HR. unfold Run. destruct (localAddr p); [destruct (negb _); [done|]|];
      (destruct (replicaAddr p); [destruct (negb _); [done|]|]); intros [= <-]; done.
  - split_and!; constructor.
  - split; [done|done].
Qed.

End Invariant.

End System.

(** ** From the start of the process *)

Lemma New_initial cfg r :
  NewRedisMasterResolver cfg = Ok r -> lastRefresh r = None /\ initialResolved r = false.
Proof.
  unfold NewRedisMasterResolver. intros (m & _ & H)%result_bind_Ok.
  apply result_bind_Ok in H as (s & _ & H). by apply result_bind_Ok in H as (t & _ & [= <-]).
Qed.

Lemma New_well_made resolve cfg p :
  NewRedisSentinelProxy resolve cfg = Ok p -> well_made p /\ hasRefresher p = true.
Proof.
  unfold NewRedisSentinelProxy. intros (m & _ & H)%result_bind_Ok.
  apply result_bind_Ok in H as (idl & _ & H). apply result_bind_Ok in H as (db & _ & H).
  apply result_bind_Ok in H as (local & _ & H).
  apply result_bind_Ok in H as ([[rep has] fb] & Hrep & H).
  assert (is_Some rep -> has = true) as Hr.
  { destruct (strSet (ReplicaListen cfg)); [|by injection Hrep as <- <- <-; intros [? ?]].
    destruct (ReplicaListen cfg ≫= resolve); [|done]. destruct (negb _); [done|].
    apply result_bind_Ok in Hrep as (? & _ & [= <- <- <-]). done. }
  assert (exists has' ro, (has' = true \/ has' = has /\ ro = false) /\
    p = MkProxy local (ListenTLSConfig cfg) (MasterTLSConfig cfg) idl
      (if 0 <? m then Some m else None) db supportsRefresh rep has' fb ro) as (has' & ro & Hh & ->).
  { destruct local as [a|], rep as [b|]; try done; apply result_bind_Ok in H as ([h' ro] & Hx & [= <-]);
      exists h', ro; (split; [|done]); destruct (boolSet (Config.Router cfg)); try done;
      try (destruct (negb _); [done|]); injection Hx as <- <-; auto. }
  split; [|done]. unfold well_made. cbn. destruct Hh as [->|[-> ->]]; [done|]. by intros [?|?]; [auto|].
Qed.

(** A state of the system in some run of a process that [runProxying] started. *)
Definition runs (cfg : Config) (pr : process) (y : system) : Prop :=
  (exists resolve listen, runProxying resolve listen cfg = Up pr) /\
  exists ms, system_run (pr_proxy pr) ms (started (pr_resolver pr) (pr_server pr)) = Some y.

Lemma runs_new cfg pr y :
  runs cfg pr y ->
  published [] (pr_resolver pr) /\ u64 (replicaIdx (pr_resolver pr)) /\ well_made (pr_proxy pr).
Proof.
  intros [(resolve & listen & Hup) _]. revert Hup. unfold runProxying.
  destruct (NewRedisMasterResolver cfg) as [r|] eqn:Hr; [|done].
  destruct (NewRedisSentinelProxy resolve cfg) as [p|[]] eqn:Hp; try done.
  destruct (Run p listen) as [|s] eqn:HR; [done|]. intros [= <-].
  destruct (New_published _ _ Hr). split_and!; [done..|by eapply New_well_made].
Qed.

Lemma runs_inv cfg pr y :
  runs cfg pr y -> system_inv (pr_proxy pr) (pr_resolver pr) y.
Proof.
  intros Hy. destruct (runs_new _ _ _ Hy) as (Hn & Hu & Hm).
  destruct Hy as [(resolve & listen & Hup) (ms & Hms)]. revert Hup. unfold runProxying.
  destruct (NewRedisMasterResolver cfg) as [r|] eqn:Hr; [|done].
  destruct (NewRedisSentinelProxy resolve cfg) as [p|[]]; try done.
  destruct (Run p listen) as [|s] eqn:HR; [done|]. intros [= <-]. cbn in *.
  destruct (New_initial _ _ Hr) as [Hl Hi].
  eapply system_run_inv; [done..| |exact Hms]. by eapply started_inv.
Qed.

Lemma justified_master r0 ws addr l :
  justified r0 ws addr l -> addr <> ""%string -> l <> LReplica ->
  exists w, w ∈ ws /\ verified_master w (settings r0) addr.
Proof. destruct l; [|done|]; intros [?|?]; done. Qed.

(** C3: Whatever the goroutines do and in whatever order, a client that is being
    served is connected to a backend one of the updates so far has verified: on
    the master endpoint to a node sentinel named as master and the role probe
    confirmed; on the replica endpoint to a replica found healthy, or, only
    with the fallback policy "master", to a verified master; and the replica
    connection of a routed session goes to a replica found healthy. *)
Theorem serving_verified (cfg : Config) (pr : process) (y : system) (k : nat) (h : handler)
    (addr : string) (l : label) (rep : option string) :
  runs cfg pr y -> y_handlers y !! k = Some h -> h_phase h = Serving addr l rep ->
  let s := settings (pr_resolver pr) in
  let is_master a := exists w, w ∈ worlds y /\ verified_master w s a in
  let is_replica a := exists w fields, w ∈ worlds y /\ fields ∈ sentinel_replicas w s /\ healthy w s fields a in
  match h_endpoint h with
  | EMaster => l = LMaster /\ is_master addr
  | EReplica => l = LReplica /\ is_replica addr \/
      l = LMasterFallback /\ replicaFallbackMaster (pr_proxy pr) = true /\ is_master addr
  end /\
  match rep with
  | None => True
  | Some a => h_routed h = true /\ h_endpoint h = EMaster /\ is_replica a
  end.
Proof.
  intros Hy%runs_inv Hk Hs. cbv zeta.
  pose proof (Forall_lookup_1 _ _ _ _ (inv_handlers _ _ _ Hy) Hk) as [Hph _ _ _ Hro _].
  rewrite Hs in Hph. cbn in Hph. destruct Hph as [(Hne & Hj & Hl) Hrep]. split.
  - pose proof (justified_master _ _ _ _ Hj Hne) as Hm.
    destruct l; cbn in Hl; [rewrite Hl|rewrite Hl|destruct Hl as [-> ?]]; [|by left|right]; auto.
  - destruct rep as [a|]; [|done]. destruct Hrep as (Hr & _ & Hja). auto.
Qed.

(** C16: Resources, under every interleaving: a handler dials no backend before
    the client's handshake, at most two in pipe mode and three in router mode;
    no handler panics; [refreshLock] is held by at most one handler, and it is
    held exactly while one is inside a refresh; every session has one handler
    and, with a limit, there are never more than [max_connections] of them. *)
Theorem system_bounds (cfg : Config) (pr : process) (y : system) :
  runs cfg pr y ->
  (forall k h, y_handlers y !! k = Some h ->
     h_phase h <> Crashed /\ (h_phase h = Handshaking -> h_dials h = []) /\
     (length (h_dials h) <= if h_routed h then 3 else 2)%nat) /\
  length (filter (fun h => holds (h_phase h)) (y_handlers y)) = Nat.b2n (y_locked y) /\
  length (y_handlers y) = length (live (y_server y)) /\
  forall cap, sem (pr_proxy pr) = Some cap ->
    Z.of_nat (length (y_handlers y)) <= Z.max 0 cap /\ tokens (y_server y) = Z.of_nat (length (y_handlers y)).
Proof.
  intros [_ Hl Hlim _ Hh Hlk _ _]%runs_inv.
  assert (length (live (y_server y)) = length (y_handlers y)) as Hlen by (by rewrite Hl, length_fmap).
  split_and!; try done.
  - intros k h Hk. destruct (Forall_lookup_1 _ _ _ _ Hh Hk) as [Hph _ Hb _ _ _].
    split_and!.
    + by intros E; rewrite E in Hph.
    + intros E. rewrite E in Hb. cbn in Hb. destruct (h_dials h); [done|cbn in Hb; lia].
    + etrans; [exact Hb|]. destruct (h_phase h) as [|[]|[]|[]|? []| | | |], (h_routed h) eqn:Hr;
        cbn; try lia; cbn in Hph; naive_solver.
  - intros cap Hcap. unfold limit_inv in Hlim. rewrite Hcap, Hlen in Hlim. lia.
Qed.

(** C17: However many handlers ask for a refresh at the same time, the refreshes
    that query sentinel are at least one second apart, in every interleaving:
    the check and the update of the time of the last one happen under
    [refreshLock]. *)
Theorem refreshes_spaced (cfg : Config) (pr : process) (y : system) (i j : nat) (t1 t2 : Z) :
  runs cfg pr y -> refreshes y !! i = Some t1 -> refreshes y !! j = Some t2 -> (i < j)%nat ->
  t2 + refreshThrottle <= t1.
Proof.
  intros [_ _ _ _ _ _ (Hs & _) _]%runs_inv Hi Hj Hij.
  revert i j Hi Hj Hij. induction Hs as [|t ts _ IH Hall]; intros i j Hi Hj Hij; [done|].
  destruct i as [|i], j as [|j]; try lia.
  - injection Hi as <-. by apply (Forall_lookup_1 _ _ _ _ Hall Hj).
  - apply (IH i j); [done..|lia].
Qed.


(** ** Witnesses *)

Module SystemDemo.
Import ResolverDemo.

(** A process in front of the demonstration's group; two clients, the second on
    the replica endpoint, arrive during the initial resolve.  The first one's
    dial fails, it refreshes while the second one connects, and is connected
    then; a third one's dial fails two seconds later. *)
Definition cfg : Config := ProxyDemo.cfg.
Definition pr : process :=
  match runProxying ProxyDemo.listen_addr (fun _ => true) cfg with
  | Up pr => pr
  | _ => MkProcess demo r0 None demo0
  end.

Definition refresh_moves (k : nat) (now : Z) : list move :=
  [Handler k INone; Handler k (IDial false); Handler k INone; Handler k (IWorld (up now));
   Handler k (IWorld (up now)); Handler k INone].

Definition moves : list move :=
  [Listener (Accepted EMaster); Handler 0 (IHandshake true); Listener (Accepted EReplica);
   Updater (UWorld (up 0)); Updater UNone; Updater UNone] ++
  take 5 (refresh_moves 0 (5 * Second)) ++ [Handler 1 (IHandshake true); Handler 1 INone; Handler 1 (IDial true)] ++
  drop 5 (refresh_moves 0 (5 * Second)) ++ [Handler 0 INone; Handler 0 (IDial true); Listener (Accepted EMaster)] ++
  Handler 2 (IHandshake true) :: refresh_moves 2 (7 * Second).

Definition after (ms : list move) : system :=
  default (started r0 demo0) (system_run (pr_proxy pr) ms (started (pr_resolver pr) (pr_server pr))).
Definition y : system := after moves.

Lemma pr_Up : runProxying ProxyDemo.listen_addr (fun _ => true) cfg = Up pr.
Proof.
  unfold pr. assert (match runProxying ProxyDemo.listen_addr (fun _ => true) cfg with Up _ => true | _ => false end = true)
    as E by (vm_compute; reflexivity).
  by destruct (runProxying ProxyDemo.listen_addr (fun _ => true) cfg).
Qed.

Lemma after_runs ms :
  bool_decide (is_Some (system_run (pr_proxy pr) ms (started (pr_resolver pr) (pr_server pr)))) = true ->
  runs cfg pr (after ms).
Proof.
  intros E. split; [exists ProxyDemo.listen_addr, (fun _ => true); apply pr_Up|]. exists ms.
  unfold after. to_prop. by destruct E as [y ->].
Qed.

Definition handler_at (k : nat) : handler :=
  default (new_handler (EMaster, false)) (y_handlers y !! k).

Lemma at_handler k : (k <? length (y_handlers y))%nat = true -> y_handlers y !! k = Some (handler_at k).
Proof.
  intros Hk. to_prop. unfold handler_at.
  by destruct (lookup_lt_is_Some_2 _ _ Hk) as [h ->].
Qed.

Example phases :
  h_phase <$> y_handlers y =
  [Serving "10.0.0.1:6379" LMaster None; Serving "10.0.0.2:6379" LReplica None; Picking true] /\
  refreshes y = [7 * Second; 5 * Second].
Proof. vm_compute. split; reflexivity. Qed.
End SystemDemo.

Section SystemWitnesses.
Import ResolverDemo SystemDemo.

Lemma serving_verified_witness :
  exists w fields, w ∈ worlds y /\ fields ∈ sentinel_replicas w (settings (pr_resolver pr)) /\
    healthy w (settings (pr_resolver pr)) fields "10.0.0.2:6379".
Proof.
  assert (runs cfg pr y) as Hy by (apply after_runs; vm_compute; reflexivity).
  assert (y_handlers y !! 1%nat = Some (handler_at 1)) as Hk by (apply at_handler; vm_compute; reflexivity).
  assert (h_phase (handler_at 1) = Serving "10.0.0.2:6379" LReplica None) as Hp by (vm_compute; reflexivity).
  assert (h_endpoint (handler_at 1) = EReplica) as He by (vm_compute; reflexivity).
  pose proof (serving_verified cfg pr y 1 (handler_at 1) "10.0.0.2:6379" LReplica None Hy Hk Hp) as [H1 _].
  rewrite He in H1. destruct H1 as [[_ H1]|[H1 _]]; [exact H1|discriminate H1].
Defined.

Lemma system_bounds_witness :
  length (filter (fun h => holds (h_phase h)) (y_handlers y)) = Nat.b2n (y_locked y).
Proof.
  apply (system_bounds cfg pr y). apply after_runs. vm_compute. reflexivity.
Defined.

Lemma refreshes_spaced_witness : 5 * Second + refreshThrottle <= 7 * Second.
Proof.
  apply (refreshes_spaced cfg pr y 0 1 (7 * Second) (5 * Second)).
  - apply after_runs. vm_compute. reflexivity.
  - vm_compute. reflexivity.
  - vm_compute. reflexivity.
  - lia.
Defined.
End SystemWitnesses.
