(* ===== verification/SystemRuns.v ===== *)
(** * SystemRuns: progress of the system, and its sequential runs

    Three theorems on the runs of [System]: every client is served or rejected
    after finitely many steps ([client_served_or_rejected]); a handler that runs
    alone, with the same answers of client, network and sentinel, does what
    [Proxy] says ([alone_is_sequential]); the update loop does
    among the others what [Resolver] says it does alone ([loop_undisturbed]). *)

From Stdlib Require Import String ZArith Lia.
From stdpp Require Import base list strings gmap sorting.
From S2P Require Import Prelude GoStd GoTime Config NetAddr Netio Routing Resolver Proxy Server Main System.
Import Listeners.

Local Open Scope Z_scope.

(** ** Every client is served or rejected *)

(** The inputs a handler waits for where it is. *)
Definition awaits (ph : phase) (i : input) : bool :=
  match ph, i with
  | Handshaking, IHandshake _ => true
  | (Picking _ | PickingFallback _ | PickingReplica _ _ _ | Serving _ _ _), INone => true
  | (Dialing _ _ _ | DialingReplica _ _ _), IDial _ => true
  | Refreshing (RStart | RReplicas _) _, INone => true
  | Refreshing (RLock | RMaster _) _, IWorld _ => true
  | _, _ => false
  end.

(** How many steps a handler takes at most before it serves or returns. *)
Definition rank (ph : phase) : nat :=
  let refresh st := match st with RStart => 4 | RLock => 3 | RMaster _ => 2 | RReplicas _ => 1 end%nat in
  match ph with
  | Serving _ _ _ | Crashed => 0
  | DialingReplica _ _ _ => 1
  | PickingReplica _ _ true => 2
  | Refreshing st (FromRouting _ _) => 2 + refresh st
  | PickingReplica _ _ false => 7
  | Dialing true _ _ => 8
  | PickingFallback true => 9
  | Picking true => 10
  | Refreshing st FromConnect => 10 + refresh st
  | Dialing false _ _ => 15
  | PickingFallback false => 16
  | Picking false => 17
  | Handshaking => 18
  end%nat.

(** How many of them it takes at most before it releases [refreshLock]. *)
Definition lock_rank (ph : phase) : nat :=
  match ph with
  | Refreshing (RMaster _) _ => 2
  | Refreshing (RReplicas _) _ => 1
  | _ => 0
  end.

Definition is_serving (ph : phase) : bool := match ph with Serving _ _ _ => true | _ => false end.

Section Progress.
Context (p : RedisSentinelProxy) (r0 : RedisMasterResolver).
Context (Hnew : published [] r0) (Hidx : u64 (replicaIdx r0)) (Hmade : well_made p).

Lemma trans_rank i r lk h r' lk' ds ph :
  trans p i r lk h r' lk' ds ph -> (rank ph < rank (h_phase h))%nat.
Proof.
  destruct 1; match goal with E : h_phase _ = _ |- _ => rewrite E end;
    repeat match goal with c : caller |- _ => destruct c | b : bool |- _ => destruct b end; cbn; try lia.
  all: try (unfold connected; destruct (h_routed h); cbn; lia).
  all: destruct (h_phase h) as [|[]| | | |? ? []| | |]; subst; cbn; try done; lia.
Qed.

Lemma trans_lock_rank i r lk h r' lk' ds ph :
  holds (h_phase h) = true -> trans p i r lk h r' lk' ds ph ->
  (lock_rank ph < lock_rank (h_phase h))%nat.
Proof.
  intros Hh. destruct 1; match goal with E : h_phase _ = _ |- _ => rewrite E in * end; try done;
    try (destruct c; cbn; lia). by destruct ph.
Qed.

(** Only the initial resolve and [refreshLock] make a handler wait. *)
Lemma handler_enabled ws i r lk h :
  reach r0 ws r -> handler_ok p r0 ws (initialResolved r) h -> initialResolved r = true ->
  awaits (h_phase h) i = true ->
  lk = false \/ (forall c, h_phase h <> Refreshing RLock c) ->
  is_Some (handler_step p i r lk h).
Proof.
  intros Hr Hok Hi Ha Hlk. pose proof (reach_replica _ Hnew Hidx _ _ Hr) as Hpr. unfold handler_step, pick_step, fallback_step, dial_step, refresh_step, route_step, goes.
  assert (MasterAddress r = Some (masterAddr r)) as Hm by (unfold MasterAddress; by rewrite Hi).
  destruct (h_phase h) as [|again|again|again addr l|[| |t|w] c|addr l again|addr l rep|addr l rep|];
    destruct i as [|ok|ok|w']; try done; rewrite ?Hm, ?Hi; eauto.
  - destruct (h_endpoint h); [eauto|]. destruct (negb _); [eauto|].
    destruct (ReplicaAddress r) as [[] r']; [congruence|destruct (replicaFallbackMaster p); eauto|eauto..].
  - destruct lk; [by destruct Hlk as [|Hlk]; [|destruct (Hlk c)]|]. destruct (throttled w' r); eauto.
  - destruct (publishMaster (view r w') r) as [[] ?]; eauto.
  - destruct (negb _); [eauto|].
    destruct (ReplicaAddress r) as [[] r']; [congruence|destruct (again || _); eauto|eauto..].
Qed.

(** What a step of the [k]-th handler does to the system. *)
Lemma system_step_handler k i y h f :
  y_handlers y !! k = Some h -> handler_step p i (y_res y) (y_locked y) h = Some f ->
  exists y', system_step p (Handler k i) y = Some y' /\ y_res y' = f_res f /\ y_locked y' = f_locked f /\
    y_handlers y' = match f_next f with
                    | Some ph => <[k := moved h ph (f_dial f)]> (y_handlers y)
                    | None => delete k (y_handlers y)
                    end.
Proof.
  intros Hk Hf. cbn [system_step]. rewrite Hk. cbn [mbind option_bind]. rewrite Hf. cbn [mbind option_bind].
  destruct (f_next f); by eexists.
Qed.

Lemma holder_locked y k h :
  system_inv p r0 y -> y_handlers y !! k = Some h -> holds (h_phase h) = true -> y_locked y = true.
Proof.
  intros Hy Hk Hh. pose proof (inv_lock _ _ _ Hy) as Hl.
  rewrite (length_filter_split holds _ _ _ Hk), Hh in Hl. by destruct (y_locked y).
Qed.

Variable env : phase -> input.
Hypothesis env_ok : forall ph, ph <> Crashed -> awaits ph (env ph) = true.

(** A handler's own move with the input the environment gives it. *)
Definition own_move (k : nat) (m : move) : Prop := exists ph, m = Handler k (env ph).

Lemma step_alone y k h :
  system_inv p r0 y -> initialResolved (y_res y) = true -> y_handlers y !! k = Some h ->
  y_locked y = holds (h_phase h) ->
  exists y', system_step p (Handler k (env (h_phase h))) y = Some y' /\ system_inv p r0 y' /\
    initialResolved (y_res y') = true /\
    (y_handlers y' = delete k (y_handlers y) /\ holds (h_phase h) = false \/
     exists h', y_handlers y' = <[k := h']> (y_handlers y) /\ (rank (h_phase h') < rank (h_phase h))%nat /\
       y_locked y' = holds (h_phase h') /\
       (holds (h_phase h) = true -> (lock_rank (h_phase h') < lock_rank (h_phase h))%nat)).
Proof.
  intros Hy Hi Hk Hlk. pose proof (Forall_lookup_1 _ _ _ _ (inv_handlers _ _ _ Hy) Hk) as Hok.
  pose proof (inv_reach _ _ _ Hy) as Hr.
  destruct (handler_enabled _ (env (h_phase h)) _ (y_locked y) _ Hr Hok Hi) as [f Hf].
  { apply env_ok. intros E. pose proof (ok_phase _ _ _ _ _ Hok) as Hph. by rewrite E in Hph. }
  { rewrite Hlk. destruct (holds (h_phase h)) eqn:Eh; [right|by left]. intros c E. by rewrite E in Eh. }
  destruct (system_step_handler _ _ _ _ _ Hk Hf) as (y' & Hst & Hres & Hlo & Hhs).
  destruct (handler_step_reach _ _ Hnew Hidx _ _ _ _ _ _ Hr Hok Hf) as [_ [_ Hin]].
  exists y'. split; [done|]. split; [by eapply handler_inv|]. split; [by rewrite Hres, Hin|].
  destruct (f_next f) as [ph|] eqn:Hn.
  2: { left. split; [done|]. by apply (handler_step_end _ _ _ _ _ _ Hf). }
  right. exists (moved h ph (f_dial f)).
  pose proof (handler_step_trans _ _ _ _ _ _ _ Hf Hn) as Ht. split_and!; [done|by eapply trans_rank| |intros ?; by eapply trans_lock_rank].
  assert (holds (h_phase h) = true -> y_locked y = true) as Hh by congruence.
  pose proof (trans_lock _ _ _ _ _ _ _ _ _ Hh Ht) as Hc. rewrite Hlo. cbn [moved h_phase].
  rewrite Hlk in Hc. destruct (f_locked f), (holds ph); cbn in Hc |- *; done || lia.
Qed.

(** A handler that does not have to wait for the lock, run on its own. *)
Lemma settles n y k h :
  system_inv p r0 y -> initialResolved (y_res y) = true -> y_handlers y !! k = Some h ->
  y_locked y = holds (h_phase h) -> (rank (h_phase h) <= n)%nat ->
  exists ms y', system_run p ms y = Some y' /\ (length ms <= n)%nat /\ Forall (own_move k) ms /\
    (y_handlers y' = delete k (y_handlers y) \/
     exists h', y_handlers y' = <[k := h']> (y_handlers y) /\ is_serving (h_phase h') = true).
Proof.
  revert y h. induction n as [|n IH]; intros y h Hy Hi Hk Hlk Hn.
  all: destruct (is_serving (h_phase h)) eqn:Hs;
    [exists [], y; split_and!; [done|cbn; lia|done|right; exists h; split; [by rewrite list_insert_id|done]]|].
  { pose proof (Forall_lookup_1 _ _ _ _ (inv_handlers _ _ _ Hy) Hk) as [Hph _ _ _ _ _].
    destruct (h_phase h) as [|[]|[]|[]|? []|? ? []| | |]; cbn in Hn, Hs, Hph; try done; lia. }
  destruct (step_alone y k h Hy Hi Hk Hlk) as (y1 & Hst & Hy1 & Hi1 & [[Hd _]|(h1 & Hh1 & Hr1 & Hl1 & _)]).
  - exists [Handler k (env (h_phase h))], y1. cbn [system_run]. rewrite Hst.
    split_and!; [done|cbn; lia| |by left]. repeat constructor. by exists (h_phase h).
  - assert (y_handlers y1 !! k = Some h1) as Hk1.
    { rewrite Hh1. apply list_lookup_insert_eq. by eapply lookup_lt_Some. }
    destruct (IH y1 h1 Hy1 Hi1 Hk1 Hl1 ltac:(lia)) as (ms & y' & Hms & Hlen & Hall & Hend).
    exists (Handler k (env (h_phase h)) :: ms), y'. cbn [system_run]. rewrite Hst.
    split_and!; [done|cbn; lia|constructor; [by exists (h_phase h)|done]|].
    rewrite Hh1 in Hend. destruct Hend as [He|(h' & He & ?)]; [left|right; exists h']; rewrite He.
    + apply delete_insert_same.
    + by rewrite list_insert_insert_eq.
Qed.
(** The holder of [refreshLock] releases it after at most two steps. *)
Lemma lock_released n y k h :
  system_inv p r0 y -> initialResolved (y_res y) = true -> y_handlers y !! k = Some h ->
  y_locked y = holds (h_phase h) -> (lock_rank (h_phase h) <= n)%nat ->
  exists ms y', system_run p ms y = Some y' /\ (length ms <= n)%nat /\ Forall (own_move k) ms /\
    system_inv p r0 y' /\ initialResolved (y_res y') = true /\ y_locked y' = false /\
    exists h', y_handlers y' = <[k := h']> (y_handlers y).
Proof.
  revert y h. induction n as [|n IH]; intros y h Hy Hi Hk Hlk Hn.
  all: destruct (holds (h_phase h)) eqn:Hh;
    [|exists [], y; split_and!; try done; [..|exists h; by rewrite list_insert_id]; cbn; lia].
  { destruct (h_phase h) as [| | | |[] ?| | | |]; cbn in Hn, Hh; done || lia. }
  rewrite <- Hh in Hlk.
  destruct (step_alone y k h Hy Hi Hk Hlk) as (y1 & Hst & Hy1 & Hi1 & [[_ ?]|(h1 & Hh1 & _ & Hl1 & Hr1)]);
    [congruence|].
  assert (y_handlers y1 !! k = Some h1) as Hk1.
  { rewrite Hh1. apply list_lookup_insert_eq. by eapply lookup_lt_Some. }
  specialize (Hr1 Hh).
  destruct (IH y1 h1 Hy1 Hi1 Hk1 Hl1 ltac:(lia)) as (ms & y' & Hms & Hlen & Hall & Hy' & Hi' & Hl' & h' & He).
  exists (Handler k (env (h_phase h)) :: ms), y'. cbn [system_run]. rewrite Hst.
  split_and!; try done; [cbn; lia|constructor; [by exists (h_phase h)|done]|].
  exists h'. by rewrite He, Hh1, list_insert_insert_eq.
Qed.

Lemma system_run_app ms1 ms2 y y1 :
  system_run p ms1 y = Some y1 -> system_run p (ms1 ++ ms2) y = system_run p ms2 y1.
Proof.
  revert y. induction ms1 as [|m ms1 IH]; intros y; cbn; [by intros [= ->]|].
  destruct (system_step p m y) as [y2|]; [|done]. apply IH.
Qed.

(** With the lock in other hands: its holder first. *)
Lemma settles_after_lock y k h :
  system_inv p r0 y -> initialResolved (y_res y) = true -> y_handlers y !! k = Some h ->
  exists k' ms y', system_run p ms y = Some y' /\ (length ms <= 20)%nat /\
    Forall (fun m => own_move k m \/ own_move k' m) ms /\
    ((exists h', y_handlers y' = delete k (<[k' := h']> (y_handlers y))) \/
     exists h', y_handlers y' !! k = Some h' /\ is_serving (h_phase h') = true).
Proof.
  intros Hy Hi Hk. assert (forall ph, (rank ph <= 18)%nat) as Hr18.
  { intros [|[]|[]|[]|[] []|? ? []| | |]; cbn; lia. }
  assert (forall y1 h1, system_inv p r0 y1 -> initialResolved (y_res y1) = true ->
    y_handlers y1 !! k = Some h1 -> y_locked y1 = holds (h_phase h1) ->
    exists ms y', system_run p ms y1 = Some y' /\ (length ms <= 18)%nat /\ Forall (own_move k) ms /\
      (y_handlers y' = delete k (y_handlers y1) \/
       exists h', y_handlers y' !! k = Some h' /\ is_serving (h_phase h') = true)) as Hsettle.
  { intros y1 h1 Hy1 Hi1 Hk1 Hl1.
    destruct (settles 18 y1 k h1 Hy1 Hi1 Hk1 Hl1 (Hr18 _)) as (ms & y' & Hms & Hl & Hall & Hend).
    exists ms, y'. split_and!; try done. destruct Hend as [He|(h' & He & Hs)]; [by left|right; exists h'].
    split; [|done]. rewrite He. apply list_lookup_insert_eq. by eapply lookup_lt_Some. }
  destruct (decide (y_locked y = holds (h_phase h))) as [Hl|Hl].
  { destruct (Hsettle y h Hy Hi Hk Hl) as (ms & y' & ? & ? & Hall & Hend).
    exists k, ms, y'. split_and!; [done|lia|eapply Forall_impl; [exact Hall|]; auto|].
    destruct Hend as [He|He]; [left; exists h|by right]. by rewrite delete_insert_same. }
  assert (y_locked y = true) as Hlt.
  { destruct (holds (h_phase h)) eqn:E; [by eapply holder_locked|]. by destruct (y_locked y). }
  assert (exists k' h', y_handlers y !! k' = Some h' /\ holds (h_phase h') = true) as (k' & h' & Hk' & Hh').
  { pose proof (inv_lock _ _ _ Hy) as Hc. rewrite Hlt in Hc.
    destruct (filter _ (y_handlers y)) as [|h' l] eqn:Ef; [done|].
    assert (h' ∈ filter (fun h => holds (h_phase h)) (y_handlers y)) as Hin by (rewrite Ef; set_solver).
    apply list_elem_of_filter in Hin as [Hh' [k' Hk']%list_elem_of_lookup].
    exists k', h'. split; [done|]. by destruct (holds (h_phase h')). }
  assert (lock_rank (h_phase h') <= 2)%nat as Hr2 by (destruct (h_phase h') as [| | | |[] ?| | | |]; cbn; lia).
  assert (y_locked y = holds (h_phase h')) as Hl' by congruence.
  destruct (lock_released 2 y k' h' Hy Hi Hk' Hl' Hr2) as (ms1 & y1 & Hm1 & Hn1 & Ha1 & Hy1 & Hi1 & Hlk1 & h2 & He1).
  destruct (decide (k' = k)) as [->|Hne].
  { rewrite Hk in Hk'. injection Hk' as <-. congruence. }
  assert (y_handlers y1 !! k = Some h) as Hk1 by (by rewrite He1, list_lookup_insert_ne).
  destruct (Hsettle y1 h Hy1 Hi1 Hk1) as (ms2 & y' & Hm2 & Hn2 & Ha2 & Hend).
  { rewrite Hlk1. symmetry. destruct (holds (h_phase h)) eqn:E; [|done]. by rewrite Hlt in Hl. }
  exists k', (ms1 ++ ms2), y'. rewrite (system_run_app _ _ _ _ Hm1). split_and!; [done|..].
  - rewrite length_app. lia.
  - apply Forall_app. split; [eapply Forall_impl; [exact Ha1|]|eapply Forall_impl; [exact Ha2|]]; auto.
  - rewrite He1 in Hend. destruct Hend as [He|He]; [left; by exists h2|by right].
Qed.
End Progress.

(** C5: No deadlock and no waiting for ever: once the initial resolve has ended,
    in every reachable state and whatever the environment answers (handshakes,
    dials, sentinel and the nodes), every client needs at most twenty more
    steps, its own and, when another client is refreshing, the two that end
    that refresh, until it is served or its connection is closed. *)
Theorem client_served_or_rejected (cfg : Config) (pr : process) (y : system) (k : nat) (h : handler)
    (env : phase -> input) :
  runs cfg pr y -> initialResolved (y_res y) = true -> y_handlers y !! k = Some h ->
  (forall ph, ph <> Crashed -> awaits ph (env ph) = true) ->
  exists k' ms y', system_run (pr_proxy pr) ms y = Some y' /\ (length ms <= 20)%nat /\
    Forall (fun m => own_move env k m \/ own_move env k' m) ms /\
    ((exists h', y_handlers y' = delete k (<[k' := h']> (y_handlers y))) \/
     exists h', y_handlers y' !! k = Some h' /\ is_serving (h_phase h') = true).
Proof.
  intros Hy Hi Hk Henv. destruct (runs_new _ _ _ Hy) as (Hn & Hu & Hm).
  apply runs_inv in Hy. by apply (settles_after_lock _ (pr_resolver pr) Hn Hu Hm env Henv y k h).
Qed.

(** ** One handler alone

    A handler that runs without interruption does what the sequential
    definitions of [Proxy] say, provided it is given the same answers. *)

Inductive halted : Type :=
| Still (h : handler)
| Gone (dials : list (string * label)).

Section Sequential.
Context (p : RedisSentinelProxy) (network : list dial_req -> dial_req -> option netconn).
(** The worlds of the refresh of [connectBackend] and of the one of
    [dialReplicaForRouting], and the client. *)
Context (w w' : World) (i : incoming).

(** The requests of the addresses a handler has dialled. *)
Definition requests (ds : list (string * label)) : list dial_req := (fun d => request p d.1) <$> ds.
#[local] Arguments requests : simpl never.

Definition world_of (c : caller) : World := match c with FromConnect => w | FromRouting _ _ => w' end.

(** What the outside answers a handler where it is: the client's handshake, the
    network's answer to this dial after the dials so far, the world of the
    refresh. *)
Definition reply_to (h : handler) : input :=
  match h_phase h with
  | Handshaking => IHandshake (completeClientHandshake i)
  | Dialing _ addr _ | DialingReplica _ _ addr =>
      IDial (bool_decide (is_Some (network (requests (h_dials h)) (request p addr))))
  | Refreshing (RLock | RMaster _) c => IWorld (world_of c)
  | _ => INone
  end.

(** The goroutine alone: steps of the [k]-th handler, each with the outside's
    answer, until it serves or has returned; with the addresses it dialled. *)
Fixpoint run_alone (fuel k : nat) (y : system) : option (system * list (string * label)) :=
  h ← y_handlers y !! k;
  if is_serving (h_phase h) then Some (y, h_dials h)
  else
    match fuel with
    | O => None
    | S fuel =>
        f ← handler_step p (reply_to h) (y_res y) (y_locked y) h;
        y1 ← system_step p (Handler k (reply_to h)) y;
        match f_next f with
        | Some _ => run_alone fuel k y1
        | None => Some (y1, h_dials h ++ f_dial f)
        end
    end.

(** [n] of these steps of the handler apart from the system. *)
Fixpoint answered (n : nat) (r : RedisMasterResolver) (lk : bool) (h : handler)
  : option (RedisMasterResolver * bool * halted) :=
  match n with
  | O => Some (r, lk, Still h)
  | S n =>
      if is_serving (h_phase h) then None
      else
        f ← handler_step p (reply_to h) r lk h;
        match f_next f, n with
        | Some ph, _ => answered n (f_res f) (f_locked f) (moved h ph (f_dial f))
        | None, O => Some (f_res f, f_locked f, Gone (h_dials h ++ f_dial f))
        | None, _ => None
        end
  end.

Lemma answered_app n1 n2 r lk h r' lk' h' :
  answered n1 r lk h = Some (r', lk', Still h') ->
  answered (n1 + n2) r lk h = answered n2 r' lk' h'.
Proof.
  revert r lk h. induction n1 as [|n1 IH]; intros r lk h; cbn; [by intros [= -> -> ->]|].
  destruct (is_serving (h_phase h)); [done|].
  destruct (handler_step p (reply_to h) r lk h) as [f|]; [|done]. cbn.
  destruct (f_next f); [apply IH|]. by destruct n1.
Qed.

Lemma moved_moved h ph1 ph2 d1 d2 : moved (moved h ph1 d1) ph2 d2 = moved h ph2 (d1 ++ d2).
Proof. unfold moved. cbn. by rewrite app_assoc. Qed.

(** The steps inside the system, with the fuel the rank asks for. *)
Lemma answered_run n fuel k y h r' lk' o :
  y_handlers y !! k = Some h -> answered n (y_res y) (y_locked y) h = Some (r', lk', o) ->
  match o with Still h' => is_serving (h_phase h') = true | Gone _ => True end ->
  (rank (h_phase h) < fuel)%nat ->
  exists ins y' ds, run_alone fuel k y = Some (y', ds) /\
    system_run p (Handler k <$> ins) y = Some y' /\ y_res y' = r' /\ y_locked y' = lk' /\
    match o with
    | Still h' => ds = h_dials h' /\ y_handlers y' = <[k := h']> (y_handlers y)
    | Gone ds' => ds = ds' /\ y_handlers y' = delete k (y_handlers y)
    end.
Proof.
  revert fuel y h. induction n as [|n IH]; intros fuel y h Hk; cbn [answered].
  { intros [= <- <- <-] Hs _. exists [], y, (h_dials h). destruct fuel; cbn; rewrite Hk; cbn; rewrite Hs;
      by rewrite list_insert_id. }
  destruct (is_serving (h_phase h)) eqn:Hs; [done|].
  destruct (handler_step p (reply_to h) (y_res y) (y_locked y) h) as [f|] eqn:Hf; [|done].
  cbn [mbind option_bind]. intros Hrun Ho Hfuel. destruct fuel as [|fuel]; [lia|].
  destruct (system_step_handler p _ _ _ _ _ Hk Hf) as (y1 & Hst & Hr & Hl & Hh).
  cbn [run_alone]. rewrite Hk. cbn [mbind option_bind]. rewrite Hs, Hf. cbn [mbind option_bind].
  rewrite Hst. cbn [mbind option_bind]. destruct (f_next f) as [ph|] eqn:Hn.
  - rewrite <- Hr, <- Hl in Hrun.
    pose proof (trans_rank _ _ _ _ _ _ _ _ _ (handler_step_trans _ _ _ _ _ _ _ Hf Hn)) as Hrk.
    destruct (IH fuel y1 (moved h ph (f_dial f))) as (ins & y' & ds & H1 & H2 & H3 & H4 & Hy');
      [|exact Hrun|exact Ho|cbn; lia|].
    { rewrite Hh. apply list_lookup_insert_eq. by eapply lookup_lt_Some. }
    exists (reply_to h :: ins), y', ds. cbn [fmap list_fmap system_run]. rewrite Hst. cbn [mbind option_bind].
    split_and!; try done. rewrite Hh in Hy'.
    destruct o; [by rewrite list_insert_insert_eq in Hy'|by rewrite delete_insert_same in Hy'].
  - destruct n; [|done]. injection Hrun as <- <- <-.
    exists [reply_to h], y1, (h_dials h ++ f_dial f). cbn [fmap list_fmap system_run]. by rewrite Hst.
Qed.

Context (Hrefresher : hasRefresher p = true).
Context (dial_empty : forall ds q, d_addr q = ""%string -> network ds q = None).

(** Unfolds the step of a handler in a known phase. *)
Ltac step_in :=
  cbn; unfold reply_to, handler_step, pick_step, fallback_step, dial_step, refresh_step, route_step, goes.

(** [RefreshAddresses] without interruption. *)
Lemma run_refresh r h c :
  h_phase h = Refreshing RStart c ->
  exists n, answered n r false h =
    Some (RefreshAddresses (world_of c) r, false, Still (moved h (refresh_returns c) [])).
Proof.
  intros Hph. unfold RefreshAddresses. destruct (initialResolved r) eqn:Hi; cbn [negb].
  2: { exists 1%nat. step_in. by rewrite Hph, Hi. }
  assert (answered 1 r false h = Some (r, false, Still (moved h (Refreshing RLock c) []))) as H1.
  { step_in. by rewrite Hph, Hi. }
  fold (throttled (world_of c) r). destruct (throttled (world_of c) r) eqn:Ht.
  { exists (1 + 1)%nat. rewrite (answered_app _ _ _ _ _ _ _ _ H1). cbn. rewrite Ht.
    cbn. by rewrite moved_moved. }
  set (r1 := set_lastRefresh (Now (world_of c)) r). change (view r (world_of c)) with (view r1 (world_of c)).
  unfold updateMasterAddress. destruct (publishMaster (view r1 (world_of c)) r1) as [[e|] r2] eqn:Hm.
  - exists (1 + 2)%nat. rewrite (answered_app _ _ _ _ _ _ _ _ H1). cbn. rewrite Ht.
    cbn. fold r1. rewrite Hm. cbn. by rewrite !moved_moved.
  - exists (1 + 3)%nat. rewrite (answered_app _ _ _ _ _ _ _ _ H1). cbn. rewrite Ht.
    cbn. fold r1. rewrite Hm. cbn. rewrite !moved_moved. do 4 f_equal.
    pose proof (publishMaster_same_control (view r1 (world_of c)) r1) as (_ & _ & _ & _ & Hc).
    rewrite Hm in Hc. unfold view in *. cbn [snd] in Hc. rewrite Hc. by destruct (sentinelClosed r1).
Qed.

Definition pick_of (e : endpoint) : pickBackend RedisMasterResolver :=
  match e with EMaster => pickMaster | EReplica => pickReplica p end.

(** The dial of an attempt. *)
Lemma run_dial r h again addr l :
  h_phase h = Dialing again addr l ->
  answered 1 r false h =
    Some (r, false,
      match network (requests (h_dials h)) (request p addr) with
      | Some _ => Still (moved h (connected h addr l) [(addr, l)])
      | None => match attempt_failed p again with
                | Some ph => Still (moved h ph [(addr, l)])
                | None => Gone (h_dials h ++ [(addr, l)])
                end
      end).
Proof.
  intros Hph. step_in. rewrite Hph. cbn.
  destruct (network (requests (h_dials h)) (request p addr)) as [conn|] eqn:Hn.
  - assert (dial_ok addr (bool_decide (is_Some (Some conn))) = true) as ->; [|done].
    unfold dial_ok. rewrite bool_decide_eq_true_2 by eauto.
    destruct (String.eqb_spec addr ""); [|done]. subst. by rewrite dial_empty in Hn.
  - rewrite bool_decide_eq_false_2 by (by intros [? ?]). cbn. by destruct (attempt_failed p again).
Qed.

(** How an attempt of [connectBackend] leaves the handler. *)
Definition after_attempt (again : bool) (c : connect_result) (h : handler)
    (new : list (string * label)) : halted :=
  match c with
  | Connected _ addr l => Still (moved h (connected h addr l) new)
  | _ => match attempt_failed p again with
         | Some ph => Still (moved h ph new)
         | None => Gone (h_dials h ++ new)
         end
  end.

Lemma requests_app ds1 ds2 : requests (ds1 ++ ds2) = requests ds1 ++ requests ds2.
Proof. apply fmap_app. Qed.

(** A chosen backend is dialled. *)
Lemma run_chosen n r r' h again addr l c h' :
  answered n r false h = Some (r', false, Still (moved h (Dialing again addr l) [])) ->
  match dialRedis p network addr (MkH r' (requests (h_dials h))) with
  | (Some remote, h) => (Connected remote addr l, h)
  | (None, h) => (CDialError addr l, h)
  end = (c, h') ->
  exists n' new, dialed h' = requests (h_dials h ++ new) /\
    answered n' r false h = Some (res h', false, after_attempt again c h new).
Proof.
  intros Hn. rewrite dialRedis_request. cbn [dialed res]. intros Hc.
  pose proof (run_dial r' (moved h (Dialing again addr l) []) again addr l eq_refl) as Hd.
  exists (n + 1)%nat, [(addr, l)].
  rewrite (answered_app _ _ _ _ _ _ _ _ Hn), Hd, requests_app. cbn [h_dials moved]. rewrite app_nil_r.
  unfold connected. cbn [h_routed moved].
  destruct (network (requests (h_dials h)) (request p addr)); injection Hc as <- <-; (split; [done|]);
    cbn [res after_attempt].
  - by rewrite moved_moved.
  - destruct (attempt_failed p again); by rewrite ?moved_moved.
Qed.

Lemma run_attempt r h again c h' :
  h_phase h = Picking again -> resolver_ready r ->
  (h_endpoint h = EReplica -> hasReplicaResolver p = true) ->
  pickAndDial p network (pick_of (h_endpoint h)) (MkH r (requests (h_dials h))) = (c, h') ->
  exists n new, dialed h' = requests (h_dials h ++ new) /\
    answered n r false h = Some (res h', false, after_attempt again c h new).
Proof.
  intros Hph Hr Hrep. unfold pickAndDial, pick_of. cbn [res dialed].
  assert (MasterAddress r = Some (masterAddr r)) as Hm by (unfold MasterAddress; by rewrite (proj1 Hr)).
  destruct (h_endpoint h) eqn:He.
  - unfold pickMaster. cbn [masterAddress redis_resolver]. rewrite Hm. apply (run_chosen 1).
    step_in. by rewrite Hph, He, Hm.
  - specialize (Hrep eq_refl). unfold pickReplica. cbn [masterAddress replicaAddress redis_resolver].
    destruct (ReplicaAddress_ready r Hr) as ([Hi' _] & Hb & Hp).
    destruct (ReplicaAddress r) as [[| |addr|] r'] eqn:Hra; cbn [fst snd] in *; [done| | |done].
    + destruct (replicaFallbackMaster p) eqn:Hf.
      * assert (MasterAddress r' = Some (masterAddr r')) as Hm' by (unfold MasterAddress; by rewrite Hi').
        rewrite Hm'. apply (run_chosen 2).
        step_in. rewrite Hph, He, Hrep, Hra, Hf. cbn. rewrite Hm'. cbn. by rewrite moved_moved.
      * intros [= <- <-]. exists 1%nat, []. cbn [dialed res]. rewrite app_nil_r. split; [done|].
        step_in. rewrite Hph, He, Hrep, Hra, Hf. cbn. by destruct (attempt_failed p again).
    + apply (run_chosen 1). step_in. by rewrite Hph, He, Hrep, Hra.
Qed.

(** [connectBackend]: the handler is connected, or it returns. *)
Definition after_connect (c : connect_result) (h : handler) (new : list (string * label)) : halted :=
  match c with
  | Connected _ addr l => Still (moved h (connected h addr l) new)
  | _ => Gone (h_dials h ++ new)
  end.

Lemma pick_of_ok e : (e = EReplica -> hasReplicaResolver p = true) -> pick_ok resolver_ready (pick_of e).
Proof.
  intros Hrep. destruct e; [apply (pickMaster_ok resolver_ready)|].
  apply (pickReplica_ok resolver_ready). auto.
Qed.

Lemma pickAndDial_ready r e ds c h' :
  resolver_ready r -> (e = EReplica -> hasReplicaResolver p = true) ->
  pickAndDial p network (pick_of e) (MkH r ds) = (c, h') ->
  resolver_ready (res h') /\ c <> CBlocked /\ c <> CPanic.
Proof.
  intros Hr Hrep%pick_of_ok HP.
  pose proof (pickAndDial_spec resolver_ready p network _ (MkH r ds) c h' Hrep Hr HP) as (Hr' & ds' & _ & _ & _ & Hc).
  split; [done|]. by destruct c.
Qed.

Lemma run_connect r h c h' :
  h_phase h = Picking false -> resolver_ready r ->
  (h_endpoint h = EReplica -> hasReplicaResolver p = true) ->
  connectBackend p network w (pick_of (h_endpoint h)) (MkH r (requests (h_dials h))) = (c, h') ->
  exists n new, dialed h' = requests (h_dials h ++ new) /\
    answered n r false h = Some (res h', false, after_connect c h new).
Proof.
  intros Hph Hr Hrep. unfold connectBackend.
  destruct (pickAndDial p network (pick_of (h_endpoint h)) (MkH r _)) as [c1 h1] eqn:H1.
  destruct (pickAndDial_ready _ _ _ _ _ Hr Hrep H1) as (Hr1 & Hb & Hp).
  destruct (run_attempt _ _ _ _ _ Hph Hr Hrep H1) as (n1 & new1 & Hd1 & Hrun1).
  assert (attempt_failed p false = Some (Refreshing RStart FromConnect)) as Hfail.
  { unfold attempt_failed. by rewrite Hrefresher. }
  cbn [refreshAddresses redis_resolver].
  destruct c1 as [| | |addr1 l1|remote1 addr1 l1]; [done|done|..|].
  3: { intros [= <- <-]. by exists n1, new1. }
  all: cbn [after_attempt] in Hrun1; rewrite Hfail in Hrun1; rewrite Hd1; intros H2.
  all: destruct (run_refresh (res h1) _ FromConnect
      (eq_refl : h_phase (moved h (Refreshing RStart FromConnect) new1) = _)) as (n2 & Hrun2).
  all: rewrite moved_moved, app_nil_r in Hrun2; cbn [refresh_returns world_of] in Hrun2.
  all: destruct (run_attempt (RefreshAddresses w (res h1)) (moved h (Picking true) new1) true c h')
      as (n3 & new3 & Hd3 & Hrun3); [done|by apply RefreshAddresses_ready|done|exact H2|].
  all: exists (n1 + (n2 + n3))%nat, (new1 ++ new3); split; [by rewrite Hd3; cbn; rewrite app_assoc|].
  all: rewrite (answered_app _ _ _ _ _ _ _ _ Hrun1), (answered_app _ _ _ _ _ _ _ _ Hrun2), Hrun3.
  all: do 2 f_equal; destruct c; cbn [after_attempt after_connect attempt_failed orb];
    unfold connected; cbn [moved h_routed h_dials]; rewrite ?moved_moved, ?app_assoc; done.
Qed.

(** [dialReplicaForRouting]: the session starts, with or without a replica. *)
Lemma run_route_dial n r r' h addr l rep :
  answered n r false h = Some (r', false, Still (moved h (DialingReplica addr l rep) [])) ->
  let o := network (requests (h_dials h)) (request p rep) in
  exists n', answered n' r false h =
    Some (r', false, Still (moved h (Serving addr l ((fun _ => rep) <$> o)) [(rep, LReplica)])).
Proof.
  intros Hn. cbv zeta. exists (n + 1)%nat.
  rewrite (answered_app _ _ _ _ _ _ _ _ Hn). cbn. rewrite moved_moved, app_nil_r. cbn. do 5 f_equal.
  destruct (network (requests (h_dials h)) (request p rep)) as [conn|] eqn:Hnet; [|done]. cbn. unfold dial_ok.
  destruct (String.eqb_spec rep ""); [|done]. subst. by rewrite dial_empty in Hnet.
Qed.

Lemma run_route r h addr l :
  h_phase h = PickingReplica addr l false -> resolver_ready r -> hasReplicaResolver p = true ->
  exists rep h' n new,
    dialReplicaForRouting p network w' (MkH r (requests (h_dials h))) = inl (rep, h') /\
    dialed h' = requests (h_dials h ++ new) /\
    answered n r false h = Some (res h', false, Still (moved h (Serving addr l (snd <$> rep)) new)).
Proof.
  intros Hph Hr Hrep. unfold dialReplicaForRouting. cbn [replicaAddress refreshAddresses redis_resolver res dialed].
  destruct (ReplicaAddress_ready r Hr) as (Hr1 & Hb & Hp).
  assert (forall again hh rr rr' a, h_phase hh = PickingReplica addr l again ->
    ReplicaAddress rr = (ReplicaPicked a, rr') ->
    answered 1 rr false hh = Some (rr', false, Still (moved hh (DialingReplica addr l a) []))) as Hpick.
  { intros again hh rr rr' a Hhh Ha. step_in. by rewrite Hhh, Hrep, Ha. }
  destruct (ReplicaAddress r) as [[| |a|] r1] eqn:Hra; cbn [fst snd] in *; [done| | |done].
  - assert (answered 1 r false h =
      Some (r1, false, Still (moved h (Refreshing RStart (FromRouting addr l)) []))) as H1.
    { step_in. by rewrite Hph, Hrep, Hra, Hrefresher. }
    destruct (run_refresh r1 _ (FromRouting addr l)
      (eq_refl : h_phase (moved h (Refreshing RStart (FromRouting addr l)) []) = _)) as (n2 & H2).
    rewrite moved_moved in H2. cbn [refresh_returns app world_of] in H2.
    pose proof (RefreshAddresses_ready w' r1 Hr1) as Hr2.
    destruct (ReplicaAddress_ready _ Hr2) as (Hr3 & Hb3 & Hp3).
    destruct (ReplicaAddress (RefreshAddresses w' r1)) as [[| |a|] r3] eqn:Hra3; cbn [fst snd] in *;
      [done| | |done].
    + exists None, (MkH r3 (requests (h_dials h))), (1 + (n2 + 1))%nat, []. split; [done|].
      cbn [dialed res]. rewrite app_nil_r. split; [done|].
      rewrite (answered_app _ _ _ _ _ _ _ _ H1), (answered_app _ _ _ _ _ _ _ _ H2).
      step_in. cbn. rewrite Hrep, Hra3. cbn. by rewrite moved_moved.
    + pose proof (Hpick true _ _ _ _ (eq_refl : h_phase (moved h (PickingReplica addr l true) []) = _) Hra3) as H3.
      rewrite moved_moved in H3.
      destruct (run_route_dial (1 + (n2 + 1)) r r3 h addr l a) as (n & Hrun).
      { by rewrite (answered_app _ _ _ _ _ _ _ _ H1), (answered_app _ _ _ _ _ _ _ _ H2). }
      rewrite dialRedis_request. cbn [dialed res].
      destruct (network _ (request p a)); do 2 eexists; exists n, [(a, LReplica)];
        (split; [done|]); (split; [cbn; by rewrite requests_app|done]).
  - destruct (run_route_dial 1 r r1 h addr l a) as (n & Hrun); [by apply (Hpick false)|].
    rewrite dialRedis_request. cbn [dialed res].
    destruct (network _ (request p a)); do 2 eexists; exists n, [(a, LReplica)];
      (split; [done|]); (split; [cbn; by rewrite requests_app|done]).
Qed.

(** *** The whole goroutine *)

(** Where the end of a handler of [Proxy] leaves the handler of the system. *)
Definition end_of (out : handler_end) (h : handler) (new : list (string * label)) : halted :=
  match out with
  | Piped _ _ addr l => Still (moved h (Serving addr l None) new)
  | Routed _ addr rep => Still (moved h (Serving addr LMaster rep) new)
  | _ => Gone new
  end.

Definition proper_end (out : handler_end) : Prop := out <> HandlerBlocked /\ out <> HandlerPanic.

(** From the handshake to a connected backend. *)
Lemma run_new e routed r c h1 :
  completeClientHandshake i = true -> resolver_ready r ->
  (e = EReplica -> hasReplicaResolver p = true) ->
  connectBackend p network w (pick_of e) (MkH r []) = (c, h1) ->
  resolver_ready (res h1) /\ c <> CBlocked /\ c <> CPanic /\
  exists n new, dialed h1 = requests new /\
    answered n r false (new_handler (e, routed)) =
    Some (res h1, false, after_connect c (new_handler (e, routed)) new).
Proof.
  intros Hi Hr Hrep Hc. pose proof (pick_of_ok e Hrep) as Hok.
  pose proof (connectBackend_spec resolver_ready p network w _ (MkH r []) c h1 Hok Hr Hc)
    as (Hr1 & ds & _ & _ & _ & Hcc).
  split; [done|]. split; [by destruct c|]. split; [by destruct c|].
  destruct (run_connect r (moved (new_handler (e, routed)) (Picking false) []) c h1)
    as (n & new & Hd & Hrun); [done|done|done|exact Hc|].
  exists (S n), new. split; [done|]. cbn. rewrite Hi. cbn. rewrite Hrun. by destruct c.
Qed.

Lemma run_failed_handshake x r :
  completeClientHandshake i = false -> answered 1 r false (new_handler x) = Some (r, false, Gone []).
Proof. intros Hi. cbn. by rewrite Hi. Qed.

Lemma run_proxy e r out h' :
  resolver_ready r -> (e = EReplica -> hasReplicaResolver p = true) ->
  proxy p network w (pick_of e) i (MkH r []) = (out, h') ->
  proper_end out /\ exists n new, dialed h' = requests new /\
    answered n r false (new_handler (e, false)) = Some (res h', false, end_of out (new_handler (e, false)) new).
Proof.
  intros Hr Hrep. unfold proxy. destruct (completeClientHandshake i) eqn:Hi; cbn [negb].
  2: { intros [= <- <-]. split; [done|]. exists 1%nat, []. split; [done|]. by apply run_failed_handshake. }
  destruct (connectBackend p network w (pick_of e) (MkH r [])) as [c h1] eqn:Hc.
  destruct (run_new e false r c h1 Hi Hr Hrep Hc) as (_ & Hb & Hp & n & new & Hd & Hrun).
  destruct c; [done|done|..]; intros [= <- <-]; (split; [done|]); by exists n, new.
Qed.

Lemma connect_master_label r remote addr l h1 :
  connectBackend p network w pickMaster (MkH r []) = (Connected remote addr l, h1) -> l = LMaster.
Proof.
  intros (h2 & Hc)%connectBackend_Connected. revert Hc. unfold pickAndDial, pickMaster.
  destruct (masterAddress (res h2)); [|done].
  destruct (dialRedis _ _ _ _) as [[conn|] ?]; by intros [=].
Qed.

Lemma run_routedProxy `{UnicodeUpper} r out h' :
  resolver_ready r -> hasReplicaResolver p = true -> routedProxy p network w w' i (MkH r []) = (out, h') ->
  proper_end out /\ exists n new, dialed h' = requests new /\
    answered n r false (new_handler (EMaster, true)) =
    Some (res h', false, end_of out (new_handler (EMaster, true)) new).
Proof.
  intros Hr Hrep. unfold routedProxy. destruct (completeClientHandshake i) eqn:Hi; cbn [negb].
  2: { intros [= <- <-]. split; [done|]. exists 1%nat, []. split; [done|]. by apply run_failed_handshake. }
  destruct (connectBackend p network w pickMaster (MkH r [])) as [c h1] eqn:Hc.
  destruct (run_new EMaster true r c h1 Hi Hr) as (Hr1 & Hb & Hp & n & new & Hd & Hrun); [done|exact Hc|].
  destruct c as [| | |addr l|remote addr l]; [done|done|..].
  1,2: intros [= <- <-]; (split; [done|]); by exists n, new.
  pose proof (connect_master_label _ _ _ _ _ Hc) as ->. cbn [after_connect] in Hrun.
  set (h2 := moved _ _ new) in Hrun.
  destruct (run_route (res h1) h2 addr LMaster eq_refl Hr1 Hrep)
    as (rep & h3 & n2 & new2 & Hdial & Hd2 & Hrun2).
  destruct h1 as [r1 ds1]. cbn [res dialed] in *. change (h_dials h2) with new in *.
  rewrite <- Hd in Hdial. rewrite Hdial. intros [= <- <-].
  split; [done|]. exists (n + n2)%nat, (new ++ new2). split; [done|].
  rewrite (answered_app _ _ _ _ _ _ _ _ Hrun), Hrun2. unfold h2. by rewrite moved_moved.
Qed.
End Sequential.

(** The goroutine [runListenLoop] starts for a client. *)
Definition session `{UnicodeUpper} (p : RedisSentinelProxy) (network : list dial_req -> dial_req -> option netconn)
    (e : endpoint) (routed : bool) (w w' : World) (i : incoming) (h : hstate RedisMasterResolver)
  : handler_end * hstate RedisMasterResolver :=
  if routed then routedProxy p network w w' i h else proxy p network w (pick_of p e) i h.

(** C10: The sequential handlers are the runs of the system in which one
    goroutine runs alone.  Take the goroutine of a new client, of an endpoint
    the proxy has, and let it run without interruption, each step with the
    answer the sequential handler gets: the client's handshake, what the network
    says to that dial after the same dials, the worlds of the refreshes
    ([run_alone] under [reply_to]).  After at most nineteen steps it ends as
    [proxy] or [routedProxy] does: with the same resolver, the lock free, the
    same dials in the same order, and the client gone exactly where they reject
    it or its handshake fails, else served by the backends they connect it
    to. *)
Theorem alone_is_sequential `{UnicodeUpper} (resolve : string -> option TCPAddr) (cfg : Config)
    (p : RedisSentinelProxy) (network : list dial_req -> dial_req -> option netconn) (y : system) (k : nat)
    (e : endpoint) (routed : bool) (w w' : World) (i : incoming) (out : handler_end)
    (h' : hstate RedisMasterResolver) :
  NewRedisSentinelProxy resolve cfg = Ok p ->
  (forall ds q, d_addr q = ""%string -> network ds q = None) ->
  (e = EReplica -> is_Some (replicaAddr p)) -> (routed = true -> e = EMaster /\ router p = true) ->
  y_handlers y !! k = Some (new_handler (e, routed)) ->
  y_locked y = false -> resolver_ready (y_res y) ->
  session p network e routed w w' i (MkH (y_res y) []) = (out, h') ->
  exists y' ds, run_alone p network w w' i 19 k y = Some (y', ds) /\
    (exists ins, system_run p (Handler k <$> ins) y = Some y') /\
    y_res y' = res h' /\ y_locked y' = false /\ dialed h' = requests p ds /\
    match out with
    | HandshakeFailed _ | Rejected _ => y_handlers y' = delete k (y_handlers y)
    | Piped _ _ addr l =>
        y_handlers y' = <[k := MkHandler e routed (Serving addr l None) ds]> (y_handlers y)
    | Routed _ addr rep =>
        y_handlers y' = <[k := MkHandler e routed (Serving addr LMaster rep) ds]> (y_handlers y)
    | _ => False
    end.
Proof.
  intros Hnew Hemp Hend Hro Hk Hlk Hr Hses.
  destruct (New_well_made _ _ _ Hnew) as [Hmade Href].
  assert (proper_end out /\ exists n new, dialed h' = requests p new /\
    answered p network w w' i n (y_res y) false (new_handler (e, routed)) =
    Some (res h', false, end_of out (new_handler (e, routed)) new)) as ([Hb Hp] & n & new & Hd & Hrun).
  { revert Hses. unfold session. destruct routed.
    - destruct (Hro eq_refl) as [-> Hrt]. apply run_routedProxy; [done|done|done|]. apply Hmade. by right.
    - apply run_proxy; [done|done|done|]. intros He. apply Hmade. left. auto. }
  rewrite <- Hlk in Hrun at 1.
  destruct (answered_run _ _ _ _ _ n 19 k y _ _ _ _ Hk Hrun) as (ins & y' & ds & H1 & H2 & H3 & H4 & Hh);
    [by destruct out|cbn; lia|].
  exists y', ds. split; [done|]. split; [by exists ins|]. split; [done|]. split; [done|].
  destruct out; cbn in Hh; destruct Hh as [-> Hh]; done.
Qed.

(** ** The update loop among the others

    The course of the loop depends on its own inputs only: on what sentinel and
    the nodes answer its updates, not on the state the other goroutines leave. *)

(** [updater_step] without the resolver. *)
Definition control (s : Settings) (i : uinput) (u : updater) : option updater :=
  let budget := retryOnMasterResolveFail s in
  match u, i with
  | UInitial n, UWorld w =>
      match outcome w s with
      | None => Some (UInitialReplicas w)
      | Some e =>
          if errSentinelNotReady e then Some (UInitialWait n e)
          else if budget <? n + 1 then Some (UInitialDone (Some e)) else Some (UInitialWait (n + 1) e)
      end
  | UInitialReplicas _, UNone => Some (UInitialDone None)
  | UInitialWait n _, UElapsed => Some (UInitial n)
  | UInitialWait _ e, UDone => Some (UInitialDone (Some e))
  | UInitialDone None, UNone => Some (UTick 0 None)
  | UInitialDone (Some e), UNone => Some (UReturned (Some e))
  | UTick n err, _ =>
      if negb (n <=? budget) then match i with UNone => Some (UReturned err) | _ => None end
      else
        match i with
        | UDone => Some (UReturned None)
        | UWorld w =>
            match outcome w s with
            | None => Some (UReplicas w)
            | Some e => Some (UWait (if errSentinelNotReady e then n else n + 1) e)
            end
        | _ => None
        end
  | UReplicas _, UNone => Some (UTick 0 None)
  | UWait n e, UElapsed => Some (UTick n (Some e))
  | UWait _ _, UDone => Some (UReturned None)
  | _, _ => None
  end.

Lemma updater_step_control i r u : snd <$> updater_step i r u = control (settings r) i u.
Proof.
  assert (forall w, match publishMaster w r with (o, r1) => o = outcome w (settings r) /\ settings r1 = settings r end) as Hm.
  { intros w. rewrite <- publishMaster_outcome. destruct (publishMaster_same_control w r) as (Hs & _).
    by destruct (publishMaster w r). }
  unfold updater_step, control.
  destruct u as [n|w|n e|[e|]|n err|w|n e|err], i as [|w'| |]; try done.
  all: try (specialize (Hm w'); destruct (publishMaster w' r) as [[e'|] r1]; destruct Hm as [<- Hs]; rewrite ?Hs).
  all: repeat case_match; done.
Qed.

Fixpoint control_run (s : Settings) (us : list uinput) (u : updater) : option updater :=
  match us with
  | [] => Some u
  | i :: us => u ← control s i u; control_run s us u
  end.

(** The inputs of the loop in a run of the system. *)
Definition updater_inputs (ms : list move) : list uinput :=
  omap (fun m => match m with Updater i => Some i | _ => None end) ms.

Lemma system_run_control p r0 ms y y' :
  published [] r0 -> u64 (replicaIdx r0) -> well_made p -> system_inv p r0 y ->
  system_run p ms y = Some y' ->
  control_run (settings r0) (updater_inputs ms) (y_updater y) = Some (y_updater y').
Proof.
  intros Hn Hu Hm. revert y. induction ms as [|m ms IH]; intros y Hy; cbn [system_run]; [by intros [= ->]|].
  destruct (system_step p m y) as [y1|] eqn:Hst; [|done]. cbn [mbind option_bind]. intros Hrun.
  assert (system_inv p r0 y1) as Hy1.
  { apply (system_run_inv _ _ Hn Hu Hm [m] y); [done|]. cbn. by rewrite Hst. }
  specialize (IH y1 Hy1 Hrun). destruct m as [ev|k i|i]; cbn [updater_inputs omap list_omap] in *.
  - revert Hst. cbn. unfold listener_step. by destruct ev; intros [= <-].
  - revert Hst. cbn. destruct (y_handlers y !! k) as [h|]; [|done]. cbn.
    destruct (handler_step p i (y_res y) (y_locked y) h) as [f|]; [|done]. cbn.
    destruct (f_next f); by intros [= <-].
  - destruct (reach_published _ _ _ (inv_reach _ _ _ Hy) Hn Hu) as (_ & _ & Hs).
    pose proof (updater_step_control i (y_res y) (y_updater y)) as Hc. rewrite Hs in Hc.
    revert Hst. cbn. destruct (updater_step i (y_res y) (y_updater y)) as [[r1 u1]|]; [|done]. cbn.
    cbn in Hc. rewrite <- Hc. by intros [= <-].
Qed.

(** *** The loop alone *)

Fixpoint updater_run (us : list uinput) (r : RedisMasterResolver) (u : updater)
  : option (RedisMasterResolver * updater) :=
  match us with
  | [] => Some (r, u)
  | i :: us => '(r, u) ← updater_step i r u; updater_run us r u
  end.

Lemma updater_run_app us1 us2 r u r1 u1 :
  updater_run us1 r u = Some (r1, u1) -> updater_run (us1 ++ us2) r u = updater_run us2 r1 u1.
Proof.
  revert r u. induction us1 as [|i us1 IH]; intros r u; cbn; [by intros [= -> ->]|].
  destruct (updater_step i r u) as [[r2 u2]|]; [|done]. apply IH.
Qed.

Lemma updater_run_system p us y r u :
  updater_run us (y_res y) (y_updater y) = Some (r, u) ->
  exists y', system_run p (Updater <$> us) y = Some y' /\ y_res y' = r /\ y_updater y' = u.
Proof.
  revert y. induction us as [|i us IH]; intros y; cbn.
  { intros [= <- <-]. by exists y. }
  destruct (updater_step i (y_res y) (y_updater y)) as [[r1 u1]|]; [|done]. cbn. intros Hrun.
  match goal with |- context [system_run p _ ?y1] => by apply (IH y1) end.
Qed.

(** The worlds of the loop's updates, in order. *)
Definition uworlds (us : list uinput) : list World :=
  omap (fun i => match i with UWorld w => Some w | _ => None end) us.

Lemma uworlds_app us1 us2 : uworlds (us1 ++ us2) = uworlds us1 ++ uworlds us2.
Proof. apply omap_app. Qed.

Lemma one_world {A} (x : A) l : [x] `prefix_of` x :: l.
Proof. apply prefix_cons, prefix_nil. Qed.

Lemma run_initial its n err waits r err' waits' r' :
  initial_loop its n err waits r = (Returned err', waits', r') ->
  exists us, uworlds us `prefix_of` world <$> its /\
    updater_run us r (UInitial n) = Some (r', UInitialDone err').
Proof.
  revert n err waits r. induction its as [|it its IH]; intros n err waits r; cbn; [done|].
  unfold updateMasterAddress. pose proof (publishMaster_same_control (world it) r) as (Hs & _).
  destruct (publishMaster (world it) r) as [[e|] r1] eqn:Hm; cbn [snd] in Hs.
  2: { intros [= <- <- <-]. exists [UWorld (world it); UNone].
    split; [apply one_world|]. cbn. by rewrite Hm. }
  assert (forall n', (errSentinelNotReady e = true /\ n' = n \/
      errSentinelNotReady e = false /\ n' = n + 1 /\ (retryOnMasterResolveFail (settings r1) <? n + 1) = false) ->
    updater_run [UWorld (world it)] r (UInitial n) = Some (r1, UInitialWait n' e)) as Hwait.
  { intros n' Hn'. cbn. rewrite Hm. destruct Hn' as [[-> ->]|(-> & -> & Hb)]; [done|]. by rewrite Hb. }
  assert (forall n' ws, updater_run [UWorld (world it)] r (UInitial n) = Some (r1, UInitialWait n' e) ->
    (if wait_done it then (Returned (Some e), ws, r1) else initial_loop its n' (Some e) ws r1)
      = (Returned err', waits', r') ->
    exists us, uworlds us `prefix_of` world it :: (world <$> its) /\
      updater_run us r (UInitial n) = Some (r', UInitialDone err')) as Hnext.
  { intros n' ws H1. destruct (wait_done it).
    - intros [= <- <- <-]. exists ([UWorld (world it)] ++ [UDone]).
      split; [apply one_world|]. by rewrite (updater_run_app _ _ _ _ _ _ H1).
    - intros (us & Hpre & Hus)%IH. exists ([UWorld (world it)] ++ UElapsed :: us).
      split; [by apply prefix_cons|]. by rewrite (updater_run_app _ _ _ _ _ _ H1). }
  destruct (errSentinelNotReady e) eqn:He; [apply Hnext, Hwait; auto|].
  destruct (retryOnMasterResolveFail (settings r1) <? n + 1) eqn:Hb; [|apply Hnext, Hwait; auto].
  intros [= <- <- <-]. exists [UWorld (world it)].
  split; [apply one_world|]. cbn. by rewrite Hm, He, Hb.
Qed.

Lemma run_update its n err waits r err' waits' r' :
  update_loop its n err waits r = (Returned err', waits', r') ->
  exists us, uworlds us `prefix_of` world <$> its /\
    updater_run us r (UTick n err) = Some (close_sentinel r', UReturned err').
Proof.
  revert n err waits r. induction its as [|it its IH]; intros n err waits r; cbn [update_loop];
    destruct (negb (n <=? _)) eqn:Hb; try done.
  1,2: intros [= <- <- <-]; exists [UNone]; (split; [apply prefix_nil|]); cbn; by rewrite Hb.
  destruct (tick_done it).
  { intros [= <- <- <-]. exists [UDone]. split; [apply prefix_nil|]. cbn. by rewrite Hb. }
  unfold updateMasterAddress. destruct (publishMaster (world it) r) as [[e|] r1] eqn:Hm.
  - set (n' := if errSentinelNotReady e then n else n + 1).
    assert (updater_run [UWorld (world it)] r (UTick n err) = Some (r1, UWait n' e)) as H1.
    { cbn. by rewrite Hb, Hm. }
    assert (forall ws, (if wait_done it then (Returned None, ws, r1) else update_loop its n' (Some e) ws r1)
        = (Returned err', waits', r') ->
      exists us, uworlds us `prefix_of` world it :: (world <$> its) /\
        updater_run us r (UTick n err) = Some (close_sentinel r', UReturned err')) as Hnext.
    { intros ws. destruct (wait_done it).
      - intros [= <- <- <-]. exists ([UWorld (world it)] ++ [UDone]).
      split; [apply one_world|]. by rewrite (updater_run_app _ _ _ _ _ _ H1).
      - intros (us & Hpre & Hus)%IH. exists ([UWorld (world it)] ++ UElapsed :: us).
        split; [by apply prefix_cons|]. by rewrite (updater_run_app _ _ _ _ _ _ H1). }
    unfold n' in Hnext. destruct (errSentinelNotReady e); apply Hnext.
  - intros (us & Hpre & Hus)%IH. exists (UWorld (world it) :: UNone :: us).
    split; [by apply prefix_cons|]. cbn. by rewrite Hb, Hm.
Qed.

Lemma run_loop initial its r err waits r' :
  UpdateMasterAddressLoop initial its r = (Returned err, waits, r') ->
  exists us, (exists l1 l2, uworlds us = l1 ++ l2 /\
      l1 `prefix_of` world <$> initial /\ l2 `prefix_of` world <$> its) /\
    updater_run us r (UInitial 0) = Some (r', UReturned err).
Proof.
  unfold UpdateMasterAddressLoop, initialMasterAddressResolve.
  destruct (initial_loop initial 0 None [] r) as [[[n e|e] ws] r1] eqn:Hi; [done|].
  apply run_initial in Hi as (us1 & Hp1 & H1). destruct e as [e|].
  - intros [= <- <- <-]. exists (us1 ++ [UNone]). rewrite (updater_run_app _ _ _ _ _ _ H1). split; [|done].
    exists (uworlds us1), []. split; [by rewrite uworlds_app|]. split; [done|apply prefix_nil].
  - destruct (update_loop its 0 None ws (close_initial r1)) as [[[n e|e] ws2] r2] eqn:Hl; [done|].
    intros [= <- <- <-]. apply run_update in Hl as (us2 & Hp2 & H2). exists (us1 ++ UNone :: us2).
    rewrite (updater_run_app _ _ _ _ _ _ H1). split; [|done].
    exists (uworlds us1), (uworlds us2). split; [by rewrite uworlds_app|done].
Qed.

(** C14: The update loop behaves among the other goroutines as it does alone:
    whenever [UpdateMasterAddressLoop] returns a result for some answers of
    sentinel, the nodes and the clock, the loop of the system returns the same
    result on these answers in every interleaving with clients and refreshes;
    and run without them it leaves the same resolver.  So refreshes made for
    clients never use up the retry budget, and never save it. *)
Theorem loop_undisturbed (resolve : string -> option TCPAddr) (listen : TCPAddr -> bool) (cfg : Config)
    (pr : process) (initial its : list Iteration) (err : option resolve_err) (waits : list Z)
    (r' : RedisMasterResolver) :
  runProxying resolve listen cfg = Up pr ->
  UpdateMasterAddressLoop initial its (pr_resolver pr) = (Returned err, waits, r') ->
  let y0 := started (pr_resolver pr) (pr_server pr) in
  exists us,
    (exists l1 l2, uworlds us = l1 ++ l2 /\
       l1 `prefix_of` world <$> initial /\ l2 `prefix_of` world <$> its) /\
    (exists y, system_run (pr_proxy pr) (Updater <$> us) y0 = Some y /\
       y_res y = r' /\ y_updater y = UReturned err) /\
    forall ms y, system_run (pr_proxy pr) ms y0 = Some y -> updater_inputs ms = us ->
      y_updater y = UReturned err.
Proof.
  intros Hup (us & Hw & Hus)%run_loop y0. exists us. split; [done|].
  destruct (updater_run_system (pr_proxy pr) us y0 r' (UReturned err) Hus) as (y & Hy & Hr & Hu).
  split; [by exists y|].
  assert (runs cfg pr y0) as Hruns by (split; [by exists resolve, listen|by exists []]).
  destruct (runs_new _ _ _ Hruns) as (Hn & Hi & Hm). apply runs_inv in Hruns.
  assert (updater_inputs (Updater <$> us) = us) as Hin.
  { clear. induction us as [|i us IH]; [done|]. cbn. by f_equal. }
  apply (system_run_control _ _ _ _ _ Hn Hi Hm Hruns) in Hy. rewrite Hin, Hu in Hy.
  intros ms y' Hms Heq. apply (system_run_control _ _ _ _ _ Hn Hi Hm Hruns) in Hms. congruence.
Qed.

(** ** Witnesses *)

Section SystemRunsWitnesses.
Import ResolverDemo SystemDemo.

Definition answers (ph : phase) : input :=
  match ph with
  | Handshaking => IHandshake true
  | Dialing _ _ _ | DialingReplica _ _ _ => IDial true
  | Refreshing (RLock | RMaster _) _ => IWorld (up (9 * Second))
  | _ => INone
  end.

Lemma client_served_or_rejected_witness :
  exists k' ms y', system_run (pr_proxy pr) ms y = Some y' /\ (length ms <= 20)%nat /\
    Forall (fun m => own_move answers 2 m \/ own_move answers k' m) ms /\
    ((exists h', y_handlers y' = delete 2%nat (<[k' := h']> (y_handlers y))) \/
     exists h', y_handlers y' !! 2%nat = Some h' /\ is_serving (h_phase h') = true).
Proof.
  apply (client_served_or_rejected cfg pr y 2 (handler_at 2) answers).
  - apply after_runs. vm_compute. reflexivity.
  - vm_compute. reflexivity.
  - apply at_handler. vm_compute. reflexivity.
  - intros [| | | |[| | |w] c| | | |] Hph; try reflexivity. by destruct Hph.
Defined.

(** A client whose first dial fails: the published master is gone. *)
Definition before_failover : system :=
  MkSystem demo0 [new_handler (EMaster, false)] ProxyDemo.stale false (UTick 0 None) [] [].

Lemma alone_is_sequential_witness :
  exists y' ds, run_alone ProxyDemo.prx ProxyDemo.network (up (5 * Second)) (up 0) ProxyDemo.client_conn 19 0
      before_failover = Some (y', ds) /\
    h_phase <$> y_handlers y' = [Serving "10.0.0.1:6379" LMaster None].
Proof.
  set (x := @session ProxyDemo.upper_id ProxyDemo.prx ProxyDemo.network EMaster false (up (5 * Second)) (up 0)
    ProxyDemo.client_conn (MkH ProxyDemo.stale [])).
  assert (match fst x with Piped _ _ addr l => (addr, l) | _ => ("", LReplica)%string end
    = ("10.0.0.1:6379", LMaster)%string) as Hx by (vm_compute; reflexivity).
  destruct (@alone_is_sequential ProxyDemo.upper_id ProxyDemo.listen_addr ProxyDemo.cfg
    ProxyDemo.prx ProxyDemo.network before_failover 0 EMaster false
    (up (5 * Second)) (up 0) ProxyDemo.client_conn (fst x) (snd x)) as (y' & ds & Hrun & _ & _ & _ & _ & Hend).
  - vm_compute. reflexivity.
  - intros ds q Hq. unfold ProxyDemo.network. rewrite Hq. reflexivity.
  - discriminate.
  - discriminate.
  - reflexivity.
  - reflexivity.
  - exact stale_ready.
  - exact (surjective_pairing x).
  - exists y', ds. split; [exact Hrun|]. destruct (fst x); try discriminate Hx.
    injection Hx as -> ->. rewrite Hend. reflexivity.
Defined.

(** One success, then the budget of three is exceeded. *)
Lemma loop_undisturbed_witness :
  exists us, forall ms y', system_run (pr_proxy pr) ms (started (pr_resolver pr) (pr_server pr)) = Some y' ->
    updater_inputs ms = us -> y_updater y' = UReturned (Some SentinelQuery).
Proof.
  set (its := run_in <$> replicate 5 down).
  assert (fst (fst (UpdateMasterAddressLoop [run_in (up 0)] its (pr_resolver pr)))
    = Returned (Some SentinelQuery)) as E by (vm_compute; reflexivity).
  destruct (UpdateMasterAddressLoop [run_in (up 0)] its (pr_resolver pr)) as [[st waits] r'] eqn:El.
  cbn in E. subst st.
  destruct (loop_undisturbed ProxyDemo.listen_addr (fun _ => true) cfg pr [run_in (up 0)] its
    (Some SentinelQuery) waits r' pr_Up El) as (us & _ & _ & H).
  exists us. exact H.
Defined.
End SystemRunsWitnesses.
